(** * REMI+ data processing: chord recognition, quantisation, encoder, decoder

    A shallow embedding of [chord_recognition.py], [utils.py], [midi2remi.py]
    and [remi2midi.py], with the properties of the specification proved (or
    refuted) on it.

    Conventions.
    - Python [int] is [Z]; list positions are [nat] once a bound is known.
    - A Python exception is a value [Raise e] of [result]; everything that can
      raise lives in the [result] monad.
    - A [dict] is an insertion-ordered association list ([dict_set] updates in
      place, otherwise appends), because the code iterates over dicts and the
      order decides ties.
    - Floating point numbers that only carry integral or dyadic values are
      exact rationals or integers here; the grid of [quantize_items] is
      computed in doubles ([Binary64.fl]); the decoder's clock is kept
      abstract. *)

From Stdlib Require Import ZArith QArith Qround Qabs Qpower Lqa Lia Bool Ascii String
  DecimalString.
From stdpp Require Import base tactics option list strings gmap.

Local Open Scope Z_scope.

(** ** Python runtime *)

Module Py.

Inductive exn : Set :=
  | ValueError | IndexError | KeyError | TypeError | UnboundLocalError
  | ZeroDivisionError.

Inductive result (A : Type) : Type :=
  | Ok (a : A)
  | Raise (e : exn).
Global Arguments Ok {A} a.
Global Arguments Raise {A} e.

Definition bind {A B} (m : result A) (k : A -> result B) : result B :=
  match m with
  | Ok a => k a
  | Raise e => Raise e
  end.

Definition of_option {A} (e : exn) (o : option A) : result A :=
  match o with
  | Some a => Ok a
  | None => Raise e
  end.

Definition is_ok {A} (m : result A) : bool :=
  match m with Ok _ => true | Raise _ => false end.

(** [l[i]] for a list or a one-dimensional array: a negative index counts
    from the end, anything outside [-len, len) raises [IndexError]. *)
Definition norm_index (len : nat) (i : Z) : option nat :=
  if (0 <=? i) && (i <? Z.of_nat len) then Some (Z.to_nat i)
  else if (- Z.of_nat len <=? i) && (i <? 0) then Some (Z.to_nat (Z.of_nat len + i))
  else None.

Definition index {A} (l : list A) (i : Z) : result A :=
  match norm_index (length l) i with
  | Some n => of_option IndexError (l !! n)
  | None => Raise IndexError
  end.

(** [l[i] = x] *)
Definition set_index {A} (l : list A) (i : Z) (x : A) : result (list A) :=
  match norm_index (length l) i with
  | Some n => Ok (<[n := x]> l)
  | None => Raise IndexError
  end.

(** [l[a:b]] for [a], [b] of any sign. *)
Definition clamp_index (len : nat) (i : Z) : nat :=
  if i <? 0 then Z.to_nat (Z.max 0 (Z.of_nat len + i))
  else Z.to_nat (Z.min i (Z.of_nat len)).

Definition slice {A} (l : list A) (a b : Z) : list A :=
  let a' := clamp_index (length l) a in
  let b' := clamp_index (length l) b in
  take (b' - a') (drop a' l).

(** [x in l] for a list of integers *)
Definition mem (x : Z) (l : list Z) : bool := existsb (Z.eqb x) l.

(** Insertion-ordered dictionaries. *)
Definition dict (K V : Type) : Type := list (K * V).

Section Dict.
Context {K V : Type} (eqb : K -> K -> bool).

Fixpoint dict_get (d : dict K V) (k : K) : option V :=
  match d with
  | [] => None
  | (k', v) :: d' => if eqb k k' then Some v else dict_get d' k
  end.

Fixpoint dict_set (d : dict K V) (k : K) (v : V) : dict K V :=
  match d with
  | [] => [(k, v)]
  | (k', v') :: d' =>
      if eqb k k' then (k', v) :: d' else (k', v') :: dict_set d' k v
  end.

Definition dict_has (d : dict K V) (k : K) : bool :=
  match dict_get d k with Some _ => true | None => false end.
End Dict.

(** [max(l)] of a non-empty list of integers *)
Definition max_list (l : list Z) : result Z :=
  match l with
  | [] => Raise ValueError
  | x :: l' => Ok (fold_left Z.max l' x)
  end.

End Py.

Import Py.

#[global] Instance result_bind : MBind result := fun A B k m => Py.bind m k.
#[global] Instance result_ret : MRet result := fun A a => Ok a.
#[global] Instance result_fmap : FMap result := fun A B f m =>
  match m with Ok a => Ok (f a) | Raise e => Raise e end.

(** ** [constants.py] *)

Module Const.

Definition DEFAULT_POS_PER_QUARTER : Z := 12.

(** [np.linspace(lo, hi, num, dtype=int)]: [num] evenly spaced values from
    [lo] to [hi] inclusive, truncated. *)
Definition linspace_int (lo hi : Z) (num : nat) : list Z :=
  map (fun k => lo + Z.of_nat k * (hi - lo) / (Z.of_nat num - 1)) (seq 0 num).

(** [np.arange(lo, hi, step)] on integers, [step > 0] *)
Definition arange (lo hi step : Z) : list Z :=
  map (fun k => lo + Z.of_nat k * step)
      (seq 0 (Z.to_nat ((hi - lo + step - 1) / step))).

Fixpoint insert_sorted (x : Z) (l : list Z) : list Z :=
  match l with
  | [] => [x]
  | y :: l' => if x <? y then x :: l else y :: insert_sorted x l'
  end.

(** [np.sort] *)
Definition np_sort (l : list Z) : list Z := fold_right insert_sorted [] l.

Definition DEFAULT_VELOCITY_BINS : list Z := linspace_int 0 128 33.

Definition DEFAULT_DURATION_BINS : list Z :=
  np_sort (arange 1 13 1
           ++ tail (arange 12 24 3)
           ++ tail (arange 13 24 4)
           ++ arange 24 48 6
           ++ arange 48 (4 * 48) 12
           ++ arange (4 * 48) (16 * 48 + 1) 24).

Definition DEFAULT_TEMPO_BINS : list Z := linspace_int 0 240 33.

Definition DEFAULT_RESOLUTION : Z := 480.

Definition EOS_TOKEN : string := "<eos>".

Definition TIME_SIGNATURE_KEY : string := "Time Signature".
Definition BAR_KEY : string := "Bar".
Definition POSITION_KEY : string := "Position".
Definition INSTRUMENT_KEY : string := "Instrument".
Definition PITCH_KEY : string := "Pitch".
Definition VELOCITY_KEY : string := "Velocity".
Definition DURATION_KEY : string := "Duration".
Definition TEMPO_KEY : string := "Tempo".
Definition CHORD_KEY : string := "Chord".

Inductive Quality : Set :=
  | maj | min | dim | aug | dom7 | maj7 | min7 | QNone.

Definition quality_str (q : Quality) : string :=
  match q with
  | maj => "maj" | min => "min" | dim => "dim" | aug => "aug"
  | dom7 => "dom7" | maj7 => "maj7" | min7 => "min7" | QNone => "None"
  end.

Definition PITCH_CLASSES : list string :=
  ["C"; "C#"; "D"; "D#"; "E"; "F"; "F#"; "G"; "G#"; "A"; "A#"; "B"]%string.

(** The four tables are keyed by the seven real qualities; ['None'] is not a
    key, so [.get] gives [None] there. *)
Definition CHORD_MAPS (q : Quality) : option (list Z) :=
  match q with
  | maj => Some [0; 4]
  | min => Some [0; 3]
  | dim => Some [0; 3; 6]
  | aug => Some [0; 4; 8]
  | dom7 => Some [0; 4; 10]
  | maj7 => Some [0; 4; 11]
  | min7 => Some [0; 3; 10]
  | QNone => None
  end.

Definition CHORD_INSIDERS (q : Quality) : option (list Z) :=
  match q with
  | maj => Some [7]
  | min => Some [7]
  | dim => Some [9]
  | aug => Some []
  | dom7 => Some [7]
  | maj7 => Some [7]
  | min7 => Some [7]
  | QNone => None
  end.

Definition CHORD_OUTSIDERS_1 (q : Quality) : option (list Z) :=
  match q with
  | maj => Some [2; 5; 9]
  | min => Some [2; 5; 8]
  | dim => Some [2; 5; 10]
  | aug => Some [2; 5; 9]
  | dom7 => Some [2; 5; 9]
  | maj7 => Some [2; 5; 9]
  | min7 => Some [2; 5; 8]
  | QNone => None
  end.

Definition CHORD_OUTSIDERS_2 (q : Quality) : option (list Z) :=
  match q with
  | maj => Some [1; 3; 6; 8; 10; 11]
  | min => Some [1; 4; 6; 9; 11]
  | dim => Some [1; 4; 7; 8; 11]
  | aug => Some [1; 3; 6; 7; 10]
  | dom7 => Some [1; 3; 6; 8; 11]
  | maj7 => Some [1; 3; 6; 8; 10]
  | min7 => Some [1; 4; 6; 9; 11]
  | QNone => None
  end.

End Const.

Import Const.

(** Monadic left fold: a [for] loop whose body may raise. *)
Fixpoint foldM {A B : Type} (f : B -> A -> result B) (l : list A) (b : B)
  : result B :=
  match l with
  | [] => Ok b
  | x :: l' => b' ← f b x; foldM f l' b'
  end.

(** [range(n)] *)
Definition range (n : Z) : list Z := map Z.of_nat (seq 0 (Z.to_nat n)).

(** ** [chord_recognition.py] *)

Module ChordRecognition.

(** [np.roll(a, shift)]: the element at [i] moves to [(i + shift) mod len]. *)
Definition np_roll {A} (a : list A) (shift : Z) : list A :=
  match length a with
  | O => a
  | n => let k := Z.to_nat ((- shift) mod Z.of_nat n) in drop k a ++ take k a
  end.

(** [np.where(a == 1)[0]]: the positions holding 1, ascending. *)
Fixpoint where_eq1_from (j : Z) (a : list Z) : list Z :=
  match a with
  | [] => []
  | v :: a' =>
      if v =? 1 then j :: where_eq1_from (j + 1) a'
      else where_eq1_from (j + 1) a'
  end.

Definition np_where_eq1 (a : list Z) : list Z := where_eq1_from 0 a.

Definition sequencing (chroma : list Z) : dict Z (list Z) :=
  fold_left
    (fun candidates index =>
       match chroma !! index with
       | Some c =>
           if c =? 0 then candidates
           else
             let root_note := Z.of_nat index in
             let _chroma := np_roll chroma (- root_note) in
             let sequence := np_where_eq1 _chroma in
             dict_set Z.eqb candidates root_note sequence
       | None => candidates
       end)
    (seq 0 (length chroma)) [].

(** The quality chosen in the [else] branch of [scoring]; [None] when neither
    [if 3 in sequence] nor [elif 4 in sequence] fires. *)
Definition decide_quality (sequence : list Z) : option Quality :=
  if mem 3 sequence then
    Some (if mem 6 sequence then dim
          else if mem 10 sequence then min7
          else min)
  else if mem 4 sequence then
    Some (if mem 8 sequence then aug
          else if mem 10 sequence then dom7
          else if mem 11 sequence then maj7
          else maj)
  else None.

Definition decide_score (quality : Quality) (sequence : list Z) : result Z :=
  maps ← of_option TypeError (CHORD_MAPS quality);
  let _notes := List.filter (fun n => negb (mem n maps)) sequence in
  foldM
    (fun score n =>
       out1 ← of_option TypeError (CHORD_OUTSIDERS_1 quality);
       if mem n out1 then Ok (score - 1)
       else
         out2 ← of_option TypeError (CHORD_OUTSIDERS_2 quality);
         if mem n out2 then Ok (score - 2)
         else
           ins ← of_option TypeError (CHORD_INSIDERS quality);
           if mem n ins then Ok (score + 10) else Ok score)
    _notes 0.

(** One iteration of the loop of [scoring]: the score and the quality stored
    for a root whose interval list is [sequence]. *)
Definition scoring_entry (sequence : list Z) : result (Z * Quality) :=
  if negb (mem 3 sequence) && negb (mem 4 sequence) then Ok (-100, QNone)
  else if mem 3 sequence && mem 4 sequence then Ok (-100, QNone)
  else
    quality ← of_option UnboundLocalError (decide_quality sequence);
    score ← decide_score quality sequence;
    Ok (score, quality).

Definition scoring (candidates : dict Z (list Z))
  : result (dict Z Z * dict Z Quality) :=
  foldM
    (fun '(scores, qualities) '(root_note, sequence) =>
       '(score, quality) ← scoring_entry sequence;
       Ok (dict_set Z.eqb scores root_note score,
           dict_set Z.eqb qualities root_note quality))
    candidates ([], []).

(** A candidate as [find_chord] returns it: root name, quality, bass name,
    score. *)
Definition Cand : Type := string * string * string * Z.

(** [for i, v in enumerate(chroma): if v > 0: sorted_notes.append(i % 12)] *)
Fixpoint active_notes_from (i : Z) (chroma : list Z) : list Z :=
  match chroma with
  | [] => []
  | v :: chroma' =>
      if 0 <? v then (i mod 12) :: active_notes_from (i + 1) chroma'
      else active_notes_from (i + 1) chroma'
  end.

Definition binarize (chroma : list (list Z)) (threshold : Z) : list Z :=
  map (fun c => if threshold <? c then 1 else 0)
      (map (fun row => fold_left Z.add row 0) chroma).

Definition find_chord (chroma : list (list Z)) (threshold : Z) : result Cand :=
  let chroma := binarize chroma threshold in
  if fold_left Z.add chroma 0 =? 0 then Ok ("N", "N", "N", 10)%string
  else
    let candidates := sequencing chroma in
    '(scores, qualities) ← scoring candidates;
    let sorted_notes := active_notes_from 0 chroma in
    bass_note ← index sorted_notes 0;
    _max ← max_list (map snd scores);
    let __root_note :=
      map fst (List.filter (fun '(_, score) => score =? _max) scores) in
    root_note ←
      (if (length __root_note =? 1)%nat then index __root_note 0
       else of_option UnboundLocalError
              (find (fun n => mem n __root_note) sorted_notes));
    quality ← of_option KeyError (dict_get Z.eqb qualities root_note);
    score ← of_option KeyError (dict_get Z.eqb scores root_note);
    root_name ← index PITCH_CLASSES root_note;
    bass_name ← index PITCH_CLASSES bass_note;
    Ok (root_name, quality_str quality, bass_name, score).

(** [chroma[:, start_beat:end_beat]] *)
Definition slice_columns (chroma : list (list Z)) (a b : Z) : list (list Z) :=
  map (fun row => slice row a b) chroma.

Definition get_candidates (chroma : list (list Z)) (max_tick : Z)
    (intervals : list Z) : result (dict Z (dict Z Cand)) :=
  foldM
    (fun candidates interval =>
       foldM
         (fun candidates start_beat =>
            let end_beat := Z.min (start_beat + interval) max_tick in
            let _chroma := slice_columns chroma start_beat end_beat in
            cand ← find_chord _chroma 10;
            let inner := default [] (dict_get Z.eqb candidates start_beat) in
            Ok (dict_set Z.eqb candidates start_beat
                  (dict_set Z.eqb inner end_beat cand)))
         (range max_tick) candidates)
    intervals [].

Definition default_intervals : list Z := [1; 2; 3; 4].

(** A chord segment [(start, end, label)]. *)
Definition Segment : Type := Z * Z * string.

Definition dedupe (chords : list Segment) : list Segment :=
  match chords with
  | [] => []
  | first :: _ =>
      let '(start, end_, chord, deduped) :=
        fold_left
          (fun '(start, end_, chord, deduped) '(curr, next_chord) =>
             let '(next_start, next_end, next_label) := (next_chord : Segment) in
             if String.eqb chord next_label
             then (start, next_end, chord, deduped)
             else (next_start, next_end, next_label,
                   deduped ++ [(start, end_, chord)]))
          (combine (removelast chords) (tail chords))
          (first, ([] : list Segment)) in
      deduped ++ [(start, end_, chord)]
  end.

(** The [scores] array of [dynamic] holds floats: integral sums or [-inf]. *)
Inductive npfloat : Set :=
  | NegInf
  | Fin (z : Z).

Definition float_ltb (a b : npfloat) : bool :=
  match a, b with
  | _, NegInf => false
  | NegInf, Fin _ => true
  | Fin x, Fin y => x <? y
  end.

Definition float_add (a : npfloat) (z : Z) : npfloat :=
  match a with
  | NegInf => NegInf
  | Fin x => Fin (x + z)
  end.

Definition chord_label (root_note quality bass_note : string) : string :=
  if String.eqb root_note bass_note
  then (root_note ++ ":" ++ quality)%string
  else (root_note ++ ":" ++ quality ++ "/" ++ bass_note)%string.

Definition DpState : Type := list (option Segment) * list npfloat.

(** Body of the [for] over the candidates that start at [start_tick]. *)
Definition relax (start_tick : Z) (st : DpState) (item : Z * Cand)
  : result DpState :=
  let '(chords, scores) := st in
  let '(end_tick, (root_note, quality, bass_note, score)) := item in
  s_end ← index scores end_tick;
  s_start ← index scores start_tick;
  if float_ltb s_end (float_add s_start score) then
    scores' ← set_index scores end_tick (float_add s_start score);
    chords' ← set_index chords end_tick
                (Some (start_tick, end_tick,
                       chord_label root_note quality bass_note));
    Ok (chords', scores')
  else Ok (chords, scores).

(** The forward pass: [start_tick] runs over [0 .. max_tick - 1]. *)
Definition forward (candidates : dict Z (dict Z Cand)) (max_tick : Z)
    (st : DpState) : result DpState :=
  foldM
    (fun st start_tick =>
       match dict_get Z.eqb candidates start_tick with
       | Some inner => foldM (relax start_tick) inner st
       | None => Ok st
       end)
    (range max_tick) st.

(** "Read the best path": the [while start_tick > 0] loop.  [None] means the
    fuel ran out. *)
Fixpoint read_path (fuel : nat) (chords : list (option Segment))
    (start_tick : Z) (results : list Segment)
  : option (result (list Segment)) :=
  if 0 <? start_tick then
    match fuel with
    | O => None
    | S fuel' =>
        match index chords start_tick with
        | Raise e => Some (Raise e)
        | Ok None => Some (Raise TypeError)
        | Ok (Some chord) =>
            read_path fuel' chords (chord.1.1) (results ++ [chord])
        end
    end
  else Some (Ok results).

Definition init_state (max_tick : Z) : result DpState :=
  let n := Z.to_nat (max_tick + 1) in
  if max_tick + 1 <? 0 then Raise ValueError
  else Ok (replicate n None,
           match n with O => [] | S n' => Fin 0 :: replicate n' NegInf end).

Definition dynamic (fuel : nat) (candidates : dict Z (dict Z Cand))
    (max_tick : Z) : option (result (list Segment)) :=
  match st0 ← init_state max_tick; forward candidates max_tick st0 with
  | Raise e => Some (Raise e)
  | Ok (chords, _) =>
      match read_path fuel chords (Z.of_nat (length chords) - 1) [] with
      | Some (Ok results) => Some (Ok (reverse results))
      | other => other
      end
  end.

End ChordRecognition.

(** ** [music_obj.py] *)

Module MusicObj.

Inductive ItemName : Set := Note | Chord | Tempo | Pedal.

(** [Item.pitch] is an integer for notes and tempi, a label for chords. *)
Inductive PitchVal : Set :=
  | PitchInt (z : Z)
  | PitchStr (s : string)
  | PitchNone.

(** [Item.instrument] is a program number, the string ['drum'] or [None]. *)
Inductive InstrumentVal : Set :=
  | Drum
  | Program (z : Z)
  | NoInstrument.

Record Item : Set := mkItem {
  name : ItemName;
  start : Z;
  end_ : option Z;
  velocity : option Z;
  pitch : PitchVal;
  instrument : InstrumentVal
}.

(** An [Event] without its [text], which is an annotation nothing reads;
    [evalue] is the value as the final f-string prints it. *)
Record Event : Set := mkEvent {
  ename : string;
  etime : option Z;
  evalue : string
}.

Definition ItemName_eqb (a b : ItemName) : bool :=
  match a, b with
  | Note, Note | Chord, Chord | Tempo, Tempo | Pedal, Pedal => true
  | _, _ => false
  end.

Definition PitchVal_eqb (a b : PitchVal) : bool :=
  match a, b with
  | PitchInt x, PitchInt y => x =? y
  | PitchStr x, PitchStr y => String.eqb x y
  | PitchNone, PitchNone => true
  | _, _ => false
  end.

End MusicObj.

Import MusicObj.

(** [str(z)] *)
Definition str_of_Z (z : Z) : string := NilZero.string_of_int (Z.to_int z).

Definition str_of_pitch (p : PitchVal) : string :=
  match p with
  | PitchInt z => str_of_Z z
  | PitchStr s => s
  | PitchNone => "None"
  end.

(** [np.argmin(abs(bins - x))] on exact values: the first position of the
    least distance. *)
Fixpoint argmin_from (best : nat) (best_d : Q) (i : nat) (ds : list Q) : nat :=
  match ds with
  | [] => best
  | d :: ds' =>
      if Qle_bool best_d d then argmin_from best best_d (S i) ds'
      else argmin_from i d (S i) ds'
  end.

Definition np_argmin (ds : list Q) : result nat :=
  match ds with
  | [] => Raise ValueError
  | d :: ds' => Ok (argmin_from 0 d 1 ds')
  end.

Definition nearest_bin (bins : list Z) (x : Z) : result nat :=
  np_argmin (map (fun b => Qabs (inject_Z b - inject_Z x)) bins).

(** Python's [round(x)]: to the nearest integer, halves to the even one. *)
Definition py_round (x : Q) : Z :=
  let f := Qfloor x in
  match ((x - inject_Z f) ?= (1 # 2))%Q with
  | Lt => f
  | Gt => f + 1
  | Eq => if Z.even f then f else f + 1
  end.

(** [int(x)] of a float: truncation towards zero. *)
Definition py_trunc (x : Q) : Z :=
  if Qle_bool 0 x then Qfloor x else Qceiling x.

(** ** Double precision

    [quantize_items] divides the resolution by 12 and multiplies the quotient
    again, so its floats do not all carry dyadic values and the rounding of
    every operation counts. A finite double is the rational it denotes, and
    [fl] rounds a rational to the nearest double, ties to the even
    significand: what an IEEE 754 operation returns for its exact result, and
    what Python's [int / int] and the conversion of an [int] to a float
    return. The exponent is not bounded above: doubles of magnitude [2^1024]
    and beyond, where the code overflows, are outside the model. *)

Module Binary64.

Definition pow2 (e : Z) : Q := (2 ^ e)%Q.

(** [floor(log2 q)] of a positive rational. *)
Definition ilog2 (q : Q) : Z :=
  let k := Z.log2 (Qnum q) - Z.log2 (Zpos (Qden q)) in
  if Qle_bool (pow2 k) q then k else k - 1.

(** The exponent of the last place of the doubles around [q]: 53 significant
    bits, and [2^-1074] for the subnormal ones. *)
Definition ulp_exp (q : Q) : Z := Z.max (ilog2 (Qabs q) - 52) (-1074).

(** Rounding to the nearest multiple of [2^e], ties to the even multiple. *)
Definition round_at (e : Z) (x : Q) : Q :=
  (inject_Z (py_round (x / pow2 e)) * pow2 e)%Q.

Definition fl (q : Q) : Q :=
  if Qeq_bool q 0 then 0%Q else round_at (ulp_exp q) q.

End Binary64.

(** ** The part of [pretty_midi] the code relies on *)

Record TimeSignature (T : Type) : Type := mkTimeSignature {
  numerator : Z;
  denominator : Z;
  ts_time : T
}.
Arguments mkTimeSignature {T}.
Arguments numerator {T}.
Arguments denominator {T}.
Arguments ts_time {T}.

(** A loaded [PrettyMIDI] object seen through the calls the code makes:
    [get_chroma] is the chroma matrix sampled at [get_beats]. *)
Record PrettyMIDI (T : Type) : Type := mkPrettyMIDI {
  resolution : Z;
  time_to_tick : T -> Z;
  get_end_time : T;
  get_beats : list T;
  get_chroma : list (list Z);
  get_downbeats : list T;
  time_signature_changes : list (TimeSignature T)
}.
Arguments resolution {T}.
Arguments time_to_tick {T}.
Arguments get_end_time {T}.
Arguments get_beats {T}.
Arguments get_chroma {T}.
Arguments get_downbeats {T}.
Arguments time_signature_changes {T}.

(** ** [utils.py] *)

Module Utils.

Section WithTime.
Context {T : Type}.

Definition get_end_tick (midi : PrettyMIDI T) : Z :=
  time_to_tick midi (get_end_time midi).

(** [np.arange(0, stop, step)] for an integer [stop] and a float [step]:
    [ceil(stop / step)] points, the quotient taken in doubles, and
    [0 + i * step], in doubles as well, at position [i]. *)
Definition np_arange (stop : Z) (step : Q) : list Q :=
  map (fun i => Binary64.fl (inject_Z (Z.of_nat i) * step))
      (seq 0 (Z.to_nat
                (Qceiling (Binary64.fl (Binary64.fl (inject_Z stop) / step))))).

(** [np.searchsorted(a, key, side='right')]: bisection that keeps
    [a[:lo] <= key < a[hi:]]. *)
Fixpoint bisect_right (fuel : nat) (a : list Q) (key : Q) (lo hi : nat) : nat :=
  match fuel with
  | O => lo
  | S fuel' =>
      if (lo <? hi)%nat then
        let mid := (lo + (hi - lo) / 2)%nat in
        match a !! mid with
        | Some v =>
            if Qle_bool v key then bisect_right fuel' a key (S mid) hi
            else bisect_right fuel' a key lo mid
        | None => lo
        end
      else lo
  end.

Definition searchsorted_right (a : list Q) (key : Q) : nat :=
  bisect_right (S (length a)) a key 0 (length a).

(** [ticks = midi.resolution / DEFAULT_POS_PER_QUARTER], a float. *)
Definition ticks_of (midi : PrettyMIDI T) : Q :=
  Binary64.fl (inject_Z (resolution midi) / inject_Z DEFAULT_POS_PER_QUARTER).

Definition grids_of (midi : PrettyMIDI T) : list Q :=
  let ticks := ticks_of midi in
  let end_tick := get_end_tick midi in
  np_arange (Z.max (resolution midi) end_tick) ticks.

(** The grid position [quantize_items] picks for a start tick, which
    [np.searchsorted] compares as a double. *)
Definition grid_index (grids : list Q) (start : Z) : nat :=
  let index := searchsorted_right grids (Binary64.fl (inject_Z start)) in
  if (0 <? index)%nat then (index - 1)%nat else index.

Definition quantize_item (grids : list Q) (item : Item) : result Item :=
  let index := grid_index grids (start item) in
  g ← of_option IndexError (grids !! index);
  let shift := py_round g - start item in
  e ← of_option TypeError (end_ item);
  Ok (mkItem (name item) (start item + shift) (Some (e + shift))
        (velocity item) (pitch item) (instrument item)).

Definition quantize_items (midi : PrettyMIDI T) (note_items : list Item)
  : result (list Item) :=
  if resolution midi =? 0 then Raise ZeroDivisionError
  else
    let grids := grids_of midi in
    foldM (fun done item => item' ← quantize_item grids item; Ok (done ++ [item']))
      note_items [].

(** The sort key of [get_key], flattened to integers where that is what the
    code compares; a chord's label is compared last, as a string. *)
Definition type_priority (n : ItemName) : result Z :=
  match n with
  | Chord => Ok 0
  | Tempo => Ok 1
  | Note => Ok 2
  | Pedal => Raise KeyError
  end.

Definition instrument_key (i : InstrumentVal) : option Z :=
  match i with
  | Drum => Some (-1)
  | Program z => Some z
  | NoInstrument => None
  end.

Definition option_Z_leb (a b : option Z) : bool :=
  match a, b with
  | Some x, Some y => x <=? y
  | None, _ => true
  | Some _, None => false
  end.

Definition option_Z_eqb (a b : option Z) : bool :=
  match a, b with
  | Some x, Some y => x =? y
  | None, None => true
  | _, _ => false
  end.

Definition pitch_leb (a b : PitchVal) : bool :=
  match a, b with
  | PitchInt x, PitchInt y => x <=? y
  | PitchStr x, PitchStr y => String.leb x y
  | PitchNone, _ => true
  | _, _ => false
  end.

Definition priority_of (n : ItemName) : Z :=
  match n with Chord => 0 | Tempo => 1 | Note => 2 | Pedal => 3 end.

(** [get_key(a) <= get_key(b)], tuples compared left to right. Items of equal
    start and kind are compared by instrument and then by pitch: for the
    items the pipeline builds (notes with an instrument and an integer pitch,
    chords with a label and tempi with an integer, both without instrument)
    these are values of one type. For other items, where Python raises
    [TypeError], [None] is put first here. *)
Definition key_leb (a b : Item) : bool :=
  if start a <? start b then true
  else if start b <? start a then false
  else if priority_of (name a) <? priority_of (name b) then true
  else if priority_of (name b) <? priority_of (name a) then false
  else if negb (option_Z_eqb (instrument_key (instrument a))
                             (instrument_key (instrument b)))
       then option_Z_leb (instrument_key (instrument a))
                         (instrument_key (instrument b))
  else pitch_leb (pitch a) (pitch b).

Fixpoint insert_by_key (x : Item) (l : list Item) : list Item :=
  match l with
  | [] => [x]
  | y :: l' => if key_leb x y then x :: l else y :: insert_by_key x l'
  end.

(** [items.sort(key=get_key)]: a stable sort. *)
Definition sort_items (items : list Item) : list Item :=
  fold_right insert_by_key [] items.

(** A bar group [[db1] + insiders + [db2]]. *)
Record Group : Set := mkGroup {
  bar_st : Z;
  insiders : list Item;
  bar_et : Z
}.

Definition has_notes (g : Group) : bool :=
  existsb (fun item => ItemName_eqb (name item) Note) (insiders g).

(** [while len(groups) > 0: ... groups.pop(0)] *)
Fixpoint trim_front (groups : list Group) : list Group :=
  match groups with
  | [] => []
  | g :: groups' => if has_notes g then groups else trim_front groups'
  end.

Definition trim_back (groups : list Group) : list Group :=
  reverse (trim_front (reverse groups)).

Definition group_items (midi : PrettyMIDI T)
    (note_items chord_items tempo_items : list Item) : result (list Group) :=
  let items :=
    match chord_items with
    | [] => tempo_items ++ note_items
    | _ => chord_items ++ tempo_items ++ note_items
    end in
  _ ← foldM (fun _ item => type_priority (name item)) items 0;
  let items := sort_items items in
  let downbeats := get_downbeats midi ++ [get_end_time midi] in
  let groups :=
    map (fun '(db1, db2) =>
           let db1 := time_to_tick midi db1 in
           let db2 := time_to_tick midi db2 in
           mkGroup db1
             (List.filter (fun item => (db1 <=? start item) && (start item <? db2))
                     items)
             db2)
        (combine (removelast downbeats) (tail downbeats)) in
  Ok (trim_back (trim_front groups)).

Definition tick_to_position (tick resolution : Z) : result Z :=
  if resolution =? 0 then Raise ZeroDivisionError
  else Ok (py_round (inject_Z tick / inject_Z resolution
                     * inject_Z DEFAULT_POS_PER_QUARTER)%Q).

Definition get_time_signature (midi : PrettyMIDI T) (start : Z)
  : result (TimeSignature T) :=
  let sigs := time_signature_changes midi in
  match
    find (fun '(curr_sig, next_sig) =>
            (time_to_tick midi (ts_time curr_sig) <=? start)
            && (start <? time_to_tick midi (ts_time next_sig)))
         (combine (removelast sigs) (tail sigs))
  with
  | Some (curr_sig, _) => Ok curr_sig
  | None => index sigs (-1)
  end.

Definition quarters_per_bar (time_sig : TimeSignature T) : result Q :=
  if denominator time_sig =? 0 then Raise ZeroDivisionError
  else Ok (inject_Z (4 * numerator time_sig) / inject_Z (denominator time_sig))%Q.

Definition get_positions_per_bar (midi : PrettyMIDI T) (start : Z) : result Z :=
  time_sig ← get_time_signature midi start;
  qpb ← quarters_per_bar time_sig;
  Ok (py_trunc (inject_Z DEFAULT_POS_PER_QUARTER * qpb)%Q).

End WithTime.

End Utils.

(** ** [chord_recognition.py], continued: [extract] and [extract_chords] *)

Module ChordExtraction.

Import ChordRecognition Utils.

Section WithTime.
Context {T : Type}.

(** [s.split(sep)] for a one-character separator. *)
Fixpoint split_from (sep : Ascii.ascii) (cur s : string) : list string :=
  match s with
  | EmptyString => [cur]
  | String c s' =>
      if Ascii.eqb c sep then cur :: split_from sep EmptyString s'
      else split_from sep (cur ++ String c EmptyString)%string s'
  end.

Definition split (sep : Ascii.ascii) (s : string) : list string :=
  split_from sep EmptyString s.

Definition extract (midi : PrettyMIDI T) : option (result (list (T * T * string))) :=
  let beats := get_beats midi in
  let chroma := get_chroma midi in
  let max_tick := Z.of_nat (length beats) in
  match get_candidates chroma max_tick default_intervals with
  | Raise e => Some (Raise e)
  | Ok candidates =>
      match dynamic (length beats) candidates max_tick with
      | None => None
      | Some (Raise e) => Some (Raise e)
      | Some (Ok selected_chords) =>
          let unique_chords := dedupe selected_chords in
          Some (foldM
                  (fun mapped_chords '(c_start, c_end, label) =>
                     start_time ← index beats c_start;
                     end_time ←
                       (if Z.of_nat (length beats) <=? c_end
                        then Ok (get_end_time midi)
                        else index beats c_end);
                     Ok (mapped_chords ++ [(start_time, end_time, label)]))
                  unique_chords [])
      end
  end.

Definition chord_item (start_tick end_tick : Z) (label : string) : Item :=
  mkItem Chord start_tick (Some end_tick) None (PitchStr label) NoInstrument.

Definition extract_chords (midi : PrettyMIDI T) : option (result (list Item)) :=
  let end_tick := get_end_tick midi in
  if end_tick <? resolution midi then Some (Ok [])
  else
    match extract midi with
    | None => None
    | Some (Raise e) => Some (Raise e)
    | Some (Ok raw_chords) =>
        Some
          (output ←
             foldM
               (fun output '(t0, t1, label) =>
                  head_ ← index (split "/" label) 0;
                  Ok (output ++ [chord_item (time_to_tick midi t0)
                                   (time_to_tick midi t1) head_]))
               raw_chords [];
           match output with
           | [] => Ok [chord_item 0 end_tick "N:N"]
           | first :: _ =>
               if 0 <? start first
               then Ok (chord_item 0 (start first) "N:N" :: output)
               else Ok output
           end)
    end.

End WithTime.

End ChordExtraction.

(** ** [midi2remi.py] *)

Module Midi2Remi.

Import Utils ChordExtraction.

Section WithTime.
Context {T : Type}.

(** [pretty_midi.program_to_instrument_name], a table of the library. *)
Variable program_to_instrument_name : Z -> result string.

Record RemiPlus : Type := mkRemiPlus {
  midi : PrettyMIDI T;
  note_items : list Item;
  tempo_items : list Item;
  chord_items : list Item;
  groups : list Group
}.

(** [RemiPlus.__init__] with [do_extract_chords=True], given the note and
    tempo items read from the file. *)
Definition RemiPlus_init (midi : PrettyMIDI T) (note_items tempo_items : list Item)
    (strict : bool) : option (result RemiPlus) :=
  match extract_chords midi with
  | None => None
  | Some (Raise e) => Some (Raise e)
  | Some (Ok chord_items) =>
      Some
        (groups ← group_items midi note_items chord_items tempo_items;
         if strict && (length note_items =? 0)%nat then Raise ValueError
         else Ok (mkRemiPlus midi note_items tempo_items chord_items groups))
  end.

(** The mutable locals of [get_remi_events]. *)
Record EncState : Set := mkEncState {
  events : list Event;
  n_downbeat : Z;
  current_chord : option Item;
  current_tempo : option Item
}.

Definition position_event (time : Z) (index : Z) : Event :=
  mkEvent POSITION_KEY (Some time) (str_of_Z index).

Definition chord_event (item : Item) : Event :=
  mkEvent CHORD_KEY (Some (start item)) (str_of_pitch (pitch item)).

(** [Event(name=TEMPO_KEY, time=item.start, value=argmin(|bins - pitch|))] *)
Definition tempo_event (item : Item) : result Event :=
  match pitch item with
  | PitchInt tempo =>
      index ← nearest_bin DEFAULT_TEMPO_BINS tempo;
      Ok (mkEvent TEMPO_KEY (Some (start item)) (str_of_Z (Z.of_nat index)))
  | _ => Raise TypeError
  end.

(** [np.linspace(bar_st, bar_st + ticks_per_bar, positions_per_bar,
    endpoint=False)] *)
Definition linspace_open (lo : Z) (span : Q) (num : Z) : list Q :=
  map (fun k => inject_Z lo + inject_Z k * (span / inject_Z num))%Q (range num).

Definition position_index (flags : list Q) (start : Z) : result nat :=
  np_argmin (map (fun f => Qabs (f - inject_Z start)) flags).

Definition note_events (resolution : Z) (pos_event : Event) (item : Item)
  : result (list Event) :=
  name ←
    match instrument item with
    | Drum => Ok "drum"%string
    | Program p => program_to_instrument_name p
    | NoInstrument => Raise TypeError
    end;
  p ← match pitch item with PitchInt p => Ok p | _ => Raise TypeError end;
  let pitch_value :=
    if String.eqb name "drum" then ("drum_" ++ str_of_Z p)%string
    else str_of_Z p in
  v ← of_option TypeError (velocity item);
  velocity_index ← nearest_bin DEFAULT_VELOCITY_BINS v;
  e ← of_option TypeError (end_ item);
  duration ← tick_to_position (e - start item) resolution;
  duration_index ← nearest_bin DEFAULT_DURATION_BINS duration;
  Ok [pos_event;
      mkEvent INSTRUMENT_KEY (Some (start item)) name;
      mkEvent PITCH_KEY (Some (start item)) pitch_value;
      mkEvent VELOCITY_KEY (Some (start item)) (str_of_Z (Z.of_nat velocity_index));
      mkEvent DURATION_KEY (Some (start item)) (str_of_Z (Z.of_nat duration_index))].

Definition same_pitch_as (item : Item) (current : option Item) : bool :=
  match current with
  | None => false
  | Some c => PitchVal_eqb (pitch item) (pitch c)
  end.

(** The body of [for item in self.groups[i][1:-1]]. *)
Definition encode_item (resolution : Z) (flags : list Q) (st : EncState)
    (item : Item) : result EncState :=
  index ← position_index flags (start item);
  let pos_event := position_event (start item) (Z.of_nat index) in
  match name item with
  | Note =>
      evs ← note_events resolution pos_event item;
      Ok (mkEncState (events st ++ evs) (n_downbeat st)
            (current_chord st) (current_tempo st))
  | Chord =>
      if same_pitch_as item (current_chord st) then Ok st
      else Ok (mkEncState (events st ++ [pos_event; chord_event item])
                 (n_downbeat st) (Some item) (current_tempo st))
  | Tempo =>
      if same_pitch_as item (current_tempo st) then Ok st
      else
        ev ← tempo_event item;
        Ok (mkEncState (events st ++ [pos_event; ev])
              (n_downbeat st) (current_chord st) (Some item))
  | Pedal => Ok st
  end.

(** The events appended between the time signature and the items of a bar:
    the chord and the tempo carried over. *)
Definition carry_events (st : EncState) : result (list Event) :=
  let chord_part :=
    match current_chord st with
    | Some c => [mkEvent POSITION_KEY (Some 0) (str_of_Z 0); chord_event c]
    | None => []
    end in
  match current_tempo st with
  | Some t =>
      ev ← tempo_event t;
      Ok (chord_part ++ [mkEvent POSITION_KEY (Some 0) (str_of_Z 0); ev])
  | None => Ok chord_part
  end.

Definition bar_header (n_downbeat : Z) (time_sig : TimeSignature T) : list Event :=
  [mkEvent BAR_KEY None (str_of_Z n_downbeat);
   mkEvent TIME_SIGNATURE_KEY None
     (str_of_Z (numerator time_sig) ++ "/" ++ str_of_Z (denominator time_sig))].

(** The body of [for i in range(len(self.groups))]. *)
Definition encode_bar (midi : PrettyMIDI T) (st : EncState) (g : Group)
  : result EncState :=
  let n_downbeat := n_downbeat st + 1 in
  positions_per_bar ← get_positions_per_bar midi (bar_st g);
  if positions_per_bar <=? 0 then Raise ValueError
  else
    time_sig ← get_time_signature midi (bar_st g);
    carried ← carry_events st;
    let st1 :=
      mkEncState (events st ++ bar_header n_downbeat time_sig ++ carried)
        n_downbeat (current_chord st) (current_tempo st) in
    qpb ← quarters_per_bar time_sig;
    let ticks_per_bar := (inject_Z (resolution midi) * qpb)%Q in
    let flags := linspace_open (bar_st g) ticks_per_bar positions_per_bar in
    foldM (encode_item (resolution midi) flags) (insiders g) st1.

Definition initial_state : EncState := mkEncState [] 0 None None.

Definition token (e : Event) : string := (ename e ++ "_" ++ evalue e)%string.

Definition run_bars (midi : PrettyMIDI T) (groups : list Group) (st : EncState)
  : result EncState :=
  foldM (encode_bar midi) groups st.

Definition get_remi_events (self : RemiPlus) : result (list string) :=
  st ← run_bars (midi self) (groups self) initial_state;
  Ok (map token (events st)).

End WithTime.

End Midi2Remi.

(** ** [remi2midi.py] *)

Module Remi2Midi.

Import ChordExtraction.

(** [k in s] for strings: [k] occurs somewhere in [s]. *)
Fixpoint contains (k s : string) : bool :=
  String.prefix k s
  || match s with
     | EmptyString => false
     | String _ s' => contains k s'
     end.

(** [s.split('_')[-1]] *)
Definition last_field (s : string) : string :=
  List.last (split "_" s) EmptyString.

Definition is_space (c : Ascii.ascii) : bool :=
  let n := nat_of_ascii c in
  ((9 <=? n) && (n <=? 13) || (28 <=? n) && (n <=? 32))%nat.

Definition is_digit (c : Ascii.ascii) : bool :=
  let n := nat_of_ascii c in ((48 <=? n) && (n <=? 57))%nat.

Fixpoint lstrip (s : string) : string :=
  match s with
  | String c s' => if is_space c then lstrip s' else s
  | EmptyString => s
  end.

Fixpoint string_rev_onto (acc s : string) : string :=
  match s with
  | EmptyString => acc
  | String c s' => string_rev_onto (String c acc) s'
  end.

Definition strip (s : string) : string :=
  let r := lstrip (string_rev_onto EmptyString (lstrip s)) in
  string_rev_onto EmptyString r.

Fixpoint digits_value (acc : Z) (s : string) : option Z :=
  match s with
  | EmptyString => Some acc
  | String c s' =>
      if is_digit c
      then digits_value (10 * acc + Z.of_nat (nat_of_ascii c - 48)) s'
      else None
  end.

Definition unsigned_value (s : string) : option Z :=
  match s with
  | EmptyString => None
  | _ => digits_value 0 s
  end.

(** [int(s)] for an ASCII string: blanks around, an optional sign, decimal
    digits. *)
Definition py_int (s : string) : result Z :=
  of_option ValueError
    match strip s with
    | String "-" s' => Z.opp <$> unsigned_value s'
    | String "+" s' => unsigned_value s'
    | s' => unsigned_value s'
    end.

Definition key_ (k : string) : string := (k ++ "_")%string.

Section WithClock.

(** The decoder's clock is floating point; its arithmetic stays abstract. *)
Context {F : Type}.
Variable F_of_Z : Z -> F.
Variables Fadd Fmul Fdiv : F -> F -> F.
(** [x >= 0] on floats *)
Variable F_nonneg : F -> bool.
(** [pretty_midi.instrument_name_to_program], a table of the library. *)
Variable instrument_name_to_program : string -> result Z.

Record Note : Type := mkNote {
  note_velocity : Z;
  note_pitch : Z;
  note_start : F;
  note_end : F
}.

Record Instrument : Type := mkInstrument {
  program : Z;
  is_drum : bool;
  notes : list Note
}.

(** [last_tl_event] *)
Record TlEvent : Type := mkTlEvent {
  tl_time : F;
  tl_pos : Z * Z;
  tl_time_sig : TimeSignature F;
  tl_tempo : Z
}.

(** [pretty_midi.TimeSignature(num, denom, time)] checks its arguments. *)
Definition new_TimeSignature (num denom : Z) (time : F)
  : result (TimeSignature F) :=
  if (0 <? num) && (0 <? denom) && F_nonneg time
  then Ok (mkTimeSignature num denom time)
  else Raise ValueError.

(** [utils.get_time] *)
Definition get_time (reference : TlEvent) (bar pos : Z) : F :=
  let time_sig := tl_time_sig reference in
  let qpb := Fdiv (F_of_Z (4 * numerator time_sig))
                  (F_of_Z (denominator time_sig)) in
  let ref_pos := tl_pos reference in
  let d_bars := bar - ref_pos.1 in
  let d_pos :=
    Fadd (F_of_Z (pos - ref_pos.2))
         (Fmul (Fmul (F_of_Z d_bars) qpb) (F_of_Z DEFAULT_POS_PER_QUARTER)) in
  let d_quarters := Fdiv d_pos (F_of_Z DEFAULT_POS_PER_QUARTER) in
  let dt := Fmul (Fdiv d_quarters (F_of_Z (tl_tempo reference))) (F_of_Z 60) in
  Fadd (tl_time reference) dt.

(** The locals of [remi2midi] that the loop changes, with the parts of the
    [midi] object it writes to. *)
Record DecState : Type := mkDecState {
  initial_tempo : Z;
  time_signature_changes : list (TimeSignature F);
  instruments : dict string Instrument;
  last_tl_event : TlEvent;
  bar : Z;
  n_notes : Z;
  polyphony_control : gmap Z (gmap Z (gmap string Z))
}.

Definition with_polyphony (st : DecState) pc : DecState :=
  mkDecState (initial_tempo st) (time_signature_changes st) (instruments st)
    (last_tl_event st) (bar st) (n_notes st) pc.

(** The outcome of one pass through the loop body. *)
Inductive Flow : Type :=
  | Next (st : DecState)
  | Break (st : DecState).

Definition token_at (events : list string) (i : nat) : string :=
  default EmptyString (events !! i).

Definition bar_branch (events : list string) (i : nat) (st : DecState)
  : result DecState :=
  let bar := bar st + 1 in
  let pc := <[bar := ∅]> (polyphony_control st) in
  let st := mkDecState (initial_tempo st) (time_signature_changes st)
              (instruments st) (last_tl_event st) bar (n_notes st) pc in
  if (S i <? length events)%nat
     && contains (key_ TIME_SIGNATURE_KEY) (token_at events (S i))
  then
    match split "/" (last_field (token_at events (S i))) with
    | [num; denom] =>
        num ← py_int num;
        denom ← py_int denom;
        let current_time_sig := tl_time_sig (last_tl_event st) in
        if negb (num =? numerator current_time_sig)
           || negb (denom =? denominator current_time_sig)
        then
          let time := get_time (last_tl_event st) bar 0 in
          time_sig ← new_TimeSignature num denom time;
          Ok (mkDecState (initial_tempo st)
                (time_signature_changes st ++ [time_sig])
                (instruments st)
                (mkTlEvent time (bar, 0) time_sig (tl_tempo (last_tl_event st)))
                bar (n_notes st) pc)
        else Ok st
    | _ => Raise ValueError
    end
  else Ok st.

Definition tempo_branch (events : list string) (i : nat) (st : DecState)
  : result DecState :=
  position ← py_int (last_field (token_at events i));
  tempo_idx ← py_int (last_field (token_at events (S i)));
  tempo ← index DEFAULT_TEMPO_BINS tempo_idx;
  if negb (tempo =? tl_tempo (last_tl_event st)) then
    let time := get_time (last_tl_event st) (bar st) position in
    Ok (mkDecState (initial_tempo st) (time_signature_changes st)
          (instruments st)
          (mkTlEvent time (bar st, position)
             (tl_time_sig (last_tl_event st)) tempo)
          (bar st) (n_notes st) (polyphony_control st))
  else Ok st.

(** [instruments[name].notes.append(note)], the object being shared between
    the dict and the local [instrument]. *)
Definition append_note (ins : dict string Instrument) (name : string)
    (note : Note) : dict string Instrument :=
  match dict_get String.eqb ins name with
  | Some i =>
      dict_set String.eqb ins name
        (mkInstrument (program i) (is_drum i) (notes i ++ [note]))
  | None => ins
  end.

Definition note_branch (polyphony_limit : Z) (events : list string) (i : nat)
    (st : DecState) : result DecState :=
  position ← py_int (last_field (token_at events i));
  pc_bar ← of_option KeyError (polyphony_control st !! bar st);
  let pc_pos := default ∅ (pc_bar !! position) in
  let instrument_name := last_field (token_at events (i + 1)) in
  let count := pc_pos !! instrument_name in
  let count0 := default 0 count in
  let pc0 :=
    <[bar st := <[position := <[instrument_name := count0]> pc_pos]> pc_bar]>
      (polyphony_control st) in
  let st := with_polyphony st pc0 in
  if match count with
     | Some c => polyphony_limit <=? c
     | None => false
     end
  then Ok st
  else
    ins ←
      (if dict_has String.eqb (instruments st) instrument_name
       then Ok (instruments st)
       else if String.eqb instrument_name "drum"
       then Ok (dict_set String.eqb (instruments st) instrument_name
                  (mkInstrument 0 true []))
       else
         program ← instrument_name_to_program instrument_name;
         Ok (dict_set String.eqb (instruments st) instrument_name
               (mkInstrument program false [])));
    pitch ← py_int (last_field (token_at events (i + 2)));
    velocity_index ← py_int (last_field (token_at events (i + 3)));
    v ← index DEFAULT_VELOCITY_BINS velocity_index;
    let velocity := Z.min 127 v in
    duration_index ← py_int (last_field (token_at events (i + 4)));
    duration ← index DEFAULT_DURATION_BINS duration_index;
    let start := get_time (last_tl_event st) (bar st) position in
    let end_ := get_time (last_tl_event st) (bar st) (position + duration) in
    let note := mkNote velocity pitch start end_ in
    Ok (mkDecState (initial_tempo st) (time_signature_changes st)
          (append_note ins instrument_name note)
          (last_tl_event st) (bar st) (n_notes st + 1)
          (<[bar st :=
               <[position := <[instrument_name := count0 + 1]> pc_pos]> pc_bar]>
             pc0)).

Definition is_bar_head (events : list string) (i : nat) : bool :=
  contains (key_ BAR_KEY) (token_at events i).

Definition is_tempo_head (events : list string) (i : nat) : bool :=
  (i + 1 <? length events)%nat
  && contains (key_ POSITION_KEY) (token_at events i)
  && contains (key_ TEMPO_KEY) (token_at events (i + 1)).

Definition is_note_head (events : list string) (i : nat) : bool :=
  (i + 4 <? length events)%nat
  && contains (key_ POSITION_KEY) (token_at events i)
  && contains (key_ INSTRUMENT_KEY) (token_at events (i + 1))
  && contains (key_ PITCH_KEY) (token_at events (i + 2))
  && contains (key_ VELOCITY_KEY) (token_at events (i + 3))
  && contains (key_ DURATION_KEY) (token_at events (i + 4)).

(** The body of [for i, event in enumerate(events)]. *)
Definition step (polyphony_limit : Z) (events : list string) (i : nat)
    (st : DecState) : result Flow :=
  if String.eqb (token_at events i) EOS_TOKEN then Ok (Break st)
  else
    let st :=
      match polyphony_control st !! bar st with
      | Some _ => st
      | None => with_polyphony st (<[bar st := ∅]> (polyphony_control st))
      end in
    if is_bar_head events i then Next <$> bar_branch events i st
    else if is_tempo_head events i then Next <$> tempo_branch events i st
    else if is_note_head events i
    then Next <$> note_branch polyphony_limit events i st
    else Ok (Next st).

(** The loop over the positions [i, i + n). *)
Fixpoint run (polyphony_limit : Z) (events : list string) (i n : nat)
    (st : DecState) : result Flow :=
  match n with
  | O => Ok (Next st)
  | S n' =>
      flow ← step polyphony_limit events i st;
      match flow with
      | Break st' => Ok (Break st')
      | Next st' => run polyphony_limit events (S i) n' st'
      end
  end.

Definition state_of (f : Flow) : DecState :=
  match f with Next st | Break st => st end.

(** What [remi2midi] returns: the [PrettyMIDI] object it built. *)
Record Midi : Type := mkMidi {
  midi_initial_tempo : Z;
  midi_time_signature_changes : list (TimeSignature F);
  midi_instruments : list Instrument
}.

(** The tempo the object is created with: the first [Tempo_] token, if any,
    else [bpm=120]. *)
Definition first_tempo (events : list string) : result Z :=
  match List.filter (fun event => contains (key_ TEMPO_KEY) event) events with
  | [] => Ok 120
  | first :: _ =>
      idx ← py_int (last_field first);
      index DEFAULT_TEMPO_BINS idx
  end.

Definition start_state (bpm : Z) : DecState :=
  let current_time_sig := mkTimeSignature 4 4 (F_of_Z 0) in
  mkDecState bpm [current_time_sig] []
    (mkTlEvent (F_of_Z 0) (0, 0) current_time_sig bpm)
    (-1) 0 ∅.

(** [remi2midi(events, polyphony_limit=...)] with the default [bpm] and
    [time_signature]. *)
Definition remi2midi (events : list string) (polyphony_limit : Z)
  : result Midi :=
  bpm ← first_tempo events;
  flow ← run polyphony_limit events 0 (length events) (start_state bpm);
  let st := state_of flow in
  Ok (mkMidi (initial_tempo st) (time_signature_changes st)
        (map snd (instruments st))).

End WithClock.

End Remi2Midi.

(** * Auxiliary definitions used by the statements and proofs *)

Module Aux.

Import ChordRecognition.

(** The loop of [dedupe] unrolled: the running segment [(start, end_, chord)]
    swallows every following segment that carries the same label. *)
Fixpoint merge_runs (start end_ : Z) (chord : string) (rest : list Segment)
  : list Segment :=
  match rest with
  | [] => [(start, end_, chord)]
  | (s, e, l) :: rest' =>
      if String.eqb chord l then merge_runs start e chord rest'
      else (start, end_, chord) :: merge_runs s e l rest'
  end.

(** No two neighbours carry the same label. *)
Fixpoint distinct_neighbours (chord : string) (rest : list Segment) : Prop :=
  match rest with
  | [] => True
  | (_, _, l) :: rest' => chord <> l /\ distinct_neighbours l rest'
  end.

(** The roots [sequencing] visits: the positions of the non-zero bins. *)
Definition active_roots (chroma : list Z) : list nat :=
  List.filter (fun i => match chroma !! i with Some c => negb (c =? 0) | None => false end)
         (seq 0 (length chroma)).

(** The interval list [sequencing] stores for a root. *)
Definition intervals (chroma : list Z) (root_note : Z) : list Z :=
  np_where_eq1 (np_roll chroma (- root_note)).

(** What one interval adds to the score of a candidate of quality [q]. *)
Definition note_weight (q : Quality) (n : Z) : Z :=
  match CHORD_MAPS q, CHORD_OUTSIDERS_1 q, CHORD_OUTSIDERS_2 q, CHORD_INSIDERS q with
  | Some maps, Some out1, Some out2, Some ins =>
      if mem n maps then 0
      else if mem n out1 then -1
      else if mem n out2 then -2
      else if mem n ins then 10
      else 0
  | _, _, _, _ => 0
  end.

(** The quality table of the specification, for an interval set that holds
    exactly one of the two thirds. *)
Definition spec_quality (sequence : list Z) : Quality :=
  let has n := mem n sequence in
  if has 3 then
    if has 6 then dim else if has 10 then min7 else min
  else
    if has 8 then aug else if has 10 then dom7
    else if has 11 then maj7 else maj.

(** Strictly increasing, starting at [lo] or above. *)
Fixpoint increasing_from (lo : Z) (l : list Z) : Prop :=
  match l with
  | [] => True
  | x :: l' => lo <= x /\ increasing_from (x + 1) l'
  end.

(** Score and quality of an interval list, [scoring_entry] made total. *)
Definition entry_score (sequence : list Z) : Z :=
  match scoring_entry sequence with Ok (s, _) => s | Raise _ => 0 end.

Definition entry_quality (sequence : list Z) : Quality :=
  match scoring_entry sequence with Ok (_, q) => q | Raise _ => QNone end.

(** A binarised window holds only 0 and 1. *)
Definition binary (b : list Z) : Prop := Forall (fun v => v = 0 \/ v = 1) b.

(** Pitch class [i] sounds in the window. *)
Definition nonzero_at (b : list Z) (i : nat) : bool :=
  match b !! i with Some c => negb (c =? 0) | None => false end.

(** The score [scoring] stores for the root at position [i]. *)
Definition root_score (b : list Z) (i : nat) : Z :=
  entry_score (intervals b (Z.of_nat i)).

Definition root_quality (b : list Z) (i : nat) : Quality :=
  entry_quality (intervals b (Z.of_nat i)).

(** *** Segmentations *)

Definition seg_start (s : Segment) : Z := s.1.1.
Definition seg_end (s : Segment) : Z := s.1.2.

(** The candidate table holds, for every start beat, the one-beat window. *)
Definition has_unit_candidates (candidates : dict Z (dict Z Cand))
    (max_tick : Z) : Prop :=
  forall s, 0 <= s < max_tick ->
    exists inner c,
      dict_get Z.eqb candidates s = Some inner
      /\ dict_get Z.eqb inner (s + 1) = Some c.

(** Every window of the table runs forward and ends inside the piece, as the
    windows of [get_candidates] do. *)
Definition forward_windows (candidates : dict Z (dict Z Cand))
    (max_tick : Z) : Prop :=
  forall s inner e c, 0 <= s < max_tick ->
    dict_get Z.eqb candidates s = Some inner ->
    In (e, c) inner -> s < e <= max_tick.

(** Every window of the table starts inside the piece, runs forward and
    ends inside the piece. *)
Definition windows_inside (max_tick : Z) (table : dict Z (dict Z Cand)) : Prop :=
  forall s inner e c,
    dict_get Z.eqb table s = Some inner -> In (e, c) inner ->
    0 <= s < max_tick /\ s < e <= max_tick.

(** The table holds the one-beat window that starts at [s]. *)
Definition unit_window (table : dict Z (dict Z Cand)) (s : Z) : Prop :=
  exists inner c,
    dict_get Z.eqb table s = Some inner
    /\ dict_get Z.eqb inner (s + 1) = Some c.

(** The segments tile [[0, max_tick)]: the first starts at 0, the last ends
    at [max_tick], each starts where the previous one ends, none is empty,
    earlier segments end before later ones start, and every tick lies in
    exactly one of them. *)
Definition covers_once (segs : list Segment) (max_tick : Z) : Prop :=
  (exists first, head segs = Some first /\ seg_start first = 0)
  /\ (exists lst, last segs = Some lst /\ seg_end lst = max_tick)
  /\ (forall i a b, segs !! i = Some a -> segs !! S i = Some b ->
         seg_start b = seg_end a)
  /\ (forall a, In a segs -> seg_start a < seg_end a)
  /\ (forall i j a b, (i < j)%nat -> segs !! i = Some a -> segs !! j = Some b ->
         seg_end a <= seg_start b)
  /\ (forall t, 0 <= t < max_tick ->
         exists i a, segs !! i = Some a /\ seg_start a <= t < seg_end a
           /\ forall j b, segs !! j = Some b ->
                 seg_start b <= t < seg_end b -> j = i).

(** A chain of non-empty segments from [lo] to [hi]. *)
Fixpoint chain (lo hi : Z) (segs : list Segment) : Prop :=
  match segs with
  | [] => lo = hi
  | seg :: rest => seg_start seg = lo /\ lo < seg_end seg /\ chain (seg_end seg) hi rest
  end.

(** The score at position [k] is a number, not [-inf]. *)
Definition finite_at (scores : list npfloat) (k : nat) : Prop :=
  exists z, scores !! k = Some (Fin z).

(** The invariant of the forward pass of [dynamic]. *)
Definition dp_inv (n : nat) (st : DpState) : Prop :=
  let '(chords, scores) := st in
  length chords = n /\ length scores = n
  /\ (forall t seg, chords !! t = Some (Some seg) ->
        seg_end seg = Z.of_nat t
        /\ 0 <= seg_start seg < Z.of_nat t
        /\ finite_at scores (Z.to_nat (seg_start seg)))
  /\ (forall t, (1 <= t)%nat -> finite_at scores t ->
        exists seg, chords !! t = Some (Some seg)).

(** A non-decreasing array of rationals. *)
Definition sorted_Q (a : list Q) : Prop :=
  forall i j x y, (i <= j)%nat -> a !! i = Some x -> a !! j = Some y -> (x <= y)%Q.

(** Example inputs. *)
Definition c_major_window : list (list Z) :=
  [[20]; [0]; [0]; [0]; [20]; [0]; [0]; [20]; [0]; [0]; [0]; [0]].

Definition two_beat_table : dict Z (dict Z Cand) :=
  [(0, [(1, ("C", "maj", "C", 10)); (2, ("D", "min7", "C", 8))]);
   (1, [(2, ("D", "min", "D", 10))])]%string.

(** A table with the one-beat window and a window that ends before it
    starts. *)
Definition backward_table : dict Z (dict Z Cand) :=
  [(0, [(1, ("C", "maj", "C", 1)); (-1, ("C", "maj", "C", 5))])]%string.

(** *** Encoder *)

Import MusicObj Utils Midi2Remi.

(** The names of the events that can reach the stream when no chord is
    involved. *)
Definition chordless_name (n : string) : bool :=
  existsb (String.eqb n)
    [BAR_KEY; TIME_SIGNATURE_KEY; POSITION_KEY; INSTRUMENT_KEY; PITCH_KEY;
     VELOCITY_KEY; DURATION_KEY; TEMPO_KEY].

Definition chordless (evs : list Event) : Prop :=
  Forall (fun e => chordless_name (ename e) = true) evs.

Definition any_named (n : ItemName) (items : list Item) : Prop :=
  exists item, In item items /\ name item = n.

Definition has_chord_item (g : Group) : Prop :=
  exists item, In item (insiders g) /\ name item = Chord.

Definition has_tempo_item (g : Group) : Prop :=
  exists item, In item (insiders g) /\ name item = Tempo.

(** The bar group declares a chord on its first tick, hence at position 0. *)
Definition redeclares_chord_at_0 (g : Group) : Prop :=
  exists item, In item (insiders g) /\ name item = Chord /\ start item = bar_st g.

(** The Position-0 + Chord pair the encoder puts at the head of a bar for the
    chord carried over. *)
Definition synthetic_chord_pair (c : Item) : list Event :=
  [mkEvent POSITION_KEY (Some 0) "0"; chord_event c].

(** A quarter-note piece and a two-bar piece. *)
Definition short_midi : PrettyMIDI Z :=
  mkPrettyMIDI Z 480 (fun t => t) 240 [0] [] [0] [mkTimeSignature 4 4 0].

(** A piece whose resolution 12 does not divide. *)
Definition hundred_midi : PrettyMIDI Z :=
  mkPrettyMIDI Z 100 (fun t => t) 1000 [0] [] [0] [mkTimeSignature 4 4 0].

Definition two_bar_midi : PrettyMIDI Z :=
  mkPrettyMIDI Z 480 (fun t => t) 3840 [] [] [0; 1920] [mkTimeSignature 4 4 0].

Definition piano_only (p : Z) : result string := Ok "Acoustic Grand Piano"%string.

Definition example_note (s e p : Z) (i : InstrumentVal) : Item :=
  mkItem Note s (Some e) (Some 64) (PitchInt p) i.

Definition example_chord (s e : Z) (label : string) : Item :=
  mkItem Chord s (Some e) None (PitchStr label) NoInstrument.

Definition example_tempo (s bpm : Z) : Item :=
  mkItem Tempo s None None (PitchInt bpm) NoInstrument.

Definition bar_one : Group :=
  mkGroup 0 [example_chord 0 1920 "C:maj"; example_tempo 0 120;
             example_note 0 480 60 (Program 0)] 1920.

Definition bar_two : Group :=
  mkGroup 1920 [example_chord 1920 3840 "D:min";
                example_note 1920 2400 62 Drum] 3840.

(** *** Decoder *)

Import Remi2Midi.

(** A clock of exact rationals and a one-entry instrument table, to run the
    decoder on examples. Times are exact rationals here, not doubles, and a
    quotient by 0 is 0 in [Q], where the code's floats raise or give [inf]:
    the examples below keep the tempo and the denominator of the time
    signature away from 0. *)
Definition piano_table (s : string) : result Z :=
  if String.eqb s "Acoustic Grand Piano" then Ok 0 else Raise ValueError.

Definition decode_exact (events : list string) (polyphony_limit : Z)
  : result (Midi (F:=Q)) :=
  remi2midi inject_Z Qplus Qmult Qdiv (fun q => Qle_bool 0 q) piano_table
    events polyphony_limit.

(** The counter [polyphony_control[bar][position][name]], [None] when any of
    the three levels is missing. *)
Definition pc_count (pc : gmap Z (gmap Z (gmap string Z)))
    (bar position : Z) (name : string) : option Z :=
  pc_bar ← pc !! bar; pc_pos ← pc_bar !! position; pc_pos !! name.

(** The token matches no pattern head: it holds neither [Bar_] nor
    [Position_]. *)
Definition headless (tok : string) : bool :=
  negb (contains (key_ BAR_KEY) tok) && negb (contains (key_ POSITION_KEY) tok).







(** Junk and patterns interleaved: a stream of tokens and note groups, all
    in 4/4. *)
Definition interleaved_stream : list string :=
  ["hello"; "Position_7"; "Bar_1"; "Time Signature_4/4"; "Position_x";
   "Position_0"; "Tempo_16"; "Pitch_60";
   "Position_0"; "Instrument_drum"; "Pitch_drum_36"; "Velocity_16";
   "Duration_11"; "Duration_"; "Position_12"; "<eos>"; "Position_a";
   "Tempo_1"]%string.

(** The five tokens of a note group, each carrying its own key and no head
    key of another pattern, with values that parse: position, instrument
    name, pitch, velocity index, duration index. *)
Definition well_formed_group (position : Z) (instrument_name : string)
    (g : list string) (spec : Z * Z * Z) : Prop :=
  let '(pitch, velocity_index, duration_index) := spec in
  exists a b c d e,
    g = [a; b; c; d; e]
    /\ contains (key_ POSITION_KEY) a = true
    /\ contains (key_ BAR_KEY) a = false
    /\ contains (key_ INSTRUMENT_KEY) b = true
    /\ contains (key_ TEMPO_KEY) b = false
    /\ headless b = true
    /\ contains (key_ PITCH_KEY) c = true /\ headless c = true
    /\ contains (key_ VELOCITY_KEY) d = true /\ headless d = true
    /\ contains (key_ DURATION_KEY) e = true /\ headless e = true
    /\ py_int (last_field a) = Ok position
    /\ last_field b = instrument_name
    /\ py_int (last_field c) = Ok pitch
    /\ py_int (last_field d) = Ok velocity_index
    /\ py_int (last_field e) = Ok duration_index
    /\ is_ok (index DEFAULT_VELOCITY_BINS velocity_index) = true
    /\ is_ok (index DEFAULT_DURATION_BINS duration_index) = true.

(** *** The admission policy of the specification *)

(** A note group as data: position, instrument name, and pitch, velocity
    index, duration index. *)
Definition GroupSpec : Type := Z * string * (Z * Z * Z).

Definition same_triple (position : Z) (name : string) (g : GroupSpec) : bool :=
  (g.1.1 =? position) && String.eqb g.1.2 name.

Definition named (name : string) (g : GroupSpec) : bool := String.eqb g.1.2 name.

Definition bump (count : Z -> string -> Z) (position : Z) (name : string)
  : Z -> string -> Z :=
  fun p n =>
    if (p =? position) && String.eqb n name then count position name + 1
    else count p n.

(** The policy in the words of the specification, for the groups of one bar:
    a note is dropped when the count of notes already kept for its
    (position, instrument) has reached the limit, else it is kept and the
    count goes up by one. *)
Fixpoint kept_groups (limit : Z) (count : Z -> string -> Z) (gs : list GroupSpec)
  : list GroupSpec :=
  match gs with
  | [] => []
  | g :: rest =>
      if limit <=? count g.1.1 g.1.2 then kept_groups limit count rest
      else g :: kept_groups limit (bump count g.1.1 g.1.2) rest
  end.

Definition group_tokens_ok (toks : list string) (g : GroupSpec) : Prop :=
  well_formed_group g.1.1 g.1.2 toks g.2.

Section DecoderAux.
Context {F : Type}.
Variable F_of_Z : Z -> F.
Variables Fadd Fmul Fdiv : F -> F -> F.

(** The note a group stands for, on the timeline [tl] in bar [bar]: pitch,
    velocity index and duration index as read from its tokens. *)
Definition decoded_note (tl : TlEvent (F:=F)) (bar position : Z)
    (spec : Z * Z * Z) : result (Note (F:=F)) :=
  let '(pitch, velocity_index, duration_index) := spec in
  v ← index DEFAULT_VELOCITY_BINS velocity_index;
  duration ← index DEFAULT_DURATION_BINS duration_index;
  Ok (mkNote (Z.min 127 v) pitch
        (get_time F_of_Z Fadd Fmul Fdiv tl bar position)
        (get_time F_of_Z Fadd Fmul Fdiv tl bar (position + duration))).

(** The state the loop body works on after
    [if bar not in polyphony_control: polyphony_control[bar] = {}]. *)
Definition normalise (st : DecState (F:=F)) : DecState :=
  match polyphony_control st !! bar st with
  | Some _ => st
  | None => with_polyphony st (<[bar st := ∅]> (polyphony_control st))
  end.


(** Everything but the instruments, the note count and the counters. *)
Definition same_frame (st st' : DecState (F:=F)) : Prop :=
  initial_tempo st' = initial_tempo st
  /\ time_signature_changes st' = time_signature_changes st
  /\ last_tl_event st' = last_tl_event st
  /\ bar st' = bar st.

Definition notes_of (ins : dict string (Instrument (F:=F))) (name : string)
  : list Note :=
  match dict_get String.eqb ins name with
  | Some i => notes i
  | None => []
  end.

(** The pass at position [i] of the stream takes the note branch of the
    loop. *)
Definition takes_note_branch (events : list string) (i : nat) : bool :=
  negb (String.eqb (token_at events i) EOS_TOKEN)
  && negb (is_bar_head events i) && negb (is_tempo_head events i)
  && is_note_head events i.

(** The note was made from a note group of the stream: at some position the
    loop takes the note branch, the Instrument token there names the
    instrument the note is stored under, the Pitch token gives its pitch and
    the Velocity token the bin index whose value, cut at 127, is its
    velocity. *)
Definition note_from (events : list string) (name : string)
    (note : Note (F:=F)) : Prop :=
  exists (i : nat) pitch velocity_index v,
    takes_note_branch events i = true
    /\ last_field (token_at events (i + 1)) = name
    /\ py_int (last_field (token_at events (i + 2))) = Ok pitch
    /\ py_int (last_field (token_at events (i + 3))) = Ok velocity_index
    /\ index DEFAULT_VELOCITY_BINS velocity_index = Ok v
    /\ note_pitch note = pitch
    /\ note_velocity note = Z.min 127 v.

Definition instruments_from (events : list string)
    (ins : dict string (Instrument (F:=F))) : Prop :=
  Forall (fun kv => Forall (note_from events kv.1) (notes kv.2)) ins.

(** The notes a list of well-formed groups stands for. *)
Definition decode_groups (tl : TlEvent (F:=F)) (bar : Z) (gs : list GroupSpec)
  : list (Note (F:=F)) :=
  flat_map (fun g => match decoded_note tl bar g.1.1 g.2 with
                     | Ok note => [note]
                     | Raise _ => []
                     end) gs.

(** The counters of the current bar, an unset counter read as 0. *)
Definition counts (st : DecState (F:=F)) : Z -> string -> Z :=
  fun p n => default 0 (pc_count (polyphony_control st) (bar st) p n).

(** An instrument object for [name] exists or can be made. *)
Definition instrument_available (table : string -> result Z)
    (st : DecState (F:=F)) (name : string) : Prop :=
  name = "drum"%string
  \/ (exists p, table name = Ok p)
  \/ dict_has String.eqb (instruments st) name = true.

(** The note of a group was kept: its counter rose from [c] to [c + 1] and
    [note] is the last note of the instrument. *)
Definition note_kept (st st' : DecState (F:=F)) (position : Z) (name : string)
    (c : Z) (note : Note) : Prop :=
  pc_count (polyphony_control st') (bar st) position name = Some (c + 1)
  /\ n_notes st' = n_notes st + 1
  /\ dict_has String.eqb (instruments st') name = true
  /\ notes_of (instruments st') name = notes_of (instruments st) name ++ [note].

(** The note of a group was dropped: nothing moved. *)
Definition note_dropped (st st' : DecState (F:=F)) (position : Z) (name : string)
    (c : Z) : Prop :=
  pc_count (polyphony_control st') (bar st) position name = Some c
  /\ n_notes st' = n_notes st
  /\ instruments st' = instruments st.

(** What happens to everything else while a note group for
    [(bar, position, name)] is read. *)
Definition others_untouched (st st' : DecState (F:=F)) (position : Z)
    (name : string) : Prop :=
  same_frame st st'
  /\ (forall b p n, (b, p, n) <> (bar st, position, name) ->
        pc_count (polyphony_control st') b p n
        = pc_count (polyphony_control st) b p n)
  /\ (forall other, other <> name ->
        dict_get String.eqb (instruments st') other
        = dict_get String.eqb (instruments st) other).

End DecoderAux.

Definition drum_group (pitch : Z) : list string :=
  ["Position_0"; "Instrument_drum"; ("Pitch_drum_" ++ str_of_Z pitch)%string;
   "Velocity_16"; "Duration_11"]%string.

(** A drum note at another position of the bar. *)
Definition late_group : list string :=
  ["Position_4"; "Instrument_drum"; "Pitch_drum_36"; "Velocity_16"; "Duration_11"]%string.

Definition twenty_pitches : list Z :=
  [36; 37; 38; 39; 40; 41; 42; 43; 44; 45; 46; 47; 48; 49; 50; 51; 52; 53; 54; 55].

(** Twenty drum notes at position 0 with two notes at position 4 among
    them, as token groups and as what the groups say. *)
Definition mixed_groups : list (list string) :=
  map drum_group (take 10 twenty_pitches) ++ [late_group]
  ++ map drum_group (drop 10 twenty_pitches) ++ [late_group].

Definition mixed_specs : list GroupSpec :=
  map (fun p => (0, "drum"%string, (p, 16, 11))) (take 10 twenty_pitches)
  ++ [(4, "drum"%string, (36, 16, 11))]
  ++ map (fun p => (0, "drum"%string, (p, 16, 11))) (drop 10 twenty_pitches)
  ++ [(4, "drum"%string, (36, 16, 11))].

End Aux.

Import Aux.

(** * Further definitions: statements about the rest of the code *)

From Stdlib Require DecimalPos.

Module Props.

Import Remi2Midi.

(** Numerator and denominator of a time signature. *)
Definition sig_pair {T} (ts : TimeSignature T) : Z * Z :=
  (numerator ts, denominator ts).

(** Every entry of the list differs from the one before it. *)
Fixpoint changes_only {T} (sigs : list (TimeSignature T)) : Prop :=
  match sigs with
  | a :: (b :: _) as rest => sig_pair a <> sig_pair b /\ changes_only rest
  | _ => True
  end.

(** What [remi2midi] makes of an instrument name: the drum kit, or the
    program the table of the library gives. *)
Definition instrument_made {F} (table : string -> result Z)
    (kv : string * Instrument (F:=F)) : Prop :=
  if String.eqb kv.1 "drum"
  then is_drum kv.2 = true /\ program kv.2 = 0
  else is_drum kv.2 = false /\ table kv.1 = Ok (program kv.2).

(** *** Chords *)

(** What [find_chord] can return: silence, or a root and a bass of
    [PITCH_CLASSES] with the name of a quality. *)
Definition candidate_ok (c : ChordRecognition.Cand) : Prop :=
  let '(root, quality, bass, score) := c in
  (root = "N" /\ quality = "N" /\ bass = "N" /\ score = 10)%string
  \/ (In root PITCH_CLASSES /\ In bass PITCH_CLASSES
      /\ exists q, quality = quality_str q).

(** The label [dynamic] prints for a candidate. *)
Definition label_of (c : ChordRecognition.Cand) : string :=
  let '(root, quality, bass, _) := c in
  ChordRecognition.chord_label root quality bass.

(** A label of a candidate [find_chord] can return. *)
Definition label_ok (l : string) : Prop :=
  exists c, candidate_ok c /\ l = label_of c.

(** Every candidate of the table is one [find_chord] can return. *)
Definition table_ok (table : dict Z (dict Z ChordRecognition.Cand)) : Prop :=
  Forall (fun kv => Forall (fun ec => candidate_ok ec.2) kv.2) table.

(** A chord name without bass: ['N:N'] or [root:quality]. *)
Definition chord_name (l : string) : Prop :=
  l = "N:N"%string
  \/ exists root q, In root PITCH_CLASSES
                    /\ l = (root ++ ":" ++ quality_str q)%string.

(** Neighbouring segments carry different labels. *)
Definition labels_change (segs : list ChordRecognition.Segment) : Prop :=
  forall k a b, segs !! k = Some a -> segs !! S k = Some b -> a.2 <> b.2.

(** The entries of the back-pointer array of [dynamic] carry labels of
    candidates. *)
Definition chords_ok (chords : list (option ChordRecognition.Segment)) : Prop :=
  Forall (fun o => match o with Some seg => label_ok seg.2 | None => True end) chords.

(** A segment in beats and the chord [extract] makes of it: the start is the
    time of the start beat, the end the time of the end beat or, behind the
    last beat, the end of the piece. *)
Definition mapped_from {T} (midi : PrettyMIDI T)
    (seg : ChordRecognition.Segment) (m : T * T * string) : Prop :=
  get_beats midi !! Z.to_nat (seg_start seg) = Some m.1.1
  /\ (if Z.of_nat (length (get_beats midi)) <=? seg_end seg
      then Some (get_end_time midi)
      else get_beats midi !! Z.to_nat (seg_end seg)) = Some m.1.2
  /\ m.2 = seg.2.

(** A chord item as [extract_chords] makes them. *)
Definition chord_item_ok (item : MusicObj.Item) : Prop :=
  MusicObj.name item = MusicObj.Chord
  /\ MusicObj.velocity item = None
  /\ MusicObj.instrument item = MusicObj.NoInstrument
  /\ exists l, MusicObj.pitch item = MusicObj.PitchStr l /\ chord_name l.

(** *** Segmentations and their scores *)










(** A piece of two beats on which a C major chord sounds throughout, and
    three segments of which the first two carry the same label. *)
Definition c_major_midi : PrettyMIDI Z :=
  mkPrettyMIDI Z 480 (fun t => t) 960 [0; 480]
    (map (fun row => row ++ row) c_major_window) [0] [mkTimeSignature 4 4 0].

Definition three_segments : list ChordRecognition.Segment :=
  [(0, 1, "C:maj"); (1, 2, "C:maj"); (2, 3, "D:min")]%string.

(** A window of thirteen rows whose last row alone sounds. *)
Definition thirteen_rows : list (list Z) :=
  replicate 12 [0] ++ [[20]].

(** Every character of the string passes the test. *)
Fixpoint all_chars (p : Ascii.ascii -> bool) (s : string) : bool :=
  match s with
  | EmptyString => true
  | String c s' => p c && all_chars p s'
  end.

Definition not_underscore (c : Ascii.ascii) : bool := negb (Ascii.eqb c "_").

(** The string holds no underscore, as the names of the General MIDI
    instruments and the decimal numerals do. *)
Definition no_underscore (s : string) : bool := all_chars not_underscore s.

Section DecoderInvariants.
Context {F : Type}.
Variable F_of_Z : Z -> F.
Variable instrument_name_to_program : string -> result Z.

(** The time signature list ends with the signature of the timeline, never
    repeats a signature twice in a row and holds positive numbers only. *)
Definition sigs_inv (st : DecState (F:=F)) : Prop :=
  (exists init,
      time_signature_changes st = init ++ [tl_time_sig (last_tl_event st)])
  /\ head (time_signature_changes st) = Some (mkTimeSignature 4 4 (F_of_Z 0))
  /\ changes_only (time_signature_changes st)
  /\ Forall (fun ts => 0 < numerator ts /\ 0 < denominator ts)
       (time_signature_changes st).

(** One instrument per name, made as the name asks, none without notes. *)
Definition instruments_inv (st : DecState (F:=F)) : Prop :=
  List.NoDup (map fst (instruments st))
  /\ Forall (instrument_made instrument_name_to_program) (instruments st)
  /\ Forall (fun kv => notes kv.2 <> []) (instruments st).

End DecoderInvariants.

Section KeptNotes.
Context {F : Type}.
Variable F_of_Z : Z -> F.
Variables Fadd Fmul Fdiv : F -> F -> F.
Variable F_nonneg : F -> bool.
Variable instrument_name_to_program : string -> result Z.

(** The instrument names of the notes the passes over the positions
    [i, i + n) keep, in the order of the stream: a pass keeps a note when
    the note count [n_notes] goes up, and the name of its instrument is the
    last field of the token behind the Position token. *)
Fixpoint kept_names (polyphony_limit : Z) (events : list string) (i n : nat)
    (st : DecState (F:=F)) : list string :=
  match n with
  | O => []
  | S n' =>
      match step F_of_Z Fadd Fmul Fdiv F_nonneg instrument_name_to_program
              polyphony_limit events i st with
      | Ok (Next st') =>
          (if n_notes st' =? n_notes st then []
           else [last_field (token_at events (i + 1))])
          ++ kept_names polyphony_limit events (S i) n' st'
      | _ => []
      end
  end.

End KeptNotes.

Definition add_name (names : list string) (name : string) : list string :=
  if existsb (String.eqb name) names then names else names ++ [name].

(** The names of a list, each once, in the order of their first
    appearance. *)
Definition first_appearances (names : list string) : list string :=
  fold_left add_name names [].

(** How often a name occurs in a list. *)
Definition occurrences (name : string) (names : list string) : nat :=
  length (List.filter (String.eqb name) names).

End Props.

Import Props.

(** Example events: what the encoder prints for a drum note and for a tempo
    item. *)
Definition example_drum_events : list MusicObj.Event :=
  match Midi2Remi.note_events piano_only 480 (Midi2Remi.position_event 0 0)
          (example_note 0 480 36 MusicObj.Drum) with
  | Ok evs => evs
  | Raise _ => []
  end.

(** A piano note, a drum note and a second piano note. *)
Definition two_instrument_stream : list string :=
  ["Bar_1"; "Position_0"; "Instrument_Acoustic Grand Piano"; "Pitch_60";
   "Velocity_16"; "Duration_11"]%string
  ++ drum_group 36
  ++ ["Position_12"; "Instrument_Acoustic Grand Piano"; "Pitch_64";
      "Velocity_16"; "Duration_11"]%string.

Definition example_tempo_event : MusicObj.Event :=
  match Midi2Remi.tempo_event (example_tempo 0 118) with
  | Ok ev => ev
  | Raise _ => MusicObj.mkEvent EmptyString None EmptyString
  end.

(** * Further definitions: time signatures and bars *)

From Stdlib Require Import Sorted.

Module Bars.

Import MusicObj Utils.

Section WithTime.
Context {T : Type}.

(** The tick of a time signature change. *)
Definition sig_tick (midi : PrettyMIDI T) (s : TimeSignature T) : Z :=
  time_to_tick midi (ts_time s).

(** The time signature changes are listed in the order of their ticks. *)
Definition sigs_in_order (midi : PrettyMIDI T) : Prop :=
  forall i j a b,
    time_signature_changes midi !! i = Some a ->
    time_signature_changes midi !! j = Some b ->
    (i <= j)%nat -> sig_tick midi a <= sig_tick midi b.

(** The bars [group_items] cuts the piece into, before any is dropped:
    the ticks of neighbouring downbeats, the end of the piece closing the
    last bar. *)
Definition bar_bounds (midi : PrettyMIDI T) : list (Z * Z) :=
  let downbeats := get_downbeats midi ++ [get_end_time midi] in
  map (fun '(db1, db2) => (time_to_tick midi db1, time_to_tick midi db2))
      (combine (removelast downbeats) (tail downbeats)).

Definition bounds (g : Group) : Z * Z := (bar_st g, bar_et g).

End WithTime.

End Bars.

Import Bars.

(** *** The encoder, bar by bar *)

(** The names of the events that follow the Bar event of a bar. *)
Definition barless_name (n : string) : bool :=
  existsb (String.eqb n)
    [TIME_SIGNATURE_KEY; POSITION_KEY; INSTRUMENT_KEY; PITCH_KEY;
     VELOCITY_KEY; DURATION_KEY; TEMPO_KEY; CHORD_KEY].

Definition barless (evs : list MusicObj.Event) : Prop :=
  Forall (fun e => barless_name (MusicObj.ename e) = true) evs.

(** A piece that changes from 4/4 to 3/4 at its second bar, and a piece
    whose first time signature comes after the first quarter note. *)
Definition two_sig_midi : PrettyMIDI Z :=
  mkPrettyMIDI Z 480 (fun t => t) 3360 [] [] [0; 1920]
    [mkTimeSignature 4 4 0; mkTimeSignature 3 4 1920].

Definition late_sig_midi : PrettyMIDI Z :=
  mkPrettyMIDI Z 480 (fun t => t) 3360 [] [] [0; 1920]
    [mkTimeSignature 4 4 480; mkTimeSignature 3 4 1920].

(** A piece in 1/64 and a piece without time signature. *)
Definition tiny_bar_midi : PrettyMIDI Z :=
  mkPrettyMIDI Z 480 (fun t => t) 3840 [] [] [0; 1920] [mkTimeSignature 1 64 0].

Definition unsigned_midi : PrettyMIDI Z :=
  mkPrettyMIDI Z 480 (fun t => t) 3840 [] [] [0; 1920] [].

Definition example_notes : list MusicObj.Item :=
  [example_note 0 480 60 (MusicObj.Program 0); example_note 1920 2400 62 MusicObj.Drum].

Definition example_pedal : MusicObj.Item :=
  MusicObj.mkItem MusicObj.Pedal 0 (Some 480) None MusicObj.PitchNone
    MusicObj.NoInstrument.

(** The two example bars as an encoder object, and the stream the encoder
    makes of them. *)
Definition two_bar_self : Midi2Remi.RemiPlus (T:=Z) :=
  Midi2Remi.mkRemiPlus two_bar_midi [] [] [] [bar_one; bar_two].

Definition two_bar_stream : list string :=
  ["Bar_1"; "Time Signature_4/4"; "Position_0"; "Chord_C:maj";
   "Position_0"; "Tempo_16"; "Position_0";
   "Instrument_Acoustic Grand Piano"; "Pitch_60"; "Velocity_16";
   "Duration_11";
   "Bar_2"; "Time Signature_4/4"; "Position_0"; "Chord_C:maj";
   "Position_0"; "Tempo_16"; "Position_0"; "Chord_D:min";
   "Position_0"; "Instrument_drum"; "Pitch_drum_62"; "Velocity_16";
   "Duration_11"]%string.

(** * Further definitions: [read_tempo_items] *)

Module TempoItems.

Import MusicObj Utils.

Section WithTime.
Context {T : Type}.

(** A tick number handed to [midi.time_to_tick] as if it were a time. *)
Variable time_of_number : Z -> T.

Fixpoint insert_by_start (x : Item) (l : list Item) : list Item :=
  match l with
  | [] => [x]
  | y :: l' => if start x <=? start y then x :: l else y :: insert_by_start x l'
  end.

(** [tempo_items.sort(key=lambda x: x.start)]: a stable sort. *)
Definition sort_by_start (items : list Item) : list Item :=
  fold_right insert_by_start [] items.

(** [np.arange(0, stop, step)] for integers and a positive step. *)
Definition arange_Z (stop step : Z) : list Z :=
  map (fun k => k * step) (range ((stop + step - 1) / step)).

(** [read_tempo_items], given what [midi.get_tempo_changes()] returns: the
    times and the tempi, zipped. *)
Definition read_tempo_items (midi : PrettyMIDI T) (tempo_changes : list (T * Q))
  : result (list Item) :=
  let tempo_items :=
    map (fun '(time, tempo) =>
           mkItem Tempo (time_to_tick midi time) None None
             (PitchInt (py_trunc tempo)) NoInstrument)
        tempo_changes in
  let tempo_items := sort_by_start tempo_items in
  let max_tick := time_to_tick midi (get_end_time midi) in
  let existing_ticks :=
    fold_left (fun d item => dict_set Z.eqb d (start item) (pitch item))
      tempo_items [] in
  let wanted_ticks := arange_Z (max_tick + 1) DEFAULT_RESOLUTION in
  foldM
    (fun output tick =>
       match dict_get Z.eqb existing_ticks tick with
       | Some p => Ok (output ++ [mkItem Tempo tick None None p NoInstrument])
       | None =>
           let start := time_to_tick midi (time_of_number tick) in
           prev ← index output (-1);
           Ok (output ++ [mkItem Tempo start None None (pitch prev) NoInstrument])
       end)
    wanted_ticks [].

(** The tempo, cut to an integer, of the last change listed at a tick. *)
Definition tempo_at (midi : PrettyMIDI T) (tempo_changes : list (T * Q))
    (tick : Z) : option Z :=
  last (map (fun c => py_trunc c.2)
          (List.filter (fun c => time_to_tick midi c.1 =? tick) tempo_changes)).

(** What the loop of [read_tempo_items] has made of the first ticks wanted:
    the item number [k] carries the tempo found at the latest tick
    [480 * j], [j <= k], that has one. *)
Definition filled (midi : PrettyMIDI T) (at_tick : Z -> option PitchVal)
    (out : list Item) : Prop :=
  forall (k : nat) item,
    out !! k = Some item ->
    name item = Tempo /\ end_ item = None /\ velocity item = None
    /\ instrument item = NoInstrument
    /\ exists (j : nat) p,
         (j <= k)%nat
         /\ at_tick (Z.of_nat j * DEFAULT_RESOLUTION) = Some p
         /\ (forall i : nat, (j < i <= k)%nat ->
               at_tick (Z.of_nat i * DEFAULT_RESOLUTION) = None)
         /\ pitch item = p
         /\ start item
            = if (j =? k)%nat then Z.of_nat k * DEFAULT_RESOLUTION
              else time_to_tick midi
                     (time_of_number (Z.of_nat k * DEFAULT_RESOLUTION)).

End WithTime.

(** A piece of two bars with a tempo change on a beat and one off the
    grid. *)
Definition example_changes : list (Z * Q) :=
  [(0, (120 # 1)%Q); (700, (90 # 1)%Q); (960, (201 # 2)%Q)].

End TempoItems.

(** * Further definitions: [vocabulary.py], the token lists *)

Module Vocabulary.

Definition MAX_BAR_LENGTH : Z := 3.
Definition MAX_N_BARS : Z := 512.
Definition CHORD_QUALITIES : list string :=
  ["maj"; "min"; "dim"; "aug"; "dom7"; "maj7"; "min7"; "None"]%string.

(** [[f(x) for x in l]] for an [f] that may raise. *)
Fixpoint mapM {A B} (f : A -> result B) (l : list A) : result (list B) :=
  match l with
  | [] => Ok []
  | x :: l' => y ← f x; ys ← mapM f l'; Ok (y :: ys)
  end.

(** [range(a, b)] *)
Definition range_from (a b : Z) : list Z := map (fun k => a + k) (range (b - a)).

Section WithTable.

(** [pretty_midi.program_to_instrument_name], a table of the library. *)
Variable program_to_instrument_name : Z -> result string.

Definition get_instrument_tokens : result (list string) :=
  names ← mapM program_to_instrument_name (range 128);
  Ok (map (fun n => INSTRUMENT_KEY ++ "_" ++ n)%string names
      ++ [(INSTRUMENT_KEY ++ "_drum")%string]).

Definition get_chord_tokens : list string :=
  let pitch_classes :=
    ["C"; "C#"; "D"; "D#"; "E"; "F"; "F#"; "G"; "G#"; "A"; "A#"; "B"]%string in
  let chords :=
    flat_map (fun root =>
                map (fun quality => root ++ ":" ++ quality)%string CHORD_QUALITIES)
             pitch_classes
    ++ ["N:N"%string] in
  map (fun chord => CHORD_KEY ++ "_" ++ chord)%string chords.

Definition get_time_signature_tokens : list string :=
  let denominators := [2; 4; 8; 16] in
  let time_sigs :=
    flat_map (fun q =>
                map (fun p => str_of_Z p ++ "/" ++ str_of_Z q)%string
                    (range_from 1 (MAX_BAR_LENGTH * q + 1)))
             denominators in
  map (fun time_sig => TIME_SIGNATURE_KEY ++ "_" ++ time_sig)%string time_sigs.

Definition get_pitch_tokens : list string :=
  map (fun i => PITCH_KEY ++ "_" ++ str_of_Z i)%string (range 128)
  ++ map (fun i => PITCH_KEY ++ "_drum_" ++ str_of_Z i)%string (range 128).

(** [[f'{key}_{i}' for i in range(n)]] *)
Definition numbered (key : string) (n : Z) : list string :=
  map (fun i => key ++ "_" ++ str_of_Z i)%string (range n).

Definition get_velocity_tokens : list string :=
  numbered VELOCITY_KEY (Z.of_nat (length DEFAULT_VELOCITY_BINS)).

Definition get_duration_tokens : list string :=
  numbered DURATION_KEY (Z.of_nat (length DEFAULT_DURATION_BINS)).

Definition get_tempo_tokens : list string :=
  numbered TEMPO_KEY (Z.of_nat (length DEFAULT_TEMPO_BINS)).

Definition get_bar_tokens : list string := numbered BAR_KEY MAX_N_BARS.

Definition get_position_token : list string :=
  numbered POSITION_KEY (MAX_BAR_LENGTH * 4 * DEFAULT_POS_PER_QUARTER).

Definition get_midi_tokens : result (list string) :=
  instrument_tokens ← get_instrument_tokens;
  Ok (get_time_signature_tokens ++ get_tempo_tokens ++ instrument_tokens
      ++ get_pitch_tokens ++ get_velocity_tokens ++ get_duration_tokens
      ++ get_bar_tokens ++ get_position_token).

(** [RemiVocab().tokens] *)
Definition RemiVocab_tokens : result (list string) :=
  midi_tokens ← get_midi_tokens;
  Ok (midi_tokens ++ get_chord_tokens).

End WithTable.

End Vocabulary.

(** * Properties *)

Import ChordRecognition.

(** ** Generic facts about the runtime *)

Section Runtime.

Lemma bind_Ok {A B} (m : result A) (k : A -> result B) (b : B) :
  (x ← m; k x) = Ok b -> exists a, m = Ok a /\ k a = Ok b.
Proof. destruct m as [a|e]; [eauto | discriminate]. Qed.

Lemma Forall_List_filter {A} (P : A -> Prop) (f : A -> bool) (l : list A) :
  Forall P l -> Forall P (List.filter f l).
Proof.
  induction 1 as [|x l Hx Hl IH]; simpl; [constructor|].
  destruct (f x); [constructor; assumption | exact IH].
Qed.

Lemma norm_index_in_range (len : nat) (i : Z) :
  0 <= i < Z.of_nat len -> norm_index len i = Some (Z.to_nat i).
Proof.
  intros H. unfold norm_index.
  destruct (Z.leb_spec 0 i), (Z.ltb_spec i (Z.of_nat len)); simpl; try lia.
  reflexivity.
Qed.

End Runtime.

(** ** [dedupe] *)

Section Dedupe.

Lemma dedupe_loop (x : Segment) (rest : list Segment) :
  forall (start end_ : Z) (chord : string) (done : list Segment),
    (let '(s', e', c', d') :=
       fold_left
         (fun '(start, end_, chord, deduped) '(curr, next_chord) =>
            let '(next_start, next_end, next_label) := (next_chord : Segment) in
            if String.eqb chord next_label
            then (start, next_end, chord, deduped)
            else (next_start, next_end, next_label,
                  deduped ++ [(start, end_, chord)]))
         (combine (removelast (x :: rest)) rest)
         (start, end_, chord, done) in
     d' ++ [(s', e', c')])
    = done ++ merge_runs start end_ chord rest.
Proof.
  revert x. induction rest as [|[[s e] l] rest IH]; intros x start end_ chord done.
  - reflexivity.
  - change (removelast (x :: (s, e, l) :: rest))
      with (x :: removelast ((s, e, l) :: rest)).
    cbn [combine fold_left merge_runs].
    destruct (String.eqb chord l).
    + apply IH.
    + rewrite IH. rewrite <- app_assoc. reflexivity.
Qed.

Lemma dedupe_merge_runs (start end_ : Z) (chord : string) (rest : list Segment) :
  dedupe ((start, end_, chord) :: rest) = merge_runs start end_ chord rest.
Proof.
  unfold dedupe. apply (dedupe_loop (start, end_, chord) rest start end_ chord []).
Qed.

Lemma merge_runs_head (start end_ : Z) (chord : string) (rest : list Segment) :
  exists e' tl, merge_runs start end_ chord rest = (start, e', chord) :: tl
                /\ distinct_neighbours chord tl.
Proof.
  revert start end_ chord.
  induction rest as [|[[s e] l] rest IH]; intros start end_ chord; simpl.
  - exists end_, []. split; [reflexivity | exact I].
  - destruct (String.eqb_spec chord l) as [->|Hne].
    + apply IH.
    + destruct (IH s e l) as (e' & tl & -> & Hd).
      exists end_, ((s, e', l) :: tl). split; [reflexivity|]. simpl. auto.
Qed.

Lemma merge_runs_fixed (start end_ : Z) (chord : string) (rest : list Segment) :
  distinct_neighbours chord rest ->
  merge_runs start end_ chord rest = (start, end_, chord) :: rest.
Proof.
  revert start end_ chord.
  induction rest as [|[[s e] l] rest IH]; intros start end_ chord; simpl.
  - reflexivity.
  - intros [Hne Hd]. destruct (String.eqb_spec chord l); [contradiction|].
    rewrite IH by assumption. reflexivity.
Qed.

(** C9: [dedupe] is idempotent. *)
Theorem dedupe_idempotent (chords : list Segment) :
  dedupe (dedupe chords) = dedupe chords.
Proof.
  destruct chords as [|[[start end_] chord] rest].
  - reflexivity.
  - rewrite dedupe_merge_runs.
    destruct (merge_runs_head start end_ chord rest) as (e' & tl & -> & Hd).
    rewrite dedupe_merge_runs. apply merge_runs_fixed. exact Hd.
Qed.

End Dedupe.

(** ** [sequencing] and [scoring] *)

Section Scoring.

Lemma dict_set_absent {V} (d : dict Z V) (k : Z) (v : V) :
  dict_get Z.eqb d k = None -> dict_set Z.eqb d k v = d ++ [(k, v)].
Proof.
  induction d as [|[k0 v0] d IH]; simpl.
  - reflexivity.
  - destruct (k =? k0); [discriminate|]. intros H. rewrite IH by exact H.
    reflexivity.
Qed.

Lemma dict_get_None_keys {V} (d : dict Z V) (k : Z) :
  ~ In k (map fst d) -> dict_get Z.eqb d k = None.
Proof.
  induction d as [|[k0 v0] d IH]; simpl; intros H.
  - reflexivity.
  - destruct (Z.eqb_spec k k0) as [->|Hne].
    + exfalso. apply H. left. reflexivity.
    + apply IH. intros Hin. apply H. right. exact Hin.
Qed.

Lemma dict_get_map_keys {A V} (f : A -> Z) (g : A -> V) (l : list A) (a : A) :
  List.NoDup (map f l) -> In a l ->
  dict_get Z.eqb (map (fun x => (f x, g x)) l) (f a) = Some (g a).
Proof.
  induction l as [|x l IH]; simpl; intros Hnd Hin; [contradiction|].
  apply List.NoDup_cons_iff in Hnd as [Hx Hnd].
  destruct Hin as [->|Hin].
  - rewrite Z.eqb_refl. reflexivity.
  - destruct (Z.eqb_spec (f a) (f x)) as [Heq|Hne].
    + exfalso. apply Hx. rewrite <- Heq. apply in_map. exact Hin.
    + apply IH; assumption.
Qed.

Lemma dict_get_map_inv {A V} (f : A -> Z) (g : A -> V) (l : list A) (k : Z) (v : V) :
  dict_get Z.eqb (map (fun x => (f x, g x)) l) k = Some v ->
  exists a, In a l /\ f a = k /\ g a = v.
Proof.
  induction l as [|x l IH]; simpl; [discriminate|].
  destruct (Z.eqb_spec k (f x)) as [->|Hne].
  - intros [= <-]. exists x. auto.
  - intros H. destruct (IH H) as (a & Ha & Hf & Hg). exists a. auto.
Qed.

(** [sequencing] lists the active roots in ascending order, each with its
    interval list. *)
Lemma sequencing_loop (chroma : list Z) (k a : nat) (acc : dict Z (list Z)) :
  (forall r, In r (map fst acc) -> r < Z.of_nat a) ->
  fold_left
    (fun candidates index =>
       match chroma !! index with
       | Some c =>
           if c =? 0 then candidates
           else
             let root_note := Z.of_nat index in
             let _chroma := np_roll chroma (- root_note) in
             let sequence := np_where_eq1 _chroma in
             dict_set Z.eqb candidates root_note sequence
       | None => candidates
       end)
    (seq a k) acc
  = acc ++ map (fun i => (Z.of_nat i, intervals chroma (Z.of_nat i)))
             (List.filter (fun i => match chroma !! i with
                               | Some c => negb (c =? 0)
                               | None => false
                               end) (seq a k)).
Proof.
  revert a acc. induction k as [|k IH]; intros a acc Hacc; simpl.
  - rewrite app_nil_r. reflexivity.
  - destruct (chroma !! a) as [c|] eqn:Hc.
    + destruct (c =? 0) eqn:Hz.
      * simpl. apply IH. intros r Hr. specialize (Hacc r Hr). lia.
      * simpl. rewrite dict_set_absent.
        2:{ apply dict_get_None_keys. intros Hin. specialize (Hacc _ Hin). lia. }
        rewrite IH.
        -- rewrite <- app_assoc. reflexivity.
        -- intros r Hr. rewrite map_app in Hr. apply in_app_or in Hr as [Hr|Hr].
           ++ specialize (Hacc r Hr). lia.
           ++ simpl in Hr. destruct Hr as [<-|[]]. lia.
    + apply IH. intros r Hr. specialize (Hacc r Hr). lia.
Qed.

Lemma sequencing_eq (chroma : list Z) :
  sequencing chroma
  = map (fun i => (Z.of_nat i, intervals chroma (Z.of_nat i))) (active_roots chroma).
Proof.
  unfold sequencing, active_roots.
  apply (sequencing_loop chroma (length chroma) 0 []).
  intros r [].
Qed.

Lemma where_eq1_increasing (a : list Z) (j : Z) :
  increasing_from j (where_eq1_from j a).
Proof.
  revert j. induction a as [|v a IH]; intros j; simpl; [exact I|].
  destruct (v =? 1); simpl.
  - split; [lia | apply IH].
  - specialize (IH (j + 1)).
    clear -IH. revert IH. generalize (where_eq1_from (j + 1) a). intros l.
    destruct l as [|x l]; simpl; [auto|]. intros [H1 H2]. split; [lia | exact H2].
Qed.

Lemma intervals_increasing (chroma : list Z) (r : Z) :
  increasing_from 0 (intervals chroma r).
Proof. apply where_eq1_increasing. Qed.

Lemma note_weight_lower (q : Quality) (n : Z) : -2 <= note_weight q n.
Proof.
  unfold note_weight.
  destruct (CHORD_MAPS q), (CHORD_OUTSIDERS_1 q), (CHORD_OUTSIDERS_2 q),
    (CHORD_INSIDERS q); try lia.
  repeat match goal with |- context [if ?b then _ else _] => destruct b end; lia.
Qed.

Lemma mem_out_of_range (n : Z) (l : list Z) :
  Forall (fun x => x < n) l -> mem n l = false.
Proof.
  unfold mem. induction 1 as [|x l Hx _ IH]; simpl; [reflexivity|].
  rewrite IH, orb_false_r. apply Z.eqb_neq. lia.
Qed.

Lemma note_weight_high (q : Quality) (n : Z) : 12 <= n -> note_weight q n = 0.
Proof.
  intros Hn. unfold note_weight.
  destruct q; cbn [CHORD_MAPS CHORD_OUTSIDERS_1 CHORD_OUTSIDERS_2 CHORD_INSIDERS];
    try reflexivity;
    rewrite !mem_out_of_range; try reflexivity;
    repeat (constructor; try lia).
Qed.

Lemma weight_sum_lower (q : Quality) (l : list Z) :
  forall lo acc, 0 <= lo -> increasing_from lo l ->
    acc - 2 * Z.max 0 (12 - lo)
    <= fold_left (fun s n => s + note_weight q n) l acc.
Proof.
  induction l as [|x l IH]; intros lo acc Hlo Hinc; simpl.
  - lia.
  - destruct Hinc as [Hx Hinc].
    specialize (IH (x + 1) (acc + note_weight q x) ltac:(lia) Hinc).
    destruct (Z.le_gt_cases 12 x) as [Hhigh|Hlow].
    + rewrite (note_weight_high q x Hhigh) in *. lia.
    + pose proof (note_weight_lower q x). lia.
Qed.

Lemma decide_score_sum (q : Quality) (sequence : list Z) :
  q <> QNone ->
  decide_score q sequence
  = Ok (fold_left (fun s n => s + note_weight q n) sequence 0).
Proof.
  intros Hq. unfold decide_score.
  destruct (CHORD_MAPS q) as [maps|] eqn:Hmaps; [|destruct q; try discriminate; congruence].
  cbn [of_option mbind result_bind Py.bind].
  match goal with
  | |- foldM ?f ?l 0 = _ =>
      enough (H : forall acc,
                 foldM f l acc
                 = Ok (fold_left (fun s n => s + note_weight q n) sequence acc))
        by apply H
  end.
  induction sequence as [|n l IH]; intros acc; simpl.
  - reflexivity.
  - assert (Hw : note_weight q n
               = if mem n maps then 0
                 else match CHORD_OUTSIDERS_1 q, CHORD_OUTSIDERS_2 q, CHORD_INSIDERS q with
                      | Some out1, Some out2, Some ins =>
                          if mem n out1 then -1 else if mem n out2 then -2
                          else if mem n ins then 10 else 0
                      | _, _, _ => 0
                      end).
    { unfold note_weight. rewrite Hmaps.
      destruct (CHORD_OUTSIDERS_1 q), (CHORD_OUTSIDERS_2 q), (CHORD_INSIDERS q);
        destruct (mem n maps); reflexivity. }
    rewrite Hw. destruct (mem n maps) eqn:Hm.
    + rewrite Z.add_0_r. apply IH.
    + cbn [negb foldM].
      destruct q; try congruence;
        cbn [CHORD_OUTSIDERS_1 CHORD_OUTSIDERS_2 CHORD_INSIDERS of_option];
        cbn [mbind result_bind Py.bind];
        repeat match goal with
               | |- context [if mem n ?l then _ else _] =>
                   destruct (mem n l); cbn [mbind result_bind Py.bind]
               end;
        rewrite ?Z.add_0_r; try apply IH;
        try (change (acc - 1) with (acc + -1); apply IH);
        try (change (acc - 2) with (acc + -2); apply IH).
Qed.

Lemma decide_quality_spec (sequence : list Z) :
  mem 3 sequence <> mem 4 sequence ->
  decide_quality sequence = Some (spec_quality sequence)
  /\ spec_quality sequence <> QNone.
Proof.
  intros H. unfold decide_quality, spec_quality.
  destruct (mem 3 sequence), (mem 4 sequence); try congruence;
    repeat match goal with |- context [if ?b then _ else _] => destruct b end;
    split; congruence.
Qed.

(** What one pass of the loop of [scoring] stores. *)
Lemma scoring_entry_rule (sequence : list Z) :
  increasing_from 0 sequence ->
  exists score quality,
    scoring_entry sequence = Ok (score, quality)
    /\ if Bool.eqb (mem 3 sequence) (mem 4 sequence)
       then quality = QNone /\ score = -100
       else quality = spec_quality sequence /\ quality <> QNone /\ score <> -100.
Proof.
  intros Hinc. unfold scoring_entry.
  destruct (mem 3 sequence) eqn:H3, (mem 4 sequence) eqn:H4; simpl.
  - exists (-100), QNone. auto.
  - destruct (decide_quality_spec sequence) as [Hq Hne]; [congruence|].
    rewrite Hq. simpl. rewrite decide_score_sum by exact Hne. simpl.
    eexists _, _. split; [reflexivity|]. repeat split; auto.
    pose proof (weight_sum_lower (spec_quality sequence) sequence 0 0 ltac:(lia) Hinc).
    lia.
  - destruct (decide_quality_spec sequence) as [Hq Hne]; [congruence|].
    rewrite Hq. simpl. rewrite decide_score_sum by exact Hne. simpl.
    eexists _, _. split; [reflexivity|]. repeat split; auto.
    pose proof (weight_sum_lower (spec_quality sequence) sequence 0 0 ltac:(lia) Hinc).
    lia.
  - exists (-100), QNone. auto.
Qed.

Lemma scoring_entry_total (sequence : list Z) :
  increasing_from 0 sequence ->
  scoring_entry sequence = Ok (entry_score sequence, entry_quality sequence).
Proof.
  intros H. destruct (scoring_entry_rule sequence H) as (s & q & Hs & _).
  unfold entry_score, entry_quality. rewrite Hs. reflexivity.
Qed.

(** [scoring] keeps the roots in the order of [candidates]. *)
Lemma scoring_loop (candidates : dict Z (list Z)) :
  forall scores qualities,
    List.NoDup (map fst scores ++ map fst candidates) ->
    map fst qualities = map fst scores ->
    Forall (fun c => increasing_from 0 c.2) candidates ->
    foldM
      (fun '(scores, qualities) '(root_note, sequence) =>
         '(score, quality) ← scoring_entry sequence;
         Ok (dict_set Z.eqb scores root_note score,
             dict_set Z.eqb qualities root_note quality))
      candidates (scores, qualities)
    = Ok (scores ++ map (fun c => (c.1, entry_score c.2)) candidates,
          qualities ++ map (fun c => (c.1, entry_quality c.2)) candidates).
Proof.
  induction candidates as [|[r sequence] candidates IH];
    intros scores qualities Hnd Hkeys Hall; simpl.
  - rewrite !app_nil_r. reflexivity.
  - apply Forall_cons in Hall as [Hseq Hall]. simpl in Hseq.
    rewrite (scoring_entry_total _ Hseq). simpl.
    assert (Hr : ~ In r (map fst scores)).
    { apply List.NoDup_remove_2 in Hnd. intros Hin. apply Hnd.
      apply in_or_app. left. exact Hin. }
    rewrite !dict_set_absent
      by (apply dict_get_None_keys; rewrite ?Hkeys; exact Hr).
    rewrite IH.
    + rewrite <- !app_assoc. reflexivity.
    + rewrite map_app. simpl. rewrite <- app_assoc. simpl.
      exact Hnd.
    + rewrite !map_app, Hkeys. reflexivity.
    + exact Hall.
Qed.

Lemma active_roots_NoDup (chroma : list Z) :
  List.NoDup (map Z.of_nat (active_roots chroma)).
Proof.
  apply Finite.Injective_map_NoDup; [intros x y; lia|].
  unfold active_roots. apply List.NoDup_filter, List.seq_NoDup.
Qed.

Lemma scoring_sequencing (chroma : list Z) :
  scoring (sequencing chroma)
  = Ok (map (fun i => (Z.of_nat i, entry_score (intervals chroma (Z.of_nat i))))
            (active_roots chroma),
        map (fun i => (Z.of_nat i, entry_quality (intervals chroma (Z.of_nat i))))
            (active_roots chroma)).
Proof.
  unfold scoring. rewrite sequencing_eq.
  rewrite (scoring_loop _ [] []).
  - simpl. rewrite !map_map. reflexivity.
  - simpl. rewrite map_map. simpl. apply active_roots_NoDup.
  - reflexivity.
  - apply List.Forall_forall. intros [r s] Hin. apply List.in_map_iff in Hin as (i & [= <- <-] & _).
    apply intervals_increasing.
Qed.

(** C6: a candidate of [sequencing] that holds both thirds or neither is
    stored by [scoring] with quality ['None'] and score -100; one that holds
    exactly one third gets the quality of the priority table, which is never
    ['None'], and a score other than -100. *)
Theorem scoring_third_rule (chroma : list Z) :
  exists scores qualities,
    scoring (sequencing chroma) = Ok (scores, qualities) /\
    forall root_note sequence,
      dict_get Z.eqb (sequencing chroma) root_note = Some sequence ->
      exists score quality,
        dict_get Z.eqb scores root_note = Some score
        /\ dict_get Z.eqb qualities root_note = Some quality
        /\ if Bool.eqb (mem 3 sequence) (mem 4 sequence)
           then quality = QNone /\ score = -100
           else quality = spec_quality sequence
                /\ quality <> QNone /\ score <> -100.
Proof.
  eexists _, _. split; [apply scoring_sequencing|].
  intros root_note sequence Hget. rewrite sequencing_eq in Hget.
  apply (dict_get_map_inv Z.of_nat) in Hget as (i & Hi & <- & <-).
  pose proof (active_roots_NoDup chroma) as Hnd.
  exists (entry_score (intervals chroma (Z.of_nat i))),
         (entry_quality (intervals chroma (Z.of_nat i))).
  split; [|split].
  - apply (dict_get_map_keys Z.of_nat
             (fun i => entry_score (intervals chroma (Z.of_nat i)))); assumption.
  - apply (dict_get_map_keys Z.of_nat
             (fun i => entry_quality (intervals chroma (Z.of_nat i)))); assumption.
  - destruct (scoring_entry_rule _ (intervals_increasing chroma (Z.of_nat i)))
      as (s & q & Hs & Hrule).
    unfold entry_score, entry_quality. rewrite Hs. exact Hrule.
Qed.

End Scoring.

(** ** [find_chord] *)

Section FindChord.

Lemma binarize_binary (chroma : list (list Z)) (threshold : Z) :
  binary (binarize chroma threshold).
Proof.
  unfold binary, binarize. rewrite map_map. apply List.Forall_forall.
  intros v Hv. apply List.in_map_iff in Hv as (row & <- & _).
  destruct (threshold <? _); auto.
Qed.

Lemma binarize_length (chroma : list (list Z)) (threshold : Z) :
  length (binarize chroma threshold) = length chroma.
Proof. unfold binarize. rewrite !length_map. reflexivity. Qed.

Lemma filter_map_comm {A B} (p : B -> bool) (f : A -> B) (l : list A) :
  List.filter p (map f l) = map f (List.filter (fun x => p (f x)) l).
Proof.
  induction l as [|x l IH]; simpl; [reflexivity|].
  destruct (p (f x)); simpl; rewrite IH; reflexivity.
Qed.

Lemma filter_twice {A} (p q : A -> bool) (l : list A) :
  List.filter p (List.filter q l) = List.filter (fun x => q x && p x) l.
Proof.
  induction l as [|x l IH]; simpl; [reflexivity|].
  destruct (q x); simpl; [destruct (p x)|]; rewrite IH; reflexivity.
Qed.

Lemma find_head_filter {A} (p : A -> bool) (l : list A) :
  find p l = head (List.filter p l).
Proof.
  induction l as [|x l IH]; simpl; [reflexivity|].
  destruct (p x); [reflexivity | exact IH].
Qed.

Lemma filter_agree {A} (p q : A -> bool) (l : list A) :
  (forall x, In x l -> p x = q x) -> List.filter p l = List.filter q l.
Proof.
  induction l as [|x l IH]; simpl; intros H; [reflexivity|].
  rewrite (H x) by (left; reflexivity).
  rewrite IH by (intros; apply H; right; assumption). reflexivity.
Qed.

(** The first hit of a filter over [seq] is the least hit. *)
Lemma filter_seq_head (p : nat -> bool) (k a x : nat) (tl : list nat) :
  List.filter p (seq a k) = x :: tl ->
  p x = true /\ (a <= x < a + k)%nat
  /\ forall y, (a <= y < a + k)%nat -> p y = true -> (x <= y)%nat.
Proof.
  revert a. induction k as [|k IH]; intros a; simpl; [discriminate|].
  destruct (p a) eqn:Hp.
  - intros [= <- _]. repeat split; auto; lia.
  - intros H. destruct (IH _ H) as (Hx & Hr & Hmin).
    repeat split; auto; try lia.
    intros y Hy Hpy. destruct (Nat.eq_dec y a) as [->|]; [congruence|].
    apply Hmin; auto. lia.
Qed.

Lemma filter_seq_In (p : nat -> bool) (k a x : nat) :
  In x (List.filter p (seq a k)) <-> (a <= x < a + k)%nat /\ p x = true.
Proof. rewrite List.filter_In, List.in_seq. reflexivity. Qed.

Lemma active_roots_cons (x : Z) (b : list Z) :
  active_roots (x :: b)
  = (if negb (x =? 0) then [0%nat] else []) ++ map S (active_roots b).
Proof.
  unfold active_roots. cbn [length seq List.filter lookup list_lookup].
  rewrite <- List.seq_shift, filter_map_comm.
  destruct (negb (x =? 0)); reflexivity.
Qed.

Lemma active_roots_In (b : list Z) (i : nat) :
  binary b -> In i (active_roots b) <-> b !! i = Some 1.
Proof.
  intros Hb. unfold active_roots. rewrite filter_seq_In.
  split.
  - intros [_ H]. destruct (b !! i) as [c|] eqn:Hc; [|discriminate].
    assert (c = 0 \/ c = 1) as [->| ->].
    { eapply (proj1 (List.Forall_forall _ _) Hb), list_elem_of_In,
        list_elem_of_lookup_2, Hc. }
    + discriminate.
    + reflexivity.
  - intros H. rewrite H. split; [|reflexivity].
    apply lookup_lt_Some in H. lia.
Qed.

Lemma active_notes_roots (b : list Z) :
  forall j, binary b ->
    active_notes_from j b
    = map (fun i => (j + Z.of_nat i) mod 12) (active_roots b).
Proof.
  induction b as [|x b IH]; intros j Hb; [reflexivity|].
  apply Forall_cons in Hb as [Hx Hb].
  rewrite active_roots_cons. cbn [active_notes_from].
  rewrite map_app, map_map, (IH (j + 1) Hb).
  destruct Hx as [-> | ->]; simpl.
  - apply map_ext. intros i. f_equal. lia.
  - rewrite Z.add_0_r. f_equal. apply map_ext. intros i. f_equal. lia.
Qed.

Lemma sum_binary (b : list Z) :
  forall acc, binary b ->
    acc <= fold_left Z.add b acc
    /\ (fold_left Z.add b acc = acc -> active_roots b = []).
Proof.
  induction b as [|x b IH]; intros acc Hb; simpl.
  - split; [lia | reflexivity].
  - apply Forall_cons in Hb as [Hx Hb].
    destruct (IH (acc + x) Hb) as [Hle Hz].
    rewrite active_roots_cons.
    destruct Hx as [-> | ->]; simpl.
    + rewrite Z.add_0_r in *. split; [lia|]. intros H. rewrite (Hz H). reflexivity.
    + split; [lia|]. intros H. lia.
Qed.

Lemma max_list_spec (x : Z) (l : list Z) :
  exists m, max_list (x :: l) = Ok m /\ In m (x :: l)
            /\ forall y, In y (x :: l) -> y <= m.
Proof.
  unfold max_list. eexists. split; [reflexivity|].
  revert x. induction l as [|y l IH]; intros x; simpl.
  - split; [auto|]. intros ? [<-|[]]. lia.
  - destruct (IH (Z.max x y)) as [Hin Hmax]. split.
    + destruct Hin as [Hin|Hin]; [|auto].
      rewrite <- Hin. destruct (Z.max_spec x y) as [[_ ->]|[_ ->]]; auto.
    + intros z [<-|[<-|Hz]].
      * specialize (Hmax (Z.max x y) (or_introl eq_refl)). lia.
      * specialize (Hmax (Z.max x y) (or_introl eq_refl)). lia.
      * apply Hmax. right. exact Hz.
Qed.

Lemma index_in_range {A} (l : list A) (i : nat) (x : A) :
  l !! i = Some x -> index l (Z.of_nat i) = Ok x.
Proof.
  intros H. unfold index.
  rewrite norm_index_in_range by (apply lookup_lt_Some in H; lia).
  rewrite Nat2Z.id, H. reflexivity.
Qed.

Lemma mem_In (x : Z) (l : list Z) : mem x l = true <-> In x l.
Proof.
  unfold mem. rewrite List.existsb_exists. split.
  - intros (y & Hy & Heq). apply Z.eqb_eq in Heq. subst. exact Hy.
  - intros H. exists x. split; [exact H | apply Z.eqb_refl].
Qed.

(** C7: on a twelve-row window with an active pitch class, [find_chord]
    returns as root the active pitch class of greatest score, the least such
    class when several reach the greatest score; the quality and the score
    returned are the ones stored for that root, and the bass is the least
    active class. *)
Theorem find_chord_root (chroma : list (list Z)) (threshold : Z) :
  length chroma = 12%nat ->
  (exists i, binarize chroma threshold !! i = Some 1) ->
  exists (root bass : nat) scores qualities score quality root_name bass_name,
    find_chord chroma threshold
    = Ok (root_name, quality_str quality, bass_name, score)
    /\ scoring (sequencing (binarize chroma threshold)) = Ok (scores, qualities)
    /\ (forall i : nat,
          is_Some (dict_get Z.eqb scores (Z.of_nat i))
          <-> binarize chroma threshold !! i = Some 1)
    /\ PITCH_CLASSES !! root = Some root_name
    /\ PITCH_CLASSES !! bass = Some bass_name
    /\ binarize chroma threshold !! bass = Some 1
    /\ (forall i, binarize chroma threshold !! i = Some 1 -> (bass <= i)%nat)
    /\ dict_get Z.eqb scores (Z.of_nat root) = Some score
    /\ dict_get Z.eqb qualities (Z.of_nat root) = Some quality
    /\ (forall r s, dict_get Z.eqb scores r = Some s ->
          s <= score /\ (s = score -> Z.of_nat root <= r)).
Proof.
  intros Hlen [i0 Hi0].
  set (b := binarize chroma threshold) in *.
  assert (Hb : binary b) by apply binarize_binary.
  assert (Hblen : length b = 12%nat)
    by (unfold b; rewrite binarize_length; exact Hlen).
  set (A := active_roots b).
  assert (HA : forall i, In i A <-> b !! i = Some 1)
    by (intros; apply active_roots_In; exact Hb).
  assert (HA12 : forall i, In i A -> (i < 12)%nat).
  { intros i Hi. apply HA, lookup_lt_Some in Hi. lia. }
  assert (Hnd : List.NoDup (map Z.of_nat A)) by apply active_roots_NoDup.
  (* the bass: head of the active classes *)
  assert (HAne : exists bass A', A = bass :: A').
  { destruct A as [|x l]; [exfalso; apply HA in Hi0; exact Hi0 | eauto]. }
  destruct HAne as (bass & A' & EA).
  assert (Hbass : forall y, In y A -> (bass <= y)%nat).
  { intros y Hy. unfold A, active_roots in EA, Hy.
    destruct (filter_seq_head _ _ _ _ _ EA) as (_ & _ & Hmin).
    apply filter_seq_In in Hy as [Hr Hp]. apply Hmin; auto. }
  (* the maximum score and the roots reaching it *)
  assert (Hmax : exists m, max_list (map (root_score b) A) = Ok m
                    /\ In m (map (root_score b) A)
                    /\ forall y, In y (map (root_score b) A) -> y <= m).
  { rewrite EA. apply max_list_spec. }
  destruct Hmax as (m & Hm & Hmin & Hmmax).
  set (R := List.filter (fun i => root_score b i =? m) A).
  assert (HR : exists root R', R = root :: R').
  { apply List.in_map_iff in Hmin as (i & Hi & HiA).
    assert (HiR : In i R).
    { unfold R. apply List.filter_In. split; [exact HiA | apply Z.eqb_eq, Hi]. }
    destruct R as [|x l]; [destruct HiR | eauto]. }
  destruct HR as (root & R' & ER).
  assert (HrootR : In root R) by (rewrite ER; left; reflexivity).
  apply List.filter_In in HrootR as [HrootA Hrootm]. apply Z.eqb_eq in Hrootm.
  assert (Hrootmin : forall y, In y A -> root_score b y = m -> (root <= y)%nat).
  { intros y Hy Hym. unfold R, A, active_roots in ER, Hy.
    rewrite filter_twice in ER.
    destruct (filter_seq_head _ _ _ _ _ ER) as (_ & _ & Hmin').
    apply filter_seq_In in Hy as [Hr Hp].
    apply Hmin'; [exact Hr|]. rewrite Hp. simpl. apply Z.eqb_eq, Hym. }
  destruct (lookup_lt_is_Some_2 PITCH_CLASSES root) as [root_name Hrn].
  { simpl. apply HA12. exact HrootA. }
  destruct (lookup_lt_is_Some_2 PITCH_CLASSES bass) as [bass_name Hbn].
  { simpl. apply HA12. rewrite EA. left. reflexivity. }
  exists root, bass,
    (map (fun i => (Z.of_nat i, root_score b i)) A),
    (map (fun i => (Z.of_nat i, root_quality b i)) A),
    m, (root_quality b root), root_name, bass_name.
  assert (Hscoring : scoring (sequencing b)
                     = Ok (map (fun i => (Z.of_nat i, root_score b i)) A,
                           map (fun i => (Z.of_nat i, root_quality b i)) A))
    by apply scoring_sequencing.
  assert (Hgs : dict_get Z.eqb (map (fun i => (Z.of_nat i, root_score b i)) A)
                  (Z.of_nat root) = Some m).
  { rewrite <- Hrootm.
    apply (dict_get_map_keys Z.of_nat (root_score b)); assumption. }
  assert (Hgq : dict_get Z.eqb (map (fun i => (Z.of_nat i, root_quality b i)) A)
                  (Z.of_nat root) = Some (root_quality b root)).
  { apply (dict_get_map_keys Z.of_nat (root_quality b)); assumption. }
  split.
  { (* the run of [find_chord] *)
    unfold find_chord. fold b.
    destruct (sum_binary b 0 Hb) as [_ Hsum].
    destruct (fold_left Z.add b 0 =? 0) eqn:Hz.
    { apply Z.eqb_eq in Hz. apply Hsum in Hz. fold A in Hz.
      rewrite EA in Hz. discriminate. }
    rewrite Hscoring. cbn [mbind result_bind Py.bind].
    rewrite (active_notes_roots b 0 Hb). fold A.
    assert (Hnotes : map (fun i => (0 + Z.of_nat i) mod 12) A = map Z.of_nat A).
    { apply List.map_ext_in. intros i Hi. apply HA12 in Hi.
      rewrite Z.add_0_l, Z.mod_small; lia. }
    rewrite Hnotes.
    replace (index (map Z.of_nat A) 0) with (Ok (A:=Z) (Z.of_nat bass))
      by (rewrite EA; reflexivity).
    cbn [mbind result_bind Py.bind].
    rewrite map_map. cbn [snd].
    change (map (fun x : nat => root_score b x) A) with (map (root_score b) A).
    rewrite Hm. cbn [mbind result_bind Py.bind].
    rewrite (filter_map_comm (fun '(_, score) => score =? m)
               (fun i => (Z.of_nat i, root_score b i)) A).
    cbv beta iota. fold R. rewrite map_map. cbn [fst].
    assert (Hroot :
      (if (length (map Z.of_nat R) =? 1)%nat then index (map Z.of_nat R) 0
       else of_option UnboundLocalError
              (find (fun n => mem n (map Z.of_nat R)) (map Z.of_nat A)))
      = Ok (Z.of_nat root)).
    { destruct (length (map Z.of_nat R) =? 1)%nat.
      - rewrite ER. reflexivity.
      - rewrite find_head_filter, filter_map_comm.
        rewrite (filter_agree _ (fun i => root_score b i =? m)).
        + fold R. rewrite ER. reflexivity.
        + intros x Hx.
          destruct (root_score b x =? m) eqn:Hxm.
          * apply mem_In, in_map. unfold R. apply List.filter_In. auto.
          * destruct (mem (Z.of_nat x) (map Z.of_nat R)) eqn:Hmem; [|reflexivity].
            apply mem_In, List.in_map_iff in Hmem as (y & Hy & HyR).
            apply Nat2Z.inj in Hy. subst y.
            unfold R in HyR. apply List.filter_In in HyR as [_ HyR]. congruence. }
    change (map (fun x : nat => Z.of_nat x) R) with (map Z.of_nat R).
    rewrite Hroot. cbn [mbind result_bind Py.bind].
    rewrite Hgq, Hgs. cbn [of_option mbind result_bind Py.bind].
    rewrite (index_in_range _ _ _ Hrn), (index_in_range _ _ _ Hbn).
    reflexivity. }
  split; [exact Hscoring|].
  split.
  { intros i. rewrite <- HA. split.
    - intros [s Hs]. apply (dict_get_map_inv Z.of_nat) in Hs as (a & Ha & Hi & _).
      apply Nat2Z.inj in Hi. subst a. exact Ha.
    - intros Hi. eexists.
      apply (dict_get_map_keys Z.of_nat (root_score b)); assumption. }
  split; [exact Hrn|]. split; [exact Hbn|].
  split; [apply HA; rewrite EA; left; reflexivity|].
  split; [intros i Hi; apply Hbass, HA, Hi|].
  split; [exact Hgs|]. split; [exact Hgq|].
  intros r s Hs. apply (dict_get_map_inv Z.of_nat) in Hs as (a & Ha & <- & <-).
  split.
  - apply Hmmax. apply in_map. exact Ha.
  - intros Hs. apply inj_le. apply Hrootmin; assumption.
Qed.

End FindChord.

(** ** [dynamic] *)

Section Dynamic.

Lemma find_chord_root_witness :
  length c_major_window = 12%nat
  /\ (exists i, binarize c_major_window 10 !! i = Some 1)
  /\ exists c, find_chord c_major_window 10 = Ok c.
Proof.
  split; [reflexivity|]. split; [exists 0%nat; reflexivity|].
  destruct (find_chord_root c_major_window 10 eq_refl
              (ex_intro _ 0%nat eq_refl))
    as (? & ? & ? & ? & ? & ? & ? & ? & H & _).
  eexists. exact H.
Defined.

Lemma chain_le (segs : list Segment) : forall lo hi, chain lo hi segs -> lo <= hi.
Proof.
  induction segs as [|seg rest IH]; intros lo hi; simpl.
  - lia.
  - intros (_ & Hlt & Hc). apply IH in Hc. lia.
Qed.

Lemma chain_app (l1 l2 : list Segment) :
  forall lo mid hi, chain lo mid l1 -> chain mid hi l2 -> chain lo hi (l1 ++ l2).
Proof.
  induction l1 as [|seg l1 IH]; intros lo mid hi; simpl.
  - intros -> H. exact H.
  - intros (Hs & Hlt & Hc) H2. repeat split; auto. eapply IH; eauto.
Qed.

Lemma chain_bounds (segs : list Segment) :
  forall lo hi, chain lo hi segs ->
    forall i a, segs !! i = Some a ->
      lo <= seg_start a /\ seg_start a < seg_end a /\ seg_end a <= hi.
Proof.
  induction segs as [|seg rest IH]; intros lo hi Hc i a Hi; [discriminate|].
  destruct Hc as (Hs & Hlt & Hc). pose proof (chain_le _ _ _ Hc).
  destruct i as [|i]; simpl in Hi.
  - injection Hi as <-. lia.
  - destruct (IH _ _ Hc i a Hi). lia.
Qed.

Lemma chain_ordered (segs : list Segment) :
  forall lo hi, chain lo hi segs ->
    forall i j a b, (i < j)%nat -> segs !! i = Some a -> segs !! j = Some b ->
      seg_end a <= seg_start b.
Proof.
  induction segs as [|seg rest IH]; intros lo hi Hc i j a b Hij Hi Hj;
    [discriminate|].
  destruct Hc as (Hs & Hlt & Hc).
  destruct j as [|j]; [lia|]. simpl in Hj.
  destruct i as [|i]; simpl in Hi.
  - injection Hi as <-. destruct (chain_bounds _ _ _ Hc j b Hj). lia.
  - eapply (IH _ _ Hc i j); eauto. lia.
Qed.

Lemma chain_link (segs : list Segment) :
  forall lo hi, chain lo hi segs ->
    forall i a b, segs !! i = Some a -> segs !! S i = Some b ->
      seg_start b = seg_end a.
Proof.
  induction segs as [|seg rest IH]; intros lo hi Hc i a b Hi Hj; [discriminate|].
  destruct Hc as (Hs & Hlt & Hc).
  destruct i as [|i]; simpl in Hi, Hj.
  - injection Hi as <-. destruct rest as [|seg' rest']; [discriminate|].
    simpl in Hj. injection Hj as <-. destruct Hc as (Hs' & _). exact Hs'.
  - eapply IH; eauto.
Qed.

Lemma chain_covers (segs : list Segment) :
  forall lo hi, chain lo hi segs ->
    forall t, lo <= t < hi ->
      exists i a, segs !! i = Some a /\ seg_start a <= t < seg_end a.
Proof.
  induction segs as [|seg rest IH]; intros lo hi Hc t Ht; simpl in Hc.
  - lia.
  - destruct Hc as (Hs & Hlt & Hc).
    destruct (Z.lt_ge_cases t (seg_end seg)) as [Hin|Hout].
    + exists 0%nat, seg. split; [reflexivity | lia].
    + destruct (IH _ _ Hc t ltac:(lia)) as (i & a & Hi & Ha).
      exists (S i), a. auto.
Qed.

Lemma chain_last (segs : list Segment) :
  forall lo hi, chain lo hi segs -> segs <> [] ->
    exists lst, last segs = Some lst /\ seg_end lst = hi.
Proof.
  induction segs as [|seg rest IH]; intros lo hi Hc Hne; [congruence|].
  destruct Hc as (Hs & Hlt & Hc).
  destruct rest as [|seg' rest'].
  - simpl in Hc. exists seg. split; [reflexivity | exact Hc].
  - destruct (IH _ _ Hc ltac:(discriminate)) as (lst & Hl & He).
    exists lst. split; [exact Hl | exact He].
Qed.

(** A chain from 0 to [max_tick > 0] is a tiling of [[0, max_tick)]. *)
Lemma chain_covers_once (segs : list Segment) (max_tick : Z) :
  0 < max_tick -> chain 0 max_tick segs -> covers_once segs max_tick.
Proof.
  intros Hpos Hc.
  assert (Hne : segs <> []) by (intros ->; simpl in Hc; lia).
  repeat split.
  - destruct segs as [|seg rest]; [congruence|].
    exists seg. split; [reflexivity | apply Hc].
  - eapply chain_last; eauto.
  - eapply chain_link; eauto.
  - intros a Ha. apply list_elem_of_In, list_elem_of_lookup in Ha as [i Hi].
    destruct (chain_bounds _ _ _ Hc i a Hi). lia.
  - eapply chain_ordered; eauto.
  - intros t Ht. destruct (chain_covers _ _ _ Hc t Ht) as (i & a & Hi & Ha).
    exists i, a. repeat split; try lia; auto.
    intros j b Hj Hb.
    destruct (Nat.lt_trichotomy j i) as [Hlt|[Heq|Hgt]]; [|exact Heq|].
    + pose proof (chain_ordered _ _ _ Hc j i b a Hlt Hj Hi). lia.
    + pose proof (chain_ordered _ _ _ Hc i j a b Hgt Hi Hj). lia.
Qed.

Lemma read_path_done (fuel : nat) chords (t : Z) results :
  t <= 0 -> read_path fuel chords t results = Some (Ok results).
Proof.
  intros Ht. destruct fuel; simpl;
    destruct (Z.ltb_spec 0 t); try lia; reflexivity.
Qed.

(** Backtracking from a reachable position follows the predecessor pointers
    down to 0. *)
Lemma read_path_chain (n : nat) (chords : list (option Segment))
    (scores : list npfloat) :
  dp_inv n (chords, scores) ->
  forall (fuel t : nat) results,
    (t < n)%nat -> (t <= fuel)%nat -> finite_at scores t ->
    exists path,
      read_path fuel chords (Z.of_nat t) results = Some (Ok (results ++ path))
      /\ chain 0 (Z.of_nat t) (reverse path).
Proof.
  intros (Hlc & Hls & Hptr & Hset) fuel.
  induction fuel as [|fuel IH]; intros t results Htn Htf Hfin.
  - assert (t = 0)%nat as -> by lia. exists [].
    rewrite read_path_done by lia. rewrite app_nil_r. split; reflexivity.
  - destruct t as [|t'].
    + exists []. rewrite read_path_done by lia. rewrite app_nil_r.
      split; reflexivity.
    + set (t := S t') in *.
      destruct (Hset t ltac:(lia) Hfin) as (seg & Hseg).
      destruct (Hptr t seg Hseg) as (Hend & Hstart & Hfs).
      cbn [read_path].
      destruct (Z.ltb_spec 0 (Z.of_nat t)); [|lia].
      unfold index. rewrite norm_index_in_range by lia.
      rewrite Nat2Z.id, Hseg. cbn [of_option].
      change (seg.1.1) with (seg_start seg).
      destruct (IH (Z.to_nat (seg_start seg)) (results ++ [seg])
                  ltac:(lia) ltac:(lia) Hfs) as (path & Hpath & Hchain).
      rewrite Z2Nat.id in Hpath, Hchain by lia.
      exists (seg :: path). split.
      * rewrite Hpath, <- app_assoc. reflexivity.
      * rewrite reverse_cons. eapply chain_app; [exact Hchain|].
        simpl. repeat split; lia.
Qed.

Lemma finite_at_insert (scores : list npfloat) (k e : nat) (z : Z) :
  finite_at scores k -> finite_at (<[e := Fin z]> scores) k.
Proof.
  intros [x Hx]. unfold finite_at.
  destruct (Nat.eq_dec e k) as [->|Hne].
  - exists z. apply list_lookup_insert_eq. apply lookup_lt_Some in Hx. exact Hx.
  - exists x. rewrite list_lookup_insert_ne by exact Hne. exact Hx.
Qed.

Lemma index_lookup {A} (l : list A) (i : Z) (x : A) :
  0 <= i -> l !! Z.to_nat i = Some x -> index l i = Ok x.
Proof.
  intros Hi H. unfold index.
  rewrite norm_index_in_range by (apply lookup_lt_Some in H; lia).
  rewrite H. reflexivity.
Qed.

(** One relaxation keeps the invariant, keeps finite scores finite, and
    leaves the end of the window reachable. *)
Lemma relax_inv (n : nat) (start_tick end_tick : Z) (c : Cand) (st : DpState) :
  dp_inv n st ->
  0 <= start_tick < end_tick -> end_tick < Z.of_nat n ->
  finite_at st.2 (Z.to_nat start_tick) ->
  exists st',
    relax start_tick st (end_tick, c) = Ok st'
    /\ dp_inv n st'
    /\ (forall k, finite_at st.2 k -> finite_at st'.2 k)
    /\ finite_at st'.2 (Z.to_nat end_tick).
Proof.
  destruct st as [chords scores]. destruct c as [[[root_note quality] bass_note] score].
  intros (Hlc & Hls & Hptr & Hset) Hse Hen [z Hz]. cbn [snd] in *.
  unfold relax.
  destruct (lookup_lt_is_Some_2 scores (Z.to_nat end_tick)) as [s_end Hs_end];
    [lia|].
  rewrite (index_lookup scores end_tick s_end) by (auto; lia).
  rewrite (index_lookup scores start_tick (Fin z)) by (auto; lia).
  cbn [of_option mbind result_bind Py.bind float_add].
  destruct (float_ltb s_end (Fin (z + score))) eqn:Hlt.
  - unfold set_index. rewrite !norm_index_in_range by lia.
    cbn [mbind result_bind Py.bind].
    eexists. split; [reflexivity|]. cbn [snd].
    split; [|split].
    + unfold dp_inv. rewrite !length_insert.
      split; [exact Hlc|]. split; [exact Hls|]. split.
      * intros t seg H.
        destruct (Nat.eq_dec t (Z.to_nat end_tick)) as [->|Hne].
        -- rewrite list_lookup_insert_eq in H by lia.
           injection H as <-. unfold seg_end, seg_start. cbn [fst snd].
           split; [lia|]. split; [lia|].
           apply finite_at_insert. exists z. exact Hz.
        -- rewrite list_lookup_insert_ne in H by auto.
           destruct (Hptr t seg H) as (He & Hs & Hf).
           split; [exact He|]. split; [exact Hs|].
           apply finite_at_insert, Hf.
      * intros t Ht Hfin.
        destruct (Nat.eq_dec t (Z.to_nat end_tick)) as [->|Hne].
        -- eexists. apply list_lookup_insert_eq. lia.
        -- rewrite list_lookup_insert_ne by auto. apply Hset; [exact Ht|].
           destruct Hfin as [x Hx]. rewrite list_lookup_insert_ne in Hx by auto.
           exists x. exact Hx.
    + intros k. apply finite_at_insert.
    + eexists. apply list_lookup_insert_eq. lia.
  - eexists. split; [reflexivity|]. cbn [snd].
    split; [|split].
    + unfold dp_inv. auto.
    + auto.
    + destruct s_end as [|x]; [discriminate|]. exists x. exact Hs_end.
Qed.

(** The loop over the windows that start at [start_tick]. *)
Lemma relax_all_inv (n : nat) (start_tick : Z) (inner : dict Z Cand) :
  forall st,
    dp_inv n st ->
    0 <= start_tick ->
    (forall e c, In (e, c) inner -> start_tick < e /\ e < Z.of_nat n) ->
    finite_at st.2 (Z.to_nat start_tick) ->
    exists st',
      foldM (relax start_tick) inner st = Ok st'
      /\ dp_inv n st'
      /\ (forall k, finite_at st.2 k -> finite_at st'.2 k)
      /\ (forall e c, In (e, c) inner -> finite_at st'.2 (Z.to_nat e)).
Proof.
  induction inner as [|[e c] inner IH]; intros st Hinv Hs Hwin Hfin.
  - exists st. simpl. split; [reflexivity|]. split; [exact Hinv|].
    split; [auto|]. intros e c [].
  - destruct (Hwin e c (or_introl eq_refl)) as [Hse Hen].
    destruct (relax_inv n start_tick e c st Hinv ltac:(lia) Hen Hfin)
      as (st1 & Hr & Hinv1 & Hmono1 & Hfe).
    destruct (IH st1 Hinv1 Hs) as (st' & Hf & Hinv' & Hmono' & Hall).
    { intros e' c' Hin. apply (Hwin e' c'). right. exact Hin. }
    { apply Hmono1, Hfin. }
    exists st'. cbn [foldM]. rewrite Hr. cbn [mbind result_bind Py.bind].
    split; [exact Hf|]. split; [exact Hinv'|]. split; [auto|].
    intros e' c' [[= <- <-]|Hin]; [apply Hmono', Hfe | apply (Hall e' c' Hin)].
Qed.

Lemma dict_get_In {V} (d : dict Z V) (k : Z) (v : V) :
  dict_get Z.eqb d k = Some v -> In (k, v) d.
Proof.
  induction d as [|[k0 v0] d IH]; simpl; [discriminate|].
  destruct (Z.eqb_spec k k0) as [->|Hne].
  - intros [= <-]. left. reflexivity.
  - intros H. right. apply IH, H.
Qed.

(** The forward pass from [a] on: every later position becomes reachable. *)
Lemma forward_inv (candidates : dict Z (dict Z Cand)) (max_tick : Z) (k : nat) :
  forall (a : nat) st,
    has_unit_candidates candidates max_tick ->
    forward_windows candidates max_tick ->
    Z.of_nat (a + k) = max_tick ->
    dp_inv (S (a + k)) st ->
    (forall t, (t <= a)%nat -> finite_at st.2 t) ->
    exists st',
      foldM
        (fun st start_tick =>
           match dict_get Z.eqb candidates start_tick with
           | Some inner => foldM (relax start_tick) inner st
           | None => Ok st
           end)
        (map Z.of_nat (seq a k)) st = Ok st'
      /\ dp_inv (S (a + k)) st'
      /\ (forall t, (t <= a + k)%nat -> finite_at st'.2 t).
Proof.
  induction k as [|k IH]; intros a st Hunit Hfwd Hmax Hinv Hreach.
  - exists st. simpl. rewrite Nat.add_0_r in *. auto.
  - cbn [seq map foldM].
    destruct (Hunit (Z.of_nat a) ltac:(lia)) as (inner & c & Hinner & Hc).
    rewrite Hinner.
    destruct (relax_all_inv (S (a + S k)) (Z.of_nat a) inner st Hinv ltac:(lia))
      as (st1 & Hf & Hinv1 & Hmono & Hall).
    { intros e c' Hin.
      pose proof (Hfwd (Z.of_nat a) inner e c' ltac:(lia) Hinner Hin). lia. }
    { rewrite Nat2Z.id. apply Hreach. lia. }
    rewrite Hf. cbn [mbind result_bind Py.bind].
    replace (a + S k)%nat with (S a + k)%nat in * by lia.
    destruct (IH (S a) st1 Hunit Hfwd Hmax Hinv1) as (st' & Hf' & Hinv' & Hreach').
    { intros t Ht. destruct (Nat.eq_dec t (S a)) as [->|Hne].
      - apply dict_get_In in Hc. apply (Hall _ _) in Hc.
        replace (Z.to_nat (Z.of_nat a + 1)) with (S a) in Hc by lia. exact Hc.
      - apply Hmono, Hreach. lia. }
    exists st'. auto.
Qed.

Lemma init_state_inv (max_tick : Z) :
  0 <= max_tick ->
  exists st,
    init_state max_tick = Ok st
    /\ dp_inv (S (Z.to_nat max_tick)) st
    /\ finite_at st.2 0.
Proof.
  intros Hm. unfold init_state.
  destruct (Z.ltb_spec (max_tick + 1) 0); [lia|].
  replace (Z.to_nat (max_tick + 1)) with (S (Z.to_nat max_tick)) by lia.
  eexists. split; [reflexivity|]. cbn [snd]. split.
  - unfold dp_inv. cbn [length]. rewrite !length_replicate.
    split; [reflexivity|]. split; [reflexivity|]. split.
    + intros t seg Hl. apply lookup_replicate in Hl as [Hl _]. discriminate.
    + intros t Ht [z Hz]. destruct t as [|t]; [lia|]. simpl in Hz.
      apply lookup_replicate in Hz as [Hz _]. discriminate.
  - exists 0. reflexivity.
Qed.

(** The result of [dynamic] on a table of forward windows that holds every
    one-beat window. *)
Lemma dynamic_chain (candidates : dict Z (dict Z Cand)) (max_tick : Z) (fuel : nat) :
  0 <= max_tick ->
  has_unit_candidates candidates max_tick ->
  forward_windows candidates max_tick ->
  (Z.to_nat max_tick <= fuel)%nat ->
  exists segs,
    dynamic fuel candidates max_tick = Some (Ok segs)
    /\ chain 0 max_tick segs.
Proof.
  intros Hm Hunit Hfwd Hfuel.
  destruct (init_state_inv max_tick Hm) as (st0 & Hinit & Hinv0 & Hfin0).
  destruct (forward_inv candidates max_tick (Z.to_nat max_tick) 0 st0
              Hunit Hfwd ltac:(lia) Hinv0)
    as ([chords scores] & Hfwd' & Hinv & Hreach).
  { intros t Ht. assert (t = 0)%nat as -> by lia. exact Hfin0. }
  unfold dynamic, forward, range. rewrite Hinit. cbn [mbind result_bind Py.bind].
  rewrite Hfwd'.
  pose proof Hinv as (Hlc & _).
  cbn [Nat.add] in Hlc, Hinv, Hreach.
  rewrite Hlc.
  replace (Z.of_nat (S (Z.to_nat max_tick)) - 1) with (Z.of_nat (Z.to_nat max_tick))
    by lia.
  destruct (read_path_chain (S (Z.to_nat max_tick)) chords scores Hinv fuel
              (Z.to_nat max_tick) [] ltac:(lia) Hfuel
              (Hreach (Z.to_nat max_tick) ltac:(lia)))
    as (path & Hpath & Hchain).
  rewrite Hpath. eexists. split; [reflexivity|].
  rewrite Z2Nat.id in Hchain by lia. exact Hchain.
Qed.

(** C2, as amended: for [max_tick > 0] and a candidate table that holds
    every one-beat window and whose windows all run forward and end at or
    before [max_tick], [dynamic] returns (given [max_tick] steps of
    backtracking) a list of segments that tiles [[0, max_tick)] exactly
    once. *)
Theorem dynamic_covers_once (candidates : dict Z (dict Z Cand)) (max_tick : Z)
    (fuel : nat) :
  0 < max_tick ->
  has_unit_candidates candidates max_tick ->
  forward_windows candidates max_tick ->
  (Z.to_nat max_tick <= fuel)%nat ->
  exists segs,
    dynamic fuel candidates max_tick = Some (Ok segs)
    /\ covers_once segs max_tick.
Proof.
  intros Hpos Hunit Hfwd Hfuel.
  destruct (dynamic_chain candidates max_tick fuel ltac:(lia) Hunit Hfwd Hfuel)
    as (segs & Hd & Hc).
  exists segs. split; [exact Hd|]. apply chain_covers_once; assumption.
Qed.

End Dynamic.

(** ** [get_candidates] feeds [dynamic] a table it can segment *)

Section Candidates.

Lemma zdict_get_set_eq {V} (d : dict Z V) (k : Z) (v : V) :
  dict_get Z.eqb (dict_set Z.eqb d k v) k = Some v.
Proof.
  induction d as [|[k0 v0] d IH]; simpl.
  - rewrite Z.eqb_refl. reflexivity.
  - destruct (k =? k0) eqn:E; simpl; rewrite E; [reflexivity | exact IH].
Qed.

Lemma zdict_get_set_ne {V} (d : dict Z V) (k k' : Z) (v : V) :
  k <> k' ->
  dict_get Z.eqb (dict_set Z.eqb d k v) k' = dict_get Z.eqb d k'.
Proof.
  intros Hne. induction d as [|[k0 v0] d IH]; simpl.
  - destruct (Z.eqb_spec k' k); [congruence | reflexivity].
  - destruct (Z.eqb_spec k k0) as [->|Hk]; simpl.
    + destruct (Z.eqb_spec k' k0); [congruence | reflexivity].
    + destruct (k' =? k0); [reflexivity | exact IH].
Qed.

Lemma zdict_set_In {V} (d : dict Z V) (k k' : Z) (v v' : V) :
  In (k', v') (dict_set Z.eqb d k v) -> (k' = k /\ v' = v) \/ In (k', v') d.
Proof.
  induction d as [|[k0 v0] d IH]; simpl.
  - intros [[= <- <-]|[]]. left. auto.
  - destruct (Z.eqb_spec k k0) as [->|Hk]; simpl.
    + intros [[= <- <-]|H]; [left; auto | right; right; exact H].
    + intros [H|H]; [right; left; exact H|].
      destruct (IH H) as [?|?]; [left; assumption | right; right; assumption].
Qed.

Lemma range_In (n x : Z) : In x (range n) <-> 0 <= x < n.
Proof.
  unfold range. rewrite List.in_map_iff. split.
  - intros (k & <- & Hk). apply List.in_seq in Hk. lia.
  - intros H. exists (Z.to_nat x). split; [lia|]. apply List.in_seq. lia.
Qed.

Variable chroma : list (list Z).
Variable max_tick : Z.

(** One pass of the inner loop of [get_candidates], for one window length. *)
Lemma get_candidates_pass (interval : Z) (starts : list Z) :
  1 <= interval ->
  forall table table',
    (forall x, In x starts -> 0 <= x < max_tick) ->
    foldM
      (fun candidates start_beat =>
         let end_beat := Z.min (start_beat + interval) max_tick in
         let _chroma := slice_columns chroma start_beat end_beat in
         cand ← find_chord _chroma 10;
         let inner := default [] (dict_get Z.eqb candidates start_beat) in
         Ok (dict_set Z.eqb candidates start_beat
               (dict_set Z.eqb inner end_beat cand)))
      starts table = Ok table' ->
    (windows_inside max_tick table -> windows_inside max_tick table')
    /\ (forall s, unit_window table s -> unit_window table' s)
    /\ (interval = 1 -> forall s, In s starts -> unit_window table' s).
Proof.
  intros Hint. induction starts as [|x starts IH]; intros table table' Hrange H.
  - injection H as <-. split; [auto|]. split; [auto|]. intros _ s0 [].
  - cbn [foldM] in H. apply bind_Ok in H as (table1 & Hstep & H).
    cbv zeta in Hstep. apply bind_Ok in Hstep as (cand & _ & Hstep).
    injection Hstep as <-.
    set (end_beat := Z.min (x + interval) max_tick) in *.
    set (inner0 := default [] (dict_get Z.eqb table x)) in *.
    pose proof (Hrange x (or_introl eq_refl)) as Hx.
    destruct (IH _ _ (fun y Hy => Hrange y (or_intror Hy)) H) as (HW & HU & H1).
    assert (HW1 : windows_inside max_tick table ->
                  windows_inside max_tick (dict_set Z.eqb table x
                                    (dict_set Z.eqb inner0 end_beat cand))).
    { intros HWt s inner e c Hget Hin.
      destruct (Z.eq_dec x s) as [<-|Hne].
      - rewrite zdict_get_set_eq in Hget. injection Hget as <-.
        apply zdict_set_In in Hin as [[-> _]|Hin].
        + unfold end_beat. lia.
        + unfold inner0 in Hin.
          destruct (dict_get Z.eqb table x) as [inner|] eqn:Hg; [|destruct Hin].
          apply (HWt x inner e c Hg Hin).
      - rewrite zdict_get_set_ne in Hget by exact Hne.
        apply (HWt s inner e c Hget Hin). }
    assert (HU1 : forall s, unit_window table s ->
                  unit_window (dict_set Z.eqb table x
                                 (dict_set Z.eqb inner0 end_beat cand)) s).
    { intros s (inner & c & Hget & Hc). unfold unit_window.
      destruct (Z.eq_dec x s) as [<-|Hne].
      - assert (Hi : inner0 = inner).
        { unfold inner0. exact (f_equal (default []) Hget). }
        destruct (Z.eq_dec end_beat (x + 1)) as [He|He].
        + exists (dict_set Z.eqb inner0 end_beat cand), cand.
          split; [apply zdict_get_set_eq|]. rewrite <- He. apply zdict_get_set_eq.
        + exists (dict_set Z.eqb inner0 end_beat cand), c.
          split; [apply zdict_get_set_eq|].
          rewrite zdict_get_set_ne by exact He. rewrite Hi. exact Hc.
      - exists inner, c. rewrite zdict_get_set_ne by exact Hne. auto. }
    split; [auto|]. split; [auto|].
    intros -> s0 [<-|Hs]; [|apply H1; auto].
    apply HU. exists (dict_set Z.eqb inner0 end_beat cand), cand.
    split; [apply zdict_get_set_eq|].
    replace (x + 1) with end_beat by (unfold end_beat; lia).
    apply zdict_get_set_eq.
Qed.

(** The table of [get_candidates], for the default window lengths, holds
    every one-beat window and only windows that run forward and end inside
    the piece. *)
Lemma get_candidates_windows (table : dict Z (dict Z Cand)) :
  get_candidates chroma max_tick default_intervals = Ok table ->
  has_unit_candidates table max_tick /\ forward_windows table max_tick.
Proof.
  unfold get_candidates, default_intervals. cbn [foldM]. intros H.
  apply bind_Ok in H as (t1 & H1 & H). apply bind_Ok in H as (t2 & H2 & H).
  apply bind_Ok in H as (t3 & H3 & H). apply bind_Ok in H as (t4 & H4 & H).
  injection H as <-.
  pose proof (fun x => proj1 (range_In max_tick x)) as Hr.
  apply (get_candidates_pass 1) in H1 as (W1 & U1 & E1); [|lia|exact Hr].
  apply (get_candidates_pass 2) in H2 as (W2 & U2 & _); [|lia|exact Hr].
  apply (get_candidates_pass 3) in H3 as (W3 & U3 & _); [|lia|exact Hr].
  apply (get_candidates_pass 4) in H4 as (W4 & U4 & _); [|lia|exact Hr].
  split.
  - intros s Hs. apply U4, U3, U2, E1; [reflexivity|]. apply range_In, Hs.
  - intros s inner e c _ Hget Hin.
    assert (HW : windows_inside max_tick t4).
    { apply W4, W3, W2, W1. intros s' inner' e' c' Hg. discriminate Hg. }
    apply (HW s inner e c Hget Hin).
Qed.

(** On the table of [get_candidates] the segmentation is a tiling. *)
Corollary get_candidates_dynamic (table : dict Z (dict Z Cand)) :
  0 < max_tick ->
  get_candidates chroma max_tick default_intervals = Ok table ->
  exists segs,
    dynamic (Z.to_nat max_tick) table max_tick = Some (Ok segs)
    /\ covers_once segs max_tick.
Proof.
  intros Hpos Hget. apply get_candidates_windows in Hget as [Hunit Hfwd].
  destruct (dynamic_chain table max_tick (Z.to_nat max_tick)
              ltac:(lia) Hunit Hfwd ltac:(lia)) as (segs & Hd & Hc).
  exists segs. split; [exact Hd | apply chain_covers_once; assumption].
Qed.

End Candidates.

(** ** [quantize_items] *)

Section Quantize.

Import Utils MusicObj.

Lemma dynamic_covers_once_witness :
  0 < 2
  /\ has_unit_candidates two_beat_table 2
  /\ forward_windows two_beat_table 2
  /\ exists segs, dynamic 2 two_beat_table 2 = Some (Ok segs)
                  /\ covers_once segs 2.
Proof.
  assert (Hunit : has_unit_candidates two_beat_table 2).
  { intros s Hs. assert (s = 0 \/ s = 1) as [-> | ->] by lia;
      eexists _, _; split; reflexivity. }
  assert (Hfwd : forward_windows two_beat_table 2).
  { intros s inner e c Hs. assert (s = 0 \/ s = 1) as [-> | ->] by lia;
      intros [= <-]; simpl; intros H;
      repeat (destruct H as [[= <- <-]|H]; [lia|]); destruct H. }
  split; [lia|]. split; [exact Hunit|]. split; [exact Hfwd|].
  apply (dynamic_covers_once two_beat_table 2 2);
    [lia | exact Hunit | exact Hfwd | simpl; lia].
Defined.

(** C2 as stated fails: a table that holds the one-beat window but also a
    window ending before its start makes [dynamic] return a list that does
    not end at [max_tick]. *)
Lemma dynamic_covers_once_counterexample :
  0 < 1
  /\ has_unit_candidates backward_table 1
  /\ ~ exists fuel segs,
         dynamic fuel backward_table 1 = Some (Ok segs)
         /\ covers_once segs 1.
Proof.
  split; [lia|]. split.
  - intros s Hs. assert (s = 0) as -> by lia.
    eexists _, _. split; reflexivity.
  - intros (fuel & segs & Hd & Hc).
    assert (Hsegs : segs = [(0, -1, "C:maj"%string)]).
    { destruct fuel as [|fuel]; [discriminate|].
      unfold dynamic in Hd.
      change (st0 ← init_state 1; forward backward_table 1 st0)
        with (Ok ([None; Some (0, -1, "C:maj"%string)], [Fin 0; Fin 5])
              : result DpState) in Hd.
      cbn [length read_path] in Hd. simpl in Hd.
      rewrite read_path_done in Hd by lia. injection Hd as <-. reflexivity. }
    subst segs. destruct Hc as (_ & (lst & Hl & He) & _).
    injection Hl as <-. discriminate.
Qed.

(** ** Doubles and the grid of [quantize_items] *)

Import Binary64.

(** *** Rounding to the nearest integer *)

Lemma py_round_comp (x y : Q) : (x == y)%Q -> py_round x = py_round y.
Proof.
  intros H. unfold py_round. rewrite (Qfloor_comp x y H).
  assert (H' : (x - inject_Z (Qfloor y) == y - inject_Z (Qfloor y))%Q)
    by (rewrite H; reflexivity).
  rewrite (Qcompare_comp _ _ H' _ _ (Qeq_refl _)). reflexivity.
Qed.

Lemma py_round_Z (k : Z) : py_round (inject_Z k) = k.
Proof.
  unfold py_round. rewrite Qfloor_Z.
  assert (E : (inject_Z k - inject_Z k == 0)%Q) by ring.
  rewrite (Qcompare_comp _ _ E _ _ (Qeq_refl _)). reflexivity.
Qed.

Lemma py_round_bounds (x : Q) : Qfloor x <= py_round x <= Qfloor x + 1.
Proof.
  unfold py_round. destruct (_ ?= _)%Q; [destruct (Z.even _)| |]; lia.
Qed.

Lemma py_round_mono (x y : Q) : (x <= y)%Q -> py_round x <= py_round y.
Proof.
  intros H. pose proof (Qfloor_resp_le _ _ H) as Hf.
  pose proof (py_round_bounds x) as Hx. pose proof (py_round_bounds y) as Hy.
  destruct (Z.eq_dec (Qfloor x) (Qfloor y)) as [E|NE]; [|lia].
  clear Hx Hy Hf. unfold py_round. rewrite <- E. set (f := Qfloor x).
  destruct (Qcompare_spec (x - inject_Z f) (1 # 2)) as [Hx|Hx|Hx],
           (Qcompare_spec (y - inject_Z f) (1 # 2)) as [Hy|Hy|Hy];
    try lia; try (destruct (Z.even f); lia); exfalso; lra.
Qed.

(** The nearest integer: at most a half away. *)
Lemma py_round_near (x : Q) :
  (x - (1 # 2) <= inject_Z (py_round x) <= x + (1 # 2))%Q.
Proof.
  pose proof (Qfloor_le x) as Hlo. pose proof (Qlt_floor x) as Hhi.
  rewrite inject_Z_plus in Hhi. unfold py_round.
  set (f := Qfloor x) in *. change (inject_Z 1) with 1%Q in *.
  destruct (Qcompare_spec (x - inject_Z f) (1 # 2)) as [H|H|H].
  - destruct (Z.even f); [|rewrite inject_Z_plus; change (inject_Z 1) with 1%Q];
      generalize dependent (inject_Z f); intros; lra.
  - lra.
  - rewrite inject_Z_plus. change (inject_Z 1) with 1%Q. lra.
Qed.

(** *** Powers of two *)

Lemma pow2_pos (e : Z) : (0 < pow2 e)%Q.
Proof. apply Qpower_0_lt. reflexivity. Qed.

Lemma pow2_nonzero (e : Z) : ~ (pow2 e == 0)%Q.
Proof. pose proof (pow2_pos e). lra. Qed.

Lemma pow2_add (a b : Z) : (pow2 (a + b) == pow2 a * pow2 b)%Q.
Proof. apply Qpower_plus. lra. Qed.

Lemma pow2_Z (k : Z) : 0 <= k -> (pow2 k == inject_Z (2 ^ k))%Q.
Proof. intros H. symmetry. apply (Zpower_Qpower 2 k H). Qed.

Lemma pow2_le (a b : Z) : a <= b -> (pow2 a <= pow2 b)%Q.
Proof. intros H. apply Qpower_le_compat_l; [exact H | lra]. Qed.

Lemma pow2_lt_inv (a b : Z) : (pow2 a < pow2 b)%Q -> a < b.
Proof. intros H. apply (Qpower_lt_compat_l_inv 2); [exact H | lra]. Qed.

(** A power of two is a multiple of every smaller one. *)
Lemma pow2_multiple (e p : Z) :
  e <= p -> (pow2 p == inject_Z (2 ^ (p - e)) * pow2 e)%Q.
Proof.
  intros H. rewrite <- pow2_Z by lia. rewrite <- pow2_add.
  replace (p - e + e) with p by lia. reflexivity.
Qed.

(** *** The binary logarithm *)

Lemma Qdiv_le_cross (a b c d : Z) :
  0 < b -> 0 < d -> a * d <= c * b ->
  (inject_Z a / inject_Z b <= inject_Z c / inject_Z d)%Q.
Proof.
  intros Hb Hd H.
  assert (Hb' : (0 < inject_Z b)%Q) by (change 0%Q with (inject_Z 0); rewrite <- Zlt_Qlt; lia).
  assert (Hd' : (0 < inject_Z d)%Q) by (change 0%Q with (inject_Z 0); rewrite <- Zlt_Qlt; lia).
  apply Qle_shift_div_l; [exact Hd'|].
  assert (E : (inject_Z a / inject_Z b * inject_Z d
               == inject_Z a * inject_Z d / inject_Z b)%Q)
    by (field; intros E; rewrite E in Hb'; discriminate).
  rewrite E. apply Qle_shift_div_r; [exact Hb'|].
  rewrite <- !inject_Z_mult, <- Zle_Qle. exact H.
Qed.

Lemma Qdiv_lt_cross (a b c d : Z) :
  0 < b -> 0 < d -> a * d < c * b ->
  (inject_Z a / inject_Z b < inject_Z c / inject_Z d)%Q.
Proof.
  intros Hb Hd H.
  assert (Hb' : (0 < inject_Z b)%Q) by (change 0%Q with (inject_Z 0); rewrite <- Zlt_Qlt; lia).
  assert (Hd' : (0 < inject_Z d)%Q) by (change 0%Q with (inject_Z 0); rewrite <- Zlt_Qlt; lia).
  apply Qlt_shift_div_l; [exact Hd'|].
  assert (E : (inject_Z a / inject_Z b * inject_Z d
               == inject_Z a * inject_Z d / inject_Z b)%Q)
    by (field; intros E; rewrite E in Hb'; discriminate).
  rewrite E. apply Qlt_shift_div_r; [exact Hb'|].
  rewrite <- !inject_Z_mult, <- Zlt_Qlt. exact H.
Qed.

Lemma pow2_sub (a b : Z) :
  0 <= a -> 0 <= b -> (pow2 (a - b) == inject_Z (2 ^ a) / inject_Z (2 ^ b))%Q.
Proof.
  intros Ha Hb. unfold pow2. rewrite Qpower_minus by lra.
  rewrite <- !(Zpower_Qpower 2) by assumption. reflexivity.
Qed.

Lemma ilog2_spec (q : Q) :
  (0 < q)%Q -> (pow2 (ilog2 q) <= q < pow2 (ilog2 q + 1))%Q.
Proof.
  intros Hq. unfold ilog2.
  destruct q as [n d]. cbn [Qnum Qden].
  assert (Hn : 0 < n) by (unfold Qlt in Hq; simpl in Hq; lia).
  pose proof (Z.log2_spec n Hn) as Hln.
  pose proof (Z.log2_spec (Z.pos d) (Pos2Z.is_pos d)) as Hld.
  pose proof (Z.log2_nonneg n) as Han.
  pose proof (Z.log2_nonneg (Z.pos d)) as Had.
  set (a := Z.log2 n) in *. set (b := Z.log2 (Z.pos d)) in *.
  assert (HA : 0 < 2 ^ a) by (apply Z.pow_pos_nonneg; lia).
  assert (HB : 0 < 2 ^ b) by (apply Z.pow_pos_nonneg; lia).
  rewrite !Z.pow_succ_r in * by lia.
  assert (Hqd : (n # d == inject_Z n / inject_Z (Z.pos d))%Q) by apply Qmake_Qdiv.
  destruct (Qle_bool (pow2 (a - b)) (n # d)) eqn:Hle.
  - split; [apply Qle_bool_iff, Hle|].
    replace (a - b + 1) with ((a + 1) - b) by lia.
    rewrite pow2_sub by lia. rewrite Hqd.
    apply Qdiv_lt_cross; [lia | lia|].
    rewrite Z.pow_add_r by lia. nia.
  - split.
    + replace (a - b - 1) with (a - (b + 1)) by lia.
      rewrite pow2_sub by lia. rewrite Hqd.
      apply Qdiv_le_cross; [|lia|].
      * apply Z.pow_pos_nonneg; lia.
      * rewrite Z.pow_add_r by lia. nia.
    + replace (a - b - 1 + 1) with (a - b) by lia.
      apply Qnot_le_lt. intros H. apply Qle_bool_iff in H. congruence.
Qed.

Lemma ilog2_unique (q : Q) (k : Z) :
  (pow2 k <= q < pow2 (k + 1))%Q -> ilog2 q = k.
Proof.
  intros [Hlo Hhi].
  assert (Hq : (0 < q)%Q) by (pose proof (pow2_pos k); lra).
  destruct (ilog2_spec q Hq) as [Hlo' Hhi'].
  assert (ilog2 q < k + 1) by (apply pow2_lt_inv; lra).
  assert (k < ilog2 q + 1) by (apply pow2_lt_inv; lra).
  lia.
Qed.

Lemma ilog2_mono (x y : Q) : (0 < x)%Q -> (x <= y)%Q -> ilog2 x <= ilog2 y.
Proof.
  intros Hx Hxy.
  destruct (ilog2_spec x Hx) as [Hlo _].
  destruct (ilog2_spec y ltac:(lra)) as [_ Hhi].
  assert (ilog2 x < ilog2 y + 1) by (apply pow2_lt_inv; lra).
  lia.
Qed.

Lemma ilog2_comp (x y : Q) : (0 < x)%Q -> (x == y)%Q -> ilog2 x = ilog2 y.
Proof.
  intros Hx Hxy. apply ilog2_unique.
  destruct (ilog2_spec y ltac:(lra)). lra.
Qed.

(** *** Rounding to a double *)

Lemma round_at_mono (e : Z) (x y : Q) :
  (x <= y)%Q -> (round_at e x <= round_at e y)%Q.
Proof.
  intros H. unfold round_at. pose proof (pow2_pos e) as He.
  apply Qmult_le_compat_r; [|lra].
  rewrite <- Zle_Qle. apply py_round_mono.
  unfold Qdiv. apply Qmult_le_compat_r; [exact H|].
  apply Qinv_le_0_compat. lra.
Qed.

Lemma round_at_multiple (e m : Z) (x : Q) :
  (x == inject_Z m * pow2 e)%Q -> (round_at e x == x)%Q.
Proof.
  intros H. unfold round_at.
  assert (Hd : (x / pow2 e == inject_Z m)%Q).
  { rewrite H. apply Qdiv_mult_l, pow2_nonzero. }
  rewrite (py_round_comp _ _ Hd), py_round_Z. symmetry. exact H.
Qed.

Lemma Qabs_pos_eq (q : Q) : (0 < q)%Q -> Qabs q = q.
Proof.
  destruct q as [n d]. unfold Qlt. simpl. intros H.
  destruct n; try lia. reflexivity.
Qed.

Lemma fl_zero (x : Q) : (x == 0)%Q -> fl x = 0%Q.
Proof. intros H. unfold fl. apply Qeq_bool_iff in H. rewrite H. reflexivity. Qed.

Lemma fl_pos (x : Q) :
  (0 < x)%Q -> fl x = round_at (Z.max (ilog2 x - 52) (-1074)) x.
Proof.
  intros H. unfold fl, ulp_exp. rewrite (Qabs_pos_eq x H).
  destruct (Qeq_bool x 0) eqn:E; [|reflexivity].
  apply Qeq_bool_iff in E. lra.
Qed.

Lemma fl_nonneg (x : Q) : (0 <= x)%Q -> (0 <= fl x)%Q.
Proof.
  intros H. destruct (Qlt_le_dec 0 x) as [Hpos|Hle].
  - rewrite (fl_pos x Hpos). unfold round_at.
    apply Qmult_le_0_compat; [|pose proof (pow2_pos (Z.max (ilog2 x - 52) (-1074))); lra].
    change 0%Q with (inject_Z 0). rewrite <- Zle_Qle.
    rewrite <- (py_round_Z 0). apply py_round_mono.
    change (inject_Z 0) with 0%Q. apply Qle_shift_div_l; [apply pow2_pos|]. lra.
  - rewrite (fl_zero x) by lra. lra.
Qed.

(** Rounding keeps the order. *)
Lemma fl_mono (x y : Q) : (0 <= x)%Q -> (x <= y)%Q -> (fl x <= fl y)%Q.
Proof.
  intros Hx Hxy.
  destruct (Qlt_le_dec 0 x) as [Hpos|Hle].
  2:{ rewrite (fl_zero x) by lra. apply fl_nonneg. lra. }
  assert (Hy : (0 < y)%Q) by lra.
  rewrite (fl_pos x Hpos), (fl_pos y Hy).
  pose proof (ilog2_mono x y Hpos Hxy) as Hlog.
  set (ex := Z.max (ilog2 x - 52) (-1074)).
  set (ey := Z.max (ilog2 y - 52) (-1074)).
  destruct (Z.eq_dec ex ey) as [<-|Hne]; [apply round_at_mono, Hxy|].
  assert (Hlt : ex < ey) by lia.
  set (p := ilog2 y).
  assert (Hey : ey = p - 52) by lia.
  destruct (ilog2_spec x Hpos) as [_ Hxhi].
  destruct (ilog2_spec y Hy) as [Hylo _]. fold p in Hylo.
  assert (HxB : (x <= pow2 p)%Q).
  { apply Qlt_le_weak. eapply Qlt_le_trans; [exact Hxhi|]. apply pow2_le. lia. }
  eapply Qle_trans; [apply (round_at_mono ex x (pow2 p) HxB)|].
  rewrite (round_at_multiple ex (2 ^ (p - ex)) (pow2 p)) by (apply pow2_multiple; lia).
  rewrite <- (round_at_multiple ey (2 ^ (p - ey)) (pow2 p)) by (apply pow2_multiple; lia).
  apply round_at_mono, Hylo.
Qed.

Lemma fl_comp (x y : Q) : (x == y)%Q -> (fl x == fl y)%Q.
Proof.
  intros H. unfold fl.
  destruct (Qeq_bool x 0) eqn:Ex, (Qeq_bool y 0) eqn:Ey; try reflexivity.
  - apply Qeq_bool_iff in Ex. apply Qeq_bool_neq in Ey. exfalso. apply Ey. lra.
  - apply Qeq_bool_iff in Ey. apply Qeq_bool_neq in Ex. exfalso. apply Ex. lra.
  - apply Qeq_bool_neq in Ex.
    assert (Habs : (0 < Qabs x)%Q).
    { pose proof (Qabs_nonneg x). destruct (Qeq_dec (Qabs x) 0) as [E|E]; [|lra].
      exfalso. apply Ex. revert E. apply Qabs_case; intros; lra. }
    assert (He : ulp_exp x = ulp_exp y).
    { unfold ulp_exp. rewrite (ilog2_comp (Qabs x) (Qabs y) Habs); [reflexivity|].
      rewrite H. reflexivity. }
    rewrite <- He. unfold round_at.
    assert (Hd : (x / pow2 (ulp_exp x) == y / pow2 (ulp_exp x))%Q)
      by (apply Qdiv_comp; [exact H | reflexivity]).
    rewrite (py_round_comp _ _ Hd). reflexivity.
Qed.

(** Integers below [2^53] are doubles. *)
Lemma fl_int (n : Z) : 0 <= n < 2 ^ 53 -> (fl (inject_Z n) == inject_Z n)%Q.
Proof.
  intros Hn. destruct (Z.eq_dec n 0) as [->|Hne]; [reflexivity|].
  assert (Hpos : (0 < inject_Z n)%Q)
    by (change 0%Q with (inject_Z 0); rewrite <- Zlt_Qlt; lia).
  rewrite (fl_pos _ Hpos).
  destruct (ilog2_spec _ Hpos) as [Hlo _].
  assert (Hlog : ilog2 (inject_Z n) < 53).
  { apply pow2_lt_inv. eapply Qle_lt_trans; [exact Hlo|].
    rewrite (pow2_Z 53) by lia. rewrite <- Zlt_Qlt. lia. }
  set (e := Z.max (ilog2 (inject_Z n) - 52) (-1074)).
  assert (He : e <= 0) by lia.
  apply (round_at_multiple e (n * 2 ^ (- e))).
  rewrite inject_Z_mult, <- pow2_Z by lia.
  rewrite <- Qmult_assoc, <- pow2_add.
  replace (- e + e) with 0 by lia. unfold pow2. simpl. lra.
Qed.


(** Halves go to the even neighbour. *)
Lemma py_round_tie (x : Q) :
  (x == inject_Z (py_round x) + (1 # 2) \/ x == inject_Z (py_round x) - (1 # 2))%Q ->
  Z.even (py_round x) = true.
Proof.
  pose proof (Qfloor_le x) as Hlo. pose proof (Qlt_floor x) as Hhi.
  rewrite inject_Z_plus in Hhi. change (inject_Z 1) with 1%Q in Hhi.
  unfold py_round. set (f := Qfloor x) in *.
  destruct (Qcompare_spec (x - inject_Z f) (1 # 2)) as [H|H|H].
  - destruct (Z.even f) eqn:E; [intros _; exact E|]. intros _.
    change (f + 1) with (Z.succ f). rewrite Z.even_succ, <- Z.negb_even, E.
    reflexivity.
  - intros [E|E]; exfalso; generalize dependent (inject_Z f); intros; lra.
  - rewrite inject_Z_plus. change (inject_Z 1) with 1%Q.
    intros [E|E]; exfalso; generalize dependent (inject_Z f); intros; lra.
Qed.

(** Rounding to a multiple of [2^e] loses at most half of [2^e]. *)
Lemma round_at_lower (e : Z) (x : Q) : (x - pow2 e * (1 # 2) <= round_at e x)%Q.
Proof.
  unfold round_at. pose proof (pow2_pos e) as He.
  destruct (py_round_near (x / pow2 e)) as [Hlo _].
  apply (Qmult_le_compat_r _ _ (pow2 e)) in Hlo; [|lra].
  assert (E : ((x / pow2 e - (1 # 2)) * pow2 e == x - pow2 e * (1 # 2))%Q)
    by (field; apply pow2_nonzero).
  rewrite <- E. exact Hlo.
Qed.

(** A double is within one part in [2^53] of the number it rounds. *)
Lemma fl_lower (x : Q) :
  (1 # 2 <= x)%Q -> (x - x * (1 # 9007199254740992) <= fl x)%Q.
Proof.
  intros Hx. assert (Hpos : (0 < x)%Q) by lra.
  rewrite (fl_pos x Hpos).
  destruct (ilog2_spec x Hpos) as [Hlo Hhi].
  assert (Hlog : -1 < ilog2 x + 1).
  { apply pow2_lt_inv. eapply Qle_lt_trans; [|exact Hhi].
    eapply Qle_trans; [|exact Hx]. apply Qle_lteq. right. reflexivity. }
  replace (Z.max (ilog2 x - 52) (-1074)) with (ilog2 x + -52) by lia.
  eapply Qle_trans; [|apply round_at_lower].
  rewrite pow2_add.
  assert (E : (pow2 (-52) == 1 # 4503599627370496)%Q) by reflexivity.
  rewrite E. generalize dependent (pow2 (ilog2 x)). intros. lra.
Qed.

(** *** The grid *)

Lemma np_arange_length (stop : Z) (step : Q) :
  length (np_arange stop step)
  = Z.to_nat (Qceiling (fl (fl (inject_Z stop) / step))).
Proof. unfold np_arange. rewrite length_map, length_seq. reflexivity. Qed.

Lemma np_arange_lookup (stop : Z) (step : Q) (k : nat) (x : Q) :
  np_arange stop step !! k = Some x -> x = fl (inject_Z (Z.of_nat k) * step).
Proof.
  unfold np_arange. rewrite list_lookup_fmap.
  destruct (seq 0 _ !! k) as [k'|] eqn:Hk; [|discriminate].
  apply lookup_seq in Hk as [-> _]. simpl. intros [= <-]. reflexivity.
Qed.

Lemma np_arange_lookup_lt (stop : Z) (step : Q) (k : nat) :
  (k < length (np_arange stop step))%nat ->
  np_arange stop step !! k = Some (fl (inject_Z (Z.of_nat k) * step)).
Proof.
  intros Hk. destruct (lookup_lt_is_Some_2 _ _ Hk) as [x Hx].
  rewrite Hx. f_equal. apply (np_arange_lookup _ _ _ _ Hx).
Qed.

Lemma inject_Z_nonneg (z : Z) : 0 <= z -> (0 <= inject_Z z)%Q.
Proof. intros H. change 0%Q with (inject_Z 0). rewrite <- Zle_Qle. exact H. Qed.

Lemma inject_Z_pos (z : Z) : 0 < z -> (0 < inject_Z z)%Q.
Proof. intros H. change 0%Q with (inject_Z 0). rewrite <- Zlt_Qlt. exact H. Qed.

Lemma np_arange_sorted (stop : Z) (step : Q) :
  (0 <= step)%Q -> sorted_Q (np_arange stop step).
Proof.
  intros Hstep i j x y Hij Hx Hy.
  apply np_arange_lookup in Hx, Hy. subst.
  apply fl_mono.
  - apply Qmult_le_0_compat; [apply inject_Z_nonneg; lia | exact Hstep].
  - apply Qmult_le_compat_r; [rewrite <- Zle_Qle; lia | exact Hstep].
Qed.

Section Grid.

Context {T : Type}.
Variable midi : PrettyMIDI T.
Hypothesis Hres : 0 < resolution midi.

#[local] Abbreviation M := (Z.max (resolution midi) (get_end_tick midi)).

Lemma ticks_pos : (0 < ticks_of midi)%Q.
Proof.
  unfold ticks_of.
  eapply Qlt_le_trans; [|apply (fl_mono (1 # 12))].
  - vm_compute. reflexivity.
  - discriminate.
  - apply Qle_shift_div_l; [reflexivity|].
    assert (E : ((1 # 12) * inject_Z DEFAULT_POS_PER_QUARTER == inject_Z 1)%Q)
      by reflexivity.
    rewrite E, <- Zle_Qle. lia.
Qed.

Lemma ticks_le :
  resolution midi < 2 ^ 53 -> (ticks_of midi <= inject_Z (resolution midi))%Q.
Proof.
  intros Hlt. unfold ticks_of.
  eapply Qle_trans; [apply (fl_mono _ (inject_Z (resolution midi)))|].
  - apply Qle_shift_div_l; [reflexivity|]. rewrite Qmult_0_l.
    apply inject_Z_nonneg. lia.
  - apply Qle_shift_div_r; [reflexivity|].
    rewrite <- inject_Z_mult, <- Zle_Qle. unfold DEFAULT_POS_PER_QUARTER. lia.
  - rewrite fl_int by lia. apply Qle_refl.
Qed.

(** With a resolution that 12 divides, the spacing is an integer. *)
Lemma ticks_exact (c : Z) :
  resolution midi < 2 ^ 53 -> resolution midi = 12 * c ->
  (ticks_of midi == inject_Z c)%Q.
Proof.
  intros Hlt Hc. unfold ticks_of.
  transitivity (fl (inject_Z c)); [apply fl_comp | apply fl_int; lia].
  rewrite Hc, inject_Z_mult. unfold DEFAULT_POS_PER_QUARTER. field.
Qed.

Lemma grid_quotient :
  M < 2 ^ 53 -> (1 <= fl (inject_Z M) / ticks_of midi)%Q.
Proof.
  intros HM. apply Qle_shift_div_l; [apply ticks_pos|].
  rewrite Qmult_1_l, fl_int by lia.
  eapply Qle_trans; [apply ticks_le; lia|]. rewrite <- Zle_Qle. lia.
Qed.

Lemma grids_length :
  length (grids_of midi)
  = Z.to_nat (Qceiling (fl (fl (inject_Z M) / ticks_of midi))).
Proof. unfold grids_of. apply np_arange_length. Qed.

Lemma grids_lookup (k : nat) (g : Q) :
  grids_of midi !! k = Some g ->
  g = fl (inject_Z (Z.of_nat k) * ticks_of midi).
Proof. unfold grids_of. apply np_arange_lookup. Qed.

Lemma grids_sorted : sorted_Q (grids_of midi).
Proof. apply np_arange_sorted, Qlt_le_weak, ticks_pos. Qed.

(** The grid starts at 0. *)
Lemma grids_nonempty :
  M < 2 ^ 53 -> grids_of midi !! 0%nat = Some 0%Q.
Proof.
  intros HM.
  assert (Hlen : (0 < length (grids_of midi))%nat).
  { rewrite grids_length.
    assert (H1 : (inject_Z 1 <= fl (fl (inject_Z M) / ticks_of midi))%Q).
    { rewrite <- (fl_int 1) by lia. apply fl_mono; [discriminate|].
      apply grid_quotient, HM. }
    assert (1 <= Qceiling (fl (fl (inject_Z M) / ticks_of midi))); [|lia].
    rewrite Zle_Qle. eapply Qle_trans; [exact H1 | apply Qle_ceiling]. }
  unfold grids_of in *. rewrite (np_arange_lookup_lt _ _ _ Hlen).
  rewrite fl_zero by reflexivity. reflexivity.
Qed.

(** The grid reaches every multiple that, once rounded, does not exceed a
    tick before the end. *)
Lemma grids_complete (start : Z) (j : nat) :
  M < 2 ^ 52 -> start < M ->
  (fl (inject_Z (Z.of_nat j) * ticks_of midi) <= inject_Z start)%Q ->
  (j < length (grids_of midi))%nat.
Proof.
  intros HM Hstart Hj.
  destruct (Nat.lt_ge_cases j (length (grids_of midi))) as [Hlt|Hge];
    [exact Hlt | exfalso].
  rewrite grids_length in Hge.
  pose proof ticks_pos as Ht. pose proof (grid_quotient ltac:(lia)) as Hq.
  set (t := ticks_of midi) in *. set (q := (fl (inject_Z M) / t)%Q) in *.
  assert (Hy : (fl q <= inject_Z (Z.of_nat j))%Q).
  { eapply Qle_trans; [apply Qle_ceiling|]. rewrite <- Zle_Qle. lia. }
  pose proof (fl_lower q ltac:(lra)) as Hlow.
  assert (Hx : (inject_Z M - inject_Z M * (1 # 9007199254740992)
                <= inject_Z (Z.of_nat j) * t)%Q).
  { assert (E : ((q - q * (1 # 9007199254740992)) * t
                 == fl (inject_Z M) - fl (inject_Z M) * (1 # 9007199254740992))%Q)
      by (unfold q; field; lra).
    rewrite <- (fl_int M) by lia. rewrite <- E.
    apply Qmult_le_compat_r; lra. }
  assert (HM1 : (1 <= inject_Z M)%Q)
    by (change 1%Q with (inject_Z 1); rewrite <- Zle_Qle; lia).
  assert (HM2 : (inject_Z M < 4503599627370496)%Q)
    by (change 4503599627370496%Q with (inject_Z (2 ^ 52)); rewrite <- Zlt_Qlt; lia).
  assert (Hs : (inject_Z start <= inject_Z M - 1)%Q).
  { change 1%Q with (inject_Z 1). unfold Qminus.
    rewrite <- inject_Z_opp, <- inject_Z_plus, <- Zle_Qle. lia. }
  pose proof (fl_lower (inject_Z (Z.of_nat j) * t) ltac:(lra)) as Hlow'.
  generalize dependent (fl (inject_Z (Z.of_nat j) * t)).
  generalize dependent (inject_Z (Z.of_nat j) * t)%Q.
  generalize dependent (inject_Z M). generalize dependent (inject_Z start).
  intros. lra.
Qed.

(** With a resolution that 12 divides, the grid holds integers: the
    multiples of the spacing. *)
Lemma grids_exact (c : Z) (k : nat) (g : Q) :
  M < 2 ^ 53 -> resolution midi = 12 * c ->
  grids_of midi !! k = Some g ->
  Z.of_nat k * c <= M /\ (g == inject_Z (Z.of_nat k * c))%Q.
Proof.
  intros HM Hc Hg.
  pose proof (ticks_exact c ltac:(lia) Hc) as Ht.
  pose proof ticks_pos as Htpos.
  assert (Hlt : (k < length (grids_of midi))%nat) by (eapply lookup_lt_Some, Hg).
  rewrite grids_length in Hlt.
  set (q := (fl (inject_Z M) / ticks_of midi)%Q) in *.
  assert (Hq : (q == inject_Z M / inject_Z c)%Q).
  { unfold q. rewrite fl_int by lia. rewrite Ht. reflexivity. }
  assert (Hcpos : (0 < inject_Z c)%Q) by (apply inject_Z_pos; lia).
  assert (HK : (inject_Z (Z.of_nat k) < fl q)%Q).
  { eapply Qle_lt_trans; [|apply Qceiling_lt]. rewrite <- Zle_Qle. lia. }
  assert (Hq0 : (0 <= q)%Q).
  { rewrite Hq. apply Qle_shift_div_l; [exact Hcpos|]. rewrite Qmult_0_l.
    apply inject_Z_nonneg. lia. }
  (* the index is below the end tick, hence a double *)
  assert (HkM : Z.of_nat k < M).
  { rewrite Zlt_Qlt. eapply Qlt_le_trans; [exact HK|].
    rewrite <- (fl_int M) by lia. apply fl_mono; [exact Hq0|].
    rewrite Hq. apply Qle_shift_div_r; [exact Hcpos|].
    rewrite <- inject_Z_mult, <- Zle_Qle.
    pose proof (Z.mul_le_mono_nonneg_l 1 c M ltac:(lia) ltac:(lia)). lia. }
  assert (Hkc : Z.of_nat k * c <= M).
  { destruct (Z.le_gt_cases (Z.of_nat k * c) M) as [H|H]; [exact H | exfalso].
    apply (Qlt_not_le _ _ HK). rewrite <- (fl_int (Z.of_nat k)) by lia.
    apply fl_mono; [exact Hq0|].
    rewrite Hq. apply Qle_shift_div_r; [exact Hcpos|].
    rewrite <- inject_Z_mult, <- Zle_Qle. lia. }
  split; [exact Hkc|].
  rewrite (grids_lookup k g Hg).
  transitivity (fl (inject_Z (Z.of_nat k * c))); [apply fl_comp | apply fl_int; lia].
  rewrite Ht, inject_Z_mult. reflexivity.
Qed.

End Grid.
(** Bisection returns the number of entries that do not exceed the key. *)
Lemma bisect_right_spec (a : list Q) (key : Q) :
  sorted_Q a ->
  forall fuel lo hi,
    (hi - lo < fuel)%nat -> (lo <= hi <= length a)%nat ->
    (forall i x, (i < lo)%nat -> a !! i = Some x -> (x <= key)%Q) ->
    (forall i x, (hi <= i)%nat -> a !! i = Some x -> (key < x)%Q) ->
    let r := bisect_right fuel a key lo hi in
    (r <= length a)%nat
    /\ (forall i x, (i < r)%nat -> a !! i = Some x -> (x <= key)%Q)
    /\ (forall i x, (r <= i)%nat -> a !! i = Some x -> (key < x)%Q).
Proof.
  intros Hsorted fuel.
  induction fuel as [|fuel IH]; intros lo hi Hfuel Hrange Hlow Hhigh; [lia|].
  cbn [bisect_right].
  destruct (Nat.ltb_spec lo hi) as [Hlt|Hge].
  - set (mid := (lo + (hi - lo) / 2)%nat).
    assert (Hmid : (lo <= mid < hi)%nat).
    { unfold mid.
      assert ((hi - lo) / 2 < hi - lo)%nat by (apply Nat.div_lt; lia). lia. }
    destruct (lookup_lt_is_Some_2 a mid) as [v Hv]; [lia|].
    rewrite Hv.
    destruct (Qle_bool v key) eqn:Hle.
    + apply IH; try lia; auto.
      intros i x Hi Hx. apply Qle_bool_iff in Hle.
      eapply Qle_trans; [|exact Hle].
      apply (Hsorted i mid x v); auto. lia.
    + apply IH; try lia; auto.
      intros i x Hi Hx.
      assert (Hkv : (key < v)%Q).
      { apply Qnot_le_lt. intros H. apply Qle_bool_iff in H. congruence. }
      eapply Qlt_le_trans; [exact Hkv|].
      apply (Hsorted mid i v x); auto.
  - assert (lo = hi) as -> by lia. simpl. repeat split; auto. lia.
Qed.

Lemma searchsorted_right_spec (a : list Q) (key : Q) :
  sorted_Q a ->
  let r := searchsorted_right a key in
  (r <= length a)%nat
  /\ (forall i x, (i < r)%nat -> a !! i = Some x -> (x <= key)%Q)
  /\ (forall i x, (r <= i)%nat -> a !! i = Some x -> (key < x)%Q).
Proof.
  intros Hs. unfold searchsorted_right.
  apply (bisect_right_spec a key Hs (S (length a)) 0 (length a)).
  - lia.
  - lia.
  - intros i x Hi. lia.
  - intros i x Hi Hx. apply lookup_lt_Some in Hx. lia.
Qed.

(** C5, as amended.  With ticks in [[0, 2^52)], [quantize_items] moves the
    start and the end of every note by the
    same amount, so the length of the note is kept, and the new start is the
    rounding (to the nearest integer, halves to the even one) of the largest
    grid point that does not exceed the old start. The grid starts at 0 and
    its point [k] is the double [k * ticks], where [ticks] is the double
    [resolution / 12]; for a note that starts before the end of the grid no
    such multiple at all lies between the chosen point and the start. When 12
    divides the resolution the grid points are the integers
    [k * (resolution / 12)] and the new start is the largest of these
    multiples that does not exceed the old start. *)
Theorem quantize_items_snaps {T} (midi : PrettyMIDI T) (note_items : list Item) :
  0 < resolution midi < 2 ^ 52 ->
  get_end_tick midi < 2 ^ 52 ->
  Forall (fun item => 0 <= start item < 2 ^ 52 /\ is_Some (end_ item)) note_items ->
  exists out,
    quantize_items midi note_items = Ok out
    /\ length out = length note_items
    /\ grids_of midi !! 0%nat = Some 0%Q
    /\ forall i item item',
         note_items !! i = Some item -> out !! i = Some item' ->
         exists (k : nat) (g : Q) (e : Z),
           grids_of midi !! k = Some g
           /\ g = fl (inject_Z (Z.of_nat k)
                      * fl (inject_Z (resolution midi)
                            / inject_Z DEFAULT_POS_PER_QUARTER))
           /\ (g <= inject_Z (start item))%Q
           /\ (forall g', In g' (grids_of midi) ->
                 (g' <= inject_Z (start item))%Q -> (g' <= g)%Q)
           /\ (start item < Z.max (resolution midi) (get_end_tick midi) ->
               forall j : nat,
                 (fl (inject_Z (Z.of_nat j)
                      * fl (inject_Z (resolution midi)
                            / inject_Z DEFAULT_POS_PER_QUARTER))
                  <= inject_Z (start item))%Q ->
                 (fl (inject_Z (Z.of_nat j)
                      * fl (inject_Z (resolution midi)
                            / inject_Z DEFAULT_POS_PER_QUARTER))
                  <= g)%Q)
           /\ start item' = py_round g
           /\ (g - (1 # 2) <= inject_Z (start item') <= g + (1 # 2))%Q
           /\ ((g == inject_Z (start item') + (1 # 2)
                \/ g == inject_Z (start item') - (1 # 2))%Q ->
               Z.even (start item') = true)
           /\ 0 <= start item' <= start item
           /\ end_ item = Some e
           /\ end_ item' = Some (e + (start item' - start item))
           /\ e + (start item' - start item) - start item' = e - start item
           /\ name item' = name item /\ velocity item' = velocity item
           /\ pitch item' = pitch item /\ instrument item' = instrument item
           /\ (forall c, resolution midi = 12 * c ->
                 (g == inject_Z (Z.of_nat k * c))%Q
                 /\ start item' = Z.of_nat k * c
                 /\ (start item < Z.max (resolution midi) (get_end_tick midi) ->
                     start item' = c * (start item / c))).
Proof.
  intros Hres Hend Hall. unfold quantize_items.
  destruct (Z.eqb_spec (resolution midi) 0) as [|_]; [lia|].
  assert (Hres0 : 0 < resolution midi) by lia.
  assert (HM : Z.max (resolution midi) (get_end_tick midi) < 2 ^ 52) by lia.
  set (grids := grids_of midi).
  pose proof (grids_sorted midi Hres0) as Hsorted.
  pose proof (grids_nonempty midi Hres0 ltac:(lia)) as H0.
  fold grids in Hsorted, H0.
  (* one item *)
  assert (Hone : forall item, 0 <= start item < 2 ^ 52 -> is_Some (end_ item) ->
            exists (k : nat) (g : Q) (e : Z),
              grids !! k = Some g
              /\ (g <= inject_Z (start item))%Q
              /\ (forall g', In g' grids ->
                    (g' <= inject_Z (start item))%Q -> (g' <= g)%Q)
              /\ end_ item = Some e
              /\ quantize_item grids item
                 = Ok (mkItem (name item) (start item + (py_round g - start item))
                         (Some (e + (py_round g - start item)))
                         (velocity item) (pitch item) (instrument item))).
  { intros item Hstart [e He].
    pose proof (fl_int (start item) ltac:(lia)) as Hkey.
    destruct (searchsorted_right_spec grids (fl (inject_Z (start item))) Hsorted)
      as (Hr & Hlow & Hhigh).
    set (r := searchsorted_right grids (fl (inject_Z (start item)))) in *.
    assert (Hrpos : (0 < r)%nat).
    { destruct r as [|r']; [|lia]. exfalso.
      specialize (Hhigh 0%nat 0%Q ltac:(lia) H0).
      apply (Qlt_not_le _ _ Hhigh). rewrite Hkey.
      apply inject_Z_nonneg. lia. }
    destruct (lookup_lt_is_Some_2 grids (r - 1)) as [g Hg]; [lia|].
    exists (r - 1)%nat, g, e.
    split; [exact Hg|].
    split; [rewrite <- Hkey; apply (Hlow (r - 1)%nat g); [lia | exact Hg]|].
    split.
    - intros g' Hin Hle.
      apply list_elem_of_In, list_elem_of_lookup in Hin as [j Hj].
      destruct (Nat.lt_ge_cases j r) as [Hjr|Hjr].
      + apply (Hsorted j (r - 1)%nat g' g); auto. lia.
      + exfalso. apply (Qlt_not_le _ _ (Hhigh j g' Hjr Hj)).
        rewrite Hkey. exact Hle.
    - split; [exact He|]. unfold quantize_item, grid_index. fold r.
      destruct (Nat.ltb_spec 0 r); [|lia].
      rewrite Hg, He. reflexivity. }
  (* the loop *)
  assert (Hloop : forall items done,
            Forall (fun item => 0 <= start item < 2 ^ 52 /\ is_Some (end_ item))
                   items ->
            exists out,
              foldM (fun done item =>
                       item' ← quantize_item grids item; Ok (done ++ [item']))
                    items done = Ok (done ++ out)
              /\ Forall2 (fun item item' => quantize_item grids item = Ok item')
                         items out).
  { induction items as [|item items IH]; intros done Hitems.
    - exists []. rewrite app_nil_r. split; [reflexivity | constructor].
    - apply Forall_cons in Hitems as [[Hs He] Hitems].
      destruct (Hone item Hs He) as (k & g & e & _ & _ & _ & _ & Hq).
      match type of Hq with _ = Ok ?x =>
        destruct (IH (done ++ [x]) Hitems) as (out & Hf & Hall2);
        exists (x :: out)
      end.
      cbn [foldM]. rewrite Hq.
      cbn [mbind result_bind Py.bind]. rewrite Hf, <- app_assoc.
      split; [reflexivity|]. constructor; [exact Hq | exact Hall2]. }
  destruct (Hloop note_items [] Hall) as (out & Hf & Hall2).
  exists out. split; [exact Hf|].
  split; [symmetry; eapply Forall2_length, Hall2|].
  split; [exact H0|].
  intros i item item' Hi Hi'.
  pose proof (Forall2_lookup_lr _ _ _ _ _ _ Hall2 Hi Hi') as Hq. cbv beta in Hq.
  apply (proj1 (Forall_lookup _ _) Hall i item) in Hi as [Hs He].
  destruct (Hone item Hs He) as (k & g & e & Hg & Hle & Hmax & Hend' & Hq').
  rewrite Hq' in Hq. injection Hq as <-.
  exists k, g, e. cbn [start end_ name velocity pitch instrument].
  replace (start item + (py_round g - start item)) with (py_round g) by lia.
  fold (ticks_of midi).
  assert (Hcomplete :
            start item < Z.max (resolution midi) (get_end_tick midi) ->
            forall j : nat,
              (fl (inject_Z (Z.of_nat j) * ticks_of midi)
               <= inject_Z (start item))%Q ->
              grids !! j = Some (fl (inject_Z (Z.of_nat j) * ticks_of midi))).
  { intros Hin j Hj. apply np_arange_lookup_lt.
    apply (grids_complete midi Hres0 (start item) j HM Hin Hj). }
  assert (Hg0 : (0 <= g)%Q).
  { apply (Hsorted 0%nat k 0%Q g); [lia | exact H0 | exact Hg]. }
  assert (Hround : 0 <= py_round g <= start item).
  { split.
    - rewrite <- (py_round_Z 0). apply py_round_mono, Hg0.
    - rewrite <- (py_round_Z (start item)). apply py_round_mono, Hle. }
  split; [exact Hg|].
  split; [apply (grids_lookup midi k g Hg)|].
  split; [exact Hle|]. split; [exact Hmax|].
  split.
  { intros Hin j Hj. apply Hmax; [|exact Hj].
    apply list_elem_of_In, list_elem_of_lookup. exists j.
    apply (Hcomplete Hin j Hj). }
  split; [reflexivity|].
  split.
  { pose proof (py_round_near g) as Hn.
    generalize dependent (inject_Z (py_round g)). intros. lra. }
  split; [apply py_round_tie|].
  split; [exact Hround|].
  split; [exact Hend'|]. split; [reflexivity|]. split; [lia|].
  do 4 (split; [reflexivity|]).
  intros c Hc.
  destruct (grids_exact midi Hres0 c k g ltac:(lia) Hc Hg) as [Hkc Hgc].
  assert (Hpr : py_round g = Z.of_nat k * c)
    by (rewrite (py_round_comp _ _ Hgc); apply py_round_Z).
  split; [exact Hgc|]. split; [exact Hpr|].
  intros Hin. rewrite Hpr.
  assert (Hcpos : 0 < c) by lia.
  pose proof (ticks_exact midi Hres0 c ltac:(lia) Hc) as Ht.
  set (j := Z.to_nat (start item / c)).
  assert (Hj0 : 0 <= start item / c) by (apply Z.div_pos; lia).
  assert (Hjc : Z.of_nat j * c <= start item).
  { unfold j. rewrite Z2Nat.id by exact Hj0. rewrite Z.mul_comm.
    apply Z.mul_div_le. exact Hcpos. }
  assert (Hfj : (fl (inject_Z (Z.of_nat j) * ticks_of midi)
                 == inject_Z (Z.of_nat j * c))%Q).
  { transitivity (fl (inject_Z (Z.of_nat j * c)));
      [apply fl_comp | apply fl_int; lia].
    rewrite Ht, inject_Z_mult. reflexivity. }
  assert (Hjg : (fl (inject_Z (Z.of_nat j) * ticks_of midi) <= g)%Q).
  { apply Hmax.
    - apply list_elem_of_In, list_elem_of_lookup. exists j.
      apply (Hcomplete Hin j). rewrite Hfj, <- Zle_Qle. exact Hjc.
    - rewrite Hfj, <- Zle_Qle. exact Hjc. }
  rewrite Hfj, Hgc, <- Zle_Qle in Hjg.
  rewrite Hgc, <- Zle_Qle in Hle.
  assert (Hkj : Z.of_nat k <= start item / c)
    by (apply Z.div_le_lower_bound; lia).
  assert (Hjk : Z.of_nat j <= Z.of_nat k) by nia.
  unfold j in Hjk. rewrite Z2Nat.id in Hjk by exact Hj0.
  replace (Z.of_nat k) with (start item / c) by lia. apply Z.mul_comm.
Qed.

End Quantize.

Section QuantizeExamples.

Import MusicObj Utils.

Lemma quantize_items_snaps_witness :
  (exists (k : nat) (g : Q),
     quantize_items hundred_midi [example_note 125 300 60 Drum]
     = Ok [example_note 117 292 60 Drum]
     /\ grids_of hundred_midi !! k = Some g
     /\ g = Binary64.fl (inject_Z (Z.of_nat k) * Binary64.fl (100 # 12))
     /\ (g <= 125)%Q
     /\ (forall g', In g' (grids_of hundred_midi) -> (g' <= 125)%Q -> (g' <= g)%Q)
     /\ 117 = py_round g
     /\ (g - (1 # 2) <= 117 <= g + (1 # 2))%Q)
  /\ (exists (k : nat) (g : Q),
        quantize_items short_midi [example_note 100 300 60 Drum]
        = Ok [example_note 80 280 60 Drum]
        /\ grids_of short_midi !! k = Some g
        /\ (g == inject_Z (Z.of_nat k * 40))%Q
        /\ 80 = Z.of_nat k * 40
        /\ 80 = 40 * (100 / 40)).
Proof.
  split.
  - destruct (quantize_items_snaps hundred_midi [example_note 125 300 60 Drum])
      as (out & Hq & _ & _ & Hitems).
    + split; reflexivity.
    + reflexivity.
    + constructor; [|constructor].
      split; [split; [simpl; lia | reflexivity] | eexists; reflexivity].
    + assert (E : quantize_items hundred_midi [example_note 125 300 60 Drum]
                  = Ok [example_note 117 292 60 Drum])
        by (vm_compute; reflexivity).
      rewrite E in Hq. injection Hq as <-.
      destruct (Hitems 0%nat _ _ eq_refl eq_refl)
        as (k & g & e & Hg & Hgk & Hle & Hmax & _ & Hr & Hnear & _).
      exists k, g. split; [exact E|]. split; [exact Hg|].
      split; [exact Hgk|]. split; [exact Hle|]. split; [exact Hmax|].
      split; [exact Hr | exact Hnear].
  - destruct (quantize_items_snaps short_midi [example_note 100 300 60 Drum])
      as (out & Hq & _ & _ & Hitems).
    + split; reflexivity.
    + reflexivity.
    + constructor; [|constructor].
      split; [split; [simpl; lia | reflexivity] | eexists; reflexivity].
    + assert (E : quantize_items short_midi [example_note 100 300 60 Drum]
                  = Ok [example_note 80 280 60 Drum])
        by (vm_compute; reflexivity).
      rewrite E in Hq. injection Hq as <-.
      destruct (Hitems 0%nat _ _ eq_refl eq_refl)
        as (k & g & e & Hg & _ & _ & _ & _ & _ & _ & _ & _ & _ & _ & _ & _ & _
            & _ & _ & Hexact).
      destruct (Hexact 40 eq_refl) as (Hgc & Hk & Hdiv).
      exists k, g. split; [exact E|]. split; [exact Hg|].
      split; [exact Hgc|]. split; [exact Hk|]. apply Hdiv. reflexivity.
Defined.

(** C5 as stated fails, the grid being computed in doubles: at resolution
    100 the start 125 is itself a multiple of [resolution / 12], the 15th,
    whose rounding is 125; the 15th point of the grid the code builds lies
    above 125, and the note lands on 117, the rounding of the 14th. *)
Lemma quantize_items_snaps_counterexample :
  0 < resolution hundred_midi
  /\ (inject_Z 15 * (inject_Z (resolution hundred_midi)
                     / inject_Z DEFAULT_POS_PER_QUARTER) == inject_Z 125)%Q
  /\ py_round (inject_Z 15 * (inject_Z (resolution hundred_midi)
                              / inject_Z DEFAULT_POS_PER_QUARTER)) = 125
  /\ (inject_Z 125 < Binary64.fl (inject_Z 15 * ticks_of hundred_midi))%Q
  /\ quantize_items hundred_midi [example_note 125 300 60 Drum]
     = Ok [example_note 117 292 60 Drum].
Proof.
  split; [reflexivity|]. split; [reflexivity|]. split; [reflexivity|].
  split; vm_compute; reflexivity.
Qed.

(** The doubles of the grid at resolution 100, as Python prints them with
    [float.as_integer_ratio]: [0.1], [100 / 12], [15 * (100 / 12)] and
    [14 * (100 / 12)]. *)
Example doubles_of_the_grid :
  (Binary64.fl (1 # 10) == 3602879701896397 # 36028797018963968)%Q
  /\ (Binary64.fl (100 # 12) == 4691249611844267 # 562949953421312)%Q
  /\ (Binary64.fl (15 * Binary64.fl (100 # 12))
      == 8796093022208001 # 70368744177664)%Q
  /\ (Binary64.fl (14 * Binary64.fl (100 # 12))
      == 8209686820727467 # 70368744177664)%Q
  /\ py_round (8209686820727467 # 70368744177664) = 117.
Proof. repeat split; vm_compute; reflexivity. Qed.

(** The grid is as long as the quotient of doubles says: 61 points for an
    end tick of 1100 at resolution 220, one more than [1100 / (220 / 12)]. *)
Example grid_of_1100 :
  length (np_arange 1100 (Binary64.fl (220 # 12))) = 61%nat
  /\ (inject_Z 1100 / (220 # 12) == inject_Z 60)%Q.
Proof. split; [vm_compute; reflexivity | reflexivity]. Qed.

End QuantizeExamples.

(** ** [get_remi_events] *)

Section Encoder.

Import MusicObj Utils ChordExtraction Midi2Remi.

Context {T : Type}.
Variable program_to_instrument_name : Z -> result string.
Variable midi : PrettyMIDI T.

#[local] Abbreviation encode_item := (encode_item program_to_instrument_name).
#[local] Abbreviation encode_bar := (encode_bar program_to_instrument_name).
#[local] Abbreviation run_bars := (run_bars program_to_instrument_name).

Lemma tempo_event_name (item : Item) (ev : Event) :
  tempo_event item = Ok ev -> ename ev = TEMPO_KEY.
Proof.
  unfold tempo_event. destruct (pitch item); try discriminate.
  destruct (nearest_bin _ _); simpl; [|discriminate]. intros [= <-]. reflexivity.
Qed.

(** What one item does to the state of the encoder. *)
Lemma encode_item_spec (res : Z) (flags : list Q) (st st' : EncState) (item : Item) :
  encode_item res flags st item = Ok st' ->
  exists evs,
    events st' = events st ++ evs
    /\ n_downbeat st' = n_downbeat st
    /\ match name item with
       | Chord =>
           (current_chord st' = Some item
            \/ current_chord st' = current_chord st /\ current_chord st <> None)
           /\ current_tempo st' = current_tempo st
       | Tempo =>
           current_chord st' = current_chord st
           /\ (current_tempo st' = Some item
               \/ current_tempo st' = current_tempo st /\ current_tempo st <> None)
       | _ =>
           current_chord st' = current_chord st
           /\ current_tempo st' = current_tempo st
       end
    /\ (name item <> Chord -> chordless evs).
Proof.
  unfold Midi2Remi.encode_item. intros H.
  apply bind_Ok in H as (idx & _ & H).
  destruct (name item) eqn:Hname.
  - (* Note *)
    apply bind_Ok in H as (evs & Hev & H). injection H as <-.
    exists evs. cbn [events n_downbeat current_chord current_tempo].
    split; [reflexivity|]. split; [reflexivity|]. split; [split; reflexivity|].
    intros _. unfold note_events in Hev.
    repeat (apply bind_Ok in Hev as (? & _ & Hev)).
    injection Hev as <-. repeat constructor.
  - (* Chord *)
    destruct (same_pitch_as item (current_chord st)) eqn:Hsame.
    + injection H as <-. exists []. rewrite app_nil_r.
      split; [reflexivity|]. split; [reflexivity|].
      split; [|intros Hn; congruence].
      split; [|reflexivity]. right. split; [reflexivity|].
      destruct (current_chord st); [discriminate | discriminate Hsame].
    + injection H as <-. eexists.
      cbn [events n_downbeat current_chord current_tempo].
      split; [reflexivity|]. split; [reflexivity|].
      split; [|intros Hn; congruence].
      split; [left|]; reflexivity.
  - (* Tempo *)
    destruct (same_pitch_as item (current_tempo st)) eqn:Hsame.
    + injection H as <-. exists []. rewrite app_nil_r.
      split; [reflexivity|]. split; [reflexivity|].
      split; [|intros _; constructor].
      split; [reflexivity|]. right. split; [reflexivity|].
      destruct (current_tempo st); [discriminate | discriminate Hsame].
    + apply bind_Ok in H as (ev & Hev & H). injection H as <-. eexists.
      cbn [events n_downbeat current_chord current_tempo].
      split; [reflexivity|]. split; [reflexivity|].
      split; [split; [|left]; reflexivity|].
      intros _. apply tempo_event_name in Hev. unfold chordless.
      repeat constructor. rewrite Hev. reflexivity.
  - (* Pedal *)
    injection H as <-. exists []. rewrite app_nil_r.
    split; [reflexivity|]. split; [reflexivity|]. split; [split; reflexivity|].
    intros _. constructor.
Qed.

(** The loop over the items of a bar. *)
Lemma encode_items_spec (res : Z) (flags : list Q) (items : list Item) :
  forall st st',
    foldM (encode_item res flags) items st = Ok st' ->
    exists evs,
      events st' = events st ++ evs
      /\ n_downbeat st' = n_downbeat st
      /\ (current_chord st' <> None
          <-> current_chord st <> None \/ any_named Chord items)
      /\ (current_tempo st' <> None
          <-> current_tempo st <> None \/ any_named Tempo items)
      /\ (~ any_named Chord items ->
          chordless evs /\ current_chord st' = current_chord st).
Proof.
  induction items as [|item items IH]; intros st st' H; simpl in H.
  - injection H as <-. exists []. rewrite app_nil_r.
    repeat split; auto; try (intros [?|(? & [] & _)]; assumption).
    constructor.
  - apply bind_Ok in H as (st1 & H1 & H).
    apply encode_item_spec in H1 as (evs1 & He1 & Hn1 & Hcur & Hless1).
    apply IH in H as (evs & He & Hn & Hc & Ht & Hless).
    exists (evs1 ++ evs). rewrite He, He1, <- app_assoc.
    split; [reflexivity|]. split; [congruence|].
    assert (Hany : forall n, any_named n (item :: items)
                             <-> name item = n \/ any_named n items).
    { intros n. unfold any_named. split.
      - intros (x & [<-|Hx] & Hn'); [left; exact Hn' | right; eauto].
      - intros [Hn'|(x & Hx & Hn')]; [exists item | exists x]; simpl; auto. }
    split; [|split].
    + rewrite Hc, Hany. destruct (name item) eqn:Hname;
        destruct Hcur as [Hcc Hct]; try (rewrite Hcc);
        try (split; [intros [?|?]; auto | intros [?|[?|?]]; auto; discriminate]).
      destruct Hcc as [Hcc|[Hcc Hsome]]; rewrite Hcc.
      * split; [auto | intros _; left; discriminate].
      * split; [intros [?|?]; auto | intros [?|[?|?]]; auto].
    + rewrite Ht, Hany. destruct (name item) eqn:Hname;
        destruct Hcur as [Hcc Hct]; try (rewrite Hct);
        try (split; [intros [?|?]; auto | intros [?|[?|?]]; auto; discriminate]).
      destruct Hct as [Hct|[Hct Hsome]]; rewrite Hct.
      * split; [auto | intros _; left; discriminate].
      * split; [intros [?|?]; auto | intros [?|[?|?]]; auto].
    + intros Hno. rewrite Hany in Hno.
      assert (Hni : name item <> Chord) by tauto.
      destruct Hless as [Hl Hsame]; [tauto|].
      split; [apply Forall_app; split; [apply Hless1, Hni | exact Hl]|].
      rewrite Hsame. destruct (name item); try congruence; apply Hcur.
Qed.

Lemma carry_events_spec (st : EncState) (carried : list Event) :
  carry_events st = Ok carried ->
  exists chord_part tempo_part,
    carried = chord_part ++ tempo_part
    /\ match current_chord st with
       | Some c => chord_part = synthetic_chord_pair c
       | None => chord_part = []
       end
    /\ match current_tempo st with
       | Some t =>
           exists bpm idx,
             pitch t = PitchInt bpm
             /\ nearest_bin DEFAULT_TEMPO_BINS bpm = Ok idx
             /\ tempo_part
                = [mkEvent POSITION_KEY (Some 0) "0";
                   mkEvent TEMPO_KEY (Some (start t)) (str_of_Z (Z.of_nat idx))]
       | None => tempo_part = []
       end.
Proof.
  unfold carry_events. intros H.
  set (chord_part := match current_chord st with
                     | Some c => _ | None => [] end) in H.
  exists chord_part.
  destruct (current_tempo st) as [t|].
  - apply bind_Ok in H as (ev & Hev & H). injection H as <-.
    eexists. split; [reflexivity|].
    split; [unfold chord_part; destruct (current_chord st); reflexivity|].
    unfold tempo_event in Hev. destruct (pitch t) as [bpm| |]; try discriminate.
    apply bind_Ok in Hev as (idx & Hidx & Hev). injection Hev as <-.
    exists bpm, idx. auto.
  - injection H as <-. exists []. rewrite app_nil_r.
    split; [reflexivity|].
    split; [unfold chord_part; destruct (current_chord st); reflexivity|].
    reflexivity.
Qed.

(** One bar: header, carried pairs, then the items. *)
Lemma encode_bar_spec (st st' : EncState) (g : Group) :
  encode_bar midi st g = Ok st' ->
  exists time_sig carried positions_per_bar qpb st1,
    get_time_signature midi (bar_st g) = Ok time_sig
    /\ carry_events st = Ok carried
    /\ events st1
       = events st ++ bar_header (n_downbeat st + 1) time_sig ++ carried
    /\ n_downbeat st1 = n_downbeat st + 1
    /\ current_chord st1 = current_chord st
    /\ current_tempo st1 = current_tempo st
    /\ foldM (encode_item (resolution midi)
                (linspace_open (bar_st g)
                   (inject_Z (resolution midi) * qpb)%Q positions_per_bar))
             (insiders g) st1 = Ok st'.
Proof.
  unfold Midi2Remi.encode_bar. intros H.
  apply bind_Ok in H as (ppb & _ & H).
  destruct (ppb <=? 0); [discriminate|].
  apply bind_Ok in H as (time_sig & Hts & H).
  apply bind_Ok in H as (carried & Hcarry & H).
  apply bind_Ok in H as (qpb & _ & H).
  eexists time_sig, carried, ppb, qpb, _.
  split; [exact Hts|]. split; [exact Hcarry|].
  split; [|split; [|split; [|split; [|exact H]]]]; reflexivity.
Qed.

Lemma carried_chordless (st : EncState) (carried : list Event) :
  current_chord st = None -> carry_events st = Ok carried -> chordless carried.
Proof.
  intros Hc H. apply carry_events_spec in H as (cp & tp & -> & Hcp & Htp).
  rewrite Hc in Hcp. subst cp. simpl.
  destruct (current_tempo st).
  - destruct Htp as (bpm & idx & _ & _ & ->). repeat constructor.
  - subst tp. constructor.
Qed.

(** The whole pass: a chord (a tempo) is current exactly when an earlier bar
    held a chord (tempo) item. *)
Lemma run_bars_spec (gs : list Group) :
  forall st st',
    run_bars midi gs st = Ok st' ->
    (current_chord st' <> None
     <-> current_chord st <> None \/ exists g, In g gs /\ has_chord_item g)
    /\ (current_tempo st' <> None
        <-> current_tempo st <> None \/ exists g, In g gs /\ has_tempo_item g)
    /\ (current_chord st = None ->
        (forall g, In g gs -> ~ has_chord_item g) ->
        exists evs, events st' = events st ++ evs /\ chordless evs).
Proof.
  unfold Midi2Remi.run_bars.
  induction gs as [|g gs IH]; intros st st' H; simpl in H.
  - injection H as <-. repeat split; auto;
      try (intros [?|(? & [] & _)]; assumption).
    intros _ _. exists []. rewrite app_nil_r. split; [reflexivity | constructor].
  - apply bind_Ok in H as (st2 & Hbar & H).
    pose proof Hbar as Hbar'.
    apply encode_bar_spec in Hbar
      as (ts & carried & ppb & qpb & st1 & _ & Hcarry & Hev1 & _ & Hc1 & Ht1 & Hitems).
    apply encode_items_spec in Hitems as (evs & Hev & _ & Hc & Ht & Hless).
    apply IH in H as (Hc' & Ht' & Hless').
    assert (Hex : forall P : Group -> Prop,
              (exists x, In x (g :: gs) /\ P x) <-> P g \/ exists x, In x gs /\ P x).
    { intros P. split.
      - intros (x & [<-|Hx] & HP); eauto.
      - intros [HP|(x & Hx & HP)]; [exists g | exists x]; simpl; auto. }
    split; [|split].
    + rewrite Hc', Hc, Hc1, Hex. unfold has_chord_item, any_named.
      split; [intros [[H|H]|H] | intros [H|[H|H]]]; auto.
    + rewrite Ht', Ht, Ht1, Hex. unfold has_tempo_item, any_named.
      split; [intros [[H|H]|H] | intros [H|[H|H]]]; auto.
    + intros Hnone Hno.
      destruct Hless as [Hl Hsame].
      { apply (Hno g). left. reflexivity. }
      destruct Hless' as (evs' & Hev' & Hl').
      { rewrite Hsame, Hc1. exact Hnone. }
      { intros g' Hg'. apply Hno. right. exact Hg'. }
      eexists. rewrite Hev', Hev, Hev1, <- !app_assoc. split; [reflexivity|].
      unfold chordless. rewrite !Forall_app. repeat split; auto.
      * unfold bar_header. repeat constructor.
      * eapply carried_chordless; eauto.
Qed.

End Encoder.

(** ** Nearest-bin lookup *)

Section NearestBin.

Lemma argmin_from_spec (ds : list Q) :
  forall (seen : list Q) (best : nat) (best_d : Q),
    seen !! best = Some best_d ->
    (forall j d, seen !! j = Some d -> (best_d <= d)%Q) ->
    exists d_r,
      (seen ++ ds) !! argmin_from best best_d (length seen) ds = Some d_r
      /\ forall j d, (seen ++ ds) !! j = Some d -> (d_r <= d)%Q.
Proof.
  induction ds as [|d ds IH]; intros seen best best_d Hbest Hmin; simpl.
  - exists best_d. rewrite app_nil_r. auto.
  - replace (seen ++ d :: ds) with ((seen ++ [d]) ++ ds)
      by (rewrite <- app_assoc; reflexivity).
    replace (S (length seen)) with (length (seen ++ [d]))
      by (rewrite length_app; simpl; lia).
    destruct (Qle_bool best_d d) eqn:Hle.
    + apply IH.
      * apply lookup_app_l_Some, Hbest.
      * intros j d' Hj. apply lookup_app_Some in Hj as [Hj|[_ Hj]]; [eauto|].
        apply list_lookup_singleton_Some in Hj as [_ <-].
        apply Qle_bool_iff, Hle.
    + assert (Hlt : (d < best_d)%Q).
      { apply Qnot_le_lt. intros H. apply Qle_bool_iff in H. congruence. }
      apply IH.
      * rewrite lookup_app_r by lia. rewrite Nat.sub_diag. reflexivity.
      * intros j d' Hj. apply lookup_app_Some in Hj as [Hj|[_ Hj]].
        -- eapply Qle_trans; [apply Qlt_le_weak, Hlt | eauto].
        -- apply list_lookup_singleton_Some in Hj as [_ <-]. apply Qle_refl.
Qed.

Lemma np_argmin_spec (ds : list Q) (idx : nat) :
  np_argmin ds = Ok idx ->
  exists d_r, ds !! idx = Some d_r /\ forall j d, ds !! j = Some d -> (d_r <= d)%Q.
Proof.
  destruct ds as [|d ds]; [discriminate|]. intros [= <-].
  apply (argmin_from_spec ds [d] 0 d); [reflexivity|].
  intros j d' Hj. apply list_lookup_singleton_Some in Hj as [_ <-]. apply Qle_refl.
Qed.

Lemma Qabs_diff_le (a b x : Z) :
  (Qabs (inject_Z a - inject_Z x) <= Qabs (inject_Z b - inject_Z x))%Q
  <-> Z.abs (a - x) <= Z.abs (b - x).
Proof.
  unfold Qle, Qabs, Qminus, Qplus, Qopp, inject_Z. simpl.
  rewrite !Z.mul_1_r. reflexivity.
Qed.

(** [np.argmin(abs(bins - x))] names a bin at least distance from [x]. *)
Lemma nearest_bin_spec (bins : list Z) (x : Z) (idx : nat) :
  nearest_bin bins x = Ok idx ->
  exists v, bins !! idx = Some v
            /\ forall b, In b bins -> Z.abs (v - x) <= Z.abs (b - x).
Proof.
  unfold nearest_bin. intros H.
  apply np_argmin_spec in H as (d & Hd & Hmin).
  rewrite list_lookup_fmap in Hd.
  destruct (bins !! idx) as [v|] eqn:Hv; [|discriminate].
  injection Hd as <-. exists v. split; [reflexivity|].
  intros b Hb. apply list_elem_of_In, list_elem_of_lookup in Hb as [j Hj].
  apply Qabs_diff_le. apply (Hmin j). rewrite list_lookup_fmap, Hj. reflexivity.
Qed.

End NearestBin.

(** ** Carry-forward at the start of a bar *)

Section CarryForward.

Import MusicObj Utils ChordExtraction Midi2Remi.

Context {T : Type}.
Variable program_to_instrument_name : Z -> result string.
Variable midi : PrettyMIDI T.

(** C1, as amended: at the start of a bar, after the Bar and Time Signature
    events and before any item of the bar, the encoder emits a Position-0 +
    Chord pair exactly when a chord is current, that is when an earlier bar
    held a chord item, and a Position-0 + Tempo pair, the tempo binned to a
    nearest value of [DEFAULT_TEMPO_BINS], exactly when a tempo is current;
    what the bar itself declares plays no part. *)
Theorem carry_forward (pre : list Group) (g : Group) (st st' : EncState) :
  run_bars program_to_instrument_name midi pre initial_state = Ok st ->
  encode_bar program_to_instrument_name midi st g = Ok st' ->
  exists time_sig chord_part tempo_part st1 flags,
    events st1
    = events st ++ bar_header (T:=T) (n_downbeat st + 1) time_sig
        ++ chord_part ++ tempo_part
    /\ current_chord st1 = current_chord st
    /\ current_tempo st1 = current_tempo st
    /\ foldM (encode_item program_to_instrument_name (resolution midi) flags)
             (insiders g) st1 = Ok st'
    /\ ((exists g0, In g0 pre /\ has_chord_item g0)
        <-> exists c, current_chord st = Some c)
    /\ match current_chord st with
       | Some c => chord_part = synthetic_chord_pair c
       | None => chord_part = []
       end
    /\ ((exists g0, In g0 pre /\ has_tempo_item g0)
        <-> exists t, current_tempo st = Some t)
    /\ match current_tempo st with
       | Some t =>
           exists bpm idx v,
             pitch t = PitchInt bpm
             /\ nearest_bin DEFAULT_TEMPO_BINS bpm = Ok idx
             /\ DEFAULT_TEMPO_BINS !! idx = Some v
             /\ (forall b, In b DEFAULT_TEMPO_BINS ->
                   Z.abs (v - bpm) <= Z.abs (b - bpm))
             /\ tempo_part
                = [mkEvent POSITION_KEY (Some 0) "0";
                   mkEvent TEMPO_KEY (Some (start t)) (str_of_Z (Z.of_nat idx))]
       | None => tempo_part = []
       end.
Proof.
  intros Hrun Hbar.
  apply run_bars_spec in Hrun as (Hc & Ht & _).
  apply encode_bar_spec in Hbar
    as (ts & carried & ppb & qpb & st1 & _ & Hcarry & Hev1 & _ & Hc1 & Ht1 & Hitems).
  apply carry_events_spec in Hcarry as (cp & tp & -> & Hcp & Htp).
  exists ts, cp, tp, st1, (linspace_open (bar_st g)
                             (inject_Z (resolution midi) * qpb)%Q ppb).
  split; [exact Hev1|]. split; [exact Hc1|]. split; [exact Ht1|].
  split; [exact Hitems|].
  split; [|split; [exact Hcp|split]].
  - split.
    + intros H. destruct (current_chord st) as [c|]; [eauto|].
      exfalso. apply (proj2 Hc); [right; exact H | reflexivity].
    + intros [c Hcur]. destruct (proj1 Hc) as [H|H]; [congruence| |exact H].
      simpl in H. congruence.
  - split.
    + intros H. destruct (current_tempo st) as [t|]; [eauto|].
      exfalso. apply (proj2 Ht); [right; exact H | reflexivity].
    + intros [t Hcur]. destruct (proj1 Ht) as [H|H]; [congruence| |exact H].
      simpl in H. congruence.
  - destruct (current_tempo st) as [t|]; [|exact Htp].
    destruct Htp as (bpm & idx & Hp & Hidx & ->).
    destruct (nearest_bin_spec _ _ _ Hidx) as (v & Hv & Hnear).
    exists bpm, idx, v. auto.
Qed.

(** Grouping only moves items around. *)
Lemma insert_by_key_Forall (P : Item -> Prop) (x : Item) (l : list Item) :
  P x -> Forall P l -> Forall P (insert_by_key x l).
Proof.
  intros Hx. induction 1 as [|y l Hy Hl IH]; simpl.
  - repeat constructor. exact Hx.
  - destruct (key_leb x y); repeat constructor; auto.
Qed.

Lemma sort_items_Forall (P : Item -> Prop) (l : list Item) :
  Forall P l -> Forall P (sort_items l).
Proof.
  unfold sort_items. induction 1 as [|x l Hx Hl IH]; simpl.
  - constructor.
  - apply insert_by_key_Forall; assumption.
Qed.

Lemma trim_front_Forall (Q : Group -> Prop) (gs : list Group) :
  Forall Q gs -> Forall Q (trim_front gs).
Proof.
  induction 1 as [|g gs Hg Hgs IH]; simpl; [constructor|].
  destruct (has_notes g); [constructor; assumption | exact IH].
Qed.

Lemma group_items_Forall (P : Item -> Prop)
    (note_items chord_items tempo_items : list Item) (gs : list Group) :
  Forall P (chord_items ++ tempo_items ++ note_items) ->
  group_items midi note_items chord_items tempo_items = Ok gs ->
  Forall (fun g => Forall P (insiders g)) gs.
Proof.
  intros HP H. unfold group_items in H.
  apply bind_Ok in H as (_ & _ & H). injection H as <-.
  unfold trim_back. apply Forall_reverse, trim_front_Forall, Forall_reverse,
    trim_front_Forall.
  apply Forall_fmap, Forall_forall. intros [db1 db2] _. simpl.
  apply Forall_List_filter, sort_items_Forall.
  destruct chord_items; exact HP.
Qed.

Lemma token_not_chord (e : Event) :
  chordless_name (ename e) = true -> String.prefix "Chord_" (token e) = false.
Proof.
  unfold chordless_name, token. intros H.
  apply List.existsb_exists in H as (k & Hin & Heq).
  apply String.eqb_eq in Heq. rewrite Heq. simpl in Hin.
  repeat (destruct Hin as [<-|Hin]; [reflexivity|]). destruct Hin.
Qed.

(** C8: for a piece that ends before its first quarter note is over,
    [extract_chords] returns the empty list, and no token of the encoded
    stream is a Chord token. *)
Theorem extract_chords_short_piece (note_items tempo_items : list Item)
    (strict : bool) :
  get_end_tick midi < resolution midi ->
  Forall (fun item => name item = Note) note_items ->
  Forall (fun item => name item = Tempo) tempo_items ->
  extract_chords midi = Some (Ok [])
  /\ forall self tokens,
       RemiPlus_init midi note_items tempo_items strict = Some (Ok self) ->
       get_remi_events program_to_instrument_name self = Ok tokens ->
       Forall (fun tok => String.prefix "Chord_" tok = false) tokens.
Proof.
  intros Hshort Hnotes Htempos.
  assert (Hex : extract_chords midi = Some (Ok [])).
  { unfold extract_chords. destruct (Z.ltb_spec (get_end_tick midi) (resolution midi));
      [reflexivity | lia]. }
  split; [exact Hex|].
  intros self tokens Hinit Htok.
  unfold RemiPlus_init in Hinit. rewrite Hex in Hinit.
  injection Hinit as Hinit.
  apply bind_Ok in Hinit as (gs & Hgroups & Hself).
  destruct (strict && _); [discriminate|]. injection Hself as <-.
  unfold get_remi_events in Htok. cbn [Midi2Remi.midi groups] in Htok.
  apply bind_Ok in Htok as (st & Hrun & Htok). injection Htok as <-.
  apply (group_items_Forall (fun item => name item <> Chord)) in Hgroups.
  2:{ simpl. apply Forall_app. split.
      - eapply Forall_impl; [exact Htempos|]. simpl. intros x ->. discriminate.
      - eapply Forall_impl; [exact Hnotes|]. simpl. intros x ->. discriminate. }
  apply run_bars_spec in Hrun as (_ & _ & Hless).
  destruct Hless as (evs & Hev & Hl); [reflexivity| |].
  - intros g Hg (item & Hitem & Hname).
    apply (proj1 (List.Forall_forall _ _) Hgroups) in Hg.
    apply (proj1 (List.Forall_forall _ _) Hg) in Hitem. contradiction.
  - rewrite Hev. simpl. apply Forall_fmap.
    eapply Forall_impl; [exact Hl|]. intros e He. apply token_not_chord, He.
Qed.

End CarryForward.

(** ** The encoder on a two-bar piece *)

Section EncoderExamples.

Import MusicObj Utils ChordExtraction Midi2Remi.

Example two_bar_tokens :
  (st ← run_bars piano_only two_bar_midi [bar_one; bar_two] initial_state;
   Ok (map token (events st)))
  = Ok ["Bar_1"; "Time Signature_4/4"; "Position_0"; "Chord_C:maj";
        "Position_0"; "Tempo_16"; "Position_0";
        "Instrument_Acoustic Grand Piano"; "Pitch_60"; "Velocity_16";
        "Duration_11";
        "Bar_2"; "Time Signature_4/4"; "Position_0"; "Chord_C:maj";
        "Position_0"; "Tempo_16"; "Position_0"; "Chord_D:min";
        "Position_0"; "Instrument_drum"; "Pitch_drum_62"; "Velocity_16";
        "Duration_11"]%string.
Proof. vm_compute. reflexivity. Qed.

Lemma carry_forward_witness :
  exists st st',
    run_bars piano_only two_bar_midi [bar_one] initial_state = Ok st
    /\ encode_bar piano_only two_bar_midi st bar_two = Ok st'
    /\ exists (time_sig : TimeSignature Z) chord_part tempo_part st1,
         events st1
         = events st ++ bar_header (n_downbeat st + 1) time_sig
             ++ chord_part ++ tempo_part.
Proof.
  destruct (run_bars piano_only two_bar_midi [bar_one] initial_state)
    as [st|e] eqn:Hrun; [|vm_compute in Hrun; discriminate Hrun].
  destruct (encode_bar piano_only two_bar_midi st bar_two)
    as [st'|e] eqn:Hbar.
  - exists st, st'. split; [reflexivity|]. split; [exact Hbar|].
    destruct (carry_forward piano_only two_bar_midi [bar_one] bar_two st st'
                Hrun Hbar) as (ts & cp & tp & st1 & flags & H & _).
    exists ts, cp, tp, st1. exact H.
  - exfalso. vm_compute in Hrun. injection Hrun as <-.
    vm_compute in Hbar. discriminate Hbar.
Defined.

(** C1 as stated fails: the second bar declares a chord on its first tick,
    and the pair for the chord carried over is emitted all the same. *)
Lemma carry_forward_counterexample :
  exists st,
    run_bars piano_only two_bar_midi [bar_one] initial_state = Ok st
    /\ ~ ((exists c rest, carry_events st = Ok (synthetic_chord_pair c ++ rest))
          <-> (current_chord st <> None /\ ~ redeclares_chord_at_0 bar_two)).
Proof.
  eexists. split; [vm_compute; reflexivity|].
  intros [Hemit _].
  destruct Hemit as [_ Hno].
  - exists (example_chord 0 1920 "C:maj"),
      [mkEvent POSITION_KEY (Some 0) "0"; mkEvent TEMPO_KEY (Some 0) "16"].
    vm_compute. reflexivity.
  - apply Hno. exists (example_chord 1920 3840 "D:min").
    split; [left; reflexivity|]. split; reflexivity.
Qed.

Lemma extract_chords_short_piece_witness :
  extract_chords short_midi = Some (Ok [])
  /\ forall self tokens,
       RemiPlus_init short_midi [example_note 0 240 60 Drum]
         [example_tempo 0 120] false = Some (Ok self) ->
       get_remi_events piano_only self = Ok tokens ->
       Forall (fun tok => String.prefix "Chord_" tok = false) tokens.
Proof.
  apply (extract_chords_short_piece piano_only short_midi);
    [reflexivity | repeat constructor | repeat constructor].
Defined.

End EncoderExamples.

(** ** [remi2midi] *)

Section Decoder.

Import Remi2Midi.

Context {F : Type}.
Variable F_of_Z : Z -> F.
Variables Fadd Fmul Fdiv : F -> F -> F.
Variable F_nonneg : F -> bool.
Variable instrument_name_to_program : string -> result Z.

#[local] Abbreviation get_time := (get_time F_of_Z Fadd Fmul Fdiv).
#[local] Abbreviation bar_branch := (bar_branch F_of_Z Fadd Fmul Fdiv F_nonneg).
#[local] Abbreviation tempo_branch := (tempo_branch F_of_Z Fadd Fmul Fdiv).
#[local] Abbreviation note_branch :=
  (note_branch F_of_Z Fadd Fmul Fdiv instrument_name_to_program).
#[local] Abbreviation step :=
  (step F_of_Z Fadd Fmul Fdiv F_nonneg instrument_name_to_program).
#[local] Abbreviation run :=
  (run F_of_Z Fadd Fmul Fdiv F_nonneg instrument_name_to_program).
#[local] Abbreviation remi2midi :=
  (remi2midi F_of_Z Fadd Fmul Fdiv F_nonneg instrument_name_to_program).
#[local] Abbreviation DecState := (DecState (F:=F)).
#[local] Abbreviation Instrument := (Instrument (F:=F)).
#[local] Abbreviation Note := (Note (F:=F)).

(** *** Dictionaries keyed by strings *)

Lemma sdict_get_set_eq {V} (d : dict string V) (k : string) (v : V) :
  dict_get String.eqb (dict_set String.eqb d k v) k = Some v.
Proof.
  induction d as [|[k0 v0] d IH]; simpl.
  - rewrite String.eqb_refl. reflexivity.
  - destruct (String.eqb k k0) eqn:E; simpl; rewrite E; [reflexivity | exact IH].
Qed.

Lemma sdict_get_set_ne {V} (d : dict string V) (k k' : string) (v : V) :
  k <> k' ->
  dict_get String.eqb (dict_set String.eqb d k v) k' = dict_get String.eqb d k'.
Proof.
  intros Hne. induction d as [|[k0 v0] d IH]; simpl.
  - destruct (String.eqb_spec k' k); [congruence | reflexivity].
  - destruct (String.eqb_spec k k0) as [->|Hk]; simpl.
    + destruct (String.eqb_spec k' k0); [congruence | reflexivity].
    + destruct (String.eqb k' k0); [reflexivity | exact IH].
Qed.

Lemma sdict_set_Forall {V} (Q : V -> Prop) (d : dict string V) (k : string) (v : V) :
  Forall (fun kv => Q kv.2) d -> Q v ->
  Forall (fun kv => Q kv.2) (dict_set String.eqb d k v).
Proof.
  intros Hd Hv. induction Hd as [|[k0 v0] d H0 Hd IH]; simpl.
  - repeat constructor. exact Hv.
  - destruct (String.eqb k k0); constructor; auto.
Qed.

Lemma sdict_get_Forall {V} (Q : V -> Prop) (d : dict string V) (k : string) (v : V) :
  Forall (fun kv => Q kv.2) d -> dict_get String.eqb d k = Some v -> Q v.
Proof.
  induction 1 as [|[k0 v0] d H0 Hd IH]; simpl; [discriminate|].
  destruct (String.eqb k k0); [intros [= <-]; exact H0 | exact IH].
Qed.

Lemma bar_branch_instruments (events : list string) (i : nat) (st st' : DecState) :
  bar_branch events i st = Ok st' -> instruments st' = instruments st.
Proof.
  unfold Remi2Midi.bar_branch. intros H.
  destruct (_ && _); [|injection H as <-; reflexivity].
  destruct (ChordExtraction.split "/" _) as [|num [|denom [|? ?]]]; try discriminate.
  apply bind_Ok in H as (n & _ & H). apply bind_Ok in H as (d & _ & H).
  cbn [last_tl_event] in H.
  destruct (_ || _); [|injection H as <-; reflexivity].
  apply bind_Ok in H as (ts & _ & H). injection H as <-. reflexivity.
Qed.

Lemma tempo_branch_instruments (events : list string) (i : nat) (st st' : DecState) :
  tempo_branch events i st = Ok st' -> instruments st' = instruments st.
Proof.
  unfold Remi2Midi.tempo_branch. intros H.
  apply bind_Ok in H as (p & _ & H). apply bind_Ok in H as (ti & _ & H).
  apply bind_Ok in H as (t & _ & H).
  destruct (negb _); injection H as <-; reflexivity.
Qed.

Lemma normalise_instruments (st : DecState) :
  instruments (normalise st) = instruments st.
Proof. unfold normalise. destruct (_ !! _); reflexivity. Qed.

Lemma step_normalise (L : Z) (events : list string) (i : nat) (st : DecState) :
  step L events i st
  = if String.eqb (token_at events i) EOS_TOKEN then Ok (Break st)
    else if is_bar_head events i then Next <$> bar_branch events i (normalise st)
    else if is_tempo_head events i then Next <$> tempo_branch events i (normalise st)
    else if is_note_head events i
    then Next <$> note_branch L events i (normalise st)
    else Ok (Next (normalise st)).
Proof. reflexivity. Qed.

Lemma fmap_Ok {A B} (f : A -> B) (m : result A) (b : B) :
  f <$> m = Ok b -> exists a, m = Ok a /\ b = f a.
Proof. destruct m as [a|e]; [intros [= <-]; eauto | discriminate]. Qed.

(** *** Every note comes from a note group of the stream *)

Lemma sdict_set_Forall_key {V} (Q : string -> V -> Prop) (d : dict string V)
    (k : string) (v : V) :
  Forall (fun kv => Q kv.1 kv.2) d -> Q k v ->
  Forall (fun kv => Q kv.1 kv.2) (dict_set String.eqb d k v).
Proof.
  intros Hd Hv. induction Hd as [|[k0 v0] d H0 Hd IH]; simpl.
  - repeat constructor. exact Hv.
  - destruct (String.eqb_spec k k0) as [->|]; constructor; auto.
Qed.

Lemma sdict_get_Forall_key {V} (Q : string -> V -> Prop) (d : dict string V)
    (k : string) (v : V) :
  Forall (fun kv => Q kv.1 kv.2) d -> dict_get String.eqb d k = Some v -> Q k v.
Proof.
  induction 1 as [|[k0 v0] d H0 Hd IH]; simpl; [discriminate|].
  destruct (String.eqb_spec k k0) as [->|]; [intros [= <-]; exact H0 | exact IH].
Qed.

Lemma append_note_from (events : list string) (ins : dict string Instrument)
    (name : string) (note : Note) :
  instruments_from events ins -> note_from events name note ->
  instruments_from events (append_note ins name note).
Proof.
  intros Hins Hnote. unfold append_note.
  destruct (dict_get String.eqb ins name) as [i|] eqn:Hi; [|exact Hins].
  apply (sdict_set_Forall_key
           (fun k i => Forall (note_from events k) (notes i))); [exact Hins|].
  simpl. apply Forall_app. split.
  - apply (sdict_get_Forall_key
             (fun k i => Forall (note_from events k) (notes i)) _ _ _ Hins Hi).
  - constructor; [exact Hnote | constructor].
Qed.

Lemma note_branch_from (L : Z) (events : list string) (i : nat)
    (st st' : DecState) :
  takes_note_branch events i = true ->
  instruments_from events (instruments st) ->
  note_branch L events i st = Ok st' ->
  instruments_from events (instruments st').
Proof.
  unfold Remi2Midi.note_branch. intros Htakes Hins H.
  apply bind_Ok in H as (position & _ & H).
  apply bind_Ok in H as (pc_bar & _ & H).
  cbv zeta in H.
  destruct (match default ∅ (pc_bar !! position) !! _ with
            | Some c => L <=? c | None => false end).
  { injection H as <-. exact Hins. }
  apply bind_Ok in H as (ins & Hins' & H).
  apply bind_Ok in H as (pitch & Hpitch & H).
  apply bind_Ok in H as (vi & Hvi & H).
  apply bind_Ok in H as (v & Hv & H).
  apply bind_Ok in H as (di & _ & H).
  apply bind_Ok in H as (dur & _ & H).
  injection H as <-. cbn [instruments].
  apply append_note_from.
  - cbn [with_polyphony instruments] in Hins'.
    destruct (dict_has String.eqb (instruments st) _).
    + injection Hins' as <-. exact Hins.
    + destruct (String.eqb _ "drum").
      * injection Hins' as <-.
        apply (sdict_set_Forall_key
                 (fun k i => Forall (note_from events k) (notes i)));
          [exact Hins | constructor].
      * apply bind_Ok in Hins' as (p & _ & Hins'). injection Hins' as <-.
        apply (sdict_set_Forall_key
                 (fun k i => Forall (note_from events k) (notes i)));
          [exact Hins | constructor].
  - exists i, pitch, vi, v. cbn [note_pitch note_velocity]. auto 10.
Qed.

Lemma step_from (L : Z) (events : list string) (i : nat) (st : DecState) flow :
  instruments_from events (instruments st) ->
  step L events i st = Ok flow ->
  instruments_from events (instruments (state_of flow)).
Proof.
  intros Hins. rewrite step_normalise. unfold instruments_from.
  pose proof (eq_refl (takes_note_branch events i)) as Htakes.
  unfold takes_note_branch at 2 in Htakes.
  destruct (String.eqb _ EOS_TOKEN); [intros [= <-]; exact Hins|].
  destruct (is_bar_head events i).
  { intros H. apply fmap_Ok in H as (st' & H & ->). simpl.
    rewrite (bar_branch_instruments _ _ _ _ H), normalise_instruments. exact Hins. }
  destruct (is_tempo_head events i).
  { intros H. apply fmap_Ok in H as (st' & H & ->). simpl.
    rewrite (tempo_branch_instruments _ _ _ _ H), normalise_instruments. exact Hins. }
  destruct (is_note_head events i).
  { intros H. apply fmap_Ok in H as (st' & H & ->). simpl.
    eapply note_branch_from; [exact Htakes | | exact H].
    unfold instruments_from. rewrite normalise_instruments. exact Hins. }
  intros [= <-]. simpl. rewrite normalise_instruments. exact Hins.
Qed.

Lemma run_from (L : Z) (events : list string) (n : nat) :
  forall (i : nat) (st : DecState) flow,
    instruments_from events (instruments st) ->
    run L events i n st = Ok flow ->
    instruments_from events (instruments (state_of flow)).
Proof.
  induction n as [|n IH]; intros i st flow Hins; simpl.
  - intros [= <-]. exact Hins.
  - intros H. apply bind_Ok in H as (flow1 & Hstep & H).
    pose proof (step_from _ _ _ _ _ Hins Hstep) as Hins1.
    destruct flow1 as [st1|st1].
    + eapply IH; [exact Hins1 | exact H].
    + injection H as <-. exact Hins1.
Qed.

(** C10: every note of the object [remi2midi] returns was made from a note
    group of the stream, and its velocity is
    [min(127, DEFAULT_VELOCITY_BINS[velocity_index])] for the index
    [velocity_index] read from the Velocity token of that group, hence at
    most 127: the loop takes the note branch at some position [i], the
    note's pitch is the integer of the token at [i + 2], and its velocity is
    the bin value, cut at 127, at the integer of the token at [i + 3]. *)
Theorem velocity_clamped (events : list string) (polyphony_limit : Z)
    (midi : Midi (F:=F)) :
  remi2midi events polyphony_limit = Ok midi ->
  forall inst, In inst (midi_instruments midi) ->
  forall note, In note (notes inst) ->
    note_velocity note <= 127
    /\ exists (i : nat) velocity_index v,
         takes_note_branch events i = true
         /\ py_int (last_field (token_at events (i + 2))) = Ok (note_pitch note)
         /\ py_int (last_field (token_at events (i + 3))) = Ok velocity_index
         /\ index DEFAULT_VELOCITY_BINS velocity_index = Ok v
         /\ note_velocity note = Z.min 127 v.
Proof.
  unfold Remi2Midi.remi2midi. intros H.
  apply bind_Ok in H as (bpm & _ & H). apply bind_Ok in H as (flow & Hrun & H).
  injection H as <-. cbn [midi_instruments].
  apply (run_from _ events) in Hrun; [|constructor].
  intros inst Hinst note Hnote.
  apply List.in_map_iff in Hinst as ([name inst'] & <- & Hin).
  apply (proj1 (List.Forall_forall _ _) Hrun) in Hin. simpl in Hin.
  apply (proj1 (List.Forall_forall _ _) Hin) in Hnote.
  destruct Hnote as (i & pitch & vi & v & Ht & _ & Hp & Hvi & Hv & Hpn & Hvn).
  split; [rewrite Hvn; lia|].
  exists i, vi, v. rewrite Hpn. auto.
Qed.

(** *** Tokens that match no pattern head *)

Lemma normalise_frame (st : DecState) :
  same_frame st (normalise st)
  /\ instruments (normalise st) = instruments st
  /\ n_notes (normalise st) = n_notes st
  /\ is_Some (polyphony_control (normalise st) !! bar (normalise st))
  /\ forall b p n,
       pc_count (polyphony_control (normalise st)) b p n
       = pc_count (polyphony_control st) b p n.
Proof.
  unfold normalise, same_frame.
  destruct (polyphony_control st !! bar st) as [m|] eqn:Hbar.
  - rewrite Hbar. repeat split; eauto.
  - cbn [with_polyphony initial_tempo time_signature_changes last_tl_event bar
           instruments n_notes polyphony_control].
    rewrite lookup_insert_eq. repeat split; eauto.
    intros b p n. unfold pc_count.
    destruct (decide (b = bar st)) as [->|Hne].
    + rewrite lookup_insert_eq, Hbar. reflexivity.
    + rewrite lookup_insert_ne by congruence. reflexivity.
Qed.

Lemma normalise_id (st : DecState) :
  is_Some (polyphony_control st !! bar st) -> normalise st = st.
Proof. intros [m Hm]. unfold normalise. rewrite Hm. reflexivity. Qed.

Lemma step_headless (L : Z) (events : list string) (i : nat) (st : DecState) :
  headless (token_at events i) = true ->
  step L events i st
  = if String.eqb (token_at events i) EOS_TOKEN then Ok (Break st)
    else Ok (Next (normalise st)).
Proof.
  unfold headless. intros H. apply andb_prop in H as [Hbar Hpos].
  apply negb_true_iff in Hbar, Hpos.
  rewrite step_normalise. unfold is_bar_head, is_tempo_head, is_note_head.
  rewrite Hbar, Hpos, !andb_false_r. reflexivity.
Qed.

Lemma run_headless (L : Z) (events : list string) (n : nat) :
  forall (i : nat) (st : DecState),
    (forall j, (i <= j < i + n)%nat -> headless (token_at events j) = true) ->
    exists flow,
      run L events i n st = Ok flow
      /\ same_frame st (state_of flow)
      /\ instruments (state_of flow) = instruments st.
Proof.
  induction n as [|n IH]; intros i st Hall; simpl.
  - exists (Next st). unfold same_frame. simpl. repeat split; reflexivity.
  - rewrite step_headless by (apply Hall; lia).
    destruct (String.eqb _ EOS_TOKEN).
    + exists (Break st). unfold same_frame. simpl. repeat split; reflexivity.
    + cbn [mbind result_bind Py.bind].
      destruct (IH (S i) (normalise st)) as (flow & Hrun & Hfr & Hins).
      { intros j Hj. apply Hall. lia. }
      exists flow. split; [exact Hrun|].
      destruct (normalise_frame st) as ((H1 & H2 & H3 & H4) & Hi & _).
      destruct Hfr as (G1 & G2 & G3 & G4).
      unfold same_frame. rewrite G1, G2, G3, G4, Hins. auto.
Qed.

(** *** Polyphony *)

Lemma default_lookup (m : gmap Z (gmap string Z)) (p : Z) (n : string) :
  default ∅ (m !! p) !! n = (m !! p) ≫= (fun mp => mp !! n).
Proof. destruct (m !! p); [reflexivity | apply lookup_empty]. Qed.

(** Writing one counter leaves the others alone. *)
Lemma pc_count_update (pc : gmap Z (gmap Z (gmap string Z)))
    (bar position : Z) (name : string) (pc_bar : gmap Z (gmap string Z)) (x : Z) :
  pc !! bar = Some pc_bar ->
  let pc' :=
    <[bar := <[position := <[name := x]> (default ∅ (pc_bar !! position))]> pc_bar]>
      pc in
  pc_count pc' bar position name = Some x
  /\ forall b p n, (b, p, n) <> (bar, position, name) ->
       pc_count pc' b p n = pc_count pc b p n.
Proof.
  intros Hbar pc'. unfold pc_count, pc'. split.
  - rewrite lookup_insert_eq. simpl. rewrite lookup_insert_eq. simpl.
    apply lookup_insert_eq.
  - intros b p n Hne.
    destruct (decide (b = bar)) as [->|Hb].
    + rewrite lookup_insert_eq, Hbar. simpl.
      destruct (decide (p = position)) as [->|Hp].
      * rewrite lookup_insert_eq. simpl.
        rewrite lookup_insert_ne by congruence. apply default_lookup.
      * rewrite lookup_insert_ne by congruence. reflexivity.
    + rewrite lookup_insert_ne by congruence. reflexivity.
Qed.

Lemma sdict_has_get {V} (d : dict string V) (k : string) :
  dict_has String.eqb d k = true -> exists v, dict_get String.eqb d k = Some v.
Proof. unfold dict_has. destruct (dict_get _ d k); [eauto | discriminate]. Qed.

(** The note branch on a group whose values parse. *)
Lemma note_branch_spec (L : Z) (events : list string) (i : nat) (st : DecState)
    (position : Z) (name : string) (pitch vidx didx v dur : Z)
    (pc_bar : gmap Z (gmap string Z)) :
  py_int (last_field (token_at events i)) = Ok position ->
  last_field (token_at events (i + 1)) = name ->
  py_int (last_field (token_at events (i + 2))) = Ok pitch ->
  py_int (last_field (token_at events (i + 3))) = Ok vidx ->
  py_int (last_field (token_at events (i + 4))) = Ok didx ->
  index DEFAULT_VELOCITY_BINS vidx = Ok v ->
  index DEFAULT_DURATION_BINS didx = Ok dur ->
  (name = "drum"%string
   \/ (exists p, instrument_name_to_program name = Ok p)
   \/ dict_has String.eqb (instruments st) name = true) ->
  polyphony_control st !! bar st = Some pc_bar ->
  exists st',
    note_branch L events i st = Ok st'
    /\ is_Some (polyphony_control st' !! bar st')
    /\ others_untouched st st' position name
    /\ let note :=
         mkNote (Z.min 127 v) pitch
           (get_time (last_tl_event st) (bar st) position)
           (get_time (last_tl_event st) (bar st) (position + dur)) in
       match pc_count (polyphony_control st) (bar st) position name with
       | Some c =>
           if L <=? c then note_dropped st st' position name c
           else note_kept st st' position name c note
       | None => note_kept st st' position name 0 note
       end.
Proof.
  intros Hpos Hname Hpitch Hvidx Hdidx Hv Hdur Havail Hbar.
  unfold Remi2Midi.note_branch.
  rewrite Hpos. cbn [mbind result_bind Py.bind].
  rewrite Hbar. cbn [of_option mbind result_bind Py.bind]. cbv zeta.
  rewrite Hname, Hpitch, Hvidx, Hdidx.
  assert (Hcount : pc_count (polyphony_control st) (bar st) position name
                   = default ∅ (pc_bar !! position) !! name).
  { unfold pc_count. rewrite Hbar. simpl. symmetry. apply default_lookup. }
  rewrite Hcount.
  set (cnt := default ∅ (pc_bar !! position) !! name).
  set (c0 := default 0 cnt).
  destruct (pc_count_update (polyphony_control st) (bar st) position name
              pc_bar c0 Hbar) as [Hsame0 Hother0].
  set (pc0 := <[bar st := _]> (polyphony_control st)) in *.
  assert (Hframe0 : forall b p n, (b, p, n) <> (bar st, position, name) ->
            pc_count pc0 b p n = pc_count (polyphony_control st) b p n)
    by exact Hother0.
  assert (Hdrop : forall c, cnt = Some c -> (L <=? c) = true ->
            exists st',
              Ok (with_polyphony st pc0) = Ok st'
              /\ is_Some (polyphony_control st' !! bar st')
              /\ others_untouched st st' position name
              /\ note_dropped st st' position name c).
  { intros c Hc _. eexists. split; [reflexivity|].
    unfold others_untouched, same_frame, note_dropped.
    cbn [with_polyphony initial_tempo time_signature_changes last_tl_event bar
           instruments n_notes polyphony_control].
    split; [unfold pc0; rewrite lookup_insert_eq; eauto|].
    split; [|split; [|split; reflexivity]].
    - split; [repeat split; reflexivity|].
      split; [exact Hframe0 | reflexivity].
    - rewrite Hsame0. unfold c0. rewrite Hc. reflexivity. }
  assert (Hkeep : (match cnt with Some c => L <=? c | None => false end) = false ->
            exists st',
              (ins ←
                 (if dict_has String.eqb (instruments (with_polyphony st pc0)) name
                  then Ok (instruments (with_polyphony st pc0))
                  else if String.eqb name "drum"
                  then Ok (dict_set String.eqb (instruments (with_polyphony st pc0))
                             name (mkInstrument 0 true []))
                  else
                    program ← instrument_name_to_program name;
                    Ok (dict_set String.eqb (instruments (with_polyphony st pc0))
                          name (mkInstrument program false [])));
               pitch' ← Ok pitch;
               velocity_index ← Ok vidx;
               v' ← index DEFAULT_VELOCITY_BINS velocity_index;
               duration_index ← Ok didx;
               duration ← index DEFAULT_DURATION_BINS duration_index;
               Ok (mkDecState (initial_tempo (with_polyphony st pc0))
                     (time_signature_changes (with_polyphony st pc0))
                     (append_note ins name
                        (mkNote (Z.min 127 v') pitch'
                           (get_time (last_tl_event (with_polyphony st pc0))
                              (bar (with_polyphony st pc0)) position)
                           (get_time (last_tl_event (with_polyphony st pc0))
                              (bar (with_polyphony st pc0)) (position + duration))))
                     (last_tl_event (with_polyphony st pc0))
                     (bar (with_polyphony st pc0))
                     (n_notes (with_polyphony st pc0) + 1)
                     (<[bar (with_polyphony st pc0) :=
                          <[position := <[name := c0 + 1]>
                                          (default ∅ (pc_bar !! position))]> pc_bar]>
                        pc0))) = Ok st'
              /\ is_Some (polyphony_control st' !! bar st')
              /\ others_untouched st st' position name
              /\ note_kept st st' position name c0
                   (mkNote (Z.min 127 v) pitch
                      (get_time (last_tl_event st) (bar st) position)
                      (get_time (last_tl_event st) (bar st) (position + dur)))).
  { intros _.
    cbn [with_polyphony initial_tempo time_signature_changes last_tl_event bar
           instruments n_notes polyphony_control].
    assert (Hins : exists ins i0,
              (if dict_has String.eqb (instruments st) name
               then Ok (instruments st)
               else if String.eqb name "drum"
               then Ok (dict_set String.eqb (instruments st) name
                          (mkInstrument 0 true []))
               else
                 program ← instrument_name_to_program name;
                 Ok (dict_set String.eqb (instruments st) name
                       (mkInstrument program false []))) = Ok ins
              /\ dict_get String.eqb ins name = Some i0
              /\ notes i0 = notes_of (instruments st) name
              /\ forall other, other <> name ->
                   dict_get String.eqb ins other
                   = dict_get String.eqb (instruments st) other).
    { unfold notes_of, dict_has.
      destruct (dict_get String.eqb (instruments st) name) as [i0|] eqn:Hget.
      - exists (instruments st), i0. auto.
      - destruct Havail as [->|[[p Hp]|Hhas]].
        + simpl. eexists _, _. split; [reflexivity|].
          split; [apply sdict_get_set_eq|]. split; [reflexivity|].
          intros other Hne. apply sdict_get_set_ne. congruence.
        + rewrite Hp. cbn [mbind result_bind Py.bind].
          destruct (String.eqb name "drum");
            (eexists _, _; split; [reflexivity|];
             split; [apply sdict_get_set_eq|]; split; [reflexivity|];
             intros other Hne; apply sdict_get_set_ne; congruence).
        + unfold dict_has in Hhas. rewrite Hget in Hhas. discriminate. }
    destruct Hins as (ins & i0 & -> & Hget & Hnotes & Hothers).
    cbn [mbind result_bind Py.bind]. rewrite Hv, Hdur.
    cbn [mbind result_bind Py.bind].
    assert (Hpc1 :
      <[bar st := <[position := <[name := c0 + 1]>
                                  (default ∅ (pc_bar !! position))]> pc_bar]> pc0
      = <[bar st := <[position := <[name := c0 + 1]>
                                    (default ∅ (pc_bar !! position))]> pc_bar]>
          (polyphony_control st))
      by (unfold pc0; apply insert_insert_eq).
    rewrite Hpc1.
    eexists. split; [reflexivity|].
    destruct (pc_count_update (polyphony_control st) (bar st) position name
                pc_bar (c0 + 1) Hbar) as [Hsame1 Hother1].
    unfold others_untouched, same_frame, note_kept.
    cbn [initial_tempo time_signature_changes last_tl_event bar
           instruments n_notes polyphony_control].
    split; [rewrite lookup_insert_eq; eauto|].
    split; [|split; [exact Hsame1 | split; [reflexivity|]]].
    - split; [repeat split; reflexivity|].
      split; [exact Hother1|].
      intros other Hne. unfold append_note. rewrite Hget.
      rewrite sdict_get_set_ne by congruence. apply Hothers, Hne.
    - unfold append_note, dict_has, notes_of. rewrite Hget.
      rewrite sdict_get_set_eq. simpl. rewrite Hnotes. auto. }
  destruct cnt as [c|] eqn:Hcnt.
  - destruct (L <=? c) eqn:HL.
    + destruct (Hdrop c eq_refl HL) as (st' & Hst' & H0 & H1 & H2).
      exists st'. auto.
    + destruct (Hkeep eq_refl) as (st' & Hst' & H0 & H1 & H2).
      exists st'. unfold c0 in H2. simpl in H2. auto.
  - destruct (Hkeep eq_refl) as (st' & Hst' & H0 & H1 & H2).
    exists st'. unfold c0 in H2. simpl in H2. auto.
Qed.

(** *** Tokens that head no pattern, and patterns that parse *)










Lemma run_app (L : Z) (events : list string) (n m : nat) :
  forall (i : nat) (st : DecState),
    run L events i (n + m) st
    = (flow ← run L events i n st;
       match flow with
       | Break st' => Ok (Break st')
       | Next st' => run L events (i + n) m st'
       end).
Proof.
  induction n as [|n IH]; intros i st; simpl.
  - rewrite Nat.add_0_r. reflexivity.
  - destruct (step L events i st) as [[st1|st1]|e]; simpl; try reflexivity.
    rewrite IH. replace (S i + n)%nat with (i + S n)%nat by lia. reflexivity.
Qed.

Lemma others_untouched_trans (st st1 st2 : DecState) (position : Z) (name : string) :
  others_untouched st st1 position name ->
  others_untouched st1 st2 position name ->
  others_untouched st st2 position name.
Proof.
  intros ((A1 & A2 & A3 & A4) & Ac & Ad) ((B1 & B2 & B3 & B4) & Bc & Bd).
  unfold others_untouched, same_frame.
  split; [rewrite B1, B2, B3, B4; auto|]. split.
  - intros b p n Hne. rewrite Bc by (rewrite A4; exact Hne). apply Ac, Hne.
  - intros other Hne. rewrite Bd by exact Hne. apply Ad, Hne.
Qed.

Lemma key_not_eos (k tok : string) :
  contains k tok = true -> contains k EOS_TOKEN = false ->
  String.eqb tok EOS_TOKEN = false.
Proof.
  intros Ht He. destruct (String.eqb_spec tok EOS_TOKEN) as [->|]; congruence.
Qed.

(** The five passes of the loop over a well-formed note group. *)
Lemma run_group (L : Z) (events : list string) (i : nat) (st : DecState)
    (position : Z) (name : string) (g : list string) (spec : Z * Z * Z) :
  well_formed_group position name g spec ->
  (forall k tok, g !! k = Some tok -> events !! (i + k)%nat = Some tok) ->
  instrument_available instrument_name_to_program st name ->
  exists st' note,
    run L events i 5 st = Ok (Next st')
    /\ decoded_note F_of_Z Fadd Fmul Fdiv (last_tl_event st) (bar st) position spec
       = Ok note
    /\ others_untouched st st' position name
    /\ match pc_count (polyphony_control st) (bar st) position name with
       | Some c =>
           if L <=? c then note_dropped st st' position name c
           else note_kept st st' position name c note
       | None => note_kept st st' position name 0 note
       end.
Proof.
  destruct spec as [[pitch vidx] didx].
  intros (a & b & c & d & e & -> & Ha & Habar & Hb & Hbtempo & Hbh & Hc & Hch
          & Hd & Hdh & He & Heh & Hpos & Hname & Hpitch & Hvidx & Hdidx & Hv & Hdur)
         Hev Havail.
  assert (T0 : token_at events i = a)
    by (unfold token_at; rewrite <- (Nat.add_0_r i), (Hev 0%nat a eq_refl); reflexivity).
  assert (T1 : token_at events (i + 1) = b)
    by (unfold token_at; rewrite (Hev 1%nat b eq_refl); reflexivity).
  assert (T2 : token_at events (i + 2) = c)
    by (unfold token_at; rewrite (Hev 2%nat c eq_refl); reflexivity).
  assert (T3 : token_at events (i + 3) = d)
    by (unfold token_at; rewrite (Hev 3%nat d eq_refl); reflexivity).
  assert (T4 : token_at events (i + 4) = e)
    by (unfold token_at; rewrite (Hev 4%nat e eq_refl); reflexivity).
  assert (Hlen : (i + 4 < length events)%nat)
    by (apply (lookup_lt_Some events (i + 4) e), (Hev 4%nat e eq_refl)).
  destruct (index DEFAULT_VELOCITY_BINS vidx) as [v|] eqn:Ev; [|discriminate].
  destruct (index DEFAULT_DURATION_BINS didx) as [dur|] eqn:Edur; [|discriminate].
  destruct (normalise_frame st) as ((N1 & N2 & N3 & N4) & Nins & Nn & [pc_bar Nbar] & Npc).
  destruct (note_branch_spec L events i (normalise st) position name pitch vidx didx
              v dur pc_bar) as (st' & Hbranch & Hsome & Hothers & Hcase);
    try (rewrite ?T0, ?T1, ?T2, ?T3, ?T4; assumption).
  { rewrite Nins. exact Havail. }
  exists st', (mkNote (Z.min 127 v) pitch
                 (get_time (last_tl_event st) (bar st) position)
                 (get_time (last_tl_event st) (bar st) (position + dur))).
  split.
  { (* the run *)
    replace 5%nat with (1 + 4)%nat by reflexivity. rewrite run_app.
    cbn [Remi2Midi.run]. rewrite step_normalise.
    unfold is_bar_head, is_tempo_head, is_note_head.
    rewrite T0, T1, T2, T3, T4.
    rewrite (key_not_eos _ _ Ha eq_refl), Habar, Ha, Hbtempo, Hb, Hc, Hd, He.
    rewrite andb_false_r.
    destruct (Nat.ltb_spec (i + 4) (length events)); [|lia].
    cbn [andb]. rewrite Hbranch. cbn [fmap result_fmap mbind result_bind Py.bind].
    assert (Hskip : forall j tok k,
              token_at events j = tok -> headless tok = true ->
              contains k tok = true -> contains k EOS_TOKEN = false ->
              step L events j st' = Ok (Next st')).
    { intros j tok k Hj Hh Hk Hke. rewrite step_headless by (rewrite Hj; exact Hh).
      rewrite Hj, (key_not_eos _ _ Hk Hke), (normalise_id _ Hsome). reflexivity. }
    cbn [Remi2Midi.run].
    replace (S (i + 1)) with (i + 2)%nat by lia.
    replace (S (i + 2)) with (i + 3)%nat by lia.
    replace (S (i + 3)) with (i + 4)%nat by lia.
    rewrite (Hskip _ _ _ T1 Hbh Hb eq_refl). cbn [mbind result_bind Py.bind].
    rewrite (Hskip _ _ _ T2 Hch Hc eq_refl). cbn [mbind result_bind Py.bind].
    rewrite (Hskip _ _ _ T3 Hdh Hd eq_refl). cbn [mbind result_bind Py.bind].
    rewrite (Hskip _ _ _ T4 Heh He eq_refl). reflexivity. }
  split.
  { unfold decoded_note. rewrite Ev, Edur. reflexivity. }
  rewrite N3, N4 in Hcase. rewrite Npc in Hcase.
  split.
  - destruct Hothers as ((O1 & O2 & O3 & O4) & Oc & Od).
    unfold others_untouched, same_frame.
    split; [rewrite O1, O2, O3, O4; auto|]. split.
    + intros b' p' n' Hne. rewrite Oc by (rewrite N4; exact Hne). apply Npc.
    + intros other Hne. rewrite Od by exact Hne. rewrite Nins. reflexivity.
  - unfold note_kept, note_dropped in *.
    rewrite N4, Nn, Nins in Hcase. exact Hcase.
Qed.

Lemma well_formed_group_length (position : Z) (name : string) (g : list string)
    (spec : Z * Z * Z) :
  well_formed_group position name g spec -> length g = 5%nat.
Proof.
  destruct spec as [[? ?] ?]. intros (a & b & c & d & e & -> & _). reflexivity.
Qed.

(** The same, with the outcome read off the counter as the policy of the
    specification reads it. *)
Lemma run_group_policy (L : Z) (events : list string) (i : nat) (st : DecState)
    (toks : list string) (g : GroupSpec) :
  1 <= L ->
  group_tokens_ok toks g ->
  (forall k tok, toks !! k = Some tok -> events !! (i + k)%nat = Some tok) ->
  instrument_available instrument_name_to_program st g.1.2 ->
  exists st1 note,
    run L events i 5 st = Ok (Next st1)
    /\ decoded_note F_of_Z Fadd Fmul Fdiv (last_tl_event st) (bar st) g.1.1 g.2
       = Ok note
    /\ others_untouched st st1 g.1.1 g.1.2
    /\ if L <=? counts st g.1.1 g.1.2
       then pc_count (polyphony_control st1) (bar st) g.1.1 g.1.2
            = pc_count (polyphony_control st) (bar st) g.1.1 g.1.2
            /\ is_Some (pc_count (polyphony_control st) (bar st) g.1.1 g.1.2)
            /\ n_notes st1 = n_notes st
            /\ instruments st1 = instruments st
       else pc_count (polyphony_control st1) (bar st) g.1.1 g.1.2
            = Some (counts st g.1.1 g.1.2 + 1)
            /\ n_notes st1 = n_notes st + 1
            /\ dict_has String.eqb (instruments st1) g.1.2 = true
            /\ notes_of (instruments st1) g.1.2
               = notes_of (instruments st) g.1.2 ++ [note].
Proof.
  intros HL Hg Hev Havail.
  destruct (run_group L events i st g.1.1 g.1.2 toks g.2 Hg Hev Havail)
    as (st1 & note & Hrun & Hnote & Hothers & Hcase).
  exists st1, note. split; [exact Hrun|]. split; [exact Hnote|].
  split; [exact Hothers|].
  unfold counts.
  destruct (pc_count (polyphony_control st) (bar st) g.1.1 g.1.2) as [c|];
    cbn [default from_option id].
  - destruct (L <=? c).
    + destruct Hcase as (H1 & H2 & H3). rewrite H1.
      split; [reflexivity|]. split; [exists c; reflexivity|]. split; assumption.
    + exact Hcase.
  - destruct (Z.leb_spec L 0); [lia|]. exact Hcase.
Qed.

Lemma bump_same (count : Z -> string -> Z) (p : Z) (n : string) :
  bump count p n p n = count p n + 1.
Proof. unfold bump. rewrite Z.eqb_refl, String.eqb_refl. reflexivity. Qed.

Lemma bump_other (count : Z -> string -> Z) (p p' : Z) (n n' : string) :
  (p', n') <> (p, n) -> bump count p n p' n' = count p' n'.
Proof.
  intros Hne. unfold bump.
  destruct (Z.eqb_spec p' p), (String.eqb_spec n' n); try reflexivity. congruence.
Qed.

Lemma kept_groups_ext (L : Z) (gs : list GroupSpec) :
  forall c1 c2 : Z -> string -> Z,
    (forall p n, c1 p n = c2 p n) -> kept_groups L c1 gs = kept_groups L c2 gs.
Proof.
  induction gs as [|g gs IH]; intros c1 c2 Hc; [reflexivity|].
  cbn [kept_groups]. rewrite Hc. destruct (L <=? _); [apply IH, Hc|].
  f_equal. apply IH. intros p n. unfold bump. rewrite !Hc. reflexivity.
Qed.

Lemma same_triple_spec (p : Z) (n : string) (g : GroupSpec) :
  same_triple p n g = true <-> (g.1.1, g.1.2) = (p, n).
Proof.
  unfold same_triple. rewrite andb_true_iff, Z.eqb_eq, String.eqb_eq.
  split; [intros [-> ->]; reflexivity | intros [= -> ->]; auto].
Qed.

(** A triple takes notes until its own count reaches the limit, whatever
    the groups of the other triples do. *)
Lemma kept_groups_filter (L : Z) (p : Z) (n : string) (gs : list GroupSpec) :
  forall count : Z -> string -> Z,
    List.filter (same_triple p n) (kept_groups L count gs)
    = take (Z.to_nat (L - count p n)) (List.filter (same_triple p n) gs).
Proof.
  induction gs as [|g gs IH]; intros count; cbn [kept_groups List.filter].
  - rewrite take_nil. reflexivity.
  - destruct (same_triple p n g) eqn:Hsame.
    + apply same_triple_spec in Hsame. injection Hsame as Hp Hn. rewrite Hp, Hn.
      destruct (Z.leb_spec L (count p n)) as [Hle|Hlt].
      * rewrite IH. replace (Z.to_nat (L - count p n)) with 0%nat by lia.
        rewrite !take_0. reflexivity.
      * cbn [List.filter]. rewrite (proj2 (same_triple_spec p n g))
          by (rewrite Hp, Hn; reflexivity).
        rewrite IH, bump_same.
        replace (Z.to_nat (L - count p n)) with (S (Z.to_nat (L - (count p n + 1))))
          by lia.
        reflexivity.
    + assert (Hne : (p, n) <> (g.1.1, g.1.2)).
      { intros Heq. symmetry in Heq. apply same_triple_spec in Heq. congruence. }
      destruct (L <=? count g.1.1 g.1.2).
      * apply IH.
      * cbn [List.filter]. rewrite Hsame, IH, bump_other by exact Hne. reflexivity.
Qed.

Lemma kept_groups_length (L : Z) (gs : list GroupSpec) :
  forall count, (length (kept_groups L count gs) <= length gs)%nat.
Proof.
  induction gs as [|g gs IH]; intros count; cbn [kept_groups length]; [lia|].
  destruct (L <=? _); [specialize (IH count) | specialize (IH (bump count g.1.1 g.1.2))];
    simpl; lia.
Qed.

Lemma notes_of_other (ins ins' : dict string Instrument) (nm : string) :
  dict_get String.eqb ins' nm = dict_get String.eqb ins nm ->
  notes_of ins' nm = notes_of ins nm.
Proof. unfold notes_of. intros ->. reflexivity. Qed.

(** A run of well-formed note groups inside one bar follows the policy:
    the notes kept are those of [kept_groups], in stream order. *)
Lemma run_wf_groups (L : Z) (events : list string)
    (toks : list (list string)) (gs : list GroupSpec) :
  1 <= L ->
  Forall2 group_tokens_ok toks gs ->
  forall (i : nat) (st : DecState),
    (forall k tok, concat toks !! k = Some tok -> events !! (i + k)%nat = Some tok) ->
    (forall g, In g gs -> instrument_available instrument_name_to_program st g.1.2) ->
    exists st',
      run L events i (length (concat toks)) st = Ok (Next st')
      /\ same_frame st st'
      /\ (forall nm,
            notes_of (instruments st') nm
            = notes_of (instruments st) nm
              ++ decode_groups F_of_Z Fadd Fmul Fdiv (last_tl_event st) (bar st)
                   (List.filter (named nm) (kept_groups L (counts st) gs)))
      /\ n_notes st' = n_notes st + Z.of_nat (length (kept_groups L (counts st) gs))
      /\ (forall p n,
            pc_count (polyphony_control st') (bar st) p n
            = match List.filter (same_triple p n) gs with
              | [] => pc_count (polyphony_control st) (bar st) p n
              | _ :: _ =>
                  Some (counts st p n
                        + Z.of_nat (length (List.filter (same_triple p n)
                                              (kept_groups L (counts st) gs))))
              end)
      /\ (forall nm, dict_has String.eqb (instruments st) nm = true ->
                     dict_has String.eqb (instruments st') nm = true)
      /\ (forall b p n, b <> bar st ->
            pc_count (polyphony_control st') b p n
            = pc_count (polyphony_control st) b p n).
Proof.
  intros HL Hwf. induction Hwf as [|tok g toks gs Hg Hwf IH]; intros i st Hev Havail.
  - exists st. cbn [concat length kept_groups List.filter decode_groups flat_map].
    split; [reflexivity|]. split; [repeat split; reflexivity|].
    split; [intros nm; rewrite app_nil_r; reflexivity|].
    split; [simpl; lia|]. split; [reflexivity|]. split; auto.
  - pose proof (well_formed_group_length _ _ _ _ Hg) as Hlen.
    destruct (run_group_policy L events i st tok g HL Hg) as
      (st1 & note & Hrun1 & Hnote & Hothers1 & Hcase).
    { intros k t Hk. apply Hev. cbn [concat]. apply lookup_app_l_Some, Hk. }
    { apply Havail. left. reflexivity. }
    pose proof Hothers1 as ((F1 & F2 & F3 & F4) & Hcnt1 & Hdict1).
    (* what the group did, in the terms of the policy *)
    assert (Hpol : exists kept0 : list GroupSpec,
              kept_groups L (counts st) (g :: gs)
              = kept0 ++ kept_groups L (counts st1) gs
              /\ (kept0 = [] \/ kept0 = [g])
              /\ n_notes st1 = n_notes st + Z.of_nat (length kept0)
              /\ (forall nm,
                    notes_of (instruments st1) nm
                    = notes_of (instruments st) nm
                      ++ decode_groups F_of_Z Fadd Fmul Fdiv (last_tl_event st)
                           (bar st) (List.filter (named nm) kept0))
              /\ pc_count (polyphony_control st1) (bar st) g.1.1 g.1.2
                 = Some (counts st g.1.1 g.1.2 + Z.of_nat (length kept0))
              /\ (forall nm, dict_has String.eqb (instruments st) nm = true ->
                             dict_has String.eqb (instruments st1) nm = true)).
    { cbn [kept_groups].
      destruct (L <=? counts st g.1.1 g.1.2) eqn:HLc.
      - destruct Hcase as (Hc & [c Hsome] & Hn & Hins). exists [].
        split.
        { apply kept_groups_ext. intros p n. unfold counts. rewrite F4.
          destruct (decide ((bar st, p, n) = (bar st, g.1.1, g.1.2))) as [[= -> ->]|Hne].
          - rewrite Hc. reflexivity.
          - rewrite Hcnt1 by exact Hne. reflexivity. }
        split; [auto|]. split; [simpl; lia|].
        split; [intros nm; rewrite Hins; simpl; rewrite app_nil_r; reflexivity|].
        split; [|intros nm; rewrite Hins; auto].
        rewrite Hc. unfold counts. rewrite Hsome. simpl. f_equal. lia.
      - destruct Hcase as (Hc & Hn & Hhas & Hnotes). exists [g].
        split.
        { cbn [app]. f_equal. apply kept_groups_ext. intros p n. unfold counts at 2.
          rewrite F4.
          destruct (decide ((bar st, p, n) = (bar st, g.1.1, g.1.2))) as [[= -> ->]|Hne].
          - rewrite Hc, bump_same. reflexivity.
          - rewrite Hcnt1 by exact Hne. rewrite bump_other by congruence. reflexivity. }
        split; [auto|]. split; [simpl; lia|].
        split.
        { intros nm. cbn [List.filter]. unfold named at 1.
          destruct (String.eqb_spec g.1.2 nm) as [<-|Hne].
          - cbn [decode_groups flat_map]. rewrite Hnote, Hnotes. reflexivity.
          - cbn [decode_groups flat_map]. rewrite app_nil_r.
            apply notes_of_other, Hdict1. congruence. }
        split; [rewrite Hc; simpl; f_equal; lia|].
        intros nm Hnm. destruct (String.eqb_spec nm g.1.2) as [->|Hne];
          [exact Hhas|]. unfold dict_has in *.
        rewrite Hdict1 by exact Hne. exact Hnm. }
    destruct Hpol as (kept0 & Hkept & Hk0 & Hn1 & Hnotes1 & Hc1 & Hhas1).
    destruct (IH (i + 5)%nat st1)
      as (st' & Hrun & Hframe & Hnotes & Hn & Hcnt & Hhas & Hbars).
    { intros k t Hk. replace (i + 5 + k)%nat with (i + (5 + k))%nat by lia.
      apply Hev. cbn [concat]. rewrite lookup_app_r by lia.
      rewrite Hlen. replace (5 + k - 5)%nat with k by lia. exact Hk. }
    { intros g' Hg'. destruct (Havail g' (or_intror Hg')) as [H|[H|H]].
      - left. exact H.
      - right. left. exact H.
      - right. right. apply Hhas1, H. }
    exists st'.
    split.
    { cbn [concat]. rewrite length_app, Hlen, run_app, Hrun1.
      cbn [mbind result_bind Py.bind]. exact Hrun. }
    destruct Hframe as (G1 & G2 & G3 & G4).
    split; [unfold same_frame; rewrite G1, G2, G3, G4; auto|].
    rewrite F3, F4 in Hnotes. rewrite F4 in Hcnt.
    split.
    { intros nm. rewrite Hnotes, Hnotes1, Hkept, <- app_assoc. f_equal.
      rewrite List.filter_app. unfold decode_groups. rewrite List.flat_map_app.
      reflexivity. }
    split; [rewrite Hn, Hn1, Hkept, length_app; lia|].
    split; [|split; [auto|]]; cycle 1.
    { intros b p n Hb. rewrite Hbars by (rewrite F4; exact Hb).
      apply Hcnt1. congruence. }
    intros p n. rewrite Hcnt. rewrite Hkept, List.filter_app, length_app.
    cbn [List.filter].
    destruct (same_triple p n g) eqn:Hsame.
    + apply same_triple_spec in Hsame. injection Hsame as <- <-.
      assert (Hf0 : List.filter (same_triple g.1.1 g.1.2) kept0 = kept0).
      { destruct Hk0 as [-> | ->]; [reflexivity|]. cbn [List.filter].
        rewrite (proj2 (same_triple_spec _ _ g) eq_refl). reflexivity. }
      rewrite Hf0.
      assert (Hcs : counts st1 g.1.1 g.1.2
                    = counts st g.1.1 g.1.2 + Z.of_nat (length kept0)).
      { unfold counts at 1. rewrite F4, Hc1. reflexivity. }
      destruct (List.filter (same_triple g.1.1 g.1.2) gs) as [|x l] eqn:Hrest.
      * rewrite Hc1.
        pose proof (kept_groups_filter L g.1.1 g.1.2 gs (counts st1)) as Hkf.
        rewrite Hrest, take_nil in Hkf. rewrite Hkf. simpl. f_equal. lia.
      * rewrite Hcs. f_equal. lia.
    + assert (Hne : (bar st, p, n) <> (bar st, g.1.1, g.1.2)).
      { intros [= -> ->]. rewrite (proj2 (same_triple_spec _ _ g) eq_refl) in Hsame.
        discriminate. }
      assert (Hf0 : List.filter (same_triple p n) kept0 = []).
      { destruct Hk0 as [-> | ->]; [reflexivity|]. cbn [List.filter].
        rewrite Hsame. reflexivity. }
      rewrite Hf0. cbn [length Nat.add].
      assert (Hcs : counts st1 p n = counts st p n).
      { unfold counts. rewrite F4, Hcnt1 by exact Hne. reflexivity. }
      rewrite Hcs, Hcnt1 by exact Hne. reflexivity.
Qed.

Lemma concat_groups_length (toks : list (list string)) (gs : list GroupSpec) :
  Forall2 group_tokens_ok toks gs ->
  length (concat toks) = (5 * length gs)%nat.
Proof.
  induction 1 as [|tok g toks gs Hg Hwf IH]; [reflexivity|].
  cbn [concat length]. rewrite length_app, IH.
  rewrite (well_formed_group_length _ _ _ _ Hg). lia.
Qed.

Lemma kept_groups_sublist (L : Z) (gs : list GroupSpec) :
  forall count, sublist (kept_groups L count gs) gs.
Proof.
  induction gs as [|g gs IH]; intros count; cbn [kept_groups]; [constructor|].
  destruct (L <=? _); [apply sublist_cons | apply sublist_skip]; apply IH.
Qed.

(** C3. Polyphony limit.  A stretch of the token stream made of well-formed
    note groups inside one bar, twenty of which resolve to the triple
    (bar, position, name) whose counter has not been started, is decoded
    with [polyphony_limit = 16] without an error.  Of the twenty groups the
    first sixteen in stream order are kept and the last four dropped; every
    other triple of the bar keeps the first groups of its own up to its own
    remaining room, whatever the twenty do, and the counters of other bars
    do not move; every instrument receives the notes of its kept groups in
    stream order. *)
Theorem polyphony_keeps_first_16 (events : list string) (i : nat) (st : DecState)
    (position : Z) (name : string)
    (toks : list (list string)) (gs : list GroupSpec) :
  Forall2 group_tokens_ok toks gs ->
  length (List.filter (same_triple position name) gs) = 20%nat ->
  (forall k tok, concat toks !! k = Some tok -> events !! (i + k)%nat = Some tok) ->
  (forall g, In g gs -> instrument_available instrument_name_to_program st g.1.2) ->
  pc_count (polyphony_control st) (bar st) position name = None ->
  exists st' kept,
    run 16 events i (length (concat toks)) st = Ok (Next st')
    /\ sublist kept gs
    /\ List.filter (same_triple position name) kept
       = take 16 (List.filter (same_triple position name) gs)
    /\ (forall p n, (p, n) <> (position, name) ->
          List.filter (same_triple p n) kept
          = take (Z.to_nat (16 - counts st p n)) (List.filter (same_triple p n) gs))
    /\ (forall nm,
          notes_of (instruments st') nm
          = notes_of (instruments st) nm
            ++ decode_groups F_of_Z Fadd Fmul Fdiv (last_tl_event st) (bar st)
                 (List.filter (named nm) kept))
    /\ n_notes st' = n_notes st + Z.of_nat (length kept)
    /\ pc_count (polyphony_control st') (bar st) position name = Some 16
    /\ (forall b p n, b <> bar st ->
          pc_count (polyphony_control st') b p n
          = pc_count (polyphony_control st) b p n)
    /\ same_frame st st'.
Proof.
  intros Hwf Htwenty Hev Havail Hfresh.
  destruct (run_wf_groups 16 events toks gs ltac:(lia) Hwf i st Hev Havail)
    as (st' & Hrun & Hframe & Hnotes & Hn & Hcnt & _ & Hbars).
  assert (Hzero : counts st position name = 0).
  { unfold counts. rewrite Hfresh. reflexivity. }
  pose proof (kept_groups_filter 16 position name gs (counts st)) as Hmine.
  rewrite Hzero in Hmine. change (Z.to_nat (16 - 0)) with 16%nat in Hmine.
  exists st', (kept_groups 16 (counts st) gs).
  split; [exact Hrun|]. split; [apply kept_groups_sublist|].
  split; [exact Hmine|].
  split; [intros p n _; apply kept_groups_filter|].
  split; [exact Hnotes|]. split; [exact Hn|].
  split; [|split; [exact Hbars | exact Hframe]].
  rewrite Hcnt, Hmine, Hzero.
  destruct (List.filter (same_triple position name) gs) as [|g l] eqn:Hl;
    [discriminate|].
  rewrite length_take, Htwenty. reflexivity.
Qed.

End Decoder.

(** ** The decoder on concrete streams *)

Section DecoderExamples.

Import Remi2Midi.

(** The top velocity bin holds 128 and is cut to 127. *)
Example top_velocity_bin :
  index DEFAULT_VELOCITY_BINS 32 = Ok 128
  /\ (midi ← decode_exact ["Bar_1"; "Position_0"; "Instrument_drum";
                           "Pitch_drum_38"; "Velocity_32"; "Duration_0"] 16;
      Ok (map (fun i => map note_velocity (notes i)) (midi_instruments midi)))
     = Ok [[127]].
Proof. split; vm_compute; reflexivity. Qed.

Lemma velocity_clamped_witness :
  exists midi,
    decode_exact ["Bar_1"; "Position_0"; "Instrument_drum"; "Pitch_drum_38";
                  "Velocity_32"; "Duration_0"] 16 = Ok midi
    /\ forall inst, In inst (midi_instruments midi) ->
       forall note, In note (notes inst) ->
         note_velocity note <= 127
         /\ exists (i : nat) velocity_index v,
              takes_note_branch
                ["Bar_1"; "Position_0"; "Instrument_drum"; "Pitch_drum_38";
                 "Velocity_32"; "Duration_0"] i = true
              /\ py_int (last_field (token_at
                    ["Bar_1"; "Position_0"; "Instrument_drum"; "Pitch_drum_38";
                     "Velocity_32"; "Duration_0"] (i + 2))) = Ok (note_pitch note)
              /\ py_int (last_field (token_at
                    ["Bar_1"; "Position_0"; "Instrument_drum"; "Pitch_drum_38";
                     "Velocity_32"; "Duration_0"] (i + 3))) = Ok velocity_index
              /\ index DEFAULT_VELOCITY_BINS velocity_index = Ok v
              /\ note_velocity note = Z.min 127 v.
Proof.
  destruct (decode_exact ["Bar_1"; "Position_0"; "Instrument_drum";
                          "Pitch_drum_38"; "Velocity_32"; "Duration_0"] 16)
    as [midi|e] eqn:H; [|vm_compute in H; discriminate H].
  exists midi. split; [reflexivity|].
  exact (velocity_clamped inject_Z Qplus Qmult Qdiv (fun q => Qle_bool 0 q)
           piano_table _ _ _ H).
Defined.



Example interleaved_stream_notes :
  (midi ← decode_exact interleaved_stream 16;
   Ok (map (fun i => map note_pitch (notes i)) (midi_instruments midi)))
  = Ok [[36]].
Proof. vm_compute. reflexivity. Qed.

(** Other streams the decoder gives up on: a tempo token with no index, a
    time signature with one field, a bin index out of range, an instrument
    the table does not know. *)
Example malformed_streams_raise :
  decode_exact ["Tempo_abc"] 16 = Raise ValueError
  /\ decode_exact ["Bar_1"; "Time Signature_x"] 16 = Raise ValueError
  /\ decode_exact ["Position_0"; "Tempo_99"] 16 = Raise IndexError
  /\ decode_exact ["Position_0"; "Instrument_kazoo"; "Pitch_60"; "Velocity_1";
                   "Duration_1"] 16 = Raise ValueError.
Proof. repeat split; vm_compute; reflexivity. Qed.

(** A change of time signature is dated by the clock, and
    [pretty_midi.TimeSignature] refuses a time below 0. In this stream every
    token parses; the second tempo pair sits far past the end of its bar and
    moves the reference there, so the bar that follows starts before 0. *)
Example signature_change_raises :
  decode_exact ["Bar_1"; "Position_0"; "Tempo_20"; "Position_999"; "Tempo_10";
                "Bar_2"; "Time Signature_3/4"] 16 = Raise ValueError.
Proof. vm_compute. reflexivity. Qed.

Example unknown_tokens_ignored :
  decode_exact ["hello"; "Chord_C:maj"; "Instrument_drum"; "<eos>"; "Bar_x"] 16
  = Ok (mkMidi 120 [mkTimeSignature 4 4 0%Q] []).
Proof. vm_compute. reflexivity. Qed.

Lemma polyphony_keeps_first_16_witness :
  exists st' kept,
    run inject_Z Qplus Qmult Qdiv (fun q => Qle_bool 0 q) piano_table 16
      (concat mixed_groups) 0 (length (concat mixed_groups))
      (start_state inject_Z 120)
    = Ok (Next st')
    /\ List.filter (same_triple 0 "drum") kept
       = take 16 (List.filter (same_triple 0 "drum") mixed_specs)
    /\ n_notes st' = 0 + Z.of_nat (length kept).
Proof.
  destruct (polyphony_keeps_first_16 inject_Z Qplus Qmult Qdiv
              (fun q => Qle_bool 0 q) piano_table
              (concat mixed_groups) 0 (start_state inject_Z 120)
              0 "drum" mixed_groups mixed_specs)
    as (st' & kept & Hrun & _ & Hmine & _ & _ & Hn & _).
  - unfold mixed_groups, mixed_specs, twenty_pitches. cbn [map take drop app].
    repeat (constructor;
            [do 5 eexists; repeat split; vm_compute; reflexivity|]).
    constructor.
  - vm_compute. reflexivity.
  - intros k tok H. exact H.
  - intros g Hg. left.
    unfold mixed_specs, twenty_pitches in Hg. cbn [map take drop app In] in Hg.
    repeat (destruct Hg as [<-|Hg]; [reflexivity|]). destruct Hg.
  - reflexivity.
  - exists st', kept. split; [exact Hrun|]. split; [exact Hmine | exact Hn].
Defined.

(** The decoder on that stream: of the twenty notes at position 0 the first
    sixteen are kept, and both notes at position 4. *)
Example mixed_stream_kept :
  (midi ← decode_exact ("Bar_1"%string :: concat mixed_groups) 16;
   Ok (map (fun i => map note_pitch (notes i)) (midi_instruments midi)))
  = Ok [take 10 twenty_pitches ++ [36] ++ take 6 (drop 10 twenty_pitches) ++ [36]].
Proof. vm_compute. reflexivity. Qed.

(** The whole decoder on the same stream: twenty notes come in, sixteen come
    out, the first sixteen pitches. *)
Example twenty_notes_sixteen_kept :
  (midi ← decode_exact ("Bar_1"%string :: concat (map drum_group twenty_pitches)) 16;
   Ok (map (fun i => map note_pitch (notes i)) (midi_instruments midi)))
  = Ok [take 16 twenty_pitches].
Proof. vm_compute. reflexivity. Qed.

End DecoderExamples.

(** * Further properties of the code *)

(** ** [remi2midi]: the end-of-sequence token and the time signatures *)

Section DecoderMore.

Import Remi2Midi.

Context {F : Type}.
Variable F_of_Z : Z -> F.
Variables Fadd Fmul Fdiv : F -> F -> F.
Variable F_nonneg : F -> bool.
Variable instrument_name_to_program : string -> result Z.

#[local] Abbreviation bar_branch := (bar_branch F_of_Z Fadd Fmul Fdiv F_nonneg).
#[local] Abbreviation tempo_branch := (tempo_branch F_of_Z Fadd Fmul Fdiv).
#[local] Abbreviation note_branch :=
  (note_branch F_of_Z Fadd Fmul Fdiv instrument_name_to_program).
#[local] Abbreviation step :=
  (step F_of_Z Fadd Fmul Fdiv F_nonneg instrument_name_to_program).
#[local] Abbreviation run :=
  (run F_of_Z Fadd Fmul Fdiv F_nonneg instrument_name_to_program).
#[local] Abbreviation remi2midi :=
  (remi2midi F_of_Z Fadd Fmul Fdiv F_nonneg instrument_name_to_program).
#[local] Abbreviation DecState := (DecState (F:=F)).
#[local] Abbreviation sigs_inv := (sigs_inv F_of_Z).
#[local] Abbreviation instruments_inv := (instruments_inv instrument_name_to_program).

(** The branches read the stream through [token_at] and [len] only. *)
Lemma bar_branch_ext (ev ev' : list string) (i : nat) (st : DecState) :
  token_at ev (S i) = token_at ev' (S i) ->
  (S i <? length ev)%nat = (S i <? length ev')%nat ->
  bar_branch ev i st = bar_branch ev' i st.
Proof. unfold Remi2Midi.bar_branch. intros -> ->. reflexivity. Qed.

Lemma tempo_branch_ext (ev ev' : list string) (i : nat) (st : DecState) :
  token_at ev i = token_at ev' i ->
  token_at ev (S i) = token_at ev' (S i) ->
  tempo_branch ev i st = tempo_branch ev' i st.
Proof. unfold Remi2Midi.tempo_branch. intros -> ->. reflexivity. Qed.

Lemma note_branch_ext (L : Z) (ev ev' : list string) (i : nat) (st : DecState) :
  (forall k, (k <= 4)%nat -> token_at ev (i + k) = token_at ev' (i + k)) ->
  note_branch L ev i st = note_branch L ev' i st.
Proof.
  intros H. unfold Remi2Midi.note_branch.
  pose proof (H 0%nat ltac:(lia)) as H0. rewrite Nat.add_0_r in H0.
  rewrite H0, (H 1%nat), (H 2%nat), (H 3%nat), (H 4%nat) by lia.
  reflexivity.
Qed.

Lemma token_at_app_l (pre rest : list string) (j : nat) :
  (j < length pre)%nat -> token_at (pre ++ rest) j = token_at pre j.
Proof. intros H. unfold token_at. rewrite lookup_app_l by exact H. reflexivity. Qed.

Lemma token_at_eos (pre post : list string) :
  token_at (pre ++ EOS_TOKEN :: post) (length pre) = EOS_TOKEN.
Proof.
  unfold token_at. rewrite lookup_app_r by lia. rewrite Nat.sub_diag. reflexivity.
Qed.

Lemma token_at_cut (pre post : list string) (j : nat) :
  (j <= length pre)%nat ->
  token_at (pre ++ EOS_TOKEN :: post) j = token_at (pre ++ [EOS_TOKEN]) j.
Proof.
  intros Hj. destruct (decide (j = length pre)) as [->|Hne].
  - rewrite !token_at_eos. reflexivity.
  - rewrite !token_at_app_l by lia. reflexivity.
Qed.

(** A note pattern cannot reach across the end-of-sequence token. *)
Lemma is_note_head_cut (pre post : list string) (i : nat) :
  (i < length pre)%nat ->
  is_note_head (pre ++ EOS_TOKEN :: post) i = is_note_head (pre ++ [EOS_TOKEN]) i
  /\ (is_note_head (pre ++ EOS_TOKEN :: post) i = true -> (i + 4 <= length pre)%nat).
Proof.
  intros Hi. unfold is_note_head.
  destruct (le_lt_dec (i + 4) (length pre)) as [Hle|Hgt].
  - split; [|intros _; exact Hle].
    rewrite !length_app. cbn [length].
    rewrite (token_at_cut pre post i), (token_at_cut pre post (i + 1)),
      (token_at_cut pre post (i + 2)), (token_at_cut pre post (i + 3)),
      (token_at_cut pre post (i + 4)) by lia.
    destruct (Nat.ltb_spec (i + 4) (length pre + S (length post))); [|lia].
    destruct (Nat.ltb_spec (i + 4) (length pre + 1)); [|lia]. reflexivity.
  - assert (Hshort : ((i + 4 <? length (pre ++ [EOS_TOKEN]))%nat) = false).
    { rewrite length_app. cbn [length]. apply Nat.ltb_ge. lia. }
    rewrite Hshort. cbn [andb].
    assert (Hk : exists k, (1 <= k <= 4)%nat /\ (i + k)%nat = length pre)
      by (exists (length pre - i)%nat; lia).
    destruct Hk as (k & Hk & Hik).
    assert (Hfalse :
      (i + 4 <? length (pre ++ EOS_TOKEN :: post))%nat
      && contains (key_ POSITION_KEY) (token_at (pre ++ EOS_TOKEN :: post) i)
      && contains (key_ INSTRUMENT_KEY) (token_at (pre ++ EOS_TOKEN :: post) (i + 1))
      && contains (key_ PITCH_KEY) (token_at (pre ++ EOS_TOKEN :: post) (i + 2))
      && contains (key_ VELOCITY_KEY) (token_at (pre ++ EOS_TOKEN :: post) (i + 3))
      && contains (key_ DURATION_KEY) (token_at (pre ++ EOS_TOKEN :: post) (i + 4))
      = false).
    { assert (Hcases : k = 1%nat \/ k = 2%nat \/ k = 3%nat \/ k = 4%nat) by lia.
      destruct Hcases as [-> | [-> | [-> | ->]]]; rewrite Hik, token_at_eos;
        cbn [contains]; rewrite ?andb_false_r; reflexivity. }
    rewrite Hfalse. split; [reflexivity | discriminate].
Qed.

(** Before the end-of-sequence token the loop body does not see what comes
    after it. *)
Lemma step_cut (L : Z) (pre post : list string) (i : nat) (st : DecState) :
  (i < length pre)%nat ->
  step L (pre ++ EOS_TOKEN :: post) i st = step L (pre ++ [EOS_TOKEN]) i st.
Proof.
  intros Hi. rewrite !step_normalise.
  destruct (is_note_head_cut pre post i Hi) as [Hnote Hreach].
  unfold is_bar_head, is_tempo_head. rewrite Hnote. rewrite Hnote in Hreach.
  clear Hnote.
  rewrite (token_at_cut pre post i), (token_at_cut pre post (i + 1)) by lia.
  assert (Hlen : forall post', (i + 1 <? length (pre ++ EOS_TOKEN :: post'))%nat = true).
  { intros post'. apply Nat.ltb_lt. rewrite length_app. cbn [length]. lia. }
  rewrite (Hlen post), (Hlen []).
  destruct (String.eqb _ EOS_TOKEN); [reflexivity|].
  destruct (contains (key_ BAR_KEY) _).
  { f_equal. apply bar_branch_ext.
    - apply token_at_cut. lia.
    - replace (S i) with (i + 1)%nat by lia. rewrite (Hlen post), (Hlen []).
      reflexivity. }
  destruct (_ && _ && _).
  { f_equal. apply tempo_branch_ext.
    - apply token_at_cut. lia.
    - apply token_at_cut. lia. }
  destruct (is_note_head (pre ++ [EOS_TOKEN]) i) eqn:Hhead; [|reflexivity].
  f_equal. apply note_branch_ext. intros k Hk. apply token_at_cut.
  specialize (Hreach eq_refl). lia.
Qed.

Lemma run_cut (L : Z) (pre post : list string) (n : nat) :
  forall (i : nat) (st : DecState),
    (i + n <= length pre)%nat ->
    run L (pre ++ EOS_TOKEN :: post) i n st = run L (pre ++ [EOS_TOKEN]) i n st.
Proof.
  induction n as [|n IH]; intros i st Hin; simpl; [reflexivity|].
  rewrite step_cut by lia.
  destruct (step L (pre ++ [EOS_TOKEN]) i st) as [[st1|st1]|e]; simpl;
    try reflexivity.
  apply IH. lia.
Qed.

(** The loop stops at the end-of-sequence token. *)
Lemma run_stops (L : Z) (events : list string) (i n : nat) (st : DecState) :
  token_at events i = EOS_TOKEN ->
  run L events i (S n) st = Ok (Break st).
Proof.
  intros H. cbn [Remi2Midi.run]. rewrite step_normalise, H. reflexivity.
Qed.

Lemma run_to_eos (L : Z) (pre post : list string) (st : DecState) :
  run L (pre ++ EOS_TOKEN :: post) 0 (length (pre ++ EOS_TOKEN :: post)) st
  = (flow ← run L (pre ++ [EOS_TOKEN]) 0 (length pre) st;
     Ok (Break (state_of flow))).
Proof.
  rewrite length_app. cbn [length]. rewrite run_app, run_cut by lia.
  destruct (run L (pre ++ [EOS_TOKEN]) 0 (length pre) st) as [[st1|st1]|e];
    cbn [mbind result_bind Py.bind state_of]; try reflexivity.
  apply run_stops. apply token_at_eos.
Qed.

(** X1: what follows the first [<eos>] reaches the result only through the
    scan for the first Tempo token: two streams that agree up to an [<eos>]
    and give the same initial tempo decode to the same object, or raise the
    same error. *)
Theorem eos_ends_stream (pre post post' : list string) (polyphony_limit : Z) :
  first_tempo (pre ++ EOS_TOKEN :: post) = first_tempo (pre ++ EOS_TOKEN :: post') ->
  remi2midi (pre ++ EOS_TOKEN :: post) polyphony_limit
  = remi2midi (pre ++ EOS_TOKEN :: post') polyphony_limit.
Proof.
  intros Htempo. unfold Remi2Midi.remi2midi. rewrite Htempo.
  destruct (first_tempo (pre ++ EOS_TOKEN :: post')) as [bpm|e];
    cbn [mbind result_bind Py.bind]; [|reflexivity].
  rewrite !run_to_eos. reflexivity.
Qed.

(** *** Invariants of the loop *)

Lemma run_invariant (P : DecState -> Prop) (L : Z) (events : list string) :
  (forall st, P st -> P (normalise st)) ->
  (forall i st st', P st -> bar_branch events i st = Ok st' -> P st') ->
  (forall i st st', P st -> tempo_branch events i st = Ok st' -> P st') ->
  (forall i st st', P st -> note_branch L events i st = Ok st' -> P st') ->
  forall (n i : nat) (st : DecState) flow,
    P st -> run L events i n st = Ok flow -> P (state_of flow).
Proof.
  intros Hnorm Hbar Htempo Hnote.
  induction n as [|n IH]; intros i st flow HP; simpl.
  - intros [= <-]. exact HP.
  - intros H. apply bind_Ok in H as (flow1 & Hstep & H).
    assert (HP1 : P (state_of flow1)).
    { rewrite step_normalise in Hstep.
      destruct (String.eqb _ EOS_TOKEN); [injection Hstep as <-; exact HP|].
      destruct (is_bar_head events i).
      { apply fmap_Ok in Hstep as (st' & Hb & ->). eapply Hbar; [apply Hnorm, HP | exact Hb]. }
      destruct (is_tempo_head events i).
      { apply fmap_Ok in Hstep as (st' & Hb & ->). eapply Htempo; [apply Hnorm, HP | exact Hb]. }
      destruct (is_note_head events i).
      { apply fmap_Ok in Hstep as (st' & Hb & ->). eapply Hnote; [apply Hnorm, HP | exact Hb]. }
      injection Hstep as <-. apply Hnorm, HP. }
    destruct flow1 as [st1|st1].
    + eapply IH; [exact HP1 | exact H].
    + injection H as <-. exact HP1.
Qed.

Lemma changes_only_snoc (init : list (TimeSignature F)) (a b : TimeSignature F) :
  changes_only (init ++ [a]) -> sig_pair a <> sig_pair b ->
  changes_only ((init ++ [a]) ++ [b]).
Proof.
  intros H Hne. induction init as [|x init IH]; simpl.
  - auto.
  - destruct init as [|y init]; simpl in *.
    + destruct H as [H1 _]. auto.
    + destruct H as [H1 H2]. split; [exact H1 | apply IH, H2].
Qed.

Lemma normalise_sigs (st : DecState) : sigs_inv st -> sigs_inv (normalise st).
Proof.
  destruct (normalise_frame st) as ((_ & H2 & H3 & _) & _).
  unfold Props.sigs_inv. rewrite H2, H3. auto.
Qed.

Lemma bar_branch_sigs (events : list string) (i : nat) (st st' : DecState) :
  sigs_inv st -> bar_branch events i st = Ok st' -> sigs_inv st'.
Proof.
  unfold Remi2Midi.bar_branch. intros Hinv H.
  destruct (_ && _); [|injection H as <-; exact Hinv].
  destruct (ChordExtraction.split "/" _) as [|num [|denom [|? ?]]]; try discriminate.
  apply bind_Ok in H as (n & _ & H). apply bind_Ok in H as (d & _ & H).
  cbn [last_tl_event time_signature_changes] in H.
  destruct (_ || _) eqn:Hdiff; [|injection H as <-; exact Hinv].
  apply bind_Ok in H as (ts & Hts & H). injection H as <-.
  unfold new_TimeSignature in Hts.
  destruct (_ && _ && _) eqn:Hvalid; [|discriminate]. injection Hts as <-.
  apply andb_prop in Hvalid as [Hvalid _]. apply andb_prop in Hvalid as [Hn Hd].
  apply Z.ltb_lt in Hn, Hd.
  destruct Hinv as ((init & Hlast) & Hhead & Hchg & Hpos).
  unfold Props.sigs_inv. cbn [last_tl_event time_signature_changes tl_time_sig].
  split; [eexists; reflexivity|].
  split; [rewrite Hlast in Hhead |- *; destruct init; exact Hhead|].
  split.
  - rewrite Hlast in Hchg |- *. apply changes_only_snoc; [exact Hchg|].
    unfold sig_pair. cbn [numerator denominator]. intros [= H1 H2].
    rewrite H1, H2, !Z.eqb_refl in Hdiff. discriminate.
  - apply Forall_app. split; [exact Hpos|]. repeat constructor; assumption.
Qed.

Lemma tempo_branch_sigs (events : list string) (i : nat) (st st' : DecState) :
  sigs_inv st -> tempo_branch events i st = Ok st' -> sigs_inv st'.
Proof.
  unfold Remi2Midi.tempo_branch. intros Hinv H.
  apply bind_Ok in H as (p & _ & H). apply bind_Ok in H as (ti & _ & H).
  apply bind_Ok in H as (t & _ & H).
  destruct (negb _); injection H as <-; exact Hinv.
Qed.

Lemma note_branch_frame (L : Z) (events : list string) (i : nat) (st st' : DecState) :
  note_branch L events i st = Ok st' ->
  time_signature_changes st' = time_signature_changes st
  /\ last_tl_event st' = last_tl_event st
  /\ initial_tempo st' = initial_tempo st
  /\ bar st' = bar st.
Proof.
  unfold Remi2Midi.note_branch. intros H.
  apply bind_Ok in H as (position & _ & H).
  apply bind_Ok in H as (pc_bar & _ & H).
  cbv zeta in H.
  destruct (match default ∅ (pc_bar !! position) !! _ with
            | Some c => L <=? c | None => false end).
  { injection H as <-. auto. }
  apply bind_Ok in H as (ins & _ & H).
  apply bind_Ok in H as (pitch & _ & H).
  apply bind_Ok in H as (vi & _ & H).
  apply bind_Ok in H as (v & _ & H).
  apply bind_Ok in H as (di & _ & H).
  apply bind_Ok in H as (dur & _ & H).
  injection H as <-. auto.
Qed.

Lemma note_branch_sigs (L : Z) (events : list string) (i : nat) (st st' : DecState) :
  sigs_inv st -> note_branch L events i st = Ok st' -> sigs_inv st'.
Proof.
  intros Hinv H. apply note_branch_frame in H as (H1 & H2 & _).
  unfold Props.sigs_inv. rewrite H1, H2. exact Hinv.
Qed.

(** X2: the time signature list of the object [remi2midi] returns starts
    with 4/4 at time 0, holds positive numerators and denominators only, and
    never lists the same signature twice in a row: a Time Signature token
    that repeats the current signature adds nothing. *)
Theorem time_signatures_change (events : list string) (polyphony_limit : Z)
    (midi : Midi (F:=F)) :
  remi2midi events polyphony_limit = Ok midi ->
  head (midi_time_signature_changes midi) = Some (mkTimeSignature 4 4 (F_of_Z 0))
  /\ changes_only (midi_time_signature_changes midi)
  /\ Forall (fun ts => 0 < numerator ts /\ 0 < denominator ts)
       (midi_time_signature_changes midi).
Proof.
  unfold Remi2Midi.remi2midi. intros H.
  apply bind_Ok in H as (bpm & _ & H). apply bind_Ok in H as (flow & Hrun & H).
  injection H as <-. cbn [midi_time_signature_changes].
  apply (run_invariant sigs_inv) in Hrun.
  - destruct Hrun as (_ & Hhead & Hchg & Hpos). auto.
  - apply normalise_sigs.
  - apply bar_branch_sigs.
  - apply tempo_branch_sigs.
  - apply note_branch_sigs.
  - unfold Props.sigs_inv, start_state.
    cbn [time_signature_changes last_tl_event tl_time_sig head changes_only].
    split; [exists []; reflexivity|]. split; [reflexivity|]. split; [exact I|].
    repeat constructor.
Qed.

(** *** The instruments *)

Lemma sdict_set_keys {V} (d : dict string V) (k : string) (v : V) :
  map fst (dict_set String.eqb d k v)
  = if dict_has String.eqb d k then map fst d else map fst d ++ [k].
Proof.
  unfold dict_has. induction d as [|[k0 v0] d IH]; simpl; [reflexivity|].
  destruct (String.eqb k k0) eqn:E; simpl; [reflexivity|].
  rewrite IH. destruct (dict_get String.eqb d k); reflexivity.
Qed.

Lemma sdict_get_None_keys {V} (d : dict string V) (k : string) :
  dict_get String.eqb d k = None -> ~ In k (map fst d).
Proof.
  induction d as [|[k0 v0] d IH]; simpl; [tauto|].
  destruct (String.eqb_spec k k0); [discriminate|].
  intros H [Heq|Hin]; [congruence | exact (IH H Hin)].
Qed.

Lemma sdict_get_In {V} (d : dict string V) (k : string) (v : V) :
  dict_get String.eqb d k = Some v -> In (k, v) d.
Proof.
  induction d as [|[k0 v0] d IH]; simpl; [discriminate|].
  destruct (String.eqb_spec k k0) as [->|]; [intros [= ->]; auto | auto].
Qed.

Lemma sdict_set_In {V} (d : dict string V) (k : string) (v : V) (kv : string * V) :
  In kv (dict_set String.eqb d k v) -> In kv d \/ kv.1 = k /\ kv.2 = v.
Proof.
  induction d as [|[k0 v0] d IH]; simpl.
  - intros [<-|[]]. auto.
  - destruct (String.eqb_spec k k0) as [->|]; simpl.
    + intros [<-|H]; auto.
    + intros [<-|H]; [auto|]. destruct (IH H); auto.
Qed.

Lemma NoDup_keys_unique {K V} (l : list (K * V)) (k : K) (v v' : V) :
  List.NoDup (map fst l) -> In (k, v) l -> In (k, v') l -> v = v'.
Proof.
  induction l as [|[k0 v0] l IH]; simpl; [tauto|].
  intros Hnd. apply List.NoDup_cons_iff in Hnd as [Hnotin Hnd].
  intros [[= -> ->]|H1] [[= <-]|H2]; try reflexivity.
  - exfalso. apply Hnotin. apply (List.in_map fst) in H2. exact H2.
  - exfalso. apply Hnotin. apply (List.in_map fst) in H1. exact H1.
  - apply IH; assumption.
Qed.

Lemma note_branch_instruments (L : Z) (events : list string) (i : nat)
    (st st' : DecState) :
  instruments_inv st -> note_branch L events i st = Ok st' -> instruments_inv st'.
Proof.
  unfold Remi2Midi.note_branch. intros Hinv H.
  apply bind_Ok in H as (position & _ & H).
  apply bind_Ok in H as (pc_bar & _ & H).
  cbv zeta in H.
  destruct (match default ∅ (pc_bar !! position) !! _ with
            | Some c => L <=? c | None => false end).
  { injection H as <-. exact Hinv. }
  apply bind_Ok in H as (ins & Hins & H).
  apply bind_Ok in H as (pitch & _ & H).
  apply bind_Ok in H as (vi & _ & H).
  apply bind_Ok in H as (v & _ & H).
  apply bind_Ok in H as (di & _ & H).
  apply bind_Ok in H as (dur & _ & H).
  injection H as <-. unfold Props.instruments_inv. cbn [instruments].
  cbn [with_polyphony instruments] in Hins.
  set (name := last_field (token_at events (i + 1))) in *.
  set (note := mkNote _ _ _ _).
  destruct Hinv as (Hnd & Hmade & Hnotes).
  (* the dictionary before the note is appended *)
  assert (Hpre : exists i0,
            dict_get String.eqb ins name = Some i0
            /\ instrument_made instrument_name_to_program (name, i0)
            /\ List.NoDup (map fst ins)
            /\ Forall (instrument_made instrument_name_to_program) ins
            /\ (forall kv, In kv ins -> kv.1 <> name -> notes kv.2 <> [])).
  { unfold dict_has in Hins.
    destruct (dict_get String.eqb (instruments st) name) as [i0|] eqn:Hget.
    - injection Hins as <-. exists i0. split; [exact Hget|].
      split; [|split; [exact Hnd | split; [exact Hmade|]]].
      + apply sdict_get_In in Hget.
        apply (proj1 (List.Forall_forall _ _) Hmade) in Hget. exact Hget.
      + intros kv Hkv _. apply (proj1 (List.Forall_forall _ _) Hnotes) in Hkv.
        exact Hkv.
    - assert (Hnew : forall inst,
                instrument_made instrument_name_to_program (name, inst) ->
                ins = dict_set String.eqb (instruments st) name inst ->
                exists i0,
                  dict_get String.eqb ins name = Some i0
                  /\ instrument_made instrument_name_to_program (name, i0)
                  /\ List.NoDup (map fst ins)
                  /\ Forall (instrument_made instrument_name_to_program) ins
                  /\ (forall kv, In kv ins -> kv.1 <> name -> notes kv.2 <> [])).
      { intros inst Hmk ->. exists inst.
        split; [apply sdict_get_set_eq|]. split; [exact Hmk|].
        split.
        { rewrite sdict_set_keys. unfold dict_has. rewrite Hget.
          apply List.NoDup_app; [exact Hnd | repeat constructor; simpl; tauto |].
          intros x Hx [<-|[]]. eapply sdict_get_None_keys; eauto. }
        split.
        { apply List.Forall_forall. intros kv Hkv.
          apply sdict_set_In in Hkv as [Hkv|[Hk Hv]].
          - apply (proj1 (List.Forall_forall _ _) Hmade), Hkv.
          - destruct kv as [k' v']. simpl in Hk, Hv. subst. exact Hmk. }
        intros kv Hkv Hne. apply sdict_set_In in Hkv as [Hkv|[Hk _]]; [|contradiction].
        apply (proj1 (List.Forall_forall _ _) Hnotes) in Hkv. exact Hkv. }
      destruct (String.eqb name "drum") eqn:Hdrum.
      + injection Hins as Hins. apply (Hnew (mkInstrument 0 true [])).
        * unfold instrument_made. simpl. rewrite Hdrum. auto.
        * symmetry. exact Hins.
      + apply bind_Ok in Hins as (prog & Hprog & Hins). injection Hins as Hins.
        apply (Hnew (mkInstrument prog false [])).
        * unfold instrument_made. simpl. rewrite Hdrum. auto.
        * symmetry. exact Hins. }
  destruct Hpre as (i0 & Hget & Hmk & Hnd' & Hmade' & Hnotes').
  unfold append_note. rewrite Hget.
  split; [|split].
  - rewrite sdict_set_keys. unfold dict_has. rewrite Hget. exact Hnd'.
  - apply List.Forall_forall. intros kv Hkv.
    apply sdict_set_In in Hkv as [Hkv|[Hk Hv]].
    + apply (proj1 (List.Forall_forall _ _) Hmade'), Hkv.
    + destruct kv as [k' v']. simpl in Hk, Hv. subst.
      unfold instrument_made in *. simpl in *. exact Hmk.
  - apply List.Forall_forall. intros kv Hkv.
    destruct (String.eqb_spec kv.1 name) as [Heq|Hne].
    + (* the entry of [name] is the one just written *)
      assert (Hthis : dict_get String.eqb
                        (dict_set String.eqb ins name
                           (mkInstrument (program i0) (is_drum i0) (notes i0 ++ [note])))
                        name = Some (mkInstrument (program i0) (is_drum i0)
                                       (notes i0 ++ [note])))
        by apply sdict_get_set_eq.
      assert (Hnd2 : List.NoDup (map fst (dict_set String.eqb ins name
                           (mkInstrument (program i0) (is_drum i0) (notes i0 ++ [note])))))
        by (rewrite sdict_set_keys; unfold dict_has; rewrite Hget; exact Hnd').
      apply sdict_get_In in Hthis.
      assert (Hsame : kv = (name, mkInstrument (program i0) (is_drum i0)
                                    (notes i0 ++ [note]))).
      { destruct kv as [k' v']. simpl in Heq. subst k'.
        f_equal. eapply NoDup_keys_unique; [exact Hnd2 | exact Hkv | exact Hthis]. }
      rewrite Hsame. simpl. intros Hnil. apply app_eq_nil in Hnil as [_ Hnil].
      discriminate.
    + apply sdict_set_In in Hkv as [Hkv|[Hk _]]; [|contradiction].
      apply Hnotes'; assumption.
Qed.

(** *** The instruments follow the notes kept *)

Lemma dict_has_keys {V} (d : dict string V) (k : string) :
  dict_has String.eqb d k = existsb (String.eqb k) (map fst d).
Proof.
  unfold dict_has. induction d as [|[k0 v0] d IH]; simpl; [reflexivity|].
  destruct (String.eqb k k0); [reflexivity | exact IH].
Qed.

Lemma sdict_set_add_name {V} (d : dict string V) (k : string) (v : V) :
  map fst (dict_set String.eqb d k v) = add_name (map fst d) k.
Proof. rewrite sdict_set_keys, dict_has_keys. reflexivity. Qed.

Lemma add_name_present (names : list string) (k : string) :
  existsb (String.eqb k) names = true -> add_name names k = names.
Proof. unfold add_name. intros ->. reflexivity. Qed.

Lemma notes_of_set (d : dict string (Instrument (F:=F))) (k other : string)
    (v : Instrument (F:=F)) :
  notes_of (dict_set String.eqb d k v) other
  = if String.eqb other k then notes v else notes_of d other.
Proof.
  unfold notes_of. destruct (String.eqb_spec other k) as [->|Hne].
  - rewrite sdict_get_set_eq. reflexivity.
  - rewrite sdict_get_set_ne by congruence. reflexivity.
Qed.

Lemma bar_branch_n_notes (events : list string) (i : nat) (st st' : DecState) :
  bar_branch events i st = Ok st' -> n_notes st' = n_notes st.
Proof.
  unfold Remi2Midi.bar_branch. intros H.
  destruct (_ && _); [|injection H as <-; reflexivity].
  destruct (ChordExtraction.split "/" _) as [|num [|denom [|? ?]]]; try discriminate.
  apply bind_Ok in H as (n & _ & H). apply bind_Ok in H as (d & _ & H).
  cbn [last_tl_event] in H.
  destruct (_ || _); [|injection H as <-; reflexivity].
  apply bind_Ok in H as (ts & _ & H). injection H as <-. reflexivity.
Qed.

Lemma tempo_branch_n_notes (events : list string) (i : nat) (st st' : DecState) :
  tempo_branch events i st = Ok st' -> n_notes st' = n_notes st.
Proof.
  unfold Remi2Midi.tempo_branch. intros H.
  apply bind_Ok in H as (p & _ & H). apply bind_Ok in H as (ti & _ & H).
  apply bind_Ok in H as (t & _ & H).
  destruct (negb _); injection H as <-; reflexivity.
Qed.

(** What a pass through the note branch does to the instruments: nothing
    when the note is dropped; else the note count goes up by one, the name
    joins the names if it is new, and the instrument of that name gets one
    note more. *)
Lemma note_branch_kept (L : Z) (events : list string) (i : nat)
    (st st' : DecState) :
  note_branch L events i st = Ok st' ->
  (n_notes st' = n_notes st /\ instruments st' = instruments st)
  \/ (n_notes st' = n_notes st + 1
      /\ map fst (instruments st')
         = add_name (map fst (instruments st)) (last_field (token_at events (i + 1)))
      /\ forall other,
           length (notes_of (instruments st') other)
           = (length (notes_of (instruments st) other)
              + if String.eqb other (last_field (token_at events (i + 1)))
                then 1 else 0)%nat).
Proof.
  unfold Remi2Midi.note_branch. intros H.
  apply bind_Ok in H as (position & _ & H).
  apply bind_Ok in H as (pc_bar & _ & H).
  cbv zeta in H.
  destruct (match default ∅ (pc_bar !! position) !! _ with
            | Some c => L <=? c | None => false end).
  { injection H as <-. left. split; reflexivity. }
  apply bind_Ok in H as (ins & Hins & H).
  apply bind_Ok in H as (pitch & _ & H).
  apply bind_Ok in H as (vi & _ & H).
  apply bind_Ok in H as (v & _ & H).
  apply bind_Ok in H as (di & _ & H).
  apply bind_Ok in H as (dur & _ & H).
  injection H as <-. right. cbn [n_notes instruments with_polyphony].
  cbn [with_polyphony instruments] in Hins.
  set (name := last_field (token_at events (i + 1))) in *.
  set (note := mkNote _ _ _ _).
  split; [reflexivity|].
  (* the dictionary in which the note is stored *)
  assert (Hpre : map fst ins = add_name (map fst (instruments st)) name
                 /\ existsb (String.eqb name) (map fst ins) = true
                 /\ forall other,
                      length (notes_of ins other)
                      = length (notes_of (instruments st) other)).
  { destruct (dict_has String.eqb (instruments st) name) eqn:Hhas.
    - injection Hins as <-. rewrite dict_has_keys in Hhas.
      split; [symmetry; apply add_name_present, Hhas|].
      split; [exact Hhas | reflexivity].
    - assert (Hnew : forall inst : Instrument (F:=F),
                notes inst = [] ->
                ins = dict_set String.eqb (instruments st) name inst ->
                map fst ins = add_name (map fst (instruments st)) name
                /\ existsb (String.eqb name) (map fst ins) = true
                /\ forall other,
                     length (notes_of ins other)
                     = length (notes_of (instruments st) other)).
      { intros inst Hnil ->. split; [apply sdict_set_add_name|]. split.
        - rewrite <- dict_has_keys. unfold dict_has.
          rewrite sdict_get_set_eq. reflexivity.
        - intros other. rewrite notes_of_set.
          destruct (String.eqb_spec other name) as [->|]; [|reflexivity].
          rewrite Hnil. unfold notes_of, dict_has in *.
          destruct (dict_get String.eqb (instruments st) name);
            [discriminate Hhas | reflexivity]. }
      destruct (String.eqb name "drum").
      + injection Hins as Hins. apply (Hnew (mkInstrument 0 true []));
          [reflexivity | symmetry; exact Hins].
      + apply bind_Ok in Hins as (prog & _ & Hins). injection Hins as Hins.
        apply (Hnew (mkInstrument prog false []));
          [reflexivity | symmetry; exact Hins]. }
  destruct Hpre as (Hkeys & Hin & Hlen).
  unfold append_note.
  rewrite <- dict_has_keys in Hin. unfold dict_has in Hin.
  destruct (dict_get String.eqb ins name) as [i0|] eqn:Hget; [|discriminate Hin].
  split.
  - rewrite sdict_set_keys. unfold dict_has. rewrite Hget. exact Hkeys.
  - intros other. rewrite notes_of_set, <- Hlen.
    destruct (String.eqb_spec other name) as [->|]; [|lia].
    cbn [notes]. rewrite length_app. cbn [length].
    unfold notes_of. rewrite Hget. reflexivity.
Qed.

Lemma occurrences_app (name : string) (l l' : list string) :
  occurrences name (l ++ l') = (occurrences name l + occurrences name l')%nat.
Proof. unfold occurrences. rewrite List.filter_app, length_app. reflexivity. Qed.

(** The loop: the names of the instruments are the names they had, joined
    by the names of the notes kept, in the order of their first appearance,
    and every instrument grows by the notes kept for its name. *)
Lemma run_kept (L : Z) (events : list string) (n : nat) :
  forall (i : nat) (st : DecState) flow,
    run L events i n st = Ok flow ->
    map fst (instruments (state_of flow))
    = fold_left add_name
        (kept_names F_of_Z Fadd Fmul Fdiv F_nonneg instrument_name_to_program
           L events i n st)
        (map fst (instruments st))
    /\ forall name,
         length (notes_of (instruments (state_of flow)) name)
         = (length (notes_of (instruments st) name)
            + occurrences name
                (kept_names F_of_Z Fadd Fmul Fdiv F_nonneg
                   instrument_name_to_program L events i n st))%nat.
Proof.
  induction n as [|n IH]; intros i st flow H; cbn [Remi2Midi.run] in H.
  - injection H as <-. cbn [kept_names fold_left state_of].
    split; [reflexivity|]. intros name. unfold occurrences. simpl. lia.
  - cbn [kept_names].
    apply bind_Ok in H as (flow1 & Hstep & H). rewrite Hstep.
    destruct flow1 as [st1|st1].
    + (* the pass goes on *)
      assert (Hone : (n_notes st1 = n_notes st /\ instruments st1 = instruments st)
                \/ (n_notes st1 = n_notes st + 1
                    /\ map fst (instruments st1)
                       = add_name (map fst (instruments st))
                           (last_field (token_at events (i + 1)))
                    /\ forall other,
                         length (notes_of (instruments st1) other)
                         = (length (notes_of (instruments st) other)
                            + if String.eqb other
                                   (last_field (token_at events (i + 1)))
                              then 1 else 0)%nat)).
      { rewrite step_normalise in Hstep.
        destruct (String.eqb _ EOS_TOKEN); [discriminate Hstep|].
        destruct (normalise_frame st) as (_ & Hins & Hn & _).
        destruct (is_bar_head events i).
        { apply fmap_Ok in Hstep as (st' & Hb & [= ->]). left.
          rewrite (bar_branch_n_notes _ _ _ _ Hb),
            (bar_branch_instruments _ _ _ _ _ _ _ _ _ Hb). auto. }
        destruct (is_tempo_head events i).
        { apply fmap_Ok in Hstep as (st' & Hb & [= ->]). left.
          rewrite (tempo_branch_n_notes _ _ _ _ Hb),
            (tempo_branch_instruments _ _ _ _ _ _ _ _ Hb). auto. }
        destruct (is_note_head events i).
        { apply fmap_Ok in Hstep as (st' & Hb & [= ->]).
          apply note_branch_kept in Hb. rewrite Hins, Hn in Hb. exact Hb. }
        injection Hstep as <-. left. auto. }
      destruct (IH (S i) st1 flow H) as (Hkeys & Hlen).
      destruct Hone as [(Hn1 & Hi1)|(Hn1 & Hk1 & Hl1)].
      * rewrite Hn1, Z.eqb_refl. cbn [app]. rewrite <- Hi1.
        split; [exact Hkeys | exact Hlen].
      * destruct (Z.eqb_spec (n_notes st1) (n_notes st)) as [Heq|_]; [lia|].
        cbn [app fold_left]. rewrite <- Hk1. split; [exact Hkeys|].
        intros name. rewrite Hlen, Hl1.
        change (occurrences name (?x :: ?l))
          with (length (List.filter (String.eqb name) (x :: l))).
        cbn [List.filter]. unfold occurrences.
        destruct (String.eqb name _); cbn [length]; lia.
    + (* the end-of-sequence token *)
      injection H as <-. cbn [state_of fold_left].
      rewrite step_normalise in Hstep.
      destruct (String.eqb _ EOS_TOKEN).
      * injection Hstep as <-. split; [reflexivity|].
        intros name. unfold occurrences. simpl. lia.
      * exfalso. repeat (destruct (_ events i) in Hstep;
          [apply fmap_Ok in Hstep as (? & _ & [=]) | ]).
        discriminate Hstep.
Qed.

Lemma sdict_In_get {V} (d : dict string V) (k : string) (v : V) :
  List.NoDup (map fst d) -> In (k, v) d -> dict_get String.eqb d k = Some v.
Proof.
  induction d as [|[k0 v0] d IH]; simpl; [tauto|].
  intros Hnd. apply List.NoDup_cons_iff in Hnd as [Hnotin Hnd].
  intros [[= -> ->]|Hin].
  - rewrite String.eqb_refl. reflexivity.
  - destruct (String.eqb_spec k k0) as [->|]; [|apply IH; assumption].
    exfalso. apply Hnotin. apply (List.in_map fst) in Hin. exact Hin.
Qed.

(** X3: the object [remi2midi] returns holds one instrument per instrument
    name of a note that was kept, in the order in which the names first
    appear among the notes kept; the instrument of a name holds as many
    notes as were kept for the name, at least one; the name ['drum'] gives a
    drum kit with program 0, any other name the program the name table of
    the library gives it. *)
Theorem instruments_made_once (events : list string) (polyphony_limit : Z)
    (bpm : Z) (midi : Midi (F:=F)) :
  first_tempo events = Ok bpm ->
  remi2midi events polyphony_limit = Ok midi ->
  let kept :=
    kept_names F_of_Z Fadd Fmul Fdiv F_nonneg instrument_name_to_program
      polyphony_limit events 0 (length events) (start_state F_of_Z bpm) in
  exists insts : list (string * Instrument (F:=F)),
    midi_instruments midi = map snd insts
    /\ map fst insts = first_appearances kept
    /\ Forall (fun kv =>
                 instrument_made instrument_name_to_program kv
                 /\ length (notes kv.2) = occurrences kv.1 kept
                 /\ notes kv.2 <> [])
         insts.
Proof.
  unfold Remi2Midi.remi2midi. intros Hbpm H. rewrite Hbpm in H.
  cbn [mbind result_bind Py.bind] in H.
  apply bind_Ok in H as (flow & Hrun & H). injection H as <-.
  cbn [midi_instruments]. cbv zeta.
  pose proof Hrun as Hinv.
  apply (run_invariant instruments_inv) in Hinv.
  - destruct Hinv as (Hnd & Hmade & Hnotes).
    destruct (run_kept _ _ _ _ _ _ Hrun) as (Hkeys & Hlen).
    exists (instruments (state_of flow)).
    split; [reflexivity|]. split; [exact Hkeys|].
    apply List.Forall_forall. intros [k v] Hkv.
    split; [apply (proj1 (List.Forall_forall _ _) Hmade), Hkv|].
    pose proof (sdict_In_get _ _ _ Hnd Hkv) as Hget.
    specialize (Hlen k). unfold notes_of in Hlen at 1. rewrite Hget in Hlen.
    cbn [fst snd]. split.
    + rewrite Hlen. cbn [start_state instruments notes_of dict_get length].
      reflexivity.
    + apply (proj1 (List.Forall_forall _ _) Hnotes) in Hkv. exact Hkv.
  - intros st. unfold Props.instruments_inv. rewrite normalise_instruments. auto.
  - intros i st st' Hinv' Hb. unfold Props.instruments_inv.
    rewrite (bar_branch_instruments _ _ _ _ _ _ _ _ _ Hb). exact Hinv'.
  - intros i st st' Hinv' Hb. unfold Props.instruments_inv.
    rewrite (tempo_branch_instruments _ _ _ _ _ _ _ _ Hb). exact Hinv'.
  - apply note_branch_instruments.
  - unfold Props.instruments_inv, start_state. cbn [instruments map].
    split; [constructor|]. split; constructor.
Qed.

End DecoderMore.

Section DecoderMoreExamples.

Import Remi2Midi.

Lemma eos_ends_stream_witness :
  decode_exact (("Bar_1"%string :: drum_group 36) ++ EOS_TOKEN :: ["Bar_2"; "Pitch_3"]%string) 16
  = decode_exact (("Bar_1"%string :: drum_group 36) ++ EOS_TOKEN :: []) 16.
Proof.
  apply (eos_ends_stream inject_Z Qplus Qmult Qdiv (fun q => Qle_bool 0 q) piano_table).
  vm_compute. reflexivity.
Defined.

(** A Tempo token behind the end-of-sequence token still sets the initial
    tempo. *)
Example tempo_after_eos :
  midi_initial_tempo <$> decode_exact ["<eos>"; "Tempo_10"]%string 16 = Ok 75
  /\ midi_initial_tempo <$> decode_exact ["<eos>"]%string 16 = Ok 120.
Proof. split; vm_compute; reflexivity. Qed.

Lemma time_signatures_change_witness :
  exists midi : Midi (F:=Q),
    decode_exact ["Bar_1"; "Time Signature_3/4"; "Bar_2"; "Time Signature_3/4"]%string 16
    = Ok midi
    /\ changes_only (midi_time_signature_changes midi).
Proof.
  eexists. split; [vm_compute; reflexivity|].
  eapply (time_signatures_change inject_Z Qplus Qmult Qdiv (fun q => Qle_bool 0 q)
            piano_table
            ["Bar_1"; "Time Signature_3/4"; "Bar_2"; "Time Signature_3/4"]%string 16).
  vm_compute. reflexivity.
Defined.

Lemma instruments_made_once_witness :
  exists (midi : Midi (F:=Q)) (insts : list (string * Instrument (F:=Q))),
    decode_exact two_instrument_stream 16 = Ok midi
    /\ midi_instruments midi = map snd insts
    /\ map fst insts = ["Acoustic Grand Piano"; "drum"]%string
    /\ Forall (fun kv => instrument_made piano_table kv) insts
    /\ map (fun kv => length (notes kv.2)) insts = [2; 1]%nat.
Proof.
  destruct (decode_exact two_instrument_stream 16) as [midi|e] eqn:Hdec;
    [|vm_compute in Hdec; discriminate].
  destruct (instruments_made_once inject_Z Qplus Qmult Qdiv
              (fun q => Qle_bool 0 q) piano_table two_instrument_stream 16 120
              midi)
    as (insts & Hmidi & Hnames & Hall); [vm_compute; reflexivity | exact Hdec|].
  exists midi, insts. split; [reflexivity|]. split; [exact Hmidi|].
  assert (Hkept : kept_names inject_Z Qplus Qmult Qdiv (fun q => Qle_bool 0 q)
                    piano_table 16 two_instrument_stream 0
                    (length two_instrument_stream) (start_state inject_Z 120)
                  = ["Acoustic Grand Piano"; "drum"; "Acoustic Grand Piano"]%string)
    by (vm_compute; reflexivity).
  rewrite Hkept in Hnames, Hall.
  split; [exact Hnames|]. split.
  - eapply Forall_impl; [exact Hall|]. intros kv (Hm & _). exact Hm.
  - destruct insts as [|[k1 v1] [|[k2 v2] [|? ?]]]; try discriminate Hnames.
    injection Hnames as -> ->.
    apply Forall_cons in Hall as [(_ & H1 & _) Hall].
    apply Forall_cons in Hall as [(_ & H2 & _) _].
    cbn [map fst snd] in *. rewrite H1, H2. reflexivity.
Defined.

End DecoderMoreExamples.

(** ** Tokens: what the encoder prints, the decoder reads back *)

Section Tokens.

Import MusicObj ChordExtraction Midi2Remi Remi2Midi.

(** *** [int(str(n))] *)

Lemma digits_value_acc (d : Decimal.uint) :
  forall acc : positive,
    digits_value (Z.pos acc) (NilEmpty.string_of_uint d)
    = Some (Z.pos (Pos.of_uint_acc d acc)).
Proof.
  induction d; intros acc; cbn [NilEmpty.string_of_uint Pos.of_uint_acc];
    [reflexivity|..];
    cbn [digits_value]; unfold is_digit; cbn [nat_of_ascii];
    match goal with
    | |- context [digits_value ?z _] =>
        match goal with
        | |- context [Pos.of_uint_acc _ ?a] =>
            replace z with (Z.pos a) by (vm_compute Z.of_nat; lia)
        end
    end; apply IHd.
Qed.

Lemma digits_value_0 (d : Decimal.uint) :
  digits_value 0 (NilEmpty.string_of_uint d) = Some (Z.of_N (Pos.of_uint d)).
Proof.
  induction d; cbn [NilEmpty.string_of_uint Pos.of_uint]; [reflexivity|..];
    cbn [digits_value]; unfold is_digit; cbn [nat_of_ascii];
    [exact IHd|..]; apply (digits_value_acc d).
Qed.

Lemma string_of_uint_digits (d : Decimal.uint) :
  all_chars is_digit (NilEmpty.string_of_uint d) = true.
Proof. induction d; cbn [NilEmpty.string_of_uint all_chars]; auto. Qed.

Lemma string_of_uint_nonempty (d : Decimal.uint) :
  d <> Decimal.Nil -> NilEmpty.string_of_uint d <> EmptyString.
Proof. destruct d; simpl; congruence. Qed.

Lemma all_chars_impl (p q : Ascii.ascii -> bool) (s : string) :
  (forall c, p c = true -> q c = true) ->
  all_chars p s = true -> all_chars q s = true.
Proof.
  intros Hpq. induction s as [|c s IH]; simpl; [reflexivity|].
  intros H. apply andb_prop in H as [Hc Hs]. rewrite (Hpq c Hc), (IH Hs). reflexivity.
Qed.

Lemma digit_not_space (c : Ascii.ascii) : is_digit c = true -> is_space c = false.
Proof.
  unfold is_digit, is_space. intros H. apply andb_prop in H as [H1 H2].
  apply Nat.leb_le in H1, H2.
  destruct (Nat.leb_spec 9 (nat_of_ascii c)), (Nat.leb_spec (nat_of_ascii c) 13),
    (Nat.leb_spec 28 (nat_of_ascii c)), (Nat.leb_spec (nat_of_ascii c) 32);
    simpl; try reflexivity; lia.
Qed.

(** The reversal [strip] works with. *)
Lemma string_rev_onto_twice (s : string) :
  forall acc acc',
    string_rev_onto acc' (string_rev_onto acc s) = string_rev_onto (s ++ acc') acc.
Proof.
  induction s as [|c s IH]; intros acc acc'; simpl; [reflexivity|].
  rewrite IH. reflexivity.
Qed.

Lemma append_empty_r (s : string) : (s ++ "")%string = s.
Proof.
  induction s as [|c s IH]; [reflexivity|].
  change (String c (s ++ "") = String c s)%string. f_equal. exact IH.
Qed.

Lemma string_rev_onto_all (p : Ascii.ascii -> bool) (s : string) :
  forall acc, all_chars p s = true -> all_chars p acc = true ->
              all_chars p (string_rev_onto acc s) = true.
Proof.
  induction s as [|c s IH]; intros acc Hs Hacc; simpl; [exact Hacc|].
  simpl in Hs. apply andb_prop in Hs as [Hc Hs].
  apply IH; [exact Hs | simpl; rewrite Hc, Hacc; reflexivity].
Qed.

Lemma lstrip_id (s : string) :
  all_chars (fun c => negb (is_space c)) s = true -> lstrip s = s.
Proof.
  destruct s as [|c s]; simpl; [reflexivity|]. intros H.
  apply andb_prop in H as [Hc _]. apply negb_true_iff in Hc. rewrite Hc. reflexivity.
Qed.

(** [strip] leaves a string without blanks alone. *)
Lemma strip_id (s : string) :
  all_chars (fun c => negb (is_space c)) s = true -> strip s = s.
Proof.
  intros H. unfold strip. rewrite (lstrip_id s H).
  rewrite lstrip_id by (apply string_rev_onto_all; [exact H | reflexivity]).
  rewrite string_rev_onto_twice. simpl. apply append_empty_r.
Qed.

Lemma py_int_digits (s : string) :
  s <> EmptyString -> all_chars is_digit s = true ->
  py_int s = of_option ValueError (digits_value 0 s).
Proof.
  intros Hne Hd. unfold py_int. rewrite strip_id.
  2:{ eapply all_chars_impl; [|exact Hd]. intros c Hc.
      rewrite (digit_not_space c Hc). reflexivity. }
  destruct s as [|c s]; [congruence|]. simpl in Hd.
  apply andb_prop in Hd as [Hc _].
  destruct c as [[] [] [] [] [] [] [] []]; try discriminate Hc; reflexivity.
Qed.

Lemma py_int_minus_digits (s : string) :
  s <> EmptyString -> all_chars is_digit s = true ->
  py_int (String "-" s) = of_option ValueError (Z.opp <$> digits_value 0 s).
Proof.
  intros Hne Hd. unfold py_int. rewrite strip_id.
  2:{ simpl. eapply all_chars_impl; [|exact Hd]. intros c Hc.
      rewrite (digit_not_space c Hc). reflexivity. }
  destruct s as [|c s]; [congruence|]. reflexivity.
Qed.

Lemma string_of_uint_nonnil (d : Decimal.uint) :
  d <> Decimal.Nil -> NilZero.string_of_uint d = NilEmpty.string_of_uint d.
Proof. destruct d; [congruence | reflexivity..]. Qed.

(** Reading back a printed integer gives the integer. *)
Lemma py_int_str_of_Z (z : Z) : py_int (str_of_Z z) = Ok z.
Proof.
  unfold str_of_Z. destruct z as [|p|p]; [reflexivity|..];
    cbn [Z.to_int NilZero.string_of_int];
    pose proof (DecimalPos.Unsigned.to_uint_nonnil p) as Hnn;
    rewrite (string_of_uint_nonnil _ Hnn).
  - rewrite py_int_digits
      by (first [apply string_of_uint_nonempty, Hnn | apply string_of_uint_digits]).
    rewrite digits_value_0, DecimalPos.Unsigned.of_to. reflexivity.
  - rewrite py_int_minus_digits
      by (first [apply string_of_uint_nonempty, Hnn | apply string_of_uint_digits]).
    rewrite digits_value_0, DecimalPos.Unsigned.of_to. reflexivity.
Qed.

(** *** [split('_')[-1]] *)

Lemma split_from_nonnil (sep : Ascii.ascii) (s : string) :
  forall cur, split_from sep cur s <> [].
Proof.
  induction s as [|c s IH]; intros cur; simpl; [discriminate|].
  destruct (Ascii.eqb c sep); [discriminate | apply IH].
Qed.

Lemma last_cons_nonnil {A} (x d : A) (l : list A) :
  l <> [] -> List.last (x :: l) d = List.last l d.
Proof. destruct l; [congruence | reflexivity]. Qed.

Lemma last_split_app (sep : Ascii.ascii) (a b d : string) :
  forall cur,
    List.last (split_from sep cur (a ++ String sep b)) d
    = List.last (split_from sep EmptyString b) d.
Proof.
  induction a as [|c a IH]; intros cur.
  - change (EmptyString ++ String sep b)%string with (String sep b).
    cbn [split_from]. rewrite Ascii.eqb_refl.
    apply last_cons_nonnil, split_from_nonnil.
  - change (String c a ++ String sep b)%string with (String c (a ++ String sep b)).
    cbn [split_from]. destruct (Ascii.eqb c sep).
    + rewrite last_cons_nonnil by apply split_from_nonnil. apply IH.
    + apply IH.
Qed.

Lemma split_from_no_sep (sep : Ascii.ascii) (b : string) :
  forall cur,
    all_chars (fun c => negb (Ascii.eqb c sep)) b = true ->
    split_from sep cur b = [(cur ++ b)%string].
Proof.
  induction b as [|c b IH]; intros cur H; cbn [split_from].
  - rewrite append_empty_r. reflexivity.
  - simpl in H. apply andb_prop in H as [Hc Hb]. apply negb_true_iff in Hc.
    rewrite Hc, IH by exact Hb. f_equal.
    clear. induction cur as [|x cur IH]; [reflexivity|].
    change ((String x (cur ++ String c "") ++ b)%string
            = String x (cur ++ String c b)). simpl.
    change (String x ((cur ++ String c "") ++ b) = String x (cur ++ String c b))%string.
    f_equal. exact IH.
Qed.

(** The last field of [head_value] is [value] when [value] holds no
    underscore. *)
Lemma last_field_value (head value : string) :
  no_underscore value = true ->
  last_field (head ++ String "_" value) = value.
Proof.
  intros H. unfold last_field, split. rewrite last_split_app.
  rewrite split_from_no_sep by exact H. reflexivity.
Qed.

Lemma digit_not_underscore (c : Ascii.ascii) :
  is_digit c = true -> not_underscore c = true.
Proof.
  destruct c as [[] [] [] [] [] [] [] []]; try discriminate; reflexivity.
Qed.

Lemma str_of_Z_no_underscore (z : Z) : no_underscore (str_of_Z z) = true.
Proof.
  unfold str_of_Z, no_underscore.
  assert (H : forall d, all_chars not_underscore (NilZero.string_of_uint d) = true).
  { intros d. destruct d; try reflexivity;
      (eapply all_chars_impl; [apply digit_not_underscore|];
       apply (string_of_uint_digits (_ d))). }
  destruct z; cbn [Z.to_int NilZero.string_of_int]; try reflexivity.
  - apply H.
  - cbn [all_chars]. rewrite H. reflexivity.
Qed.

(** X4: the integer behind the last underscore of a token is read back as
    it was printed: [int(f'{name}_{n}'.split('_')[-1]) == n]. *)
Theorem token_value_read_back (name : string) (time : option Z) (n : Z) :
  py_int (last_field (token (mkEvent name time (str_of_Z n)))) = Ok n.
Proof.
  unfold token. cbn [ename evalue].
  change (name ++ "_" ++ str_of_Z n)%string
    with (name ++ String "_" (str_of_Z n))%string.
  rewrite last_field_value by apply str_of_Z_no_underscore.
  apply py_int_str_of_Z.
Qed.

(** *** [key in token] *)

Lemma contains_prefix (k s : string) :
  String.prefix k s = true -> contains k s = true.
Proof. intros H. destruct s; cbn [contains]; rewrite H; reflexivity. Qed.

Lemma prefix_app (k s : string) : String.prefix k (k ++ s) = true.
Proof.
  induction k as [|c k IH]; [destruct s; reflexivity|].
  change (String c k ++ s)%string with (String c (k ++ s)). cbn [String.prefix].
  destruct (ascii_dec c c); [exact IH | congruence].
Qed.

(** A token contains its own key. *)
Lemma contains_own_key (k s : string) : contains k (k ++ s) = true.
Proof. apply contains_prefix, prefix_app. Qed.

Lemma all_chars_app (p : Ascii.ascii -> bool) (a b : string) :
  all_chars p (a ++ b) = all_chars p a && all_chars p b.
Proof.
  induction a as [|c a IH]; [reflexivity|].
  change (String c a ++ b)%string with (String c (a ++ b)). cbn [all_chars].
  rewrite IH, andb_assoc. reflexivity.
Qed.

Lemma prefix_all_chars (p : Ascii.ascii -> bool) (k : string) :
  forall s, String.prefix k s = true -> all_chars p s = true -> all_chars p k = true.
Proof.
  induction k as [|c k IH]; intros s Hpre Hs; [reflexivity|].
  destruct s as [|x s]; [discriminate|]. cbn [String.prefix] in Hpre.
  destruct (ascii_dec c x) as [->|]; [|discriminate].
  simpl in Hs. apply andb_prop in Hs as [Hx Hs]. simpl.
  rewrite Hx, (IH s Hpre Hs). reflexivity.
Qed.

Lemma key_has_underscore (k : string) : no_underscore (key_ k) = false.
Proof.
  unfold no_underscore, key_. rewrite all_chars_app. simpl. apply andb_false_r.
Qed.

Lemma prefix_key_no_underscore (k s : string) :
  no_underscore s = true -> String.prefix (key_ k) s = false.
Proof.
  intros Hs. destruct (String.prefix (key_ k) s) eqn:Hpre; [|reflexivity].
  pose proof (prefix_all_chars _ _ _ Hpre Hs) as H.
  fold (no_underscore (key_ k)) in H. rewrite key_has_underscore in H. discriminate.
Qed.

(** A string without underscores contains no key. *)
Lemma contains_key_no_underscore (k s : string) :
  no_underscore s = true -> contains (key_ k) s = false.
Proof.
  induction s as [|c s IH]; intros Hs.
  - cbn [contains]. rewrite prefix_key_no_underscore by exact Hs. reflexivity.
  - cbn [contains]. rewrite prefix_key_no_underscore by exact Hs.
    simpl in Hs. apply andb_prop in Hs as [_ Hs]. rewrite IH by exact Hs. reflexivity.
Qed.

Lemma prefix_key_app (s : string) :
  no_underscore s = true ->
  forall k a, String.prefix (key_ k) (a ++ s) = String.prefix (key_ k) a.
Proof.
  intros Hs. induction k as [|x k IH]; intros a.
  - destruct a as [|b a].
    + change (EmptyString ++ s)%string with s.
      change (key_ EmptyString) with "_"%string.
      destruct s as [|c s]; [reflexivity|]. simpl in Hs.
      apply andb_prop in Hs as [Hc _]. unfold not_underscore in Hc.
      apply negb_true_iff in Hc. cbn [String.prefix].
      destruct (ascii_dec "_" c) as [<-|]; [discriminate Hc | reflexivity].
    + change (String b a ++ s)%string with (String b (a ++ s)).
      change (key_ EmptyString) with "_"%string. cbn [String.prefix].
      destruct (ascii_dec "_" b); [destruct (a ++ s)%string, a; reflexivity | reflexivity].
  - destruct a as [|b a].
    + change (EmptyString ++ s)%string with s.
      rewrite prefix_key_no_underscore by exact Hs. reflexivity.
    + change (String b a ++ s)%string with (String b (a ++ s)).
      change (key_ (String x k)) with (String x (key_ k)). cbn [String.prefix].
      destruct (ascii_dec x b); [apply IH | reflexivity].
Qed.

(** Whether a key occurs in [a ++ s] is decided inside [a] when [s] holds
    no underscore: every key ends with one. *)
Lemma contains_key_app (k a s : string) :
  no_underscore s = true ->
  contains (key_ k) (a ++ s) = contains (key_ k) a.
Proof.
  intros Hs. induction a as [|c a IH].
  - change (EmptyString ++ s)%string with s.
    rewrite contains_key_no_underscore by exact Hs.
    symmetry. apply (contains_key_no_underscore k EmptyString). reflexivity.
  - change (String c a ++ s)%string with (String c (a ++ s)).
    cbn [contains]. rewrite IH.
    change (String c (a ++ s)) with (String c a ++ s)%string.
    rewrite prefix_key_app by exact Hs. reflexivity.
Qed.

(** *** The tokens of a note *)

Lemma token_key_value (k v : string) (time : option Z) :
  token (mkEvent k time v) = (key_ k ++ v)%string.
Proof.
  unfold token, key_. cbn [ename evalue].
  induction k as [|c k IH]; [reflexivity|].
  change (String c (k ++ "_" ++ v) = String c ((k ++ "_") ++ v))%string.
  f_equal. exact IH.
Qed.

Lemma key_value_last_field (k v : string) :
  no_underscore v = true -> last_field (key_ k ++ v) = v.
Proof.
  intros Hv. rewrite <- (token_key_value k v None). unfold token. cbn [ename evalue].
  change (k ++ "_" ++ v)%string with (k ++ String "_" v)%string.
  apply last_field_value, Hv.
Qed.

Lemma nearest_bin_index (bins : list Z) (x : Z) (idx : nat) :
  nearest_bin bins x = Ok idx ->
  exists b, bins !! idx = Some b /\ index bins (Z.of_nat idx) = Ok b.
Proof.
  intros H. apply nearest_bin_spec in H as (b & Hb & _).
  exists b. split; [exact Hb | apply index_in_range, Hb].
Qed.

(** What [note_events] prints for a note. *)
Lemma note_events_tokens (table : Z -> result string) (res t idx : Z)
    (item : Item) (evs : list Event) :
  note_events table res (position_event t idx) item = Ok evs ->
  exists nm p v vi e d di,
    match instrument item with
    | Drum => nm = "drum"%string
    | Program prog => table prog = Ok nm
    | NoInstrument => False
    end
    /\ pitch item = PitchInt p
    /\ velocity item = Some v
    /\ nearest_bin DEFAULT_VELOCITY_BINS v = Ok vi
    /\ end_ item = Some e
    /\ Utils.tick_to_position (e - start item) res = Ok d
    /\ nearest_bin DEFAULT_DURATION_BINS d = Ok di
    /\ map token evs
       = [(key_ POSITION_KEY ++ str_of_Z idx)%string;
          (key_ INSTRUMENT_KEY ++ nm)%string;
          (key_ PITCH_KEY
           ++ (if String.eqb nm "drum" then "drum_" ++ str_of_Z p else str_of_Z p))%string;
          (key_ VELOCITY_KEY ++ str_of_Z (Z.of_nat vi))%string;
          (key_ DURATION_KEY ++ str_of_Z (Z.of_nat di))%string].
Proof.
  unfold note_events. intros H.
  apply bind_Ok in H as (nm & Hnm & H).
  apply bind_Ok in H as (p & Hp & H).
  apply bind_Ok in H as (v & Hv & H).
  apply bind_Ok in H as (vi & Hvi & H).
  apply bind_Ok in H as (e & He & H).
  apply bind_Ok in H as (d & Hd & H).
  apply bind_Ok in H as (di & Hdi & H).
  injection H as <-.
  exists nm, p, v, vi, e, d, di.
  split; [destruct (instrument item); [injection Hnm as <-; reflexivity | exact Hnm | discriminate]|].
  split; [destruct (pitch item); [injection Hp as <-; reflexivity | discriminate..]|].
  split; [destruct (velocity item); [injection Hv as <-; reflexivity | discriminate]|].
  split; [exact Hvi|].
  split; [destruct (end_ item); [injection He as <-; reflexivity | discriminate]|].
  split; [exact Hd|]. split; [exact Hdi|].
  cbn [map]. unfold position_event. rewrite !token_key_value. reflexivity.
Qed.

(** The five tokens of a note are a group the decoder recognises, and they
    read back as the position, the name and the three values printed. *)
Lemma note_tokens_well_formed (idx p : Z) (nm : string) (vi di : nat) (v d : Z) :
  no_underscore nm = true ->
  nearest_bin DEFAULT_VELOCITY_BINS v = Ok vi ->
  nearest_bin DEFAULT_DURATION_BINS d = Ok di ->
  well_formed_group idx nm
    [(key_ POSITION_KEY ++ str_of_Z idx)%string;
     (key_ INSTRUMENT_KEY ++ nm)%string;
     (key_ PITCH_KEY
      ++ (if String.eqb nm "drum" then "drum_" ++ str_of_Z p else str_of_Z p))%string;
     (key_ VELOCITY_KEY ++ str_of_Z (Z.of_nat vi))%string;
     (key_ DURATION_KEY ++ str_of_Z (Z.of_nat di))%string]
    (p, Z.of_nat vi, Z.of_nat di).
Proof.
  intros Hnm Hvi Hdi.
  destruct (nearest_bin_index _ _ _ Hvi) as (bv & _ & Hbv).
  destruct (nearest_bin_index _ _ _ Hdi) as (bd & _ & Hbd).
  assert (Hnum : forall k z, no_underscore (str_of_Z z) = true
                             /\ py_int (last_field (key_ k ++ str_of_Z z)) = Ok z).
  { intros k z. split; [apply str_of_Z_no_underscore|].
    rewrite key_value_last_field by apply str_of_Z_no_underscore.
    apply py_int_str_of_Z. }
  assert (Hless : forall k k' s, no_underscore s = true ->
                    contains (key_ k) (key_ k') = false ->
                    contains (key_ k) (key_ k' ++ s) = false).
  { intros k k' s Hs Hk. rewrite contains_key_app by exact Hs. exact Hk. }
  assert (Hhead : forall k' s, no_underscore s = true ->
                    contains (key_ BAR_KEY) (key_ k') = false ->
                    contains (key_ POSITION_KEY) (key_ k') = false ->
                    headless (key_ k' ++ s) = true).
  { intros k' s Hs Hb Hp. unfold headless.
    rewrite !Hless by assumption. reflexivity. }
  (* the pitch field *)
  set (pv := if String.eqb nm "drum" then ("drum_" ++ str_of_Z p)%string
             else str_of_Z p).
  assert (Hpitch : contains (key_ PITCH_KEY) (key_ PITCH_KEY ++ pv) = true
                   /\ headless (key_ PITCH_KEY ++ pv) = true
                   /\ py_int (last_field (key_ PITCH_KEY ++ pv)) = Ok p).
  { split; [apply contains_own_key|]. unfold pv.
    destruct (String.eqb nm "drum").
    - change (key_ PITCH_KEY ++ "drum_" ++ str_of_Z p)%string
        with (key_ "Pitch_drum" ++ str_of_Z p)%string.
      split; [apply Hhead; [apply str_of_Z_no_underscore | reflexivity..]|].
      apply Hnum.
    - split; [apply Hhead; [apply str_of_Z_no_underscore | reflexivity..]|].
      apply Hnum. }
  destruct Hpitch as (Hc1 & Hc2 & Hc3).
  unfold well_formed_group.
  eexists _, _, _, _, _. split; [reflexivity|].
  split; [apply contains_own_key|].
  split; [apply Hless; [apply str_of_Z_no_underscore | reflexivity]|].
  split; [apply contains_own_key|].
  split; [apply Hless; [exact Hnm | reflexivity]|].
  split; [apply Hhead; [exact Hnm | reflexivity..]|].
  split; [exact Hc1|]. split; [exact Hc2|].
  split; [apply contains_own_key|].
  split; [apply Hhead; [apply str_of_Z_no_underscore | reflexivity..]|].
  split; [apply contains_own_key|].
  split; [apply Hhead; [apply str_of_Z_no_underscore | reflexivity..]|].
  split; [apply Hnum|].
  split; [apply key_value_last_field, Hnm|].
  split; [exact Hc3|].
  split; [apply Hnum|]. split; [apply Hnum|].
  rewrite Hbv, Hbd. split; reflexivity.
Qed.

(** *** How far the bins move a value *)

Lemma velocity_bin_close (v : Z) (idx : nat) (b : Z) :
  0 <= v <= 127 ->
  nearest_bin DEFAULT_VELOCITY_BINS v = Ok idx ->
  DEFAULT_VELOCITY_BINS !! idx = Some b ->
  Z.abs (Z.min 127 b - v) <= 2.
Proof.
  intros Hv Hidx Hb.
  assert (Hall :
    forallb (fun v =>
      match nearest_bin DEFAULT_VELOCITY_BINS v with
      | Ok idx =>
          match DEFAULT_VELOCITY_BINS !! idx with
          | Some b => Z.abs (Z.min 127 b - v) <=? 2
          | None => false
          end
      | Raise _ => false
      end) (range 128) = true) by (vm_compute; reflexivity).
  rewrite List.forallb_forall in Hall.
  specialize (Hall v (proj2 (range_In 128 v) ltac:(lia))).
  rewrite Hidx, Hb in Hall. apply Z.leb_le, Hall.
Qed.

Lemma duration_bin_close (d : Z) (idx : nat) (b : Z) :
  0 <= d <= 780 ->
  nearest_bin DEFAULT_DURATION_BINS d = Ok idx ->
  DEFAULT_DURATION_BINS !! idx = Some b ->
  Z.abs (b - d) <= 12 /\ (1 <= d <= 12 -> b = d).
Proof.
  intros Hd Hidx Hb.
  assert (Hall :
    forallb (fun d =>
      match nearest_bin DEFAULT_DURATION_BINS d with
      | Ok idx =>
          match DEFAULT_DURATION_BINS !! idx with
          | Some b =>
              (Z.abs (b - d) <=? 12)
              && (if (1 <=? d) && (d <=? 12) then b =? d else true)
          | None => false
          end
      | Raise _ => false
      end) (range 781) = true) by (vm_compute; reflexivity).
  rewrite List.forallb_forall in Hall.
  specialize (Hall d (proj2 (range_In 781 d) ltac:(lia))).
  rewrite Hidx, Hb in Hall. apply andb_prop in Hall as [H1 H2].
  split; [apply Z.leb_le, H1|]. intros Hr.
  destruct (Z.leb_spec 1 d), (Z.leb_spec d 12); try lia.
  apply Z.eqb_eq, H2.
Qed.

Lemma tempo_bin_close (tempo : Z) (idx : nat) (b : Z) :
  0 <= tempo <= 240 ->
  nearest_bin DEFAULT_TEMPO_BINS tempo = Ok idx ->
  DEFAULT_TEMPO_BINS !! idx = Some b ->
  Z.abs (b - tempo) <= 4.
Proof.
  intros Hv Hidx Hb.
  assert (Hall :
    forallb (fun v =>
      match nearest_bin DEFAULT_TEMPO_BINS v with
      | Ok idx =>
          match DEFAULT_TEMPO_BINS !! idx with
          | Some b => Z.abs (b - v) <=? 4
          | None => false
          end
      | Raise _ => false
      end) (range 241) = true) by (vm_compute; reflexivity).
  rewrite List.forallb_forall in Hall.
  specialize (Hall tempo (proj2 (range_In 241 tempo) ltac:(lia))).
  rewrite Hidx, Hb in Hall. apply Z.leb_le, Hall.
Qed.

End Tokens.

(** ** From the encoder to the decoder *)

Section RoundTrip.

Import MusicObj ChordExtraction Midi2Remi Remi2Midi.

Context {F : Type}.
Variable F_of_Z : Z -> F.
Variables Fadd Fmul Fdiv : F -> F -> F.
Variable F_nonneg : F -> bool.
Variable instrument_name_to_program : string -> result Z.
Variable program_to_instrument_name : Z -> result string.

#[local] Abbreviation get_time := (get_time F_of_Z Fadd Fmul Fdiv).
#[local] Abbreviation run :=
  (run F_of_Z Fadd Fmul Fdiv F_nonneg instrument_name_to_program).
#[local] Abbreviation DecState := (DecState (F:=F)).

(** X5: a note written by the encoder and read by the decoder.  The five
    tokens [note_events] prints for a note, met anywhere in a stream by a
    decoder that can make the instrument and has not yet counted a note for
    the position, give one new note in that instrument: the pitch is the
    pitch of the item, the velocity differs from the item's by at most 2
    (for velocities 0..127), the note starts at the position printed and
    lasts a number of positions at most 12 away from the item's duration
    in positions (for durations up to 780), the same number for durations
    1..12. *)
Theorem note_round_trip (res t idx : Z) (item : Item) (evs : list Event)
    (polyphony_limit : Z) (events : list string) (i : nat) (st : DecState) :
  note_events program_to_instrument_name res (position_event t idx) item = Ok evs ->
  (forall prog nm, instrument item = Program prog ->
     program_to_instrument_name prog = Ok nm -> no_underscore nm = true) ->
  (forall k tok, map token evs !! k = Some tok -> events !! (i + k)%nat = Some tok) ->
  exists nm p v e d,
    match instrument item with
    | Drum => nm = "drum"%string
    | Program prog => program_to_instrument_name prog = Ok nm
    | NoInstrument => False
    end
    /\ pitch item = PitchInt p
    /\ velocity item = Some v
    /\ end_ item = Some e
    /\ Utils.tick_to_position (e - start item) res = Ok d
    /\ (instrument_available instrument_name_to_program st nm ->
        pc_count (polyphony_control st) (bar st) idx nm = None ->
        exists st' note dur,
          run polyphony_limit events i 5 st = Ok (Next st')
          /\ notes_of (instruments st') nm = notes_of (instruments st) nm ++ [note]
          /\ n_notes st' = n_notes st + 1
          /\ note_pitch note = p
          /\ (0 <= v <= 127 -> Z.abs (note_velocity note - v) <= 2)
          /\ note_start note = get_time (last_tl_event st) (bar st) idx
          /\ note_end note = get_time (last_tl_event st) (bar st) (idx + dur)
          /\ (0 <= d <= 780 -> Z.abs (dur - d) <= 12)
          /\ (1 <= d <= 12 -> dur = d)).
Proof.
  intros Henc Hnames Hev.
  apply note_events_tokens in Henc
    as (nm & p & v & vi & e & d & di & Hnm & Hp & Hv & Hvi & He & Hd & Hdi & Htok).
  exists nm, p, v, e, d.
  split; [exact Hnm|]. split; [exact Hp|]. split; [exact Hv|].
  split; [exact He|]. split; [exact Hd|].
  intros Havail Hfresh.
  assert (Hno : no_underscore nm = true).
  { destruct (instrument item) as [|prog|] eqn:Hins; [subst nm; reflexivity| |contradiction].
    eapply Hnames; [reflexivity | exact Hnm]. }
  pose proof (note_tokens_well_formed idx p nm vi di v d Hno Hvi Hdi) as Hwf.
  rewrite <- Htok in Hwf.
  destruct (run_group F_of_Z Fadd Fmul Fdiv F_nonneg instrument_name_to_program
              polyphony_limit events i st idx nm (map token evs)
              (p, Z.of_nat vi, Z.of_nat di) Hwf Hev Havail)
    as (st' & note & Hrun & Hnote & _ & Hcase).
  rewrite Hfresh in Hcase. destruct Hcase as (_ & Hn & _ & Hnotes).
  destruct (nearest_bin_index _ _ _ Hvi) as (bv & Hbv & Hiv).
  destruct (nearest_bin_index _ _ _ Hdi) as (bd & Hbd & Hid).
  unfold decoded_note in Hnote. rewrite Hiv, Hid in Hnote.
  cbn [mbind result_bind Py.bind] in Hnote. injection Hnote as <-.
  eexists st', _, bd. cbn [note_pitch note_velocity note_start note_end].
  split; [exact Hrun|]. split; [exact Hnotes|]. split; [exact Hn|].
  split; [reflexivity|].
  split; [intros Hr; apply (velocity_bin_close v vi bv Hr Hvi Hbv)|].
  split; [reflexivity|]. split; [reflexivity|].
  split; [intros Hr | intros Hr];
    apply (duration_bin_close d di bd ltac:(lia) Hdi Hbd); exact Hr.
Qed.

(** X6: a tempo written by the encoder and read by the decoder.  The
    Position and Tempo tokens printed for a tempo item make the decoder's
    timeline run at a bin value at most 4 away from the item's tempo (for
    tempi 0..240), from the position printed on when the value is new;
    instruments, time signatures and the bar counter stay as they are. *)
Theorem tempo_round_trip (item : Item) (ev : Event) (t idx : Z)
    (polyphony_limit : Z) (events : list string) (i : nat) (st : DecState) :
  tempo_event item = Ok ev ->
  events !! i = Some (token (position_event t idx)) ->
  events !! S i = Some (token ev) ->
  exists tempo b st',
    pitch item = PitchInt tempo
    /\ run polyphony_limit events i 2 st = Ok (Next st')
    /\ tl_tempo (last_tl_event st') = b
    /\ In b DEFAULT_TEMPO_BINS
    /\ (0 <= tempo <= 240 -> Z.abs (b - tempo) <= 4)
    /\ (b <> tl_tempo (last_tl_event st) ->
        tl_pos (last_tl_event st') = (bar st, idx)
        /\ tl_time (last_tl_event st') = get_time (last_tl_event st) (bar st) idx)
    /\ (b = tl_tempo (last_tl_event st) -> last_tl_event st' = last_tl_event st)
    /\ tl_time_sig (last_tl_event st') = tl_time_sig (last_tl_event st)
    /\ instruments st' = instruments st
    /\ time_signature_changes st' = time_signature_changes st
    /\ bar st' = bar st.
Proof.
  unfold tempo_event. intros Hev Hi HSi.
  destruct (pitch item) as [tempo| |] eqn:Hp; try discriminate.
  apply bind_Ok in Hev as (k & Hk & Hev). injection Hev as <-.
  destruct (nearest_bin_index _ _ _ Hk) as (b & Hb & Hidx).
  unfold position_event in Hi. rewrite token_key_value in Hi, HSi.
  assert (T0 : token_at events i = (key_ POSITION_KEY ++ str_of_Z idx)%string)
    by (unfold token_at; rewrite Hi; reflexivity).
  assert (T1 : token_at events (S i)
               = (key_ TEMPO_KEY ++ str_of_Z (Z.of_nat k))%string)
    by (unfold token_at; rewrite HSi; reflexivity).
  assert (Hlen : (i + 1 < length events)%nat)
    by (apply lookup_lt_Some in HSi; lia).
  assert (Hnum : forall key z,
            py_int (last_field (key_ key ++ str_of_Z z)) = Ok z).
  { intros key z. rewrite key_value_last_field by apply str_of_Z_no_underscore.
    apply py_int_str_of_Z. }
  destruct (normalise_frame st) as ((N1 & N2 & N3 & N4) & Nins & Nn & Nsome & Npc).
  (* the pass over the Position token *)
  assert (Hstep0 : exists st1,
            step F_of_Z Fadd Fmul Fdiv F_nonneg instrument_name_to_program
              polyphony_limit events i st = Ok (Next st1)
            /\ last_tl_event st1
               = (if negb (b =? tl_tempo (last_tl_event st))
                  then mkTlEvent (get_time (last_tl_event st) (bar st) idx)
                         (bar st, idx) (tl_time_sig (last_tl_event st)) b
                  else last_tl_event st)
            /\ instruments st1 = instruments st
            /\ time_signature_changes st1 = time_signature_changes st
            /\ bar st1 = bar st).
  { rewrite step_normalise. unfold is_bar_head, is_tempo_head.
    replace (i + 1)%nat with (S i) in * by lia.
    rewrite T0, T1.
    rewrite (key_not_eos (key_ POSITION_KEY) _ (contains_own_key _ _) eq_refl).
    rewrite (contains_key_app BAR_KEY) by apply str_of_Z_no_underscore.
    change (contains (key_ BAR_KEY) (key_ POSITION_KEY)) with false. cbv iota.
    rewrite !contains_own_key.
    destruct (Nat.ltb_spec (S i) (length events)); [|lia]. cbn [andb].
    unfold Remi2Midi.tempo_branch. rewrite T0, T1, !Hnum.
    cbn [mbind result_bind Py.bind]. rewrite Hidx.
    cbn [mbind result_bind Py.bind]. rewrite N3, N4.
    destruct (negb (b =? tl_tempo (last_tl_event st)));
      cbn [fmap result_fmap]; eexists; (split; [reflexivity|]);
      cbn [last_tl_event instruments time_signature_changes bar]; auto. }
  destruct Hstep0 as (st1 & Hstep0 & Htl1 & Hins1 & Hts1 & Hbar1).
  (* the pass over the Tempo token *)
  assert (Hstep1 :
            step F_of_Z Fadd Fmul Fdiv F_nonneg instrument_name_to_program
              polyphony_limit events (S i) st1 = Ok (Next (normalise st1))).
  { rewrite step_headless.
    - rewrite T1, (key_not_eos (key_ TEMPO_KEY) _ (contains_own_key _ _) eq_refl).
      reflexivity.
    - rewrite T1. unfold headless.
      rewrite !contains_key_app by apply str_of_Z_no_underscore. reflexivity. }
  destruct (normalise_frame st1) as ((M1 & M2 & M3 & M4) & Mins & _).
  exists tempo, b, (normalise st1).
  split; [reflexivity|].
  split.
  { cbn [Remi2Midi.run]. rewrite Hstep0. cbn [mbind result_bind Py.bind].
    rewrite Hstep1. reflexivity. }
  rewrite M3, M2, M4, Mins, Htl1, Hins1, Hts1, Hbar1.
  split; [destruct (Z.eqb_spec b (tl_tempo (last_tl_event st))) as [->|]; reflexivity|].
  split; [apply list_elem_of_In, list_elem_of_lookup; eauto|].
  split; [intros Hr; apply (tempo_bin_close tempo k b Hr Hk Hb)|].
  split.
  { intros Hne. destruct (Z.eqb_spec b (tl_tempo (last_tl_event st))); [contradiction|].
    split; reflexivity. }
  split.
  { intros ->. rewrite Z.eqb_refl. reflexivity. }
  split; [destruct (negb _); reflexivity | auto].
Qed.

End RoundTrip.

Section RoundTripExamples.

Import MusicObj Utils ChordExtraction Midi2Remi Remi2Midi.

Lemma note_round_trip_witness :
  exists st' : DecState (F:=Q),
    run inject_Z Qplus Qmult Qdiv (fun q => Qle_bool 0 q) piano_table 16
      (map token example_drum_events) 0 5 (start_state inject_Z 120)
    = Ok (Next st')
    /\ n_notes st' = 1.
Proof.
  destruct (note_round_trip inject_Z Qplus Qmult Qdiv (fun q => Qle_bool 0 q)
              piano_table piano_only 480 0 0 (example_note 0 480 36 Drum)
              example_drum_events 16 (map token example_drum_events) 0
              (start_state inject_Z 120))
    as (nm & p & v & e & d & Hnm & _ & _ & _ & _ & Hdec).
  - vm_compute. reflexivity.
  - intros prog nm Hins. discriminate Hins.
  - intros k tok H. exact H.
  - simpl in Hnm. subst nm.
    destruct Hdec as (st' & note & dur & Hrun & _ & Hn & _);
      [left; reflexivity | reflexivity |].
    exists st'. split; [exact Hrun | exact Hn].
Defined.

Lemma tempo_round_trip_witness :
  exists st' : DecState (F:=Q),
    run inject_Z Qplus Qmult Qdiv (fun q => Qle_bool 0 q) piano_table 16
      [token (position_event 0 0); token example_tempo_event] 0 2
      (start_state inject_Z 120)
    = Ok (Next st')
    /\ Z.abs (tl_tempo (last_tl_event st') - 118) <= 4.
Proof.
  destruct (tempo_round_trip inject_Z Qplus Qmult Qdiv (fun q => Qle_bool 0 q)
              piano_table (example_tempo 0 118) example_tempo_event 0 0 16
              [token (position_event 0 0); token example_tempo_event] 0
              (start_state inject_Z 120))
    as (tempo & b & st' & Hp & Hrun & Hb & _ & Hclose & _).
  - vm_compute. reflexivity.
  - reflexivity.
  - reflexivity.
  - injection Hp as <-. exists st'. split; [exact Hrun|].
    rewrite Hb. apply Hclose. lia.
Defined.

(** A whole bar through both programs: the encoder's tokens for a bar with a
    tempo and a drum note decode to one drum note of the pitch written. *)
Example bar_through_both :
  (tokens ← get_remi_events piano_only
             (mkRemiPlus two_bar_midi [] [] []
                [mkGroup 0 [example_tempo 0 120; example_note 0 480 36 Drum] 1920]);
   midi ← decode_exact tokens 16;
   Ok (tokens, map (fun i => map note_pitch (notes i)) (midi_instruments midi)))
  = Ok (["Bar_1"; "Time Signature_4/4"; "Position_0"; "Tempo_16";
         "Position_0"; "Instrument_drum"; "Pitch_drum_36"; "Velocity_16";
         "Duration_11"]%string, [[36]]).
Proof. vm_compute. reflexivity. Qed.

End RoundTripExamples.

(** ** [chord_recognition.py]: the rest of the pipeline *)

Section ChordsMore.

Import ChordRecognition.

(** *** [dedupe] keeps a tiling *)

Lemma merge_runs_chain (hi : Z) (rest : list Segment) :
  forall start end_ chord,
    start < end_ -> chain end_ hi rest ->
    chain start hi (merge_runs start end_ chord rest).
Proof.
  induction rest as [|[[s e] l] rest IH]; intros start end_ chord Hlt Hc.
  - simpl in *. unfold seg_start, seg_end. simpl. auto.
  - simpl in Hc. unfold seg_start, seg_end in Hc. simpl in Hc.
    destruct Hc as (-> & Hse & Hc). cbn [merge_runs].
    destruct (String.eqb chord l).
    + apply IH; [lia | exact Hc].
    + cbn [chain]. unfold seg_start, seg_end. simpl.
      split; [reflexivity|]. split; [exact Hlt|]. apply IH; assumption.
Qed.

Lemma merge_runs_labels (rest : list Segment) :
  forall start end_ chord seg,
    In seg (merge_runs start end_ chord rest) ->
    seg.2 = chord \/ exists seg', In seg' rest /\ seg'.2 = seg.2.
Proof.
  induction rest as [|[[s e] l] rest IH]; intros start end_ chord seg; cbn [merge_runs].
  - intros [<-|[]]. left. reflexivity.
  - destruct (String.eqb chord l).
    + intros H. destruct (IH _ _ _ _ H) as [Hl|(seg' & Hin & Hl)]; [auto|].
      right. exists seg'. split; [right; exact Hin | exact Hl].
    + intros [<-|H]; [left; reflexivity|].
      destruct (IH _ _ _ _ H) as [Hl|(seg' & Hin & Hl)].
      * right. exists (s, e, l). split; [left; reflexivity | symmetry; exact Hl].
      * right. exists seg'. split; [right; exact Hin | exact Hl].
Qed.

Lemma distinct_neighbours_change (chord : string) (tl : list Segment) (s e : Z) :
  distinct_neighbours chord tl -> labels_change ((s, e, chord) :: tl).
Proof.
  revert s e chord. induction tl as [|[[s' e'] l'] tl IH]; intros s e chord Hd k a b Ha Hb.
  - destruct k; discriminate Hb.
  - destruct Hd as [Hne Hd]. destruct k as [|k].
    + injection Ha as <-. injection Hb as <-. exact Hne.
    + apply (IH s' e' l' Hd k a b Ha Hb).
Qed.

Lemma dedupe_chain (lo hi : Z) (segs : list Segment) :
  chain lo hi segs ->
  chain lo hi (dedupe segs)
  /\ labels_change (dedupe segs)
  /\ forall seg, In seg (dedupe segs) -> exists seg', In seg' segs /\ seg'.2 = seg.2.
Proof.
  destruct segs as [|[[start end_] chord] rest]; intros Hc.
  - split; [exact Hc|]. split; [intros k a b Ha; discriminate Ha | intros seg []].
  - rewrite dedupe_merge_runs. simpl in Hc. unfold seg_start, seg_end in Hc.
    simpl in Hc. destruct Hc as (<- & Hlt & Hc).
    split; [apply merge_runs_chain; assumption|]. split.
    + destruct (merge_runs_head start end_ chord rest) as (e' & tl & -> & Hd).
      apply distinct_neighbours_change, Hd.
    + intros seg Hin. apply merge_runs_labels in Hin as [Hl|(seg' & Hin & Hl)].
      * exists (start, end_, chord). split; [left; reflexivity | symmetry; exact Hl].
      * exists seg'. split; [right; exact Hin | exact Hl].
Qed.

(** X7: [dedupe] keeps a tiling a tiling: on segments that follow one
    another from [lo] to [hi] the result follows one another's ends from
    [lo] to [hi] too, no two neighbours of the result carry the same label,
    and every label of the result is a label of the input. *)
Theorem dedupe_keeps_tiling (lo hi : Z) (segs : list Segment) :
  chain lo hi segs ->
  chain lo hi (dedupe segs)
  /\ labels_change (dedupe segs)
  /\ forall seg, In seg (dedupe segs) -> exists seg', In seg' segs /\ seg'.2 = seg.2.
Proof. apply dedupe_chain. Qed.

(** *** [find_chord] *)

Lemma index_In {A} (l : list A) (i : Z) (x : A) : index l i = Ok x -> In x l.
Proof.
  unfold index. destruct (norm_index (length l) i) as [n|]; [|discriminate].
  destruct (l !! n) as [y|] eqn:Hy; [|discriminate]. intros [= <-].
  apply list_elem_of_In, list_elem_of_lookup. eauto.
Qed.

(** Whatever [find_chord] returns is silence or a chord of the tables. *)
Lemma find_chord_shape (chroma : list (list Z)) (threshold : Z) (c : Cand) :
  find_chord chroma threshold = Ok c -> candidate_ok c.
Proof.
  unfold find_chord.
  destruct (fold_left Z.add (binarize chroma threshold) 0 =? 0).
  - intros [= <-]. left. auto.
  - intros H.
    apply bind_Ok in H as ([scores qualities] & _ & H).
    apply bind_Ok in H as (bass & _ & H).
    apply bind_Ok in H as (mx & _ & H).
    apply bind_Ok in H as (root & _ & H).
    apply bind_Ok in H as (quality & _ & H).
    apply bind_Ok in H as (score & _ & H).
    apply bind_Ok in H as (root_name & Hr & H).
    apply bind_Ok in H as (bass_name & Hb & H).
    injection H as <-. right.
    split; [eapply index_In, Hr|]. split; [eapply index_In, Hb|]. eauto.
Qed.

Lemma silent_sum (b : list Z) :
  binary b -> active_roots b = [] -> forall acc, fold_left Z.add b acc = acc.
Proof.
  induction b as [|x b IH]; intros Hb Hnil acc; [reflexivity|].
  apply Forall_cons in Hb as [Hx Hb]. rewrite active_roots_cons in Hnil.
  destruct Hx as [-> | ->]; simpl in Hnil; [|discriminate].
  simpl. rewrite Z.add_0_r. apply IH; [exact Hb|].
  destruct (active_roots b); [reflexivity | discriminate].
Qed.

(** On a window of at most twelve rows [find_chord] raises nothing. *)
Lemma find_chord_total (chroma : list (list Z)) (threshold : Z) :
  (length chroma <= 12)%nat ->
  exists c, find_chord chroma threshold = Ok c.
Proof.
  intros Hlen.
  set (b := binarize chroma threshold).
  assert (Hb : binary b) by apply binarize_binary.
  assert (Hblen : (length b <= 12)%nat)
    by (unfold b; rewrite binarize_length; exact Hlen).
  unfold find_chord. fold b.
  destruct (fold_left Z.add b 0 =? 0) eqn:Hz; [eauto|].
  set (A := active_roots b).
  assert (HA12 : forall i, In i A -> (i < 12)%nat).
  { intros i Hi. apply (active_roots_In b i Hb), lookup_lt_Some in Hi. lia. }
  assert (HAne : exists bass A', A = bass :: A').
  { destruct A as [|x l] eqn:EA; [|eauto]. exfalso.
    rewrite (silent_sum b Hb EA 0) in Hz. discriminate. }
  destruct HAne as (bass & A' & EA).
  rewrite scoring_sequencing. cbn [mbind result_bind Py.bind].
  rewrite (active_notes_roots b 0 Hb). fold A.
  assert (Hnotes : map (fun i => (0 + Z.of_nat i) mod 12) A = map Z.of_nat A).
  { apply List.map_ext_in. intros i Hi. apply HA12 in Hi.
    rewrite Z.add_0_l, Z.mod_small; lia. }
  rewrite Hnotes.
  replace (index (map Z.of_nat A) 0) with (Ok (A:=Z) (Z.of_nat bass))
    by (rewrite EA; reflexivity).
  cbn [mbind result_bind Py.bind].
  rewrite map_map. cbn [snd].
  change (map (fun x : nat => entry_score (intervals b (Z.of_nat x))) A)
    with (map (root_score b) A).
  assert (Hmax : exists m, max_list (map (root_score b) A) = Ok m
                    /\ In m (map (root_score b) A)
                    /\ forall y, In y (map (root_score b) A) -> y <= m).
  { rewrite EA. apply max_list_spec. }
  destruct Hmax as (m & Hm & Hmin & Hmmax).
  rewrite Hm. cbn [mbind result_bind Py.bind].
  change (map (fun i : nat => (Z.of_nat i, entry_score (intervals b (Z.of_nat i)))) A)
    with (map (fun i : nat => (Z.of_nat i, root_score b i)) A).
  change (map (fun i : nat => (Z.of_nat i, entry_quality (intervals b (Z.of_nat i)))) A)
    with (map (fun i : nat => (Z.of_nat i, root_quality b i)) A).
  rewrite (filter_map_comm (fun '(_, score) => score =? m)
             (fun i => (Z.of_nat i, root_score b i)) A).
  cbv beta iota. set (R := List.filter (fun i => root_score b i =? m) A).
  rewrite map_map. cbn [fst].
  change (map (fun x : nat => Z.of_nat x) R) with (map Z.of_nat R).
  assert (HR : exists root R', R = root :: R').
  { apply List.in_map_iff in Hmin as (i & Hi & HiA).
    assert (HiR : In i R).
    { unfold R. apply List.filter_In. split; [exact HiA | apply Z.eqb_eq, Hi]. }
    destruct R as [|x l]; [destruct HiR | eauto]. }
  destruct HR as (root & R' & ER).
  assert (HrootR : In root R) by (rewrite ER; left; reflexivity).
  apply List.filter_In in HrootR as [HrootA Hrootm]. apply Z.eqb_eq in Hrootm.
  assert (Hroot :
    (if (length (map Z.of_nat R) =? 1)%nat then index (map Z.of_nat R) 0
     else of_option UnboundLocalError
            (find (fun n => mem n (map Z.of_nat R)) (map Z.of_nat A)))
    = Ok (Z.of_nat root)).
  { destruct (length (map Z.of_nat R) =? 1)%nat.
    - rewrite ER. reflexivity.
    - rewrite find_head_filter, filter_map_comm.
      rewrite (filter_agree _ (fun i => root_score b i =? m)).
      + fold R. rewrite ER. reflexivity.
      + intros x Hx.
        destruct (root_score b x =? m) eqn:Hxm.
        * apply mem_In, in_map. unfold R. apply List.filter_In. auto.
        * destruct (mem (Z.of_nat x) (map Z.of_nat R)) eqn:Hmem; [|reflexivity].
          apply mem_In, List.in_map_iff in Hmem as (y & Hy & HyR).
          apply Nat2Z.inj in Hy. subst y.
          unfold R in HyR. apply List.filter_In in HyR as [_ HyR]. congruence. }
  rewrite Hroot. cbn [mbind result_bind Py.bind].
  pose proof (active_roots_NoDup b) as Hnd. fold A in Hnd.
  rewrite (dict_get_map_keys Z.of_nat (root_quality b) A root Hnd HrootA).
  rewrite (dict_get_map_keys Z.of_nat (root_score b) A root Hnd HrootA).
  cbn [of_option mbind result_bind Py.bind].
  destruct (lookup_lt_is_Some_2 PITCH_CLASSES root) as [root_name Hrn].
  { simpl. apply HA12. exact HrootA. }
  destruct (lookup_lt_is_Some_2 PITCH_CLASSES bass) as [bass_name Hbn].
  { simpl. apply HA12. rewrite EA. left. reflexivity. }
  rewrite (index_in_range _ _ _ Hrn), (index_in_range _ _ _ Hbn).
  cbn [mbind result_bind Py.bind]. eauto.
Qed.

(** X8: on a window of at most twelve rows [find_chord] raises nothing and
    returns either silence, [('N', 'N', 'N', 10)], or a root and a bass of
    [PITCH_CLASSES] with the name of one of the eight qualities; whatever
    it returns on any window has that shape. *)
Theorem find_chord_returns (chroma : list (list Z)) (threshold : Z) :
  ((length chroma <= 12)%nat ->
   exists c, find_chord chroma threshold = Ok c /\ candidate_ok c)
  /\ (forall c, find_chord chroma threshold = Ok c -> candidate_ok c).
Proof.
  split.
  - intros Hlen. destruct (find_chord_total chroma threshold Hlen) as (c & Hc).
    exists c. split; [exact Hc | eapply find_chord_shape, Hc].
  - apply find_chord_shape.
Qed.

(** With a thirteenth row the root can fall outside [PITCH_CLASSES]. *)
Example find_chord_thirteen_rows :
  find_chord thirteen_rows 10 = Raise IndexError.
Proof. vm_compute. reflexivity. Qed.

(** *** [get_candidates] *)

Lemma foldM_preserve {A B} (P : B -> Prop) (f : B -> A -> result B) (l : list A) :
  (forall b x, In x l -> P b -> exists b', f b x = Ok b' /\ P b') ->
  forall b, P b -> exists b', foldM f l b = Ok b' /\ P b'.
Proof.
  induction l as [|x l IH]; intros Hstep b Hb; simpl; [eauto|].
  destruct (Hstep b x (or_introl eq_refl) Hb) as (b1 & -> & Hb1).
  cbn [mbind result_bind Py.bind].
  apply IH; [|exact Hb1]. intros b' y Hy. apply Hstep. right. exact Hy.
Qed.

Lemma foldM_keeps {A B} (P : B -> Prop) (f : B -> A -> result B) (l : list A) :
  (forall b x b', P b -> f b x = Ok b' -> P b') ->
  forall b b', P b -> foldM f l b = Ok b' -> P b'.
Proof.
  intros Hstep. induction l as [|x l IH]; intros b b' Hb; simpl.
  - intros [= <-]. exact Hb.
  - intros H. apply bind_Ok in H as (b1 & H1 & H). eapply IH; [|exact H].
    eapply Hstep; eauto.
Qed.

Lemma zdict_set_Forall {V} (Q : V -> Prop) (d : dict Z V) (k : Z) (v : V) :
  Forall (fun kv => Q kv.2) d -> Q v ->
  Forall (fun kv => Q kv.2) (dict_set Z.eqb d k v).
Proof.
  intros Hd Hv. induction Hd as [|[k0 v0] d H0 Hd IH]; simpl.
  - repeat constructor. exact Hv.
  - destruct (k =? k0); constructor; auto.
Qed.

Lemma zdict_get_Forall {V} (Q : V -> Prop) (d : dict Z V) (k : Z) (v : V) :
  Forall (fun kv => Q kv.2) d -> dict_get Z.eqb d k = Some v -> Q v.
Proof.
  induction 1 as [|[k0 v0] d H0 Hd IH]; simpl; [discriminate|].
  destruct (k =? k0); [intros [= <-]; exact H0 | exact IH].
Qed.

Lemma slice_columns_length (chroma : list (list Z)) (a b : Z) :
  length (slice_columns chroma a b) = length chroma.
Proof. unfold slice_columns. apply length_map. Qed.

Lemma get_candidates_step_ok (chroma : list (list Z)) (max_tick interval : Z)
    (table table' : dict Z (dict Z Cand)) (start_beat : Z) :
  table_ok table ->
  (let end_beat := Z.min (start_beat + interval) max_tick in
   let _chroma := slice_columns chroma start_beat end_beat in
   cand ← find_chord _chroma 10;
   let inner := default [] (dict_get Z.eqb table start_beat) in
   Ok (dict_set Z.eqb table start_beat (dict_set Z.eqb inner end_beat cand)))
  = Ok table' ->
  table_ok table'.
Proof.
  intros Hok H. cbv zeta in H. apply bind_Ok in H as (cand & Hcand & H).
  injection H as <-. apply find_chord_shape in Hcand.
  apply (zdict_set_Forall (fun inner => Forall (fun ec => candidate_ok ec.2) inner));
    [exact Hok|].
  apply (zdict_set_Forall candidate_ok); [|exact Hcand].
  destruct (dict_get Z.eqb table start_beat) as [inner|] eqn:Hget; [|constructor].
  simpl. apply (zdict_get_Forall
                  (fun inner => Forall (fun ec => candidate_ok ec.2) inner)
                  table start_beat inner Hok Hget).
Qed.

(** Every candidate of the table of [get_candidates] came out of
    [find_chord]. *)
Lemma get_candidates_ok (chroma : list (list Z)) (max_tick : Z) (intervals : list Z)
    (table : dict Z (dict Z Cand)) :
  get_candidates chroma max_tick intervals = Ok table -> table_ok table.
Proof.
  unfold get_candidates. apply (foldM_keeps table_ok); [|constructor].
  intros t interval t' Ht. apply (foldM_keeps table_ok); [|exact Ht].
  intros t1 start_beat t2 Ht1. apply get_candidates_step_ok, Ht1.
Qed.

(** With at most twelve rows of chroma [get_candidates] raises nothing. *)
Lemma get_candidates_total (chroma : list (list Z)) (max_tick : Z)
    (intervals : list Z) :
  (length chroma <= 12)%nat ->
  exists table, get_candidates chroma max_tick intervals = Ok table.
Proof.
  intros Hlen. unfold get_candidates.
  destruct (foldM_preserve (fun _ => True)
              (fun candidates interval =>
                 foldM
                   (fun candidates start_beat =>
                      let end_beat := Z.min (start_beat + interval) max_tick in
                      let _chroma := slice_columns chroma start_beat end_beat in
                      cand ← find_chord _chroma 10;
                      let inner := default [] (dict_get Z.eqb candidates start_beat) in
                      Ok (dict_set Z.eqb candidates start_beat
                            (dict_set Z.eqb inner end_beat cand)))
                   (range max_tick) candidates)
              intervals) with (b := ([] : dict Z (dict Z Cand)))
    as (table & Htable & _); [|exact I|eauto].
  intros t interval _ _.
  destruct (foldM_preserve (fun _ => True)
              (fun candidates start_beat =>
                 let end_beat := Z.min (start_beat + interval) max_tick in
                 let _chroma := slice_columns chroma start_beat end_beat in
                 cand ← find_chord _chroma 10;
                 let inner := default [] (dict_get Z.eqb candidates start_beat) in
                 Ok (dict_set Z.eqb candidates start_beat
                       (dict_set Z.eqb inner end_beat cand)))
              (range max_tick)) with (b := t) as (t' & Ht' & _); [|exact I|eauto].
  intros t1 start_beat _ _. cbv zeta.
  destruct (find_chord_total
              (slice_columns chroma start_beat
                 (Z.min (start_beat + interval) max_tick)) 10) as (c & ->).
  { rewrite slice_columns_length. exact Hlen. }
  cbn [mbind result_bind Py.bind]. eauto.
Qed.

(** *** The labels [dynamic] prints *)

Lemma set_index_Forall {A} (P : A -> Prop) (l l' : list A) (i : Z) (x : A) :
  Forall P l -> P x -> set_index l i x = Ok l' -> Forall P l'.
Proof.
  unfold set_index. intros Hl Hx.
  destruct (norm_index (length l) i); [|discriminate].
  intros [= <-]. apply Forall_insert; assumption.
Qed.

Lemma relax_labels (start_tick : Z) (st st' : DpState) (item : Z * Cand) :
  candidate_ok item.2 -> chords_ok st.1 ->
  relax start_tick st item = Ok st' -> chords_ok st'.1.
Proof.
  destruct st as [chords scores], item as [end_tick [[[root quality] bass] score]].
  cbn [relax fst snd]. intros Hc Hok H.
  apply bind_Ok in H as (s_end & _ & H). apply bind_Ok in H as (s_start & _ & H).
  destruct (float_ltb _ _); [|injection H as <-; exact Hok].
  apply bind_Ok in H as (scores' & _ & H). apply bind_Ok in H as (chords' & Hset & H).
  injection H as <-. cbn [fst].
  eapply (set_index_Forall _ _ _ _ _ Hok); [|exact Hset].
  cbn [snd]. exists (root, quality, bass, score). split; [exact Hc | reflexivity].
Qed.

Lemma forward_labels (candidates : dict Z (dict Z Cand)) (max_tick : Z)
    (st st' : DpState) :
  table_ok candidates -> chords_ok st.1 ->
  forward candidates max_tick st = Ok st' -> chords_ok st'.1.
Proof.
  intros Htable. unfold forward.
  apply (foldM_keeps (fun st => chords_ok st.1)).
  intros st1 start_tick st2 Hst1.
  destruct (dict_get Z.eqb candidates start_tick) as [inner|] eqn:Hget;
    [|intros [= <-]; exact Hst1].
  pose proof (zdict_get_Forall
                (fun inner => Forall (fun ec => candidate_ok ec.2) inner)
                candidates start_tick inner Htable Hget) as Hinner.
  simpl in Hinner. clear Hget. revert st1 st2 Hst1.
  induction Hinner as [|item inner Hitem Hinner IH]; intros st1 st2 Hst1; simpl.
  - intros [= <-]. exact Hst1.
  - intros H. apply bind_Ok in H as (st3 & H3 & H).
    eapply IH; [|exact H]. eapply relax_labels; eauto.
Qed.

Lemma read_path_labels (chords : list (option Segment)) (fuel : nat) :
  chords_ok chords ->
  forall t results out,
    Forall (fun seg : Segment => label_ok seg.2) results ->
    read_path fuel chords t results = Some (Ok out) ->
    Forall (fun seg : Segment => label_ok seg.2) out.
Proof.
  intros Hok. induction fuel as [|fuel IH]; intros t results out Hres; simpl.
  - destruct (0 <? t); [discriminate | intros [= <-]; exact Hres].
  - destruct (0 <? t); [|intros [= <-]; exact Hres].
    destruct (index chords t) as [[chord|]|e] eqn:Hidx; try discriminate.
    apply IH. apply Forall_app. split; [exact Hres|].
    repeat constructor. apply index_In in Hidx.
    apply (proj1 (List.Forall_forall _ _) Hok) in Hidx. exact Hidx.
Qed.

(** Every label [dynamic] returns is the label of a candidate of the
    table. *)
Lemma dynamic_labels (fuel : nat) (candidates : dict Z (dict Z Cand))
    (max_tick : Z) (segs : list Segment) :
  table_ok candidates ->
  dynamic fuel candidates max_tick = Some (Ok segs) ->
  Forall (fun seg : Segment => label_ok seg.2) segs.
Proof.
  intros Htable H. unfold dynamic in H.
  destruct (init_state max_tick) as [st0|e] eqn:Hinit; [|discriminate H].
  cbn [mbind result_bind Py.bind] in H.
  destruct (forward candidates max_tick st0) as [[chords scores]|e] eqn:Hfwd;
    [|discriminate H].
  assert (H0 : chords_ok st0.1).
  { unfold init_state in Hinit. destruct (_ <? 0); [discriminate|].
    injection Hinit as <-. cbn [fst]. unfold chords_ok.
    apply Forall_replicate. exact I. }
  pose proof (forward_labels _ _ _ _ Htable H0 Hfwd) as Hok. cbn [fst] in Hok.
  destruct (read_path fuel chords (Z.of_nat (length chords) - 1) [])
    as [[results|e]|] eqn:Hread; try discriminate H.
  injection H as <-. apply Forall_reverse.
  eapply read_path_labels; [exact Hok | constructor | exact Hread].
Qed.

End ChordsMore.

(** ** [extract] and [extract_chords] *)

Section ExtractMore.

Import ChordRecognition MusicObj Utils ChordExtraction.

Context {T : Type}.
Variable midi : PrettyMIDI T.

(** The loop of [extract] that turns beat indices into times. *)
Lemma map_chords (segs : list Segment) :
  forall lo acc,
    0 <= lo -> chain lo (Z.of_nat (length (get_beats midi))) segs ->
    exists mapped,
      foldM
        (fun mapped_chords '(c_start, c_end, label) =>
           start_time ← index (get_beats midi) c_start;
           end_time ←
             (if Z.of_nat (length (get_beats midi)) <=? c_end
              then Ok (get_end_time midi)
              else index (get_beats midi) c_end);
           Ok (mapped_chords ++ [(start_time, end_time, label)]))
        segs acc = Ok (acc ++ mapped)
      /\ Forall2 (mapped_from midi) segs mapped.
Proof.
  induction segs as [|[[cs ce] l] segs IH]; intros lo acc Hlo Hc.
  - exists []. rewrite app_nil_r. split; [reflexivity | constructor].
  - simpl in Hc. unfold seg_start, seg_end in Hc. simpl in Hc.
    destruct Hc as (-> & Hlt & Hc). pose proof (chain_le _ _ _ Hc) as Hce.
    destruct (lookup_lt_is_Some_2 (get_beats midi) (Z.to_nat lo)) as [t0 Ht0]; [lia|].
    assert (Hend : exists t1,
              (if Z.of_nat (length (get_beats midi)) <=? ce
               then Ok (get_end_time midi) else index (get_beats midi) ce) = Ok t1
              /\ (if Z.of_nat (length (get_beats midi)) <=? ce
                  then Some (get_end_time midi)
                  else get_beats midi !! Z.to_nat ce) = Some t1).
    { destruct (Z.leb_spec (Z.of_nat (length (get_beats midi))) ce); [eauto|].
      destruct (lookup_lt_is_Some_2 (get_beats midi) (Z.to_nat ce)) as [t1 Ht1];
        [lia|].
      exists t1. split; [apply index_lookup; [lia | exact Ht1] | exact Ht1]. }
    destruct Hend as (t1 & Hend & Hend').
    cbn [foldM]. rewrite (index_lookup _ _ _ Hlo Ht0).
    cbn [mbind result_bind Py.bind]. rewrite Hend.
    cbn [mbind result_bind Py.bind].
    destruct (IH ce (acc ++ [(t0, t1, l)]) ltac:(lia) Hc) as (mapped & Hm & Hf).
    exists ((t0, t1, l) :: mapped). split.
    + rewrite Hm, <- app_assoc. reflexivity.
    + constructor; [|exact Hf]. unfold mapped_from, seg_start, seg_end. simpl. auto.
Qed.

(** The run of [extract] on a chroma of at most twelve rows. *)
Lemma extract_run :
  (length (get_chroma midi) <= 12)%nat ->
  exists segs mapped,
    extract midi = Some (Ok mapped)
    /\ chain 0 (Z.of_nat (length (get_beats midi))) segs
    /\ labels_change segs
    /\ Forall (fun seg : Segment => label_ok seg.2) segs
    /\ Forall2 (mapped_from midi) segs mapped.
Proof.
  intros Hrows. unfold extract.
  set (n := Z.of_nat (length (get_beats midi))).
  destruct (get_candidates_total (get_chroma midi) n default_intervals Hrows)
    as (table & Htable).
  rewrite Htable.
  pose proof (get_candidates_ok _ _ _ _ Htable) as Hok.
  apply get_candidates_windows in Htable as [Hunit Hfwd].
  destruct (dynamic_chain table n (length (get_beats midi)) ltac:(lia) Hunit Hfwd
              ltac:(lia)) as (selected & Hdyn & Hchain).
  rewrite Hdyn.
  pose proof (dynamic_labels _ _ _ _ Hok Hdyn) as Hlabels.
  destruct (dedupe_chain 0 n selected Hchain) as (Hdc & Hchg & Hsub).
  destruct (map_chords (dedupe selected) 0 [] ltac:(lia) Hdc) as (mapped & Hm & Hf).
  exists (dedupe selected), mapped.
  split; [f_equal; exact Hm|]. split; [exact Hdc|]. split; [exact Hchg|].
  split; [|exact Hf].
  apply List.Forall_forall. intros seg Hseg.
  destruct (Hsub seg Hseg) as (seg' & Hin & <-).
  apply (proj1 (List.Forall_forall _ _) Hlabels), Hin.
Qed.

(** X9: [extract] on a piece whose chroma has at most twelve rows raises
    nothing.  Its chords are a tiling of the beat range [0, len(beats))
    turned into times: each starts at the time of its start beat and ends at
    the time of its end beat, the last at the end of the piece; the first
    segment starts at beat 0, each next one where the one before ends, and
    neighbours carry different labels, each the label of a candidate of
    [find_chord]. *)
Theorem extract_tiles :
  (length (get_chroma midi) <= 12)%nat ->
  exists segs mapped,
    extract midi = Some (Ok mapped)
    /\ chain 0 (Z.of_nat (length (get_beats midi))) segs
    /\ labels_change segs
    /\ Forall (fun seg : Segment => label_ok seg.2) segs
    /\ Forall2 (mapped_from midi) segs mapped.
Proof. apply extract_run. Qed.

(** The part of a label before the bass. *)
Lemma label_head (l : string) :
  label_ok l ->
  exists nm, index (split "/" l) 0 = Ok nm /\ chord_name nm.
Proof.
  intros ([[[root quality] bass] score] & Hc & ->). cbn [label_of].
  destruct Hc as [(-> & -> & -> & _)|(Hr & Hb & q & ->)].
  - exists "N:N"%string. split; [reflexivity | left; reflexivity].
  - exists (root ++ ":" ++ quality_str q)%string. split; [|right; eauto].
    cbn [PITCH_CLASSES In] in Hr, Hb.
    repeat (destruct Hr as [<-|Hr]; [destruct q;
      repeat (destruct Hb as [<-|Hb]; [vm_compute; reflexivity|]); destruct Hb|]).
    destruct Hr.
Qed.

(** X10: [extract_chords] on a piece whose chroma has at most twelve rows
    raises nothing and returns Chord items only, each labelled ['N:N'] or
    [root:quality] with a root of [PITCH_CLASSES] and one of the eight
    qualities, the bass being cut off; when the piece is at least a quarter
    note long the list is not empty and its first chord starts at tick 0 or
    before. *)
Theorem extract_chords_items :
  (length (get_chroma midi) <= 12)%nat ->
  exists items,
    extract_chords midi = Some (Ok items)
    /\ Forall chord_item_ok items
    /\ (resolution midi <= get_end_tick midi ->
        exists first, head items = Some first /\ start first <= 0).
Proof.
  intros Hrows. unfold extract_chords.
  destruct (Z.ltb_spec (get_end_tick midi) (resolution midi)) as [Hshort|Hlong].
  { exists []. split; [reflexivity|]. split; [constructor | lia]. }
  destruct (extract_run Hrows) as (segs & mapped & -> & _ & _ & Hlabels & Hmap).
  assert (Hmapped : Forall (fun m : T * T * string => label_ok m.2) mapped).
  { clear -Hlabels Hmap. induction Hmap as [|seg m segs mapped Hm Hmap IH];
      [constructor|].
    apply Forall_cons in Hlabels as [Hl Hlabels].
    constructor; [|apply IH, Hlabels]. destruct Hm as (_ & _ & ->). exact Hl. }
  assert (Ok_item : forall s e, chord_item_ok (chord_item s e "N:N")).
  { intros s e. unfold chord_item_ok, chord_item. simpl.
    repeat split. exists "N:N"%string. split; [reflexivity | left; reflexivity]. }
  assert (Hloop : forall acc, Forall chord_item_ok acc ->
            exists out,
              foldM
                (fun output '(t0, t1, label) =>
                   head_ ← index (split "/" label) 0;
                   Ok (output ++ [chord_item (time_to_tick midi t0)
                                    (time_to_tick midi t1) head_]))
                mapped acc = Ok out
              /\ Forall chord_item_ok out).
  { clear -Hmapped. induction Hmapped as [|[[t0 t1] l] mapped Hl Hmapped IH];
      intros acc Hacc; [exists acc; split; [reflexivity | exact Hacc]|].
    cbn [foldM]. destruct (label_head l Hl) as (nm & -> & Hnm).
    cbn [mbind result_bind Py.bind]. apply IH.
    apply Forall_app. split; [exact Hacc|]. repeat constructor.
    exists nm. split; [reflexivity | exact Hnm]. }
  destruct (Hloop [] ltac:(constructor)) as (out & -> & Hout).
  cbn [mbind result_bind Py.bind].
  destruct out as [|first out].
  - eexists. split; [reflexivity|]. split; [repeat constructor; apply Ok_item|].
    intros _. eexists. split; [reflexivity|]. simpl. lia.
  - destruct (Z.ltb_spec 0 (start first)).
    + eexists. split; [reflexivity|]. split; [constructor; [apply Ok_item | exact Hout]|].
      intros _. eexists. split; [reflexivity|]. simpl. lia.
    + eexists. split; [reflexivity|]. split; [exact Hout|].
      intros _. exists first. split; [reflexivity | lia].
Qed.

End ExtractMore.

Section ChordExamples.

Import ChordRecognition MusicObj Utils ChordExtraction.

Lemma dedupe_keeps_tiling_witness :
  chain 0 3 (dedupe three_segments) /\ labels_change (dedupe three_segments).
Proof.
  destruct (dedupe_keeps_tiling 0 3 three_segments) as (H1 & H2 & _).
  - unfold three_segments, chain, seg_start, seg_end. simpl. lia.
  - split; assumption.
Defined.

Lemma find_chord_returns_witness :
  exists c, find_chord c_major_window 10 = Ok c /\ candidate_ok c.
Proof.
  apply (proj1 (find_chord_returns c_major_window 10)). simpl. lia.
Defined.

Lemma extract_tiles_witness :
  exists segs mapped,
    extract c_major_midi = Some (Ok mapped)
    /\ chain 0 2 segs /\ Forall2 (mapped_from c_major_midi) segs mapped.
Proof.
  destruct (extract_tiles c_major_midi) as (segs & mapped & H1 & H2 & _ & _ & H3).
  - simpl. lia.
  - exists segs, mapped. auto.
Defined.

Lemma extract_chords_items_witness :
  exists items,
    extract_chords c_major_midi = Some (Ok items) /\ Forall chord_item_ok items.
Proof.
  destruct (extract_chords_items c_major_midi) as (items & H1 & H2 & _).
  - simpl. lia.
  - exists items. auto.
Defined.

(** The same piece by evaluation: one chord from tick 0 to the end. *)
Example c_major_chords :
  extract_chords c_major_midi = Some (Ok [chord_item 0 960 "C:maj"]).
Proof. vm_compute. reflexivity. Qed.

End ChordExamples.

(** ** [dynamic] returns a best segmentation *)

Section DynamicOptimal.

Import ChordRecognition.

Variable table : dict Z (dict Z Cand).















End DynamicOptimal.

Section DynamicOptimalExamples.

Import ChordRecognition.


(** On the table of two beats the two one-beat chords, of score 20 together,
    are preferred to the two-beat chord of score 8. *)
Example two_beats_best :
  dynamic 2 two_beat_table 2 = Some (Ok [(0, 1, "C:maj"); (1, 2, "D:min")]%string).
Proof. vm_compute. reflexivity. Qed.

End DynamicOptimalExamples.

(** ** Time signatures and bars *)

Section BarsMore.

Import MusicObj Utils.

Context {T : Type}.
Variable midi : PrettyMIDI T.

Lemma index_last {A} (l : list A) (x : A) : index (l ++ [x]) (-1) = Ok x.
Proof.
  unfold index, norm_index. rewrite length_app. cbn [length].
  change (0 <=? -1) with false. change (-1 <? 0) with true. cbn [andb].
  destruct (Z.leb_spec (- Z.of_nat (length l + 1)) (-1)) as [_|H]; [|lia].
  cbn [andb].
  replace (Z.to_nat (Z.of_nat (length l + 1) + -1)) with (length l) by lia.
  rewrite lookup_app_r by lia. rewrite Nat.sub_diag. reflexivity.
Qed.

Lemma index_nil {A} (i : Z) : index (@nil A) i = Raise IndexError.
Proof. unfold index. destruct (norm_index _ _); reflexivity. Qed.

(** The scan of [get_time_signature] over neighbouring pairs. *)
Lemma find_sig_pair (start : Z) (sigs : list (TimeSignature T)) :
  match
    find (fun '(curr_sig, next_sig) =>
            (sig_tick midi curr_sig <=? start)
            && (start <? sig_tick midi next_sig))
         (combine (removelast sigs) (tail sigs))
  with
  | Some (c, n) =>
      exists pre post,
        sigs = pre ++ c :: n :: post
        /\ sig_tick midi c <= start < sig_tick midi n
  | None =>
      forall a, head sigs = Some a -> sig_tick midi a <= start ->
                Forall (fun s => sig_tick midi s <= start) sigs
  end.
Proof.
  induction sigs as [|a sigs IH]; [intros a [=]|].
  destruct sigs as [|b sigs].
  - cbn. intros a' [= <-] Ha. repeat constructor. exact Ha.
  - change (combine (removelast (a :: b :: sigs)) (tail (a :: b :: sigs)))
      with ((a, b) :: combine (removelast (b :: sigs)) (tail (b :: sigs))).
    cbn [find].
    destruct (Z.leb_spec (sig_tick midi a) start) as [Ha|Ha]; cbn [andb].
    + destruct (Z.ltb_spec start (sig_tick midi b)) as [Hb|Hb].
      * exists [], sigs. split; [reflexivity | lia].
      * destruct (find _ _) as [[c n]|].
        -- destruct IH as (pre & post & -> & Hcn).
           exists (a :: pre), post. split; [reflexivity | exact Hcn].
        -- intros a' [= <-] _. constructor; [exact Ha|].
           apply (IH b); [reflexivity | exact Hb].
    + destruct (find _ _) as [[c n]|].
      * destruct IH as (pre & post & -> & Hcn).
        exists (a :: pre), post. split; [reflexivity | exact Hcn].
      * intros a' [= <-] Ha'. lia.
Qed.

(** X12: the time signature [get_time_signature] gives for a tick.  With no
    time signature at all it raises IndexError.  Otherwise, the changes being
    listed in the order of their ticks, it returns the last change at or
    before the tick; for a tick before the first change it returns the LAST
    change of the list, not the first. *)
Theorem get_time_signature_in_force (start : Z) :
  sigs_in_order midi ->
  (time_signature_changes midi = []
   /\ get_time_signature midi start = Raise IndexError)
  \/ exists pre sig post,
       get_time_signature midi start = Ok sig
       /\ time_signature_changes midi = pre ++ sig :: post
       /\ Forall (fun s => start < sig_tick midi s) post
       /\ (sig_tick midi sig <= start
           \/ post = []
              /\ Forall (fun s => start < sig_tick midi s)
                   (time_signature_changes midi)).
Proof.
  intros Hord. unfold get_time_signature.
  pose proof (find_sig_pair start (time_signature_changes midi)) as Hfind.
  unfold sig_tick in Hfind at 1 2.
  destruct (find _ _) as [[c n]|].
  - right. destruct Hfind as (pre & post & Hsigs & Hc & Hn).
    exists pre, c, (n :: post). split; [reflexivity|]. split; [exact Hsigs|].
    split; [|left; exact Hc].
    apply Forall_forall. intros s Hs.
    apply list_elem_of_lookup in Hs as [j Hj].
    assert (Hle : sig_tick midi n <= sig_tick midi s).
    { apply (Hord (length pre + 1)%nat (length pre + 1 + j)%nat); [| |lia].
      - rewrite Hsigs, lookup_app_r by lia.
        replace (length pre + 1 - length pre)%nat with 1%nat by lia. reflexivity.
      - rewrite Hsigs, lookup_app_r by lia.
        replace (length pre + 1 + j - length pre)%nat with (S j) by lia.
        exact Hj. }
    lia.
  - destruct (time_signature_changes midi) as [|a sigs] eqn:Hsigs using rev_ind.
    + left. split; [reflexivity | apply index_nil].
    + clear IHsigs. right. exists sigs, a, []. rewrite index_last.
      split; [reflexivity|]. split; [reflexivity|]. split; [constructor|].
      destruct (sigs ++ [a]) as [|f rest] eqn:Hl; [destruct sigs; discriminate|].
      rewrite <- Hl in *.
      destruct (Z.le_gt_cases (sig_tick midi f) start) as [Hf|Hf].
      * left. specialize (Hfind f). rewrite Hl in Hfind.
        specialize (Hfind eq_refl Hf). rewrite <- Hl in Hfind.
        apply Forall_app in Hfind as [_ Hlast].
        apply Forall_inv in Hlast. exact Hlast.
      * right. split; [reflexivity|].
        apply Forall_forall. intros s Hs.
        apply list_elem_of_lookup in Hs as [j Hj].
        assert (sig_tick midi f <= sig_tick midi s); [|lia].
        apply (Hord 0%nat j); [rewrite Hsigs, Hl; reflexivity | | lia].
        rewrite Hsigs. exact Hj.
Qed.

(** *** [group_items] *)

Lemma key_leb_start (x y : Item) :
  if key_leb x y then start x <= start y else start y <= start x.
Proof.
  unfold key_leb.
  destruct (Z.ltb_spec (start x) (start y)); [lia|].
  destruct (Z.ltb_spec (start y) (start x)); [lia|].
  repeat match goal with |- context [if ?b then _ else _] => destruct b end; lia.
Qed.

Lemma insert_by_key_In (x y : Item) (l : list Item) :
  In y (insert_by_key x l) <-> y = x \/ In y l.
Proof.
  induction l as [|z l IH]; simpl; [intuition auto|].
  destruct (key_leb x z); simpl; [intuition auto|].
  rewrite IH. intuition auto.
Qed.

Lemma sort_items_In (y : Item) (l : list Item) :
  In y (sort_items l) <-> In y l.
Proof.
  unfold sort_items. induction l as [|x l IH]; simpl; [reflexivity|].
  rewrite insert_by_key_In, IH. intuition auto.
Qed.

Lemma insert_by_key_sorted (x : Item) (l : list Item) :
  StronglySorted (fun a b => start a <= start b) l ->
  StronglySorted (fun a b => start a <= start b) (insert_by_key x l).
Proof.
  induction 1 as [|z l Hl IH Hz]; simpl; [repeat constructor|].
  pose proof (key_leb_start x z) as Hk. destruct (key_leb x z).
  - constructor; [constructor; assumption|].
    constructor; [exact Hk|].
    eapply Forall_impl; [exact Hz|]. simpl. intros. lia.
  - constructor; [exact IH|].
    apply Forall_forall. intros y Hy.
    apply list_elem_of_In, insert_by_key_In in Hy as [->|Hy]; [exact Hk|].
    apply (proj1 (List.Forall_forall _ _) Hz), Hy.
Qed.

Lemma sort_items_sorted (l : list Item) :
  StronglySorted (fun a b => start a <= start b) (sort_items l).
Proof.
  unfold sort_items. induction l as [|x l IH]; simpl; [constructor|].
  apply insert_by_key_sorted, IH.
Qed.

Lemma filter_sorted {A} (R : A -> A -> Prop) (f : A -> bool) (l : list A) :
  StronglySorted R l -> StronglySorted R (List.filter f l).
Proof.
  induction 1 as [|x l Hl IH Hx]; simpl; [constructor|].
  destruct (f x); [|exact IH].
  constructor; [exact IH|].
  apply Forall_forall. intros y Hy. apply list_elem_of_In, filter_In in Hy as [Hy _].
  apply (proj1 (List.Forall_forall _ _) Hx), Hy.
Qed.

Lemma trim_front_split (gs : list Group) :
  exists front,
    gs = front ++ trim_front gs
    /\ forall g, head (trim_front gs) = Some g -> has_notes g = true.
Proof.
  induction gs as [|g gs (front & Hsplit & Hhead)]; simpl.
  - exists []. split; [reflexivity | intros g [=]].
  - destruct (has_notes g) eqn:Hn.
    + exists []. split; [reflexivity|]. intros g' [= <-]. exact Hn.
    + exists (g :: front). split; [simpl; congruence | exact Hhead].
Qed.

Lemma trim_back_split (gs : list Group) :
  exists back,
    gs = trim_back gs ++ back
    /\ forall g, last (trim_back gs) = Some g -> has_notes g = true.
Proof.
  unfold trim_back.
  destruct (trim_front_split (reverse gs)) as (front & Hsplit & Hhead).
  exists (reverse front). split.
  - rewrite <- reverse_app, <- Hsplit. symmetry. apply reverse_involutive.
  - intros g Hg. apply Hhead. rewrite <- last_reverse, Hg. reflexivity.
Qed.

Lemma type_priority_pass (items : list Item) :
  forall z,
    match foldM (fun _ item => type_priority (name item)) items z with
    | Ok _ => Forall (fun item => name item <> Pedal) items
    | Raise e => e = KeyError /\ Exists (fun item => name item = Pedal) items
    end.
Proof.
  induction items as [|item rest IH]; intros z; [constructor|].
  cbn [foldM].
  destruct (name item) eqn:Hn; cbn [type_priority mbind result_bind Py.bind].
  4: { split; [reflexivity | left; exact Hn]. }
  all: match goal with
       | |- context [foldM _ _ ?k] => specialize (IH k)
       end;
    destruct (foldM _ _ _);
    [ constructor; [congruence | exact IH]
    | split; [apply IH | right; apply IH] ].
Qed.

(** X13: the bars [group_items] returns.  They are the bars between
    neighbouring downbeats (the end of the piece closing the last one) with
    bars dropped at the front and at the back only; the first and the last
    bar returned hold a note; every bar holds exactly the items that start
    in it, in the order of their starts; and no item is a Pedal item. *)
Theorem group_items_bars (note_items chord_items tempo_items : list Item)
    (gs : list Group) :
  group_items midi note_items chord_items tempo_items = Ok gs ->
  (exists front back, bar_bounds midi = front ++ map bounds gs ++ back)
  /\ (forall g, head gs = Some g \/ last gs = Some g -> has_notes g = true)
  /\ Forall (fun g =>
               StronglySorted (fun a b => start a <= start b) (insiders g)
               /\ forall item,
                    In item (insiders g)
                    <-> In item (chord_items ++ tempo_items ++ note_items)
                        /\ bar_st g <= start item < bar_et g) gs
  /\ Forall (fun item => name item <> Pedal)
        (chord_items ++ tempo_items ++ note_items).
Proof.
  unfold group_items. intros H.
  assert (Hitems : match chord_items with
                   | [] => tempo_items ++ note_items
                   | _ => chord_items ++ tempo_items ++ note_items
                   end = chord_items ++ tempo_items ++ note_items)
    by (destruct chord_items; reflexivity).
  rewrite Hitems in H. clear Hitems.
  set (items := chord_items ++ tempo_items ++ note_items) in *.
  pose proof (type_priority_pass items 0) as Hpass.
  destruct (foldM _ items 0) as [z|e]; [|discriminate H].
  cbn [mbind result_bind Py.bind] in H. injection H as <-.
  set (groups := map _ (combine _ _)).
  destruct (trim_front_split groups) as (front & Hfront & Hhead).
  destruct (trim_back_split (trim_front groups)) as (back & Hback & Hlast).
  set (gs := trim_back (trim_front groups)) in *.
  assert (Hgroups : groups = front ++ gs ++ back) by congruence.
  split; [|split; [|split; [|exact Hpass]]].
  - exists (map bounds front), (map bounds back).
    rewrite <- !map_app, <- Hgroups. unfold bar_bounds, groups.
    rewrite map_map. apply map_ext. intros [db1 db2]. reflexivity.
  - intros g [Hg|Hg]; [|apply Hlast, Hg].
    apply Hhead. rewrite Hback. destruct gs; [discriminate Hg | exact Hg].
  - assert (Hall : Forall (fun g =>
               StronglySorted (fun a b => start a <= start b) (insiders g)
               /\ forall item,
                    In item (insiders g)
                    <-> In item items /\ bar_st g <= start item < bar_et g)
              groups).
    { unfold groups. apply Forall_fmap, Forall_forall. intros [db1 db2] _.
      unfold compose. cbn [insiders bar_st bar_et]. split.
      - apply filter_sorted, sort_items_sorted.
      - intros item. rewrite filter_In, sort_items_In.
        rewrite andb_true_iff, Z.leb_le, Z.ltb_lt. reflexivity. }
    rewrite Hgroups in Hall.
    apply Forall_app in Hall as [_ Hall]. apply Forall_app in Hall as [Hall _].
    exact Hall.
Qed.

(** X14: a Pedal item has no sort key: [group_items] raises KeyError as
    soon as one of the items it is given is a Pedal item. *)
Theorem group_items_pedal (note_items chord_items tempo_items : list Item) :
  Exists (fun item => name item = Pedal)
    (chord_items ++ tempo_items ++ note_items) ->
  group_items midi note_items chord_items tempo_items = Raise KeyError.
Proof.
  unfold group_items. intros Hex.
  assert (Hitems : match chord_items with
                   | [] => tempo_items ++ note_items
                   | _ => chord_items ++ tempo_items ++ note_items
                   end = chord_items ++ tempo_items ++ note_items)
    by (destruct chord_items; reflexivity).
  rewrite Hitems. clear Hitems.
  pose proof (type_priority_pass (chord_items ++ tempo_items ++ note_items) 0)
    as Hpass.
  destruct (foldM _ _ 0) as [z|e].
  - exfalso. apply Exists_exists in Hex as (item & Hin & Hname).
    apply list_elem_of_In in Hin.
    apply (proj1 (List.Forall_forall _ _) Hpass) in Hin.
    contradiction.
  - destruct Hpass as [-> _]. reflexivity.
Qed.

End BarsMore.

(** ** The encoder, bar by bar *)

Section EncoderBars.

Import MusicObj Utils ChordExtraction Midi2Remi.

Context {T : Type}.
Variable program_to_instrument_name : Z -> result string.
Variable midi : PrettyMIDI T.

#[local] Abbreviation encode_item := (encode_item program_to_instrument_name).
#[local] Abbreviation encode_bar := (encode_bar program_to_instrument_name).
#[local] Abbreviation run_bars := (run_bars program_to_instrument_name).
#[local] Abbreviation get_remi_events := (get_remi_events program_to_instrument_name).

Lemma token_not_bar (e : Event) :
  barless_name (ename e) = true -> String.prefix "Bar_" (token e) = false.
Proof.
  unfold barless_name, token. intros H.
  apply List.existsb_exists in H as (k & Hin & Heq).
  apply String.eqb_eq in Heq. rewrite Heq. simpl in Hin.
  repeat (destruct Hin as [<-|Hin]; [reflexivity|]). destruct Hin.
Qed.

Lemma encode_item_barless (res : Z) (flags : list Q) (st st' : EncState)
    (item : Item) :
  encode_item res flags st item = Ok st' ->
  exists evs,
    events st' = events st ++ evs
    /\ n_downbeat st' = n_downbeat st
    /\ barless evs.
Proof.
  unfold Midi2Remi.encode_item. intros H.
  apply bind_Ok in H as (idx & _ & H).
  destruct (name item).
  - apply bind_Ok in H as (evs & Hev & H). injection H as <-.
    exists evs. split; [reflexivity|]. split; [reflexivity|].
    unfold note_events in Hev.
    repeat (apply bind_Ok in Hev as (? & _ & Hev)).
    injection Hev as <-. repeat constructor.
  - destruct (same_pitch_as _ _).
    + injection H as <-. exists []. rewrite app_nil_r. repeat split. constructor.
    + injection H as <-. eexists. split; [reflexivity|]. split; [reflexivity|].
      repeat constructor.
  - destruct (same_pitch_as _ _).
    + injection H as <-. exists []. rewrite app_nil_r. repeat split. constructor.
    + apply bind_Ok in H as (ev & Hev & H). injection H as <-.
      eexists. split; [reflexivity|]. split; [reflexivity|].
      apply tempo_event_name in Hev. unfold barless.
      repeat constructor. cbn [ename]. rewrite Hev. reflexivity.
  - injection H as <-. exists []. rewrite app_nil_r. repeat split. constructor.
Qed.

Lemma encode_items_barless (res : Z) (flags : list Q) (items : list Item) :
  forall st st',
    foldM (encode_item res flags) items st = Ok st' ->
    exists evs,
      events st' = events st ++ evs
      /\ n_downbeat st' = n_downbeat st
      /\ barless evs.
Proof.
  induction items as [|item rest IH]; intros st st' H; cbn [foldM] in H.
  - injection H as <-. exists []. rewrite app_nil_r. repeat split. constructor.
  - apply bind_Ok in H as (st1 & H1 & H).
    apply encode_item_barless in H1 as (evs1 & He1 & Hn1 & Hb1).
    apply IH in H as (evs & He & Hn & Hb).
    exists (evs1 ++ evs). rewrite He, He1, <- app_assoc.
    split; [reflexivity|]. split; [congruence|].
    apply Forall_app. split; assumption.
Qed.

Lemma carried_barless (st : EncState) (carried : list Event) :
  carry_events st = Ok carried -> barless carried.
Proof.
  intros H. apply carry_events_spec in H as (cp & tp & -> & Hcp & Htp).
  apply Forall_app. split.
  - destruct (current_chord st); subst cp; repeat constructor.
  - destruct (current_tempo st).
    + destruct Htp as (bpm & idx & _ & _ & ->). repeat constructor.
    + subst tp. constructor.
Qed.

(** The pass over the bars, one list of events per bar. *)
Lemma run_bars_by_bar (gs : list Group) :
  forall st st',
    run_bars midi gs st = Ok st' ->
    exists bars,
      length bars = length gs
      /\ events st' = events st ++ concat bars
      /\ forall k g evs,
           gs !! k = Some g -> bars !! k = Some evs ->
           exists ts rest,
             get_time_signature midi (bar_st g) = Ok ts
             /\ evs = bar_header (n_downbeat st + Z.of_nat k + 1) ts ++ rest
             /\ barless rest.
Proof.
  unfold Midi2Remi.run_bars.
  induction gs as [|g gs IH]; intros st st' H; cbn [foldM] in H.
  - injection H as <-. exists []. rewrite app_nil_r.
    split; [reflexivity|]. split; [reflexivity|]. intros k g evs [=].
  - apply bind_Ok in H as (st2 & Hbar & H).
    apply encode_bar_spec in Hbar
      as (ts & carried & ppb & qpb & st1 & Hts & Hcarry & Hev1 & Hn1 & _ & _ & Hitems).
    apply encode_items_barless in Hitems as (evs & Hev & Hn & Hb).
    apply IH in H as (bars & Hlen & Hev' & Hbars).
    exists ((bar_header (n_downbeat st + 1) ts ++ carried ++ evs) :: bars).
    split; [cbn [length]; congruence|]. split.
    + rewrite Hev', Hev, Hev1. cbn [concat]. rewrite <- !app_assoc. reflexivity.
    + intros [|k] g' evs' Hg Hevs.
      * injection Hg as <-. injection Hevs as <-.
        exists ts, (carried ++ evs). split; [exact Hts|].
        split; [rewrite Z.add_0_r; reflexivity|].
        apply Forall_app. split; [eapply carried_barless; eassumption | exact Hb].
      * cbn in Hg, Hevs.
        destruct (Hbars k g' evs' Hg Hevs) as (ts' & rest & Hts' & -> & Hrest).
        exists ts', rest. split; [exact Hts'|]. split; [|exact Hrest].
        replace (n_downbeat st + Z.of_nat (S k) + 1)
          with (n_downbeat st2 + Z.of_nat k + 1) by lia.
        reflexivity.
Qed.

(** *** Positions per bar *)

Lemma Qfloor_div (a b : Z) :
  0 < b -> Qfloor (inject_Z a / inject_Z b) = a / b.
Proof.
  intros Hb. destruct b as [|b|b]; try lia.
  transitivity (Qfloor (a # b)).
  - apply Qfloor_comp. unfold Qeq, Qdiv, Qmult, Qinv, inject_Z. simpl. lia.
  - reflexivity.
Qed.

Lemma positions_per_bar_quotient (start : Z) (ts : TimeSignature T) :
  get_time_signature midi start = Ok ts ->
  0 < denominator ts -> 0 <= numerator ts ->
  get_positions_per_bar midi start
  = Ok (48 * numerator ts / denominator ts).
Proof.
  intros Hts Hden Hnum. unfold get_positions_per_bar, quarters_per_bar.
  rewrite Hts. cbn [mbind result_bind Py.bind].
  destruct (Z.eqb_spec (denominator ts) 0); [lia|].
  cbn [mbind result_bind Py.bind]. f_equal.
  set (x := (inject_Z DEFAULT_POS_PER_QUARTER
             * (inject_Z (4 * numerator ts) / inject_Z (denominator ts)))%Q).
  assert (Hx : (x == inject_Z (48 * numerator ts) / inject_Z (denominator ts))%Q).
  { unfold x, DEFAULT_POS_PER_QUARTER.
    replace (48 * numerator ts) with (12 * (4 * numerator ts)) by lia.
    rewrite inject_Z_mult. unfold Qdiv. apply Qmult_assoc. }
  assert (H0 : (0 <= x)%Q).
  { rewrite Hx. apply Qle_shift_div_l.
    - change 0%Q with (inject_Z 0). rewrite <- Zlt_Qlt. exact Hden.
    - rewrite Qmult_0_l. change 0%Q with (inject_Z 0). rewrite <- Zle_Qle. lia. }
  unfold py_trunc. apply Qle_bool_iff in H0. rewrite H0.
  rewrite (Qfloor_comp _ _ Hx). apply Qfloor_div, Hden.
Qed.

(** X16: the number of positions of a bar.  For a time signature
    [num/den] with [den > 0] and [num >= 0], [get_positions_per_bar] is
    the integer quotient [48 * num / den]: 48 for 4/4, 36 for 3/4 and for
    6/8, and 0 as soon as [den > 48 * num]. *)
Theorem positions_per_bar_value (start : Z) (ts : TimeSignature T) :
  get_time_signature midi start = Ok ts ->
  0 < denominator ts -> 0 <= numerator ts ->
  get_positions_per_bar midi start
  = Ok (48 * numerator ts / denominator ts).
Proof. apply positions_per_bar_quotient. Qed.

End EncoderBars.

Section EncoderMore.

Import MusicObj Utils ChordExtraction Midi2Remi.

Context {T : Type}.
Variable program_to_instrument_name : Z -> result string.

#[local] Abbreviation get_remi_events := (get_remi_events program_to_instrument_name).

(** X15: the token stream of [get_remi_events], bar by bar.  The stream is
    made of one run of tokens per group, in order; the run of group number
    [k] (from 0) opens with the token [Bar_(k+1)] and the Time Signature
    token of the signature [get_time_signature] gives for the first tick of
    the bar, and holds no other Bar token. *)
Theorem remi_events_by_bar (self : @RemiPlus T) (tokens : list string) :
  get_remi_events self = Ok tokens ->
  exists bars,
    length bars = length (groups self)
    /\ tokens = concat bars
    /\ forall k g toks,
         groups self !! k = Some g -> bars !! k = Some toks ->
         exists ts rest,
           get_time_signature (Midi2Remi.midi self) (bar_st g) = Ok ts
           /\ toks
              = ("Bar_" ++ str_of_Z (Z.of_nat k + 1))%string
                :: ("Time Signature_" ++ str_of_Z (numerator ts) ++ "/"
                    ++ str_of_Z (denominator ts))%string
                :: rest
           /\ Forall (fun t => String.prefix "Bar_" t = false) rest.
Proof.
  unfold Midi2Remi.get_remi_events. intros H.
  apply bind_Ok in H as (st & Hrun & H). injection H as <-.
  apply run_bars_by_bar in Hrun as (bars & Hlen & Hev & Hbars).
  exists (map (map token) bars).
  split; [rewrite length_map; exact Hlen|]. split.
  - rewrite Hev. cbn [events initial_state app].
    clear. induction bars as [|b bars IH]; [reflexivity|].
    cbn [concat map]. rewrite map_app, IH. reflexivity.
  - intros k g toks Hg Htoks. rewrite list_lookup_fmap in Htoks.
    destruct (bars !! k) as [evs|] eqn:Hk; [|discriminate Htoks].
    injection Htoks as <-.
    destruct (Hbars k g evs Hg Hk) as (ts & rest & Hts & -> & Hrest).
    exists ts, (map token rest). split; [exact Hts|]. split.
    + cbn [n_downbeat initial_state]. reflexivity.
    + apply Forall_fmap. eapply Forall_impl; [exact Hrest|].
      intros e He. apply token_not_bar, He.
Qed.

(** X17: what stops [get_remi_events] at the first bar.  With at least one
    group, it raises IndexError when the piece has no time signature,
    ZeroDivisionError when the signature of the first bar has denominator 0,
    and ValueError when that signature [num/den], [den > 0], has
    [48 * num < den] (no position in the bar); without groups it returns the
    empty list. *)
Theorem remi_events_first_bar (self : @RemiPlus T) :
  match groups self with
  | [] => get_remi_events self = Ok []
  | g :: _ =>
      (time_signature_changes (Midi2Remi.midi self) = [] ->
       get_remi_events self = Raise IndexError)
      /\ forall ts,
           get_time_signature (Midi2Remi.midi self) (bar_st g) = Ok ts ->
           (denominator ts = 0 ->
            get_remi_events self = Raise ZeroDivisionError)
           /\ (0 < denominator ts -> 0 <= numerator ts ->
               48 * numerator ts < denominator ts ->
               get_remi_events self = Raise ValueError)
  end.
Proof.
  unfold Midi2Remi.get_remi_events, Midi2Remi.run_bars.
  destruct (groups self) as [|g gs]; [reflexivity|].
  cbn [foldM].
  assert (Hstop : forall e,
            encode_bar program_to_instrument_name (Midi2Remi.midi self)
              initial_state g = Raise e ->
            (b' ← encode_bar program_to_instrument_name (Midi2Remi.midi self)
                    initial_state g;
             foldM (encode_bar program_to_instrument_name (Midi2Remi.midi self))
               gs b') ≫= (fun st => Ok (map token (events st)))
            = Raise e).
  { intros e ->. reflexivity. }
  split.
  - intros Hnone. apply Hstop.
    unfold encode_bar, get_positions_per_bar, get_time_signature.
    rewrite Hnone. cbn [removelast tail combine find]. rewrite index_nil.
    reflexivity.
  - intros ts Hts. split.
    + intros Hden. apply Hstop.
      unfold encode_bar, get_positions_per_bar, quarters_per_bar.
      rewrite Hts. cbn [mbind result_bind Py.bind]. rewrite Hden. reflexivity.
    + intros Hden Hnum Hlt. apply Hstop. unfold encode_bar.
      rewrite (positions_per_bar_quotient _ _ _ Hts Hden Hnum).
      cbn [mbind result_bind Py.bind].
      rewrite Z.div_small by lia. reflexivity.
Qed.

End EncoderMore.

Section BarsExamples.

Import MusicObj Utils ChordExtraction Midi2Remi.

Lemma get_time_signature_in_force_witness :
  sigs_in_order two_sig_midi
  /\ exists pre sig post,
       get_time_signature two_sig_midi 2000 = Ok sig
       /\ time_signature_changes two_sig_midi = pre ++ sig :: post
       /\ sig_tick two_sig_midi sig <= 2000.
Proof.
  assert (Hord : sigs_in_order two_sig_midi).
  { intros i j a b Hi Hj Hij.
    destruct i as [|[|i]], j as [|[|j]]; simpl in Hi, Hj;
      try discriminate; try lia;
      injection Hi as <-; injection Hj as <-; unfold sig_tick; simpl; lia. }
  split; [exact Hord|].
  destruct (get_time_signature_in_force two_sig_midi 2000 Hord)
    as [[Hnil _]|(pre & sig & post & Hget & Hsplit & _ & Hcase)].
  - discriminate Hnil.
  - exists pre, sig, post. split; [exact Hget|]. split; [exact Hsplit|].
    destruct Hcase as [Hle|[_ Hall]]; [exact Hle|].
    exfalso. unfold two_sig_midi in Hall. simpl in Hall.
    inversion Hall as [|? ? Hfirst _]. unfold sig_tick in Hfirst.
    simpl in Hfirst. lia.
Defined.

(** Before the first change the signature is that of the last change. *)
Example signature_before_first_change :
  get_time_signature late_sig_midi 0 = Ok (mkTimeSignature 3 4 1920).
Proof. vm_compute. reflexivity. Qed.

Lemma group_items_bars_witness :
  exists gs,
    group_items two_bar_midi example_notes [] [example_tempo 0 120] = Ok gs
    /\ length gs = 2%nat
    /\ forall g, head gs = Some g \/ last gs = Some g -> has_notes g = true.
Proof.
  eexists. split; [vm_compute; reflexivity|]. split; [reflexivity|].
  apply (group_items_bars two_bar_midi example_notes [] [example_tempo 0 120]).
  vm_compute. reflexivity.
Defined.

Lemma group_items_pedal_witness :
  group_items two_bar_midi (example_notes ++ [example_pedal]) []
    [example_tempo 0 120]
  = Raise KeyError.
Proof.
  apply group_items_pedal. apply Exists_exists. exists example_pedal.
  split; [|reflexivity]. apply list_elem_of_In. simpl. auto.
Defined.

Lemma remi_events_by_bar_witness :
  get_remi_events piano_only two_bar_self = Ok two_bar_stream
  /\ exists bars, length bars = 2%nat /\ two_bar_stream = concat bars.
Proof.
  assert (H : get_remi_events piano_only two_bar_self = Ok two_bar_stream)
    by (vm_compute; reflexivity).
  split; [exact H|].
  destruct (remi_events_by_bar piano_only two_bar_self two_bar_stream H)
    as (bars & Hlen & Hcat & _).
  exists bars. split; [exact Hlen | exact Hcat].
Defined.

Lemma positions_per_bar_value_witness :
  get_positions_per_bar two_sig_midi 2000 = Ok 36.
Proof.
  apply (positions_per_bar_value two_sig_midi 2000 (mkTimeSignature 3 4 1920));
    [reflexivity | simpl; lia | simpl; lia].
Defined.

(** A piece in 1/64 has no position in its bars, a piece without time
    signature no bar the encoder could describe. *)
Example tiny_bar_raises :
  get_remi_events piano_only (mkRemiPlus tiny_bar_midi [] [] [] [bar_one])
  = Raise ValueError
  /\ get_remi_events piano_only (mkRemiPlus unsigned_midi [] [] [] [bar_one])
     = Raise IndexError.
Proof. split; vm_compute; reflexivity. Qed.

End BarsExamples.

(** ** [read_tempo_items] *)

Section TempoItemsMore.

Import MusicObj Utils TempoItems.

Context {T : Type}.
Variable time_of_number : Z -> T.
Variable midi : PrettyMIDI T.

#[local] Abbreviation read_tempo_items := (read_tempo_items time_of_number).
#[local] Abbreviation filled := (filled time_of_number).

Lemma foldM_snoc {A B} (f : B -> A -> result B) (l : list A) (x : A) (b : B) :
  foldM f (l ++ [x]) b = (b' ← foldM f l b; f b' x).
Proof.
  revert b. induction l as [|y l IH]; intros b; cbn [app foldM].
  - cbn [mbind result_bind Py.bind]. destruct (f b x); reflexivity.
  - destruct (f b y) as [b1|e]; cbn [mbind result_bind Py.bind]; [apply IH | reflexivity].
Qed.

(** The stable sort keeps the order of the items of one start. *)
Lemma insert_by_start_filter (tick : Z) (x : Item) (l : list Item) :
  List.filter (fun item => start item =? tick) (insert_by_start x l)
  = List.filter (fun item => start item =? tick) (x :: l).
Proof.
  induction l as [|y l IH]; [reflexivity|].
  cbn [insert_by_start]. destruct (Z.leb_spec (start x) (start y)); [reflexivity|].
  cbn [List.filter] in *. rewrite IH.
  destruct (Z.eqb_spec (start x) tick), (Z.eqb_spec (start y) tick);
    try reflexivity; lia.
Qed.

Lemma sort_by_start_filter (tick : Z) (l : list Item) :
  List.filter (fun item => start item =? tick) (sort_by_start l)
  = List.filter (fun item => start item =? tick) l.
Proof.
  unfold sort_by_start. induction l as [|x l IH]; [reflexivity|].
  cbn [fold_right]. rewrite insert_by_start_filter. cbn [List.filter].
  rewrite IH. reflexivity.
Qed.

(** The dict comprehension: the last item of a start gives the value. *)
Lemma existing_ticks_get (items : list Item) (tick : Z) :
  forall d,
    dict_get Z.eqb
      (fold_left (fun d item => dict_set Z.eqb d (start item) (pitch item)) items d)
      tick
    = match last (List.filter (fun item => start item =? tick) items) with
      | Some item => Some (pitch item)
      | None => dict_get Z.eqb d tick
      end.
Proof.
  induction items as [|x items IH]; intros d; [reflexivity|].
  cbn [fold_left List.filter]. rewrite IH.
  destruct (Z.eqb_spec (start x) tick) as [->|Hne].
  - destruct (List.filter _ items) as [|y ys] eqn:Hf.
    + cbn [last]. apply zdict_get_set_eq.
    + change (last (x :: y :: ys)) with (last (y :: ys)).
      destruct (last (y :: ys)) eqn:Hl; [reflexivity|].
      apply last_None in Hl. discriminate Hl.
  - destruct (last _); [reflexivity|]. apply zdict_get_set_ne, Hne.
Qed.

Lemma existing_ticks_tempo_at (tempo_changes : list (T * Q)) (tick : Z) :
  dict_get Z.eqb
    (fold_left (fun d item => dict_set Z.eqb d (start item) (pitch item))
       (sort_by_start
          (map (fun '(time, tempo) =>
                  mkItem Tempo (time_to_tick midi time) None None
                    (PitchInt (py_trunc tempo)) NoInstrument)
               tempo_changes))
       [])
    tick
  = PitchInt <$> tempo_at midi tempo_changes tick.
Proof.
  rewrite existing_ticks_get, sort_by_start_filter, filter_map_comm.
  unfold tempo_at.
  assert (Hext : List.filter
            (fun a : T * Q =>
               start (let '(time, tempo) := a in
                      mkItem Tempo (time_to_tick midi time) None None
                        (PitchInt (py_trunc tempo)) NoInstrument) =? tick)
            tempo_changes
          = List.filter (fun c => time_to_tick midi c.1 =? tick) tempo_changes).
  { apply filter_ext. intros [time tempo]. reflexivity. }
  rewrite Hext. clear Hext.
  induction (List.filter _ tempo_changes) as [|[time tempo] l IH]; [reflexivity|].
  destruct l as [|c l]; [reflexivity|].
  change (last (map ?f ((time, tempo) :: c :: l))) with (last (map f (c :: l))) in *.
  exact IH.
Qed.

(** The loop over the ticks wanted. *)
Lemma fill_loop (d : dict Z PitchVal) (n : nat) :
  let body :=
    fun output tick =>
      match dict_get Z.eqb d tick with
      | Some p => Ok (output ++ [mkItem Tempo tick None None p NoInstrument])
      | None =>
          let start := time_to_tick midi (time_of_number tick) in
          prev ← index output (-1);
          Ok (output ++ [mkItem Tempo start None None (pitch prev) NoInstrument])
      end in
  let r :=
    foldM body (map (fun k => Z.of_nat k * DEFAULT_RESOLUTION) (seq 0 n)) [] in
  match n with
  | O => r = Ok []
  | S _ =>
      match dict_get Z.eqb d 0 with
      | None => r = Raise IndexError
      | Some _ =>
          exists out, r = Ok out /\ length out = n
                      /\ filled midi (dict_get Z.eqb d) out
      end
  end.
Proof.
  intros body. induction n as [|n IH]; [reflexivity|].
  cbv zeta. rewrite seq_S, map_app. cbn [map Nat.add]. rewrite foldM_snoc.
  cbv zeta in IH. destruct n as [|n].
  - (* the first tick *)
    cbn [seq map foldM mbind result_bind Py.bind]. unfold body.
    change (Z.of_nat 0 * DEFAULT_RESOLUTION) with 0.
    destruct (dict_get Z.eqb d 0) as [p|] eqn:H0; [|reflexivity].
    eexists. split; [reflexivity|]. split; [reflexivity|].
    intros [|k] item Hk; [|discriminate Hk]. injection Hk as <-.
    cbn [name end_ velocity instrument pitch start].
    repeat (split; [reflexivity|]). exists 0%nat, p.
    split; [lia|]. split; [exact H0|]. split; [intros i Hi; lia|].
    split; reflexivity.
  - destruct (dict_get Z.eqb d 0) as [p0|] eqn:H0.
    + destruct IH as (out & -> & Hlen & Hout).
      cbn [mbind result_bind Py.bind]. unfold body.
      destruct (dict_get Z.eqb d (Z.of_nat (S n) * DEFAULT_RESOLUTION))
        as [p|] eqn:Hd.
      * eexists. split; [reflexivity|].
        split; [rewrite length_app; cbn [length]; lia|].
        intros k item Hk. apply lookup_app_Some in Hk as [Hk|[Hge Hk]];
          [apply Hout, Hk|].
        apply list_lookup_singleton_Some in Hk as [Hk <-].
        assert (k = S n) as -> by lia.
        cbn [name end_ velocity instrument pitch start].
        repeat (split; [reflexivity|]). exists (S n), p.
        split; [lia|]. split; [exact Hd|]. split; [intros i Hi; lia|].
        rewrite Nat.eqb_refl. split; reflexivity.
      * destruct out as [|o out'] using rev_ind; [discriminate Hlen|].
        clear IHout'. rewrite index_last. cbn [mbind result_bind Py.bind].
        eexists. split; [reflexivity|].
        split; [rewrite length_app; cbn [length]; lia|].
        intros k item Hk. apply lookup_app_Some in Hk as [Hk|[Hge Hk]];
          [apply Hout, Hk|].
        apply list_lookup_singleton_Some in Hk as [Hk <-].
        assert (k = S n) as -> by lia.
        cbn [name end_ velocity instrument pitch start].
        repeat (split; [reflexivity|]).
        rewrite length_app in Hlen. cbn [length] in Hlen.
        destruct (Hout n o) as (_ & _ & _ & _ & j & p & Hj & Hp & Hgap & Hpitch & _).
        { rewrite lookup_app_r by lia.
          replace (n - length out')%nat with 0%nat by lia. reflexivity. }
        exists j, p. split; [lia|]. split; [exact Hp|]. split.
        { intros i Hi. destruct (Nat.eq_dec i (S n)) as [->|Hne]; [exact Hd|].
          apply Hgap. lia. }
        split; [exact Hpitch|].
        destruct (Nat.eqb_spec j (S n)); [lia | reflexivity].
    + rewrite IH. reflexivity.
Qed.

Lemma arange_Z_seq (stop : Z) :
  arange_Z stop DEFAULT_RESOLUTION
  = map (fun k => Z.of_nat k * DEFAULT_RESOLUTION)
      (seq 0 (Z.to_nat ((stop + DEFAULT_RESOLUTION - 1) / DEFAULT_RESOLUTION))).
Proof. unfold arange_Z, range. rewrite map_map. reflexivity. Qed.

Lemma filled_ext (f g : Z -> option PitchVal) (out : list Item) :
  (forall t, f t = g t) -> filled midi f out -> filled midi g out.
Proof.
  intros Hfg Hf k item Hk.
  destruct (Hf k item Hk) as (H1 & H2 & H3 & H4 & j & p & Hj & Hp & Hgap & Hrest).
  repeat (split; [assumption|]). exists j, p. split; [exact Hj|].
  split; [rewrite <- Hfg; exact Hp|]. split; [|exact Hrest].
  intros i Hi. rewrite <- Hfg. apply Hgap, Hi.
Qed.

(** What [read_tempo_items] does, in one statement. *)
Lemma read_tempo_items_cases (tempo_changes : list (T * Q)) :
  let n := Z.to_nat ((get_end_tick midi + DEFAULT_RESOLUTION) / DEFAULT_RESOLUTION) in
  match n with
  | O => read_tempo_items midi tempo_changes = Ok []
  | S _ =>
      match tempo_at midi tempo_changes 0 with
      | None => read_tempo_items midi tempo_changes = Raise IndexError
      | Some _ =>
          exists out,
            read_tempo_items midi tempo_changes = Ok out
            /\ length out = n
            /\ filled midi (fun t => PitchInt <$> tempo_at midi tempo_changes t) out
      end
  end.
Proof.
  cbv zeta. unfold TempoItems.read_tempo_items. rewrite arange_Z_seq.
  fold (get_end_tick midi).
  replace (get_end_tick midi + 1 + DEFAULT_RESOLUTION - 1)
    with (get_end_tick midi + DEFAULT_RESOLUTION) by lia.
  set (d := fold_left _ (sort_by_start _) _).
  pose proof (fill_loop d
                (Z.to_nat ((get_end_tick midi + DEFAULT_RESOLUTION)
                           / DEFAULT_RESOLUTION))) as Hloop.
  cbv zeta in Hloop.
  assert (Hd : forall t, dict_get Z.eqb d t
                         = PitchInt <$> tempo_at midi tempo_changes t)
    by (intros t; apply existing_ticks_tempo_at).
  destruct (Z.to_nat _) as [|n]; [exact Hloop|].
  rewrite Hd in Hloop.
  destruct (tempo_at midi tempo_changes 0) as [z|]; cbn [fmap option_fmap option_map] in Hloop;
    [|exact Hloop].
  destruct Hloop as (out & Hr & Hlen & Hfilled).
  exists out. split; [exact Hr|]. split; [exact Hlen|].
  eapply filled_ext; [exact Hd | exact Hfilled].
Qed.

(** X18: the tempo items [read_tempo_items] returns.  There is one item per
    tick [0, 480, 960, ...] up to the end tick of the piece; the item of
    tick [480 * k] carries the tempo, cut to an integer, of the last change
    listed at the latest tick [480 * j], [j <= k], at which a change is
    listed, and starts at [480 * k] when [j = k].  A change at a tick that
    is no multiple of 480 leaves no trace. *)
Theorem read_tempo_items_fills (tempo_changes : list (T * Q)) (out : list Item) :
  read_tempo_items midi tempo_changes = Ok out ->
  length out
  = Z.to_nat ((get_end_tick midi + DEFAULT_RESOLUTION) / DEFAULT_RESOLUTION)
  /\ filled midi (fun t => PitchInt <$> tempo_at midi tempo_changes t) out.
Proof.
  intros H. pose proof (read_tempo_items_cases tempo_changes) as Hc.
  cbv zeta in Hc. destruct (Z.to_nat _) as [|n].
  - rewrite Hc in H. injection H as <-. split; [reflexivity|].
    intros k item [=].
  - destruct (tempo_at midi tempo_changes 0).
    + destruct Hc as (out' & Hr & Hlen & Hf). rewrite Hr in H.
      injection H as <-. split; assumption.
    + rewrite Hc in H. discriminate H.
Qed.

(** X19: [read_tempo_items] needs a tempo at tick 0.  On a piece whose end
    tick is not negative it raises IndexError exactly when no tempo change
    is listed at tick 0, and returns a list otherwise; on a piece with a
    negative end tick it returns the empty list. *)
Theorem read_tempo_items_first_tick (tempo_changes : list (T * Q)) :
  if get_end_tick midi <? 0
  then read_tempo_items midi tempo_changes = Ok []
  else match tempo_at midi tempo_changes 0 with
       | None => read_tempo_items midi tempo_changes = Raise IndexError
       | Some _ => exists out, read_tempo_items midi tempo_changes = Ok out
                               /\ out <> []
       end.
Proof.
  pose proof (read_tempo_items_cases tempo_changes) as Hc.
  cbv zeta in Hc. unfold DEFAULT_RESOLUTION in Hc.
  destruct (Z.ltb_spec (get_end_tick midi) 0) as [Hneg|Hpos].
  - assert (Hn : Z.to_nat ((get_end_tick midi + 480) / 480) = 0%nat).
    { assert ((get_end_tick midi + 480) / 480 <= 0); [|lia].
      apply Z.lt_succ_r. apply Z.div_lt_upper_bound; lia. }
    rewrite Hn in Hc. exact Hc.
  - assert (Hn : exists n, Z.to_nat ((get_end_tick midi + 480) / 480) = S n).
    { assert (1 <= (get_end_tick midi + 480) / 480)
        by (apply Z.div_le_lower_bound; lia).
      exists (Z.to_nat ((get_end_tick midi + 480) / 480) - 1)%nat. lia. }
    destruct Hn as [n Hn]. rewrite Hn in Hc.
    destruct (tempo_at midi tempo_changes 0); [|exact Hc].
    destruct Hc as (out & Hr & Hlen & _). exists out. split; [exact Hr|].
    intros ->. discriminate Hlen.
Qed.

End TempoItemsMore.

Section TempoItemsExamples.

Import MusicObj Utils TempoItems.

Lemma read_tempo_items_fills_witness :
  exists out,
    read_tempo_items (fun t => t) two_bar_midi example_changes = Ok out
    /\ length out = 9%nat.
Proof.
  eexists. split; [vm_compute; reflexivity|].
  refine (proj1 (read_tempo_items_fills (fun t => t) two_bar_midi
                   example_changes _ _)).
  vm_compute. reflexivity.
Defined.

(** The change at tick 700 is lost, the one at tick 960 is cut to 100. *)
Example tempo_off_the_grid :
  (out ← read_tempo_items (fun t => t) two_bar_midi example_changes;
   Ok (map pitch out))
  = Ok (map PitchInt [120; 120; 100; 100; 100; 100; 100; 100; 100]).
Proof. vm_compute. reflexivity. Qed.

(** Without a change at tick 0 there is no tempo to start from. *)
Example tempo_missing_at_0 :
  read_tempo_items (fun t => t) two_bar_midi [(700, (90 # 1)%Q)]
  = Raise IndexError.
Proof. vm_compute. reflexivity. Qed.

End TempoItemsExamples.

(** ** The vocabulary holds the tokens of the encoder *)

Section VocabularyMore.

Import MusicObj Utils ChordExtraction Midi2Remi Vocabulary.

Variable program_to_instrument_name : Z -> result string.

#[local] Abbreviation note_events := (note_events program_to_instrument_name).
#[local] Abbreviation RemiVocab_tokens := (RemiVocab_tokens program_to_instrument_name).

Lemma mapM_In {A B} (f : A -> result B) (l : list A) (ys : list B) (x : A) :
  mapM f l = Ok ys -> In x l -> exists y, f x = Ok y /\ In y ys.
Proof.
  revert ys. induction l as [|a l IH]; intros ys H Hx; [destruct Hx|].
  cbn [mapM] in H. apply bind_Ok in H as (y & Hy & H).
  apply bind_Ok in H as (ys' & Hys & H). injection H as <-.
  destruct Hx as [->|Hx].
  - exists y. split; [exact Hy | left; reflexivity].
  - destruct (IH ys' Hys Hx) as (y' & Hy' & Hin). exists y'.
    split; [exact Hy' | right; exact Hin].
Qed.

Lemma Ok_inj {A} (a b : A) : Ok a = Ok b -> a = b.
Proof. intros [= ->]. reflexivity. Qed.

Lemma numbered_In (key : string) (n i : Z) :
  0 <= i < n -> In (key ++ "_" ++ str_of_Z i)%string (numbered key n).
Proof.
  intros Hi. unfold numbered. apply in_map_iff. exists i.
  split; [reflexivity | apply range_In, Hi].
Qed.

Lemma nearest_bin_lt (bins : list Z) (x : Z) (idx : nat) :
  nearest_bin bins x = Ok idx -> 0 <= Z.of_nat idx < Z.of_nat (length bins).
Proof.
  intros H. apply nearest_bin_index in H as (b & Hb & _).
  apply lookup_lt_Some in Hb. lia.
Qed.

(** X20: the vocabulary holds the tokens of a note.  The five tokens
    [get_remi_events] prints for a Note item are all tokens of [RemiVocab]
    when the pitch is one of 0..127, the position one of 0..143 and the
    instrument the drum kit or a program 0..127. *)
Theorem note_tokens_in_vocabulary (res t idx : Z) (item : Item)
    (evs : list Event) (tokens : list string) :
  note_events res (position_event t idx) item = Ok evs ->
  RemiVocab_tokens = Ok tokens ->
  0 <= idx < 144 ->
  (forall p, pitch item = PitchInt p -> 0 <= p < 128) ->
  (forall prog, instrument item = Program prog -> 0 <= prog < 128) ->
  Forall (fun e => In (token e) tokens) evs.
Proof.
  intros Hev Htok Hidx Hpitch Hprog.
  apply note_events_tokens in Hev
    as (nm & p & v & vi & e & d & di & Hnm & Hp & Hv & Hvi & He & Hd & Hdi & Hmap).
  unfold Vocabulary.RemiVocab_tokens, get_midi_tokens, get_instrument_tokens
    in Htok.
  destruct (mapM program_to_instrument_name (range 128)) as [names|err]
    eqn:Hnames; [|discriminate Htok].
  cbn [mbind result_bind Py.bind] in Htok. apply Ok_inj in Htok. subst tokens.
  specialize (Hpitch p Hp).
  apply nearest_bin_lt in Hvi, Hdi.
  apply List.Forall_forall. intros ev Hin.
  apply (in_map token) in Hin. rewrite Hmap in Hin.
  rewrite !in_app_iff.
  destruct Hin as [<-|[<-|[<-|[<-|[<-|[]]]]]].
  - (* Position *)
    left. do 7 right. unfold get_position_token.
    refine (numbered_In POSITION_KEY _ idx _).
    unfold MAX_BAR_LENGTH, DEFAULT_POS_PER_QUARTER. lia.
  - (* Instrument *)
    left. right. right. left.
    destruct (instrument item) as [|prog|] eqn:Hi; [| |contradiction].
    + subst nm. right. left. reflexivity.
    + left. specialize (Hprog prog eq_refl).
      destruct (mapM_In _ _ _ prog Hnames) as (nm' & Hnm' & Hin);
        [apply range_In; lia|].
      rewrite Hnm in Hnm'. injection Hnm' as <-.
      apply in_map_iff. exists nm. split; [reflexivity | exact Hin].
  - (* Pitch *)
    left. do 3 right. left. unfold get_pitch_tokens. rewrite in_app_iff.
    destruct (String.eqb nm "drum"); [right | left];
      apply in_map_iff; exists p; (split; [reflexivity | apply range_In; lia]).
  - (* Velocity *)
    left. do 4 right. left. unfold get_velocity_tokens.
    exact (numbered_In VELOCITY_KEY _ _ Hvi).
  - (* Duration *)
    left. do 5 right. left. unfold get_duration_tokens.
    exact (numbered_In DURATION_KEY _ _ Hdi).
Qed.

(** X21: the vocabulary holds the chords the recogniser names.  The Chord
    token of a chord item as [extract_chords] makes them, labelled ['N:N']
    or [root:quality], is one of [get_chord_tokens]. *)
Theorem chord_tokens_in_vocabulary (item : Item) :
  chord_item_ok item -> In (token (chord_event item)) get_chord_tokens.
Proof.
  intros (_ & _ & _ & l & Hp & Hl).
  unfold chord_event, token. cbn [ename evalue]. rewrite Hp. cbn [str_of_pitch].
  unfold get_chord_tokens. cbv zeta. apply in_map_iff. exists l.
  split; [reflexivity|]. apply in_app_iff.
  destruct Hl as [->|(root & q & Hroot & ->)]; [right; left; reflexivity|].
  left. apply in_flat_map. exists root. split; [exact Hroot|].
  apply in_map_iff. exists (quality_str q). split; [reflexivity|].
  destruct q; simpl; auto 10.
Qed.

Lemma range_from_In (a b x : Z) : In x (range_from a b) <-> a <= x < b.
Proof.
  unfold range_from. rewrite in_map_iff. split.
  - intros (k & <- & Hk). apply range_In in Hk. lia.
  - intros Hx. exists (x - a). split; [lia | apply range_In; lia].
Qed.

(** X22: the vocabulary holds the head of a bar.  The Bar token of a bar
    number 0..511 and the Time Signature token of a signature [num/den]
    with [den] one of 2, 4, 8, 16 and [1 <= num <= 3 * den] are tokens of
    [RemiVocab]. *)
Theorem bar_header_in_vocabulary {T} (n : Z) (ts : TimeSignature T)
    (tokens : list string) :
  RemiVocab_tokens = Ok tokens ->
  0 <= n < 512 ->
  In (denominator ts) [2; 4; 8; 16] ->
  1 <= numerator ts <= 3 * denominator ts ->
  Forall (fun e => In (token e) tokens) (bar_header n ts).
Proof.
  intros Htok Hn Hden Hnum.
  unfold Vocabulary.RemiVocab_tokens, get_midi_tokens, get_instrument_tokens
    in Htok.
  destruct (mapM program_to_instrument_name (range 128)) as [names|err]
    eqn:Hnames; [|discriminate Htok].
  cbn [mbind result_bind Py.bind] in Htok. apply Ok_inj in Htok. subst tokens.
  unfold bar_header. repeat (apply Forall_cons; split); [| |constructor];
    rewrite !in_app_iff.
  - left. do 6 right. left. unfold get_bar_tokens.
    exact (numbered_In BAR_KEY MAX_N_BARS n Hn).
  - left. left. unfold get_time_signature_tokens. cbv zeta.
    apply in_map_iff.
    exists (str_of_Z (numerator ts) ++ "/" ++ str_of_Z (denominator ts))%string.
    split; [reflexivity|]. apply in_flat_map. exists (denominator ts).
    split; [exact Hden|]. apply in_map_iff. exists (numerator ts).
    split; [reflexivity|]. apply range_from_In. unfold MAX_BAR_LENGTH. lia.
Qed.

Lemma str_of_Z_inj (a b : Z) : str_of_Z a = str_of_Z b -> a = b.
Proof.
  intros H. apply (f_equal Remi2Midi.py_int) in H.
  rewrite !py_int_str_of_Z in H. injection H as ->. reflexivity.
Qed.

(** X23: the Bar tokens of the vocabulary are those of the numbers 0..511:
    the token ['Bar_k'] is one of [get_bar_tokens] exactly when
    [0 <= k < 512], so that the token [get_remi_events] prints for a 512th
    bar, ['Bar_512'], is not among them. *)
Theorem bar_token_bound (k : Z) :
  In (BAR_KEY ++ "_" ++ str_of_Z k)%string get_bar_tokens <-> 0 <= k < 512.
Proof.
  unfold get_bar_tokens, numbered. rewrite in_map_iff. split.
  - intros (i & Heq & Hi). apply range_In in Hi.
    injection Heq as Heq. apply str_of_Z_inj in Heq. subst i. exact Hi.
  - intros Hk. exists k. split; [reflexivity | apply range_In, Hk].
Qed.

End VocabularyMore.

Section VocabularyExamples.

Import MusicObj Utils ChordExtraction Midi2Remi Vocabulary.

Lemma note_tokens_in_vocabulary_witness :
  exists evs tokens,
    note_events piano_only 480 (position_event 0 0)
      (example_note 0 480 60 (Program 0)) = Ok evs
    /\ RemiVocab_tokens piano_only = Ok tokens
    /\ Forall (fun e => In (token e) tokens) evs.
Proof.
  destruct (note_events piano_only 480 (position_event 0 0)
              (example_note 0 480 60 (Program 0))) as [evs|err] eqn:Hev;
    [|vm_compute in Hev; discriminate Hev].
  destruct (RemiVocab_tokens piano_only) as [tokens|err] eqn:Htok;
    [|vm_compute in Htok; discriminate Htok].
  exists evs, tokens. split; [reflexivity|]. split; [reflexivity|].
  apply (note_tokens_in_vocabulary piano_only 480 0 0
           (example_note 0 480 60 (Program 0)) evs tokens Hev Htok);
    [lia | intros p [= <-]; lia | intros prog [= <-]; lia].
Defined.

Lemma chord_tokens_in_vocabulary_witness :
  In "Chord_C:maj"%string get_chord_tokens.
Proof.
  apply (chord_tokens_in_vocabulary (example_chord 0 1920 "C:maj")).
  split; [reflexivity|]. split; [reflexivity|]. split; [reflexivity|].
  exists "C:maj"%string. split; [reflexivity|]. right.
  exists "C"%string, maj. split; [left; reflexivity | reflexivity].
Defined.

Lemma bar_header_in_vocabulary_witness :
  exists tokens,
    RemiVocab_tokens piano_only = Ok tokens
    /\ Forall (fun e => In (token e) tokens)
         (bar_header 1 (mkTimeSignature 3 4 0)).
Proof.
  destruct (RemiVocab_tokens piano_only) as [tokens|err] eqn:Htok;
    [|vm_compute in Htok; discriminate Htok].
  exists tokens. split; [reflexivity|].
  apply (bar_header_in_vocabulary piano_only 1 (mkTimeSignature 3 4 0) tokens Htok);
    [lia | simpl; auto | simpl; lia].
Defined.

End VocabularyExamples.
